(** * Delaunay triangulation by divide and conquer, and its Voronoi dual

    A shallow embedding of [src/main.ts] (and of the cofactor determinant of
    the older source file) together with the properties of the ring
    structure, the predicates, the builder and the dual constructor.

    Numbers.  A JavaScript [number] is an IEEE 754 double.  The program is
    embedded twice.  The definitions of the first part read a number as an
    exact rational [Q], with the comparisons ([===], [<], [>]) of [Q] up to
    [Qeq]: rounding, [NaN], infinities and the sign of zero are outside this
    reading.  It is the reading for what the program does by comparing,
    copying, sorting and looking up, whatever the predicates answer.  The
    module [Double], after the vocabulary of the specification, is the same
    program on the doubles of the kernel; what depends on the value of a
    determinant is stated and proved there, and the run on doubles is
    related to the run on rationals for the inputs on which no test is
    decided differently by rounding.

    Objects.  A point is a JavaScript object; [===], [!==] and
    [Array.prototype.includes] on points compare object references.  A point
    therefore carries, next to its coordinates, the identity [oid] of the
    object that holds them.

    Angles.  The program uses the value of [Math.atan2] only in comparisons
    ([===], [>] and the sign of a difference inside [sort]).  An angle t in
    (-pi, pi] is represented by its image under the strictly increasing map
    onto (-2, 2] that sends 0, pi/2, pi, -pi/2 to 0, 1, 2, -1 (the "diamond
    angle"); [Math.PI] is represented by [PI = 2].  On doubles [Math.atan2]
    also returns -pi, for a negative zero ordinate; in the module [Double]
    the function is a parameter. *)

From Stdlib Require Import QArith Qpower Qreduction Qfield.
From Stdlib Require Import ZArith List Bool Arith Lia Lqa.
From Stdlib Require Import Sorting.Sorted Sorting.Permutation.
Import ListNotations.

Local Open Scope Q_scope.

(** ** JavaScript values used by the model *)

(** The ways a call can end without a value.  [InsufficientPoints] and
    [MalformedTriangulation] are the two [throw new Error] of the source,
    [TypeError] is a property access on [undefined], and [OutOfFuel] is the
    model's account of a loop or recursion that has not finished within the
    given number of steps. *)
Inductive Error : Type :=
| InsufficientPoints
| MalformedTriangulation
| TypeError
| OutOfFuel.

Inductive Result (A : Type) : Type :=
| Ok (a : A)
| Err (e : Error).
Arguments Ok {A} a.
Arguments Err {A} e.

Definition bind {A B : Type} (r : Result A) (k : A -> Result B) : Result B :=
  match r with
  | Ok a => k a
  | Err e => Err e
  end.

Notation "x <- r ;; k" := (bind r (fun x => k))
  (at level 61, r at next level, right associativity).

Definition Qltb (a b : Q) : bool :=
  match a ?= b with Lt => true | _ => false end.

(** [l[i]] for a JavaScript array: [undefined] outside [0 .. length-1]. *)
Definition at_index {A : Type} (l : list A) (i : Z) : option A :=
  if (i <? 0)%Z then None else nth_error l (Z.to_nat i).

(** [a || b] on values that are objects or [undefined]. *)
Definition or_else {A : Type} (a b : option A) : option A :=
  match a with
  | Some v => Some v
  | None => b
  end.

(** [arr.sort(cmp)] with [cmp = (c, d) => key(c) - key(d)]: a stable sort,
    here by insertion. *)
Section Sort.
Variable A : Type.
Variable key : A -> Q.

Fixpoint insert (a : A) (l : list A) : list A :=
  match l with
  | [] => [a]
  | b :: l' => if Qltb (key a) (key b) then a :: b :: l' else b :: insert a l'
  end.

Definition sort (l : list A) : list A :=
  fold_left (fun acc a => insert a acc) l [].
End Sort.
Arguments insert {A} key a l.
Arguments sort {A} key l.

(** ** Points *)

Record Point : Type := mkPoint { oid : nat; x : Q; y : Q }.

(** [p === q] on point objects. *)
Definition same (p q : Point) : bool := Nat.eqb (oid p) (oid q).

(** The key [`(${p.x},${p.y})`].  The decimal rendering of a number is
    determined by, and determines, its value; the key is modelled by the pair
    of reduced fractions. *)
Definition Key : Type := (Q * Q)%type.

Definition id (p : Point) : Key := (Qred (x p), Qred (y p)).

Definition lt (p q : Point) : bool := Qltb (x p) (x q).

(** [minus] and the other vector operations build a fresh object literal; the
    model takes the identity of the new object as an argument where the
    object can be observed, and uses coordinates only where it cannot. *)
Definition minus (p q : Point) : Q * Q := (x p - x q, y p - y q).

Definition norm2 (p : Point) : Q := x p * x p + y p * y p.

(** ** Determinants *)

Definition Matrix : Type := list (list Q).

(** [M[i][j]]; the default stands for [undefined], which no square matrix
    reaches. *)
Definition entry (M : Matrix) (i j : nat) : Q := nth j (nth i M []) 0.

Module Permutations.

Definition Permutation : Type := list nat.

(** [p.slice(0,i).concat([n], p.slice(i))] *)
Definition insert_at (n i : nat) (p : Permutation) : Permutation :=
  firstn i p ++ n :: skipn i p.

Definition sign_of (n i : nat) (sign_p : Q) : Q :=
  Qpower (-1) (Z.of_nat (n - i + 1)) * sign_p.

(** One round of the two nested loops of [S]. *)
Definition extend (n : nat) (prev : list (Permutation * Q))
  : list (Permutation * Q) :=
  flat_map (fun ps : Permutation * Q =>
              map (fun i => (insert_at n i (fst ps), sign_of n i (snd ps)))
                  (seq 0 n))
           prev.

(** [S(n)], without the cache.  The source does not return for [n < 1];
    the predicates call it with [n] in {3, 4}. *)
Fixpoint S (n : nat) : list (Permutation * Q) :=
  match n with
  | O => []
  | Datatypes.S m =>
      match m with
      | O => [([1%nat], 1)]
      | _ => extend n (S m)
      end
  end.

(** [S(n)] as written, with the module-level table [S_cache] passed in and
    returned.  An entry that is present is returned as it is (an empty list
    is truthy); [S(1)] is never stored. *)
Definition Cache : Type := list (nat * list (Permutation * Q)).

Fixpoint cache_get (c : Cache) (n : nat) : option (list (Permutation * Q)) :=
  match c with
  | [] => None
  | (k, v) :: c' => if Nat.eqb k n then Some v else cache_get c' n
  end.

Fixpoint S_memo (n : nat) (c : Cache) : list (Permutation * Q) * Cache :=
  match cache_get c n with
  | Some v => (v, c)
  | None =>
      match n with
      | O => ([], c)
      | Datatypes.S m =>
          match m with
          | O => ([([1%nat], 1)], c)
          | _ =>
              let '(prev, c1) := S_memo m c in
              let SS := extend n prev in
              (SS, (n, SS) :: c1)
          end
      end
  end.

End Permutations.

(** [det] of [main.ts]: the sum over the permutations of [S(n)]. *)
Definition det (M : Matrix) : Q :=
  let n := length M in
  fold_left
    (fun d (ps : Permutations.Permutation * Q) =>
       d + fold_left (fun x i => x * entry M i (nth i (fst ps) 0%nat - 1))
                     (seq 0 n) (snd ps))
    (Permutations.S n) 0.

(** [det] of the older source file: expansion along the first row. *)
Module Cofactor.

(** [row.slice(0, i).concat(row.slice(i + 1))] *)
Definition drop_col (i : nat) (row : list Q) : list Q :=
  firstn i row ++ skipn (i + 1) row.

(** [1 - (2 * (i % 2))] *)
Definition sign (i : nat) : Q := 1 - 2 * inject_Z (Z.of_nat (i mod 2)).

(** The recursion is on [M.length]; [n] is that length. *)
Fixpoint det_rows (n : nat) (M : Matrix) : Q :=
  match n with
  | O => 1
  | Datatypes.S m =>
      fold_left
        (fun d i =>
           d + sign i * entry M 0 i * det_rows m (map (drop_col i) (tl M)))
        (seq 0 (length M)) 0
  end.

Definition det (M : Matrix) : Q := det_rows (length M) M.

End Cofactor.

(** ** Geometric predicates *)

(** [arr.includes(p)] on an array of point objects. *)
Definition includes (arr : list Point) (p : Point) : bool :=
  existsb (fun a => same a p) arr.

Definition row3 (p : Point) : list Q := [x p; y p; 1].

Definition ccw (p q r : Point) : bool :=
  Qltb 0 (det [row3 p; row3 q; row3 r]).

Definition belowLine (p : Point) (line : Point * Point) : bool :=
  let '(a, b) := line in
  if includes [a; b] p then false
  else
    match sort x [a; b] with
    | [a'; b'] => Qltb (det [row3 a'; row3 b'; row3 p]) 0
    | _ => false
    end.

Definition aboveLine (p : Point) (line : Point * Point) : bool :=
  let '(a, b) := line in
  if includes [a; b] p then false
  else
    match sort x [a; b] with
    | [a'; b'] => Qltb 0 (det [row3 a'; row3 b'; row3 p])
    | _ => false
    end.

Definition row4 (p : Point) : list Q := [x p; y p; norm2 p; 1].

Definition inCircle (p : Point) (tri : Point * Point * Point) : bool :=
  let '(a, b, c) := tri in
  if includes [a; b; c] p then false
  else Qltb 0 (det [row4 a; row4 b; row4 c; row4 p]).

(** [centerOf] returns a new object; [o] is its identity.  The source
    divides by [Mxy], which is zero exactly for collinear arguments; [Q]
    gives 0 there where the source gives an infinity or [NaN]. *)
Definition centerOf (o : nat) (p q r : Point) : Point :=
  let Mxy := det [[x p; y p; 1]; [x q; y q; 1]; [x r; y r; 1]] in
  let Mny := det [[norm2 p; y p; 1]; [norm2 q; y q; 1]; [norm2 r; y r; 1]] in
  let Mnx := det [[norm2 p; x p; 1]; [norm2 q; x q; 1]; [norm2 r; x r; 1]] in
  mkPoint o ((1 # 2) * (Mny / Mxy)) (- (1 # 2) * (Mnx / Mxy)).

(** ** Angles *)

(** The image of [Math.PI]. *)
Definition PI : Q := 2.

(** The image of [Math.atan2(dy, dx)]: 0 on the positive x axis (and at the
    origin, as in JavaScript), increasing counter-clockwise to [PI] on the
    negative x axis, decreasing clockwise towards [-PI]. *)
Definition atan2 (dy dx : Q) : Q :=
  if Qeq_bool dy 0 then (if Qltb dx 0 then PI else 0)
  else if Qltb 0 dy then
    (if Qltb 0 dx then dy / (dx + dy) else 1 + (- dx) / (dy - dx))
  else
    (if Qltb dx 0 then - (2) + (- dy) / (- dx - dy) else - (1) + dx / (dx - dy)).

(** ** Link ring functions *)

Record Link : Type := mkLink { point : Point; angle : Q }.

Record Ring : Type := mkRing { center : Point; links : list Link }.

(** The value of [i] when the [while] loop of [nextConnectionFromAngle]
    ends. *)
Fixpoint scan (a : Q) (direction : Z) (ls : list Link) : nat :=
  match ls with
  | [] => O
  | l :: rest =>
      if Qeq_bool (angle l) a && (direction <=? 0)%Z then O
      else if Qltb a (angle l) then O
      else S (scan a direction rest)
  end.

Definition nextConnectionFromAngle (a : Q) (ring : Ring) (direction : Z)
  : Result Point :=
  let i := Z.of_nat (scan a direction (links ring)) in
  let nextConnection :=
    if (0 <? direction)%Z then
      or_else (at_index (links ring) i) (at_index (links ring) 0)
    else
      or_else (at_index (links ring) (i - 1))
              (at_index (links ring) (Z.of_nat (length (links ring)) - 1))
  in
  match nextConnection with
  | Some l => Ok (point l)
  | None => Err TypeError
  end.

(** The argument [p: number | Point] of [nextConnection]. *)
Inductive Reference : Type :=
| FromAngle (a : Q)
| FromPoint (p : Point).

Definition angle_from (c p : Point) : Q :=
  let D := minus p c in atan2 (snd D) (fst D).

Definition nextConnection (p : Reference) (ring : Ring) (direction : Z)
  : Result Point :=
  match p with
  | FromAngle a => nextConnectionFromAngle a ring direction
  | FromPoint p => nextConnectionFromAngle (angle_from (center ring) p) ring direction
  end.

(** [(aboveLine(q, line) || null) && q] *)
Definition nextConnectionAbove (p : Point) (ring : Ring) (direction : Z)
           (line : Point * Point) : Result (option Point) :=
  q <- nextConnection (FromPoint p) ring direction ;;
  Ok (if aboveLine q line then Some q else None).

(** ** Meshes *)

(** A [Connections] object: its own properties in insertion order (the keys
    are never integer-like, so that is the order of [Object.values]). *)
Definition Connections : Type := list (Key * Ring).

Definition Qeq_strict (a b : Q) : bool :=
  Z.eqb (Qnum a) (Qnum b) && Pos.eqb (Qden a) (Qden b).

Definition key_eqb (k k' : Key) : bool :=
  Qeq_strict (fst k) (fst k') && Qeq_strict (snd k) (snd k').

(** [connections[k]] *)
Fixpoint get (c : Connections) (k : Key) : option Ring :=
  match c with
  | [] => None
  | (k', r) :: c' => if key_eqb k' k then Some r else get c' k
  end.

(** [connections[k] = r]: an existing property keeps its place. *)
Fixpoint set (k : Key) (r : Ring) (c : Connections) : Connections :=
  match c with
  | [] => [(k, r)]
  | (k', r') :: c' =>
      if key_eqb k' k then (k, r) :: c' else (k', r') :: set k r c'
  end.

(** [k in connections] *)
Definition has (c : Connections) (k : Key) : bool :=
  match get c k with Some _ => true | None => false end.

(** A ring read from the map and then used: every use dereferences it at
    once, so a missing ring is a [TypeError]. *)
Definition getRing (c : Connections) (k : Key) : Result Ring :=
  match get c k with
  | Some r => Ok r
  | None => Err TypeError
  end.

Definition emptyConnections (pts : list Point) : Connections :=
  fold_left (fun c pt => set (id pt) (mkRing pt []) c) pts [].

Definition addPoint (p : Point) (c : Connections) : Connections :=
  set (id p) (mkRing p []) c.

Definition getPoints (c : Connections) : list Point :=
  map (fun kr => center (snd kr)) c.

Definition addConnection (p : Point) (ring : Ring) : Ring :=
  mkRing (center ring)
         (sort angle (links ring ++ [mkLink p (angle_from (center ring) p)])).

Definition removeConnection (p : Point) (ring : Ring) : Ring :=
  mkRing (center ring)
         (filter (fun c => negb (same (point c) p)) (links ring)).

(** [connect] and [disconnect] update the map they are given and return
    it.  When the second ring is missing the call throws after the first
    ring has been updated; the result is then the error, and
    [connect_store], further down, is the map that such a call leaves
    behind. *)
Definition connect (p q : Point) (c : Connections) : Result Connections :=
  rp <- getRing c (id p) ;;
  let c1 := set (id p) (addConnection q rp) c in
  rq <- getRing c1 (id q) ;;
  Ok (set (id q) (addConnection p rq) c1).

Definition disconnect (p q : Point) (c : Connections) : Result Connections :=
  rp <- getRing c (id p) ;;
  let c1 := set (id p) (removeConnection q rp) c in
  rq <- getRing c1 (id q) ;;
  Ok (set (id q) (removeConnection p rq) c1).

(** [Object.assign(target, source)] *)
Definition assign (target source : Connections) : Connections :=
  fold_left (fun acc kr => set (fst kr) (snd kr) acc) source target.

Definition mergeConnections (c d : Connections) : Connections :=
  assign (assign [] c) d.

(** ** The dual *)

Definition Triangle : Type := (Point * Point * Point)%type.

Definition rightTriangle (c : Connections) (p q : Point)
  : Result (option Triangle) :=
  rq <- getRing c (id q) ;;
  r <- nextConnection (FromPoint p) rq 1 ;;
  rp <- getRing c (id p) ;;
  r' <- nextConnection (FromPoint q) rp (-1) ;;
  Ok (if negb (same r r') then None else Some (q, p, r)).

Definition randomTriangle (c : Connections) : Result Triangle :=
  match c with
  | [] => Err TypeError
  | (_, ring) :: _ =>
      let p := center ring in
      match links ring with
      | [] => Err TypeError
      | l :: _ =>
          let q := point l in
          T <- rightTriangle c p q ;;
          match T with
          | Some t => Ok t
          | None =>
              T' <- rightTriangle c q p ;;
              match T' with
              | Some t => Ok t
              | None => Err MalformedTriangulation
              end
          end
      end
  end.

(** [xs.map(f)] where [f] may throw. *)
Fixpoint mapR {A B : Type} (f : A -> Result B) (xs : list A) : Result (list B) :=
  match xs with
  | [] => Ok []
  | a :: rest => b <- f a ;; bs <- mapR f rest ;; Ok (b :: bs)
  end.

(** [.filter(T => T !== null)] *)
Fixpoint non_null {A : Type} (xs : list (option A)) : list A :=
  match xs with
  | [] => []
  | Some a :: rest => a :: non_null rest
  | None :: rest => non_null rest
  end.

(** [_dual].  The state carried along is the [faces] map and the identity
    [next] of the next object that [centerOf] creates. *)
Fixpoint _dual (fuel : nat) (connections : Connections) (T : Triangle)
         (st : Connections * nat) : Result (Connections * nat) :=
  match fuel with
  | O => Err OutOfFuel
  | S fuel' =>
      let '(a, b, c) := T in
      let '(faces, next) := st in
      let center := centerOf next a b c in
      if has faces (id center) then Ok (faces, S next)
      else
        let faces := addPoint center faces in
        found <- mapR (fun pair : Point * Point =>
                         rightTriangle connections (fst pair) (snd pair))
                      [(a, b); (b, c); (c, a)] ;;
        let neighbors := non_null found in
        fold_left
          (fun (acc : Result (Connections * nat)) (T' : Triangle) =>
             st' <- acc ;;
             let '(faces, next) := st' in
             let '(t0, t1, t2) := T' in
             let c := centerOf next t0 t1 t2 in
             st'' <- _dual fuel' connections T' (faces, S next) ;;
             faces' <- connect center c (fst st'') ;;
             Ok (faces', snd st''))
          neighbors (Ok (faces, S next))
  end.

(** The first identity not used by an object of the triangulation. *)
Definition fresh (c : Connections) : nat :=
  S (fold_left
       (fun m kr =>
          fold_left (fun m' l => Nat.max m' (oid (point l)))
                    (links (snd kr)) (Nat.max m (oid (center (snd kr)))))
       c O).

Definition dual (fuel : nat) (connections : Connections) : Result Connections :=
  T <- randomTriangle connections ;;
  st <- _dual fuel connections T ([], fresh connections) ;;
  Ok (fst st).

(** ** The main event *)

Definition elem {A : Type} (o : option A) : Result A :=
  match o with
  | Some a => Ok a
  | None => Err TypeError
  end.

(** The [while] loop that finds the lower tangent. *)
Fixpoint lowerTangent (fuel : nat) (connections : Connections)
         (left right nextLeft nextRight : Point) : Result (Point * Point) :=
  if belowLine nextLeft (left, right) || belowLine nextRight (left, right) then
    match fuel with
    | O => Err OutOfFuel
    | S fuel' =>
        if belowLine nextLeft (left, right) then
          ring <- getRing connections (id nextLeft) ;;
          n <- nextConnection (FromPoint left) ring (-1) ;;
          lowerTangent fuel' connections nextLeft right n nextRight
        else
          ring <- getRing connections (id nextRight) ;;
          n <- nextConnection (FromPoint right) ring 1 ;;
          lowerTangent fuel' connections left nextRight nextLeft n
    end
  else Ok (left, right).

(** The two inner [while] loops, which differ in the end [pivot] of the base
    edge whose ring is walked ([left] with direction 1, [right] with
    direction -1). *)
Fixpoint refine (fuel : nat) (connections : Connections) (pivot : Point)
         (direction : Z) (left right candidate : Point)
         (nextCandidate : option Point) : Result (Connections * Point) :=
  match nextCandidate with
  | None => Ok (connections, candidate)
  | Some next =>
      if inCircle next (left, right, candidate) then
        match fuel with
        | O => Err OutOfFuel
        | S fuel' =>
            connections' <- disconnect pivot candidate connections ;;
            ring <- getRing connections' (id pivot) ;;
            nextCandidate' <-
              nextConnectionAbove next ring direction (left, right) ;;
            refine fuel' connections' pivot direction left right next
                   nextCandidate'
        end
      else Ok (connections, candidate)
  end.

(** [let candidate = nextConnectionAbove(...); if (candidate) { ... }] *)
Definition findCandidate (fuel : nat) (connections : Connections)
           (pivot other : Point) (direction : Z) (left right : Point)
  : Result (Connections * option Point) :=
  ring <- getRing connections (id pivot) ;;
  candidate <- nextConnectionAbove other ring direction (left, right) ;;
  match candidate with
  | None => Ok (connections, None)
  | Some cand =>
      nextCandidate <- nextConnectionAbove cand ring direction (left, right) ;;
      r <- refine fuel connections pivot direction left right cand nextCandidate ;;
      Ok (fst r, Some (snd r))
  end.

(** The [while (left && right)] loop. *)
Fixpoint mergeLoop (fuel : nat) (connections : Connections)
         (left right : Point) : Result Connections :=
  match fuel with
  | O => Err OutOfFuel
  | S fuel' =>
      l <- findCandidate fuel' connections left right 1 left right ;;
      let '(connections, leftCandidate) := l in
      r <- findCandidate fuel' connections right left (-1) left right ;;
      let '(connections, rightCandidate) := r in
      match leftCandidate, rightCandidate with
      | None, None => Ok connections
      | _, _ =>
          let '(leftCandidate, rightCandidate) :=
            match leftCandidate, rightCandidate with
            | Some lc, Some rc =>
                if inCircle rc (lc, left, right) then (None, Some rc)
                else (Some lc, None)
            | _, _ => (leftCandidate, rightCandidate)
            end in
          let left := match leftCandidate with Some lc => lc | None => left end in
          let right := match rightCandidate with Some rc => rc | None => right end in
          connections <- connect left right connections ;;
          mergeLoop fuel' connections left right
      end
  end.

(** The text of [delaunay] after the two recursive calls: the union of the
    two maps, the lower tangent, and the edges across. *)
Definition mergeHalves (fuel : nat) (leftPts rightPts : list Point)
           (leftConnections rightConnections : Connections)
  : Result Connections :=
  let connections := mergeConnections leftConnections rightConnections in
  left <- elem (at_index leftPts (Z.of_nat (length leftPts) - 1)) ;;
  right <- elem (at_index rightPts 0) ;;
  ringL <- getRing connections (id left) ;;
  nextLeft <- nextConnection (FromAngle 0) ringL (-1) ;;
  ringR <- getRing connections (id right) ;;
  nextRight <- nextConnection (FromAngle (- PI)) ringR 1 ;;
  lr <- lowerTangent fuel connections left right nextLeft nextRight ;;
  let left := fst lr in
  let right := snd lr in
  connections <- connect left right connections ;;
  mergeLoop fuel connections left right.

(** [delaunay(pts)].  The first component is the content of the array [pts]
    when the call ends ([pts.sort] sorts the caller's array in place; the
    recursive calls get the fresh arrays made by [slice]); the second is the
    outcome. *)
Fixpoint delaunay (fuel : nat) (pts : list Point)
  : list Point * Result Connections :=
  if (length pts <? 2)%nat then (pts, Err InsufficientPoints)
  else
    let pts := sort x pts in
    (pts,
     match pts with
     | [p; q] =>
         let connections := emptyConnections pts in
         connect p q connections
     | [p; q; r] =>
         let connections := emptyConnections pts in
         connections <- connect p q connections ;;
         connections <- connect q r connections ;;
         connect r p connections
     | _ =>
         match fuel with
         | O => Err OutOfFuel
         | S fuel' =>
             let mid := (length pts / 2)%nat in
             let leftPts := firstn mid pts in
             let rightPts := skipn mid pts in
             leftConnections <- snd (delaunay fuel' leftPts) ;;
             rightConnections <- snd (delaunay fuel' rightPts) ;;
             mergeHalves fuel' leftPts rightPts leftConnections rightConnections
         end
     end).

(** * Specification vocabulary *)

(** ** Points and general position *)

(** Equality of points by value. *)
Definition coincide (p q : Point) : Prop := x p == x q /\ y p == y q.

Fixpoint pairs_ok (P : Point -> Point -> bool) (l : list Point) : bool :=
  match l with
  | [] => true
  | a :: r => forallb (P a) r && pairs_ok P r
  end.

Fixpoint triples_ok (P : Point -> Point -> Point -> bool) (l : list Point)
  : bool :=
  match l with
  | [] => true
  | a :: r => pairs_ok (P a) r && triples_ok P r
  end.

Fixpoint quads_ok (P : Point -> Point -> Point -> Point -> bool)
         (l : list Point) : bool :=
  match l with
  | [] => true
  | a :: r => triples_ok (P a) r && quads_ok P r
  end.

(** No two points on a vertical line, no three on a line, no four on a
    circle. *)
Definition general_position (pts : list Point) : bool :=
  pairs_ok (fun a b => negb (Qeq_bool (x a) (x b))) pts
  && triples_ok
       (fun a b c => negb (Qeq_bool (det [row3 a; row3 b; row3 c]) 0)) pts
  && quads_ok
       (fun a b c d =>
          negb (Qeq_bool (det [row4 a; row4 b; row4 c; row4 d]) 0)) pts.

(** The slots of the array hold pairwise different objects. *)
Definition distinct_objects (pts : list Point) : bool :=
  pairs_ok (fun a b => negb (same a b)) pts.

(** ** The determinant of the textbook *)

Fixpoint insert_everywhere (a : nat) (l : list nat) : list (list nat) :=
  match l with
  | [] => [[a]]
  | b :: r => (a :: l) :: map (cons b) (insert_everywhere a r)
  end.

Fixpoint perms (l : list nat) : list (list nat) :=
  match l with
  | [] => [[]]
  | a :: r => flat_map (insert_everywhere a) (perms r)
  end.

Fixpoint inversions (s : list nat) : nat :=
  match s with
  | [] => O
  | a :: r => (length (filter (fun b => b <? a)%nat r) + inversions r)%nat
  end.

Definition sgn (s : list nat) : Q :=
  if Nat.even (inversions s) then 1 else - (1).

Definition Qsum (l : list Q) : Q := fold_right Qplus 0 l.

Definition Qprod (l : list Q) : Q := fold_right Qmult 1 l.

(** The Leibniz formula: the sum, over the permutations s of 0 .. n-1, of
    sgn(s) times the product of the entries M[i][s(i)]. *)
Definition determinant (n : nat) (M : Matrix) : Q :=
  Qsum (map (fun s => sgn s * Qprod (map (fun i => entry M i (nth i s O))
                                         (seq 0 n)))
            (perms (seq 0 n))).

Definition square (n : nat) (M : Matrix) : Prop :=
  length M = n /\ Forall (fun row => length row = n) M.

(** The sign tests of the predicates, on the line through [a] and [b] taken
    from its left end to its right end. *)
Definition orientation (a b c : Point) : Q := det [row3 a; row3 b; row3 c].

Definition canonical (a b : Point) : Point * Point :=
  if Qltb (x b) (x a) then (b, a) else (a, b).

Definition lifted (a b c p : Point) : Q :=
  det [row4 a; row4 b; row4 c; row4 p].

(** ** Rings and adjacency maps *)

(** [p]'s ring holds a link to [q]. *)
Definition linked (c : Connections) (p q : Point) : Prop :=
  exists r l, get c (id p) = Some r /\ In l (links r) /\ id (point l) = id q.

Definition symmetric (c : Connections) : Prop :=
  forall p q, linked c p q -> linked c q p.

(** [p] is the object that the links of the map use for the point with the
    coordinates of [p]. *)
Definition held (c : Connections) (p : Point) : Prop :=
  forall k r l, get c k = Some r -> In l (links r) ->
                (oid (point l) = oid p <-> id (point l) = id p).

Definition sorted_links (ls : list Link) : Prop :=
  StronglySorted (fun a b => angle a <= angle b) ls.

Definition sorted_ring (r : Ring) : Prop := sorted_links (links r).

Definition angles_ok (r : Ring) : Prop :=
  Forall (fun l => angle l = angle_from (center r) (point l)) (links r).

Definition in_range (r : Ring) : Prop :=
  Forall (fun l => - PI < angle l /\ angle l <= PI) (links r).

Definition unique_targets (r : Ring) : Prop :=
  NoDup (map (fun l => id (point l)) (links r)).

Definition each_ring (P : Ring -> Prop) (c : Connections) : Prop :=
  forall k r, get c k = Some r -> P r.

Definition well_formed (r : Ring) : Prop :=
  sorted_ring r /\ angles_ok r /\ in_range r /\ unique_targets r.

(** ** Ring lookups *)

(** [t] is the target of a link of least angle among those strictly after
    [a]; of the first link when there is none. *)
Definition next_after (a : Q) (ls : list Link) (t : Point) : Prop :=
  (exists l, In l ls /\ point l = t /\ a < angle l /\
             forall l', In l' ls -> a < angle l' -> angle l <= angle l')
  \/ ((forall l', In l' ls -> ~ a < angle l') /\
      exists l, hd_error ls = Some l /\ point l = t).

(** [t] is the target of a link of greatest angle among those strictly
    before [a]; of the last link when there is none. *)
Definition next_before (a : Q) (ls : list Link) (t : Point) : Prop :=
  (exists l, In l ls /\ point l = t /\ angle l < a /\
             forall l', In l' ls -> angle l' < a -> angle l' <= angle l)
  \/ ((forall l', In l' ls -> ~ angle l' < a) /\
      exists l, hd_error (rev ls) = Some l /\ point l = t).

(** The links that the scan passes: those before [a], and those at [a] when
    the direction is positive. *)
Definition passed (a : Q) (direction : Z) (l : Link) : Prop :=
  angle l < a \/ (angle l == a /\ (0 < direction)%Z).

(** ** The permutation table *)

Definition cache_ok (c : Permutations.Cache) : Prop :=
  forall n v, Permutations.cache_get c n = Some v -> v = Permutations.S n.

(** ** Reading the two halves of [connect] and [disconnect] *)

(** [connections[k] = f(connections[k])] *)
Definition update (k : Key) (f : Ring -> Ring) (c : Connections)
  : Result Connections :=
  r <- getRing c k ;; Ok (set k (f r) c).

Definition keys (c : Connections) : list Key := map fst c.

(** The ring stored under [k] holds the link [l]. *)
Definition has_link (c : Connections) (k : Key) (l : Link) : Prop :=
  exists r, get c k = Some r /\ In l (links r).

(** ** The invariant of the builder *)

(** The points of [U] are distinct objects with distinct keys. *)
Definition coherent (U : list Point) : Prop :=
  forall a b, In a U -> In b U -> (oid a = oid b \/ id a = id b) -> a = b.

(** Every key is the key of a point of [U]. *)
Definition keyed (U : list Point) (c : Connections) : Prop :=
  forall k, In k (keys c) -> In k (map id U).

(** Every link leads to a point of [U]. *)
Definition closed (U : list Point) (c : Connections) : Prop :=
  forall k l, has_link c k l -> In (point l) U.

Definition ring_ok (r : Ring) : Prop :=
  sorted_ring r /\ angles_ok r /\ in_range r.

Definition Inv (U : list Point) (c : Connections) : Prop :=
  NoDup (keys c) /\ keyed U c /\ closed U c /\ symmetric c /\
  each_ring ring_ok c.

(** ** Sample inputs *)

Definition pt (o : nat) (px py : Z) : Point :=
  mkPoint o (inject_Z px) (inject_Z py).

(** The triangle (0,0), (1,0), (0,1), in this order. *)
Definition triangle_input : list Point := [pt 0 0 0; pt 1 1 0; pt 2 0 1].

(** Five points in general position. *)
Definition sample : list Point :=
  [pt 0 0 0; pt 1 3 1; pt 2 1 4; pt 3 5 2; pt 4 7 7].

Definition value_of (r : Result Connections) : Connections :=
  match r with
  | Ok c => c
  | Err _ => []
  end.

Definition sample_result : Connections := value_of (snd (delaunay 5 sample)).

Definition triangle_result : Connections :=
  value_of (snd (delaunay 0 triangle_input)).

(** A map of two points joined by one edge. *)
Definition one_edge : Connections :=
  value_of (connect (pt 0 0 0) (pt 1 1 0) (emptyConnections [pt 0 0 0; pt 1 1 0])).

(** A ring with three links, at angles -1/2, 1/2 and 3/2. *)
Definition sample_ring : Ring :=
  mkRing (pt 0 0 0)
         [mkLink (pt 1 1 (-1)) (- (1 # 2)); mkLink (pt 2 1 1) (1 # 2);
          mkLink (pt 3 (-1) 1) (3 # 2)].

(** Links held by a map, and a check, entry by entry, that the links use the
    object [p] for its point. *)
Definition link_count (c : Connections) : nat :=
  fold_right (fun kr n => (length (links (snd kr)) + n)%nat) O c.

Definition heldb (c : Connections) (p : Point) : bool :=
  forallb (fun kr =>
             forallb (fun l => Bool.eqb (same (point l) p)
                                        (key_eqb (id (point l)) (id p)))
                     (links (snd kr)))
          c.

(** A result other than InsufficientPoints. *)
Definition enough {A : Type} (r : Result A) : Prop := r <> Err InsufficientPoints.

(** ** The edges across a merge *)

(** The height at which the line through [a] and [b] meets the vertical line
    of abscissa [m]. *)
Definition height (m : Q) (a b : Point) : Q :=
  (y a * (x b - m) + y b * (m - x a)) / (x b - x a).

(** [m] separates the left half from the right half. *)
Definition separates (m : Q) (L R : list Point) : Prop :=
  (forall p, In p L -> x p < m) /\ (forall p, In p R -> m < x p).

(** No edge between the halves meets the separating line above the base
    edge. *)
Definition crossings_below (m : Q) (L R : list Point) (c : Connections)
           (left right : Point) : Prop :=
  forall a b, In a L -> In b R -> linked c a b ->
              height m a b <= height m left right.

(** No edge between the halves. *)
Definition apart (L R : list Point) (c : Connections) : Prop :=
  forall a b, In a L -> In b R -> ~ linked c a b.

Definition ring_fine (r : Ring) : Prop := ring_ok r /\ unique_targets r.

(** No two points of the list have the same abscissa. *)
Definition x_distinct (pts : list Point) : Prop :=
  forall a b, In a pts -> In b pts -> x a == x b -> a = b.

(** ** Turns *)

(** The vector from [v] to [z], and the cross product of two vectors
    (dx, dy). *)
Definition vec (v z : Point) : Q * Q := minus z v.

Definition cross (u w : Q * Q) : Q := fst u * snd w - snd u * fst w.

(** The angle of a vector. *)
Definition angle_of (u : Q * Q) : Q := atan2 (snd u) (fst u).

Definition nonzero (u : Q * Q) : Prop := ~ (fst u == 0 /\ snd u == 0).

(** The counter-clockwise turn that takes the angle [a] to the angle [b], as
    a number in (0, 4]: 4 is a full turn, 2 a half turn. *)
Definition ccw_turn (a b : Q) : Q := if Qltb a b then b - a else b - a + 4.

(** The four kinds of direction: strictly upwards, along the positive x
    axis, strictly downwards, along the negative x axis; with the angle of
    the direction and of its opposite. *)
Inductive Kind (u : Q * Q) : Prop :=
| Up : 0 < snd u -> 0 < angle_of u -> angle_of u < 2 ->
       angle_of (- fst u, - snd u) == angle_of u - 2 -> Kind u
| East : snd u == 0 -> 0 < fst u -> angle_of u == 0 ->
         angle_of (- fst u, - snd u) == 2 -> Kind u
| Down : snd u < 0 -> - (2) < angle_of u -> angle_of u < 0 ->
         angle_of (- fst u, - snd u) == angle_of u + 2 -> Kind u
| West : snd u == 0 -> fst u < 0 -> angle_of u == 2 ->
         angle_of (- fst u, - snd u) == 0 -> Kind u.

(** An angle in the range of [atan2]. *)
Definition in_turn (a : Q) : Prop := - (2) < a /\ a <= 2.

(** ** The lower hull *)

(** No three points of [U] on a line. *)
Definition no_collinear (U : list Point) : Prop :=
  forall a b c, In a U -> In b U -> In c U ->
                a <> b -> b <> c -> a <> c -> ~ orientation a b c == 0.

(** [a], [b] is an edge of the lower hull of [U], from left to right: every
    other point of [U] is strictly above the line through them. *)
Definition lower_edge (U : list Point) (a b : Point) : Prop :=
  In a U /\ In b U /\ x a < x b /\
  forall z, In z U -> z <> a -> z <> b -> 0 < orientation a b z.

(** Every edge of the lower hull is in the map. *)
Definition hull_linked (U : list Point) (c : Connections) : Prop :=
  forall a b, lower_edge U a b -> linked c a b.

(** Every point has a ring, the ring of a point has that point (by value)
    as its center, and no ring holds a link to its own center. *)
Definition complete (U : list Point) (c : Connections) : Prop :=
  forall p, In p U -> exists r, get c (id p) = Some r.

Definition centered (c : Connections) : Prop :=
  forall k r, get c k = Some r -> id (center r) = k.

Definition irreflexive (c : Connections) : Prop :=
  forall p, ~ linked c p p.

(** The three together. *)
Definition tidy (U : list Point) (c : Connections) : Prop :=
  complete U c /\ centered c /\ irreflexive c.

(** What [delaunay] is shown to return: the invariant of the builder, one
    link per target, and every edge of the lower hull. *)
Definition good (U : list Point) (c : Connections) : Prop :=
  Inv U c /\ each_ring unique_targets c /\ tidy U c /\ hull_linked U c.

(** The angle that a lookup in the ring of [v] starts from. *)
Definition ref_angle (v : Point) (ref : Reference) : Q :=
  match ref with
  | FromAngle a => a
  | FromPoint s => angle_from v s
  end.

(** ** The search for the lower tangent *)

(** The number of pairs of a point on the left and a point on the right
    whose line meets the separating line below the height [h]; above it. *)
Definition below_count (m : Q) (L R : list Point) (h : Q) : nat :=
  length (filter (fun ab => Qltb (height m (fst ab) (snd ab)) h)
                 (list_prod L R)).

Definition above_count (m : Q) (L R : list Point) (h : Q) : nat :=
  length (filter (fun ab => Qltb h (height m (fst ab) (snd ab)))
                 (list_prod L R)).

(** What holds each time the loop tests its condition: the two ends are
    vertices of the two lower hulls, with the part of each hull between the
    ends above the line through them, and [nextLeft], [nextRight] are the
    vertices that come next. *)
Definition tangent_state (L R : list Point) (c : Connections)
           (left right nextLeft nextRight : Point) : Prop :=
  In left L /\ In right R /\ In nextLeft L /\ In nextRight R /\
  linked c left nextLeft /\ linked c right nextRight /\
  (forall z, In z L -> x left < x z -> 0 < orientation left right z) /\
  (forall z, In z R -> x z < x right -> 0 < orientation left right z) /\
  ((forall z, In z L -> x left <= x z) \/ lower_edge L nextLeft left) /\
  ((forall z, In z R -> x z <= x right) \/ lower_edge R right nextRight).

(** ** The two candidate searches *)

(** The search on the left ([true]) walks the ring of [left] in direction 1,
    starting from [right]; the search on the right walks the ring of
    [right] in direction -1, starting from [left]. *)
Definition direction (s : bool) : Z := if s then 1%Z else (-1)%Z.

Definition pivot_of (s : bool) (left right : Point) : Point :=
  if s then left else right.

Definition other_of (s : bool) (left right : Point) : Point :=
  if s then right else left.

(** What holds each time the loop that fills the edges across starts an
    iteration. *)
Definition fill_state (m : Q) (L R : list Point) (c : Connections)
           (left right : Point) : Prop :=
  Inv (L ++ R) c /\ each_ring unique_targets c /\ tidy (L ++ R) c /\
  hull_linked (L ++ R) c /\ crossings_below m L R c left right /\
  In left L /\ In right R /\ linked c left right.

(** ** Vocabulary of the further properties *)

(** [removeConnection(p, ring)] keeps every link of [ring]: none has the
    object [p] as its point. *)
Definition no_link_to (p : Point) (ring : Ring) : bool :=
  forallb (fun c => negb (same (point c) p)) (links ring).

(** No two links of the ring have the same angle. *)
Definition distinct_angles (r : Ring) : Prop :=
  forall l l', In l (links r) -> In l' (links r) -> angle l == angle l' ->
               l = l'.

(** The keys of a map with the centers stored under them, in their
    order. *)
Definition frame (c : Connections) : list (Key * Point) :=
  map (fun kr => (fst kr, center (snd kr))) c.

(** The sign [(-1)^k]. *)
Definition alt (k : nat) : Q := if Nat.even k then 1 else - (1).

(** The sum of [f] over a list. *)
Definition sum_over {A : Type} (f : A -> Q) (l : list A) : Q :=
  fold_right (fun a s => f a + s) 0 l.

(** The list without its element of index [i]. *)
Definition remove_row {A : Type} (i : nat) (l : list A) : list A :=
  firstn i l ++ skipn (S i) l.

(** The matrix without its row [i] and its last column. *)
Definition minor_last (i : nat) (M : Matrix) : Matrix :=
  map (@removelast Q) (remove_row i M).

(** The product of the entries that a permutation selects: row by row, the
    entry in the column that the permutation gives (columns count from 1). *)
Fixpoint zipprod (M : Matrix) (p : list nat) : Q :=
  match M, p with
  | r :: M', c :: p' => nth (c - 1) r 0 * zipprod M' p'
  | _, _ => 1
  end.

(** The third point of the triangle is the point of a link in the ring of
    the first and, as an object, of a link in the ring of the second. *)
Definition triangle_in (c : Connections) (T : Triangle) : Prop :=
  let '(t0, t1, t2) := T in
  (exists l, has_link c (id t0) l /\ point l = t2) /\
  (exists l, has_link c (id t1) l /\ oid (point l) = oid t2).

(** The point is stored under its own key and is the center that [centerOf]
    computes for such a triangle. *)
Definition circumcenter_in (c : Connections) (kv : Key * Point) : Prop :=
  fst kv = id (snd kv) /\
  exists o t0 t1 t2,
    triangle_in c (t0, t1, t2) /\ snd kv = centerOf o t0 t1 t2.

(** ** Rendering *)

From Stdlib Require String.

(** What [render] does to the canvas context: the assignments to its two
    style properties and the calls of its path methods, in their order. *)
Inductive Command : Type :=
| StrokeStyle (color : String.string)
| FillStyle (color : String.string)
| BeginPath
| MoveTo (px py : Q)
| LineTo (px py : Q)
| Stroke.

(** The argument [colors]: an object from keys to strings. *)
Definition Colors : Type := Key -> option String.string.

(** [drawEdge]; [WIDTH] and [HEIGHT] are the module's variables, read at the
    call. *)
Definition drawEdge (WIDTH HEIGHT : Q) (p q : Point) : list Command :=
  [BeginPath;
   MoveTo (x p * WIDTH) ((1 - y p) * HEIGHT);
   LineTo (x q * WIDTH) ((1 - y q) * HEIGHT);
   Stroke].

(** The inner loop of [render], over the links of the ring of [p]. *)
Definition draw_links (WIDTH HEIGHT : Q) (p : Point) (ls : list Link)
  : list Command :=
  flat_map (fun link =>
              if lt (point link) p then drawEdge WIDTH HEIGHT (point link) p
              else [])
           ls.

(** The outer loop of [render], over the points.  [colors[id(p)]] is used
    when it is truthy: a string that is not empty.  A point whose key has no
    ring ends the run with a TypeError. *)
Fixpoint render_points (WIDTH HEIGHT : Q) (connections : Connections)
         (color : String.string) (colors : Colors) (pts : list Point)
  : list Command * option Error :=
  match pts with
  | [] => ([], None)
  | p :: rest =>
      let fill :=
        match colors (id p) with
        | Some String.EmptyString | None => []
        | Some s => [FillStyle s]
        end ++ [FillStyle color] in
      match get connections (id p) with
      | None => (fill, Some TypeError)
      | Some ring =>
          let '(t, e) :=
            render_points WIDTH HEIGHT connections color colors rest in
          (fill ++ draw_links WIDTH HEIGHT p (links ring) ++ t, e)
      end
  end.

(** [render]: the commands issued, and the error that ended the run, if
    any. *)
Definition render (WIDTH HEIGHT : Q) (connections : Connections)
           (color : String.string) (colors : Colors)
  : list Command * option Error :=
  let '(t, e) :=
    render_points WIDTH HEIGHT connections color colors
                  (getPoints connections) in
  (StrokeStyle color :: FillStyle color :: t, e).

(** The commands that make paths. *)
Definition is_path (cmd : Command) : bool :=
  match cmd with
  | StrokeStyle _ | FillStyle _ => false
  | _ => true
  end.

Definition paths (t : list Command) : list Command := filter is_path t.

(** Every ring is the one found under the key of its center. *)
Definition stored (c : Connections) : Prop :=
  Forall (fun kr => get c (id (center (snd kr))) = Some (snd kr)) c.

(** The links that lead to a point strictly to the left of the center of
    their ring, as pairs of the point and the center, ring by ring in the
    order of the map and link by link in the order of the ring. *)
Definition leftward (c : Connections) : list (Point * Point) :=
  flat_map (fun kr =>
              map (fun l => (point l, center (snd kr)))
                  (filter (fun l => lt (point l) (center (snd kr)))
                          (links (snd kr))))
           c.

(** The number of pairs of [leftward] that have the coordinates of [a] and
    of [b]. *)
Definition drawn (c : Connections) (a b : Point) : nat :=
  length (filter (fun e => key_eqb (id (fst e)) (id a) &&
                           key_eqb (id (snd e)) (id b))
                 (leftward c)).

(** The colors that [update] passes to [render], and its default. *)
Module Palette.
Import String.
Definition red : string := "red"%string.
Definition blue : string := "blue"%string.
Definition green : string := "green"%string.
End Palette.

(** Every link leads to the coordinates of a point that has a ring. *)
Definition key_closed (c : Connections) : Prop :=
  forall k l, has_link c k l -> In (id (point l)) (keys c).

(** An adjacency map on its own points: symmetric, every ring stored under
    the key of its center, and every link leading to a point of the map. *)
Definition graph (c : Connections) : Prop :=
  symmetric c /\ centered c /\ key_closed c.

(** Every angle is in the range of atan2, from -pi to pi, the two ends
    included. *)
Definition within_range (r : Ring) : Prop :=
  Forall (fun l => - PI <= angle l /\ angle l <= PI) (links r).

(** A ring sorted by angle, each angle being the one from the center to the
    point of the link. *)
Definition ring_shape (r : Ring) : Prop :=
  sorted_ring r /\ angles_ok r /\ within_range r.

(** The map that a call of [connect] leaves behind, whether the call
    returns or throws.  [addConnection] pushes the link into the ring it is
    given and sorts it in place, so the ring of [p] has its new link when
    the ring of [q] is looked up; a ring that is missing makes
    [addConnection] throw before it changes anything. *)
Definition connect_store (p q : Point) (c : Connections) : Connections :=
  match get c (id p) with
  | None => c
  | Some rp =>
      let c1 := set (id p) (addConnection q rp) c in
      match get c1 (id q) with
      | None => c1
      | Some rq => set (id q) (addConnection p rq) c1
      end
  end.

(** The call does not end with the error [e]. *)
Definition avoids {A : Type} (e : Error) (r : Result A) : Prop := r <> Err e.

(** * The program on doubles

    The definitions above read a JavaScript [number] as an exact rational.
    That reading is right for everything the program does by comparing,
    copying and looking up.  What the program computes by multiplying,
    adding and dividing is rounded at every step, and the signs that the
    predicates test are the signs of rounded determinants.  The module
    [Double] is the same program on binary64 numbers, the [float] of the
    kernel: [+], [-], [*], [/], [<], [>] and [===] are the operations of
    IEEE 754, infinities, NaN and the two zeros included.  A run on doubles
    in which every test comes out as on the rationals ([faithful], below)
    is, step by step, the run on rationals.

    [Math.atan2] is a function of the JavaScript library; the module takes it
    as an argument, and what is proved holds for every function in its
    place. *)

From Stdlib Require Floats.

Module Double.

Import PrimFloat.
Import FloatOps.
Import SpecFloat.
#[local] Set Warnings "-inexact-float".

(** ** Numbers *)

(** [a === b] on numbers is [eqb].  Two numbers have the same rendering in
    a template string when they are equal, or are both NaN (the two zeros
    are both rendered as 0). *)
Definition same_text (a b : float) : bool :=
  eqb a b || (is_nan a && is_nan b).

(** [Math.PI] *)
Definition PI : float := 0x1.921fb54442d18p+1%float.

(** [(-1)**k] for a natural number [k]. *)
Definition pow_minus_one (k : nat) : float :=
  if Nat.even k then 1%float else (-1)%float.

(** [arr.sort(cmp)] with a comparator that returns a number: a stable
    sort, here by insertion; an element goes before the first one it
    compares negative with. *)
Section Sort.
Variable A : Type.
Variable cmp : A -> A -> float.

Fixpoint insert (a : A) (l : list A) : list A :=
  match l with
  | [] => [a]
  | b :: l' => if ltb (cmp a b) 0 then a :: b :: l' else b :: insert a l'
  end.

Definition sort (l : list A) : list A :=
  fold_left (fun acc a => insert a acc) l [].
End Sort.
Arguments insert {A} cmp a l.
Arguments sort {A} cmp l.

(** ** Points *)

Record Point : Type := mkPoint { oid : nat; x : float; y : float }.

Definition same (p q : Point) : bool := Nat.eqb (oid p) (oid q).

Definition Key : Type := (float * float)%type.

Definition id (p : Point) : Key := (x p, y p).

Definition key_eqb (k k' : Key) : bool :=
  same_text (fst k) (fst k') && same_text (snd k) (snd k').

Definition lt (p q : Point) : bool := ltb (x p) (x q).

Definition minus (p q : Point) : float * float :=
  (sub (x p) (x q), sub (y p) (y q)).

Definition norm2 (p : Point) : float :=
  add (mul (x p) (x p)) (mul (y p) (y p)).

(** [(p, q) => p.x - q.x] *)
Definition by_x (p q : Point) : float := sub (x p) (x q).

(** ** Determinants *)

Definition Matrix : Type := list (list float).

(** [M[i][j]] for a row index below [M.length]; an entry missing from its
    row is [undefined], which arithmetic reads as NaN. *)
Definition entry (M : Matrix) (i j : nat) : float := nth j (nth i M []) nan.

Module Permutations.

(** [p.slice(0,i).concat([n], p.slice(i))] *)
Definition insert_at (n i : nat) (p : list nat) : list nat :=
  firstn i p ++ n :: skipn i p.

(** [(-1)**(n - i + 1) * sign_p] *)
Definition sign_of (n i : nat) (sign_p : float) : float :=
  mul (pow_minus_one (n - i + 1)) sign_p.

Definition extend (n : nat) (prev : list (list nat * float))
  : list (list nat * float) :=
  flat_map (fun ps : list nat * float =>
              map (fun i => (insert_at n i (fst ps), sign_of n i (snd ps)))
                  (seq 0 n))
           prev.

(** [S(n)]: the table does not depend on the cache, as shown for the
    table on rationals. *)
Fixpoint S (n : nat) : list (list nat * float) :=
  match n with
  | O => []
  | Datatypes.S m =>
      match m with
      | O => [([1%nat], 1%float)]
      | _ => extend n (S m)
      end
  end.

End Permutations.

(** [det] of [main.ts]: [d += x] over the table, [x] being the sign
    multiplied in turn by the entries [M[i][p[i] - 1]]. *)
Definition det (M : Matrix) : float :=
  let n := length M in
  fold_left
    (fun d (ps : list nat * float) =>
       add d (fold_left (fun x i => mul x (entry M i (nth i (fst ps) 0%nat - 1)))
                        (seq 0 n) (snd ps)))
    (Permutations.S n) 0%float.

(** [det] of the older source file: [d += sign * M[0][i] * det(minor)]
    along the first row, 1 for the empty matrix. *)
Module Cofactor.

Definition drop_col (i : nat) (row : list float) : list float :=
  firstn i row ++ skipn (i + 1) row.

(** [1 - (2 * (i % 2))] *)
Definition sign (i : nat) : float :=
  sub 1 (mul 2 (if Nat.even i then 0 else 1))%float.

Fixpoint det_rows (n : nat) (M : Matrix) : float :=
  match n with
  | O => 1%float
  | Datatypes.S m =>
      fold_left
        (fun d i =>
           add d (mul (mul (sign i) (entry M 0 i))
                      (det_rows m (map (drop_col i) (tl M)))))
        (seq 0 (length M)) 0%float
  end.

Definition det (M : Matrix) : float := det_rows (length M) M.

End Cofactor.

(** ** Geometric predicates *)

(** [arr.includes(p)] on an array of point objects. *)
Definition includes (arr : list Point) (p : Point) : bool :=
  existsb (fun a => same a p) arr.

Definition row3 (p : Point) : list float := [x p; y p; 1%float].

Definition ccw (p q r : Point) : bool :=
  ltb 0 (det [row3 p; row3 q; row3 r]).

Definition belowLine (p : Point) (line : Point * Point) : bool :=
  let '(a, b) := line in
  if includes [a; b] p then false
  else
    match sort by_x [a; b] with
    | [a'; b'] => ltb (det [row3 a'; row3 b'; row3 p]) 0
    | _ => false
    end.

Definition aboveLine (p : Point) (line : Point * Point) : bool :=
  let '(a, b) := line in
  if includes [a; b] p then false
  else
    match sort by_x [a; b] with
    | [a'; b'] => ltb 0 (det [row3 a'; row3 b'; row3 p])
    | _ => false
    end.

Definition row4 (p : Point) : list float := [x p; y p; norm2 p; 1%float].

Definition inCircle (p : Point) (tri : Point * Point * Point) : bool :=
  let '(a, b, c) := tri in
  if includes [a; b; c] p then false
  else ltb 0 (det [row4 a; row4 b; row4 c; row4 p]).

(** [centerOf]; the division by a zero [Mxy] gives an infinity or NaN. *)
Definition centerOf (o : nat) (p q r : Point) : Point :=
  let Mxy := det [[x p; y p; 1]; [x q; y q; 1]; [x r; y r; 1]]%float in
  let Mny :=
    det [[norm2 p; y p; 1]; [norm2 q; y q; 1]; [norm2 r; y r; 1]]%float in
  let Mnx :=
    det [[norm2 p; x p; 1]; [norm2 q; x q; 1]; [norm2 r; x r; 1]]%float in
  mkPoint o (mul 0.5 (div Mny Mxy)) (mul (-0.5) (div Mnx Mxy)).

(** ** Link ring functions *)

Record Link : Type := mkLink { point : Point; angle : float }.

Record Ring : Type := mkRing { center : Point; links : list Link }.

(** The value of [i] when the [while] loop of [nextConnectionFromAngle]
    ends. *)
Fixpoint scan (a : float) (direction : Z) (ls : list Link) : nat :=
  match ls with
  | [] => O
  | l :: rest =>
      if eqb (angle l) a && (direction <=? 0)%Z then O
      else if ltb a (angle l) then O
      else Datatypes.S (scan a direction rest)
  end.

Definition nextConnectionFromAngle (a : float) (ring : Ring) (direction : Z)
  : Result Point :=
  let i := Z.of_nat (scan a direction (links ring)) in
  let nextConnection :=
    if (0 <? direction)%Z then
      or_else (at_index (links ring) i) (at_index (links ring) 0)
    else
      or_else (at_index (links ring) (i - 1))
              (at_index (links ring) (Z.of_nat (length (links ring)) - 1))
  in
  match nextConnection with
  | Some l => Ok (point l)
  | None => Err TypeError
  end.

Inductive Reference : Type :=
| FromAngle (a : float)
| FromPoint (p : Point).

(** ** Meshes *)

Definition Connections : Type := list (Key * Ring).

Fixpoint get (c : Connections) (k : Key) : option Ring :=
  match c with
  | [] => None
  | (k', r) :: c' => if key_eqb k' k then Some r else get c' k
  end.

Fixpoint set (k : Key) (r : Ring) (c : Connections) : Connections :=
  match c with
  | [] => [(k, r)]
  | (k', r') :: c' =>
      if key_eqb k' k then (k, r) :: c' else (k', r') :: set k r c'
  end.

Definition getRing (c : Connections) (k : Key) : Result Ring :=
  match get c k with
  | Some r => Ok r
  | None => Err TypeError
  end.

Definition emptyConnections (pts : list Point) : Connections :=
  fold_left (fun c pt => set (id pt) (mkRing pt []) c) pts [].

Definition removeConnection (p : Point) (ring : Ring) : Ring :=
  mkRing (center ring)
         (filter (fun c => negb (same (point c) p)) (links ring)).

(** [Object.assign(target, source)] *)
Definition assign (target source : Connections) : Connections :=
  fold_left (fun acc kr => set (fst kr) (snd kr) acc) source target.

Definition mergeConnections (c d : Connections) : Connections :=
  assign (assign [] c) d.

Section Library.

(** [Math.atan2] *)
Variable atan2 : float -> float -> float.

Definition angle_from (c p : Point) : float :=
  let D := minus p c in atan2 (snd D) (fst D).

Definition nextConnection (p : Reference) (ring : Ring) (direction : Z)
  : Result Point :=
  match p with
  | FromAngle a => nextConnectionFromAngle a ring direction
  | FromPoint p =>
      nextConnectionFromAngle (angle_from (center ring) p) ring direction
  end.

Definition nextConnectionAbove (p : Point) (ring : Ring) (direction : Z)
           (line : Point * Point) : Result (option Point) :=
  q <- nextConnection (FromPoint p) ring direction ;;
  Ok (if aboveLine q line then Some q else None).

(** [(c, d) => c.angle - d.angle] *)
Definition by_angle (c d : Link) : float := sub (angle c) (angle d).

Definition addConnection (p : Point) (ring : Ring) : Ring :=
  mkRing (center ring)
         (sort by_angle
               (links ring ++ [mkLink p (angle_from (center ring) p)])).

Definition connect (p q : Point) (c : Connections) : Result Connections :=
  rp <- getRing c (id p) ;;
  let c1 := set (id p) (addConnection q rp) c in
  rq <- getRing c1 (id q) ;;
  Ok (set (id q) (addConnection p rq) c1).

Definition disconnect (p q : Point) (c : Connections) : Result Connections :=
  rp <- getRing c (id p) ;;
  let c1 := set (id p) (removeConnection q rp) c in
  rq <- getRing c1 (id q) ;;
  Ok (set (id q) (removeConnection p rq) c1).

(** ** The main event *)

Fixpoint lowerTangent (fuel : nat) (connections : Connections)
         (left right nextLeft nextRight : Point) : Result (Point * Point) :=
  if belowLine nextLeft (left, right) || belowLine nextRight (left, right) then
    match fuel with
    | O => Err OutOfFuel
    | Datatypes.S fuel' =>
        if belowLine nextLeft (left, right) then
          ring <- getRing connections (id nextLeft) ;;
          n <- nextConnection (FromPoint left) ring (-1) ;;
          lowerTangent fuel' connections nextLeft right n nextRight
        else
          ring <- getRing connections (id nextRight) ;;
          n <- nextConnection (FromPoint right) ring 1 ;;
          lowerTangent fuel' connections left nextRight nextLeft n
    end
  else Ok (left, right).

Fixpoint refine (fuel : nat) (connections : Connections) (pivot : Point)
         (direction : Z) (left right candidate : Point)
         (nextCandidate : option Point) : Result (Connections * Point) :=
  match nextCandidate with
  | None => Ok (connections, candidate)
  | Some next =>
      if inCircle next (left, right, candidate) then
        match fuel with
        | O => Err OutOfFuel
        | Datatypes.S fuel' =>
            connections' <- disconnect pivot candidate connections ;;
            ring <- getRing connections' (id pivot) ;;
            nextCandidate' <-
              nextConnectionAbove next ring direction (left, right) ;;
            refine fuel' connections' pivot direction left right next
                   nextCandidate'
        end
      else Ok (connections, candidate)
  end.

Definition findCandidate (fuel : nat) (connections : Connections)
           (pivot other : Point) (direction : Z) (left right : Point)
  : Result (Connections * option Point) :=
  ring <- getRing connections (id pivot) ;;
  candidate <- nextConnectionAbove other ring direction (left, right) ;;
  match candidate with
  | None => Ok (connections, None)
  | Some cand =>
      nextCandidate <- nextConnectionAbove cand ring direction (left, right) ;;
      r <- refine fuel connections pivot direction left right cand nextCandidate ;;
      Ok (fst r, Some (snd r))
  end.

Fixpoint mergeLoop (fuel : nat) (connections : Connections)
         (left right : Point) : Result Connections :=
  match fuel with
  | O => Err OutOfFuel
  | Datatypes.S fuel' =>
      l <- findCandidate fuel' connections left right 1 left right ;;
      let '(connections, leftCandidate) := l in
      r <- findCandidate fuel' connections right left (-1) left right ;;
      let '(connections, rightCandidate) := r in
      match leftCandidate, rightCandidate with
      | None, None => Ok connections
      | _, _ =>
          let '(leftCandidate, rightCandidate) :=
            match leftCandidate, rightCandidate with
            | Some lc, Some rc =>
                if inCircle rc (lc, left, right) then (None, Some rc)
                else (Some lc, None)
            | _, _ => (leftCandidate, rightCandidate)
            end in
          let left := match leftCandidate with Some lc => lc | None => left end in
          let right := match rightCandidate with Some rc => rc | None => right end in
          connections <- connect left right connections ;;
          mergeLoop fuel' connections left right
      end
  end.

Definition mergeHalves (fuel : nat) (leftPts rightPts : list Point)
           (leftConnections rightConnections : Connections)
  : Result Connections :=
  let connections := mergeConnections leftConnections rightConnections in
  left <- elem (at_index leftPts (Z.of_nat (length leftPts) - 1)) ;;
  right <- elem (at_index rightPts 0) ;;
  ringL <- getRing connections (id left) ;;
  nextLeft <- nextConnection (FromAngle 0%float) ringL (-1) ;;
  ringR <- getRing connections (id right) ;;
  nextRight <- nextConnection (FromAngle (opp PI)) ringR 1 ;;
  lr <- lowerTangent fuel connections left right nextLeft nextRight ;;
  let left := fst lr in
  let right := snd lr in
  connections <- connect left right connections ;;
  mergeLoop fuel connections left right.

Fixpoint delaunay (fuel : nat) (pts : list Point)
  : list Point * Result Connections :=
  if (length pts <? 2)%nat then (pts, Err InsufficientPoints)
  else
    let pts := sort by_x pts in
    (pts,
     match pts with
     | [p; q] =>
         let connections := emptyConnections pts in
         connect p q connections
     | [p; q; r] =>
         let connections := emptyConnections pts in
         connections <- connect p q connections ;;
         connections <- connect q r connections ;;
         connect r p connections
     | _ =>
         match fuel with
         | O => Err OutOfFuel
         | Datatypes.S fuel' =>
             let mid := (length pts / 2)%nat in
             let leftPts := firstn mid pts in
             let rightPts := skipn mid pts in
             leftConnections <- snd (delaunay fuel' leftPts) ;;
             rightConnections <- snd (delaunay fuel' rightPts) ;;
             mergeHalves fuel' leftPts rightPts leftConnections rightConnections
         end
     end).

End Library.

(** ** Reading a double as a rational *)

(** The rational that a finite double stands for; 0 for an infinity and
    for NaN. *)
Definition value (f : float) : Q :=
  match Prim2SF f with
  | S754_finite s m e =>
      (if s then - (1) else 1)%Q * inject_Z (Z.pos m) * (2 ^ e)%Q
  | _ => 0%Q
  end.

(** The operation is exact at [a] and [b]: the operands and the result are
    finite, and the result stands for the rational that the operation has
    on the rationals. *)
Definition exact (opF : float -> float -> float) (opQ : Q -> Q -> Q)
           (a b : float) : bool :=
  is_finite a && is_finite b && is_finite (opF a b) &&
  Qeq_bool (value (opF a b)) (opQ (value a) (value b)).

(** No multiplication and no addition of [det M] rounds. *)
Fixpoint product_unrounded (M : Matrix) (p : list nat) (rows : list nat)
         (x : float) : bool :=
  match rows with
  | [] => true
  | i :: rest =>
      exact mul Qmult x (entry M i (nth i p 0%nat - 1)) &&
      product_unrounded M p rest (mul x (entry M i (nth i p 0%nat - 1)))
  end.

Definition term (M : Matrix) (ps : list nat * float) : float :=
  fold_left (fun x i => mul x (entry M i (nth i (fst ps) 0%nat - 1)))
            (seq 0 (length M)) (snd ps).

Fixpoint sum_unrounded (M : Matrix) (l : list (list nat * float)) (d : float)
  : bool :=
  match l with
  | [] => true
  | ps :: rest =>
      product_unrounded M (fst ps) (seq 0 (length M)) (snd ps) &&
      exact add Qplus d (term M ps) &&
      sum_unrounded M rest (add d (term M ps))
  end.

Definition det_unrounded (M : Matrix) : bool :=
  sum_unrounded M (Permutations.S (length M)) 0%float.

(** No operation of the cofactor [det] on [M] rounds. *)
Definition cofactor_term (m : nat) (M : Matrix) (i : nat) : float :=
  mul (mul (Cofactor.sign i) (entry M 0 i))
      (Cofactor.det_rows m (map (Cofactor.drop_col i) (tl M))).

Fixpoint row_unrounded (rec : Matrix -> bool) (m : nat) (M : Matrix)
         (rows : list nat) (d : float) : bool :=
  match rows with
  | [] => true
  | i :: rest =>
      rec (map (Cofactor.drop_col i) (tl M)) &&
      exact mul Qmult (Cofactor.sign i) (entry M 0 i) &&
      exact mul Qmult (mul (Cofactor.sign i) (entry M 0 i))
            (Cofactor.det_rows m (map (Cofactor.drop_col i) (tl M))) &&
      exact add Qplus d (cofactor_term m M i) &&
      row_unrounded rec m M rest (add d (cofactor_term m M i))
  end.

Fixpoint rows_unrounded (n : nat) (M : Matrix) : bool :=
  match n with
  | O => true
  | Datatypes.S m =>
      row_unrounded (rows_unrounded m) m M (seq 0 (length M)) 0%float
  end.

Definition cofactor_unrounded (M : Matrix) : bool :=
  rows_unrounded (length M) M.

(** ** The sign tests of the predicates *)

Definition orientation (a b c : Point) : float := det [row3 a; row3 b; row3 c].

(** The ends of a line in the order that the sort gives them: exchanged
    when the difference [b.x - a.x] is negative. *)
Definition canonical (a b : Point) : Point * Point :=
  if ltb (sub (x b) (x a)) 0 then (b, a) else (a, b).

Definition lifted (a b c p : Point) : float :=
  det [row4 a; row4 b; row4 c; row4 p].

(** ** Sample inputs *)

Definition pt (o : nat) (px py : float) : Point := mkPoint o px py.

(** A line from (0, 0.1) to (0.1, 0.9), and a second object with the
    coordinates of its right end. *)
Definition line_a : Point := pt 0 0 0.1.

Definition line_b : Point := pt 1 0.1 0.9.

Definition line_b_copy : Point := pt 2 0.1 0.9.

(** Five points with small integer coordinates, in general position. *)
Definition sample : list Point :=
  [pt 0 0 0; pt 1 3 1; pt 2 1 4; pt 3 5 2; pt 4 7 7].

(** A function to run the builder with on examples, in the place of
    [Math.atan2]: the diamond angle, which orders directions as atan2
    does, computed on doubles. *)
Definition diamond (dy dx : float) : float :=
  if eqb dy 0 then (if ltb dx 0 then 2 else 0)
  else if ltb 0 dy then
    (if ltb 0 dx then div dy (add dx dy)
     else add 1 (div (opp dx) (sub dy dx)))
  else
    (if ltb dx 0 then add (-2) (div (opp dy) (sub (opp dx) dy))
     else add (-1) (div dx (sub dx dy))).

(** Two matrices of small integers. *)
Definition small : Matrix := [[1; 2; 3]; [4; 5; 6]; [7; 8; 10]]%float.

Definition wide : Matrix :=
  [[1; 2; 0; 1; 3]; [0; 1; 4; 2; 1]; [5; 0; 1; 1; 2]; [2; 2; 3; 0; 1];
   [1; 0; 2; 1; 1]]%float.

(** A matrix on which the two determinants differ. *)
Definition tenths : Matrix :=
  [[0.1; 0.2; 0.3]; [0.4; 0.5; 0.6]; [0.7; 0.8; 0.9]]%float.

(** Four points, no two with the same abscissa and no three on a line:
    the points of the doubles nearest to (0.1, 0.5), (0.3, 0.7),
    (0.9, 0.7) and (0.5, 0.6). *)
Definition near0 : Point := pt 0 0.1 0.5.

Definition near1 : Point := pt 1 0.3 0.7.

Definition near2 : Point := pt 2 0.9 0.7.

Definition near3 : Point := pt 3 0.5 0.6.

Definition near_line : list Point := [near0; near1; near2; near3].

(** The two edges that the recursive calls make of these points: from
    [near0] to [near1] and from [near3] to [near2]. *)
Definition near_map (atan2 : float -> float -> float) : Connections :=
  [(id near0, mkRing near0 [mkLink near1 (angle_from atan2 near0 near1)]);
   (id near1, mkRing near1 [mkLink near0 (angle_from atan2 near1 near0)]);
   (id near3, mkRing near3 [mkLink near2 (angle_from atan2 near3 near2)]);
   (id near2, mkRing near2 [mkLink near3 (angle_from atan2 near2 near3)])].

End Double.

(** An entry of the table of permutations on doubles and one of the table
    on rationals that hold the same permutation with the same sign. *)
Definition same_entry (ps : list nat * PrimFloat.float)
           (qs : Permutations.Permutation * Q) : Prop :=
  fst ps = fst qs /\
  ((snd ps = Double.pow_minus_one 0 /\ snd qs == 1) \/
   (snd ps = Double.pow_minus_one 1 /\ snd qs == - (1))).

(** The point with the coordinates that the doubles stand for. *)
Definition exact_point (p : Double.Point) : Point :=
  mkPoint (Double.oid p) (Double.value (Double.x p)) (Double.value (Double.y p)).

Definition exact_matrix (M : Double.Matrix) : Matrix :=
  map (map Double.value) M.

(** ** A run on doubles read as a run on rationals *)

(** The key, the ring and the map that a key, a ring and a map of doubles
    stand for.  The angle of a link is read as the angle from the center to
    the point of the link. *)
Definition exact_key (k : Double.Key) : Key :=
  (Qred (Double.value (fst k)), Qred (Double.value (snd k))).

Definition exact_link (ctr : Point) (l : Double.Link) : Link :=
  mkLink (exact_point (Double.point l))
         (angle_from ctr (exact_point (Double.point l))).

Definition exact_ring (r : Double.Ring) : Ring :=
  mkRing (exact_point (Double.center r))
         (map (exact_link (exact_point (Double.center r))) (Double.links r)).

Definition exact_map (c : Double.Connections) : Connections :=
  map (fun kr => (exact_key (fst kr), exact_ring (snd kr))) c.

Definition map_result {A B : Type} (f : A -> B) (r : Result A) : Result B :=
  match r with
  | Ok a => Ok (f a)
  | Err e => Err e
  end.

(** The outcome [rq] of a step on rationals is the outcome [rd] of that
    step on doubles, read by [f]; and the value that the step on doubles
    returns, if any, is [good]. *)
Definition follows {A B : Type} (f : A -> B) (good : A -> Prop)
           (rd : Result A) (rq : Result B) : Prop :=
  rq = map_result f rd /\ forall a, rd = Ok a -> good a.

(** The comparisons that the program makes of a reference angle [a] with
    the angle [b] of a link - in the scan of a ring, and in the sort of a
    ring when a link of angle [a] is added - come out on doubles as they do
    on the rationals [a'] and [b']. *)
Definition angles_agree (a : PrimFloat.float) (a' : Q)
           (b : PrimFloat.float) (b' : Q) : bool :=
  Bool.eqb (PrimFloat.eqb b a) (Qeq_bool b' a') &&
  Bool.eqb (PrimFloat.ltb a b) (Qltb a' b') &&
  Bool.eqb (PrimFloat.ltb (PrimFloat.sub a b) PrimFloat.zero) (Qltb a' b').

(** The tests that the builder makes on the points of [pts] give on
    doubles, with [atan2] for [Math.atan2], the answers that they give on
    the rationals that the doubles stand for: the comparison of two keys
    and of two abscissas; for a center and two points, the order of the two
    angles, and the order of each angle and the two fixed references 0 and
    -pi; and the three predicates.  No determinant is rounded to a wrong
    sign, and no two directions are confused. *)
Section Faithful.

Variable atan2 : PrimFloat.float -> PrimFloat.float -> PrimFloat.float.
Variable pts : list Double.Point.

Definition faithful_pair (p q : Double.Point) : bool :=
  Bool.eqb (Double.key_eqb (Double.id p) (Double.id q))
           (key_eqb (id (exact_point p)) (id (exact_point q))) &&
  Bool.eqb (PrimFloat.ltb (Double.by_x p q) PrimFloat.zero)
           (Qltb (x (exact_point p)) (x (exact_point q))) &&
  angles_agree PrimFloat.zero 0
               (Double.angle_from atan2 p q)
               (angle_from (exact_point p) (exact_point q)) &&
  angles_agree (PrimFloat.opp Double.PI) (- PI)
               (Double.angle_from atan2 p q)
               (angle_from (exact_point p) (exact_point q)).

Definition faithful_triple (p q r : Double.Point) : bool :=
  Bool.eqb (Double.belowLine p (q, r))
           (belowLine (exact_point p) (exact_point q, exact_point r)) &&
  Bool.eqb (Double.aboveLine p (q, r))
           (aboveLine (exact_point p) (exact_point q, exact_point r)) &&
  angles_agree (Double.angle_from atan2 p q)
               (angle_from (exact_point p) (exact_point q))
               (Double.angle_from atan2 p r)
               (angle_from (exact_point p) (exact_point r)).

Definition faithful_quad (p q r s : Double.Point) : bool :=
  Bool.eqb (Double.inCircle p (q, r, s))
           (inCircle (exact_point p)
                     (exact_point q, exact_point r, exact_point s)).

(** A ring and a map of points of [pts], each link with the angle that
    [addConnection] gives it, each ring under the key of such a point. *)
Definition sound_ring (r : Double.Ring) : Prop :=
  In (Double.center r) pts /\
  Forall (fun l =>
            In (Double.point l) pts /\
            Double.angle l =
            Double.angle_from atan2 (Double.center r) (Double.point l))
         (Double.links r).

Definition sound (c : Double.Connections) : Prop :=
  Forall (fun kr =>
            (exists p, In p pts /\ fst kr = Double.id p) /\
            sound_ring (snd kr))
         c.

Definition faithful : bool :=
  forallb
    (fun p =>
       forallb
         (fun q =>
            faithful_pair p q &&
            forallb
              (fun r =>
                 faithful_triple p q r &&
                 forallb (fun s => faithful_quad p q r s) pts)
              pts)
         pts)
    pts.

End Faithful.


(** * Basic facts *)

(** ** Numbers *)

Lemma Qltb_lt (a b : Q) : Qltb a b = true <-> a < b.
Proof.
  unfold Qltb. rewrite Qlt_alt. destruct (a ?= b); split; congruence.
Qed.

Lemma Qltb_ge (a b : Q) : Qltb a b = false <-> b <= a.
Proof.
  rewrite <- not_true_iff_false, Qltb_lt. split.
  - apply Qnot_lt_le.
  - apply Qle_not_lt.
Qed.

Lemma Qltb_irrefl (a : Q) : Qltb a a = false.
Proof. apply Qltb_ge. apply Qle_refl. Qed.

#[export] Instance Qltb_proper : Proper (Qeq ==> Qeq ==> eq) Qltb.
Proof.
  intros a a' Ha b b' Hb. unfold Qltb. now rewrite Ha, Hb.
Qed.

Lemma Qeq_strict_eq (a b : Q) : Qeq_strict a b = true <-> a = b.
Proof.
  unfold Qeq_strict. rewrite andb_true_iff, Z.eqb_eq, Pos.eqb_eq.
  destruct a, b; simpl. split.
  - intros [-> ->]. reflexivity.
  - intros H. inversion H. auto.
Qed.

Lemma key_eqb_eq (k k' : Key) : key_eqb k k' = true <-> k = k'.
Proof.
  unfold key_eqb. rewrite andb_true_iff, !Qeq_strict_eq.
  destruct k, k'; simpl. split.
  - intros [-> ->]. reflexivity.
  - intros H. inversion H. auto.
Qed.

Lemma key_eqb_refl (k : Key) : key_eqb k k = true.
Proof. now apply key_eqb_eq. Qed.

Lemma key_eqb_neq (k k' : Key) : key_eqb k k' = false <-> k <> k'.
Proof. rewrite <- not_true_iff_false, key_eqb_eq. tauto. Qed.

Lemma id_coincide (p q : Point) : id p = id q <-> coincide p q.
Proof.
  unfold id, coincide. split.
  - intros H. inversion H as [[Hx Hy]]. split.
    + rewrite <- (Qred_correct (x p)), <- (Qred_correct (x q)), Hx. reflexivity.
    + rewrite <- (Qred_correct (y p)), <- (Qred_correct (y q)), Hy. reflexivity.
  - intros [Hx Hy]. f_equal; now apply Qred_complete.
Qed.

Lemma same_oid (p q : Point) : same p q = true <-> oid p = oid q.
Proof. unfold same. apply Nat.eqb_eq. Qed.

(** ** JavaScript array access *)

Lemma at_index_in {A : Type} (l : list A) (i : Z) (a : A) :
  at_index l i = Some a -> In a l.
Proof.
  unfold at_index. destruct (i <? 0)%Z; [discriminate |].
  apply nth_error_In.
Qed.

Lemma at_index_first {A : Type} (l : list A) : at_index l 0 = hd_error l.
Proof. destruct l; reflexivity. Qed.

Lemma at_index_nat {A : Type} (l : list A) (n : nat) :
  at_index l (Z.of_nat n) = nth_error l n.
Proof.
  unfold at_index. destruct (Z.ltb_spec (Z.of_nat n) 0); [lia |].
  now rewrite Nat2Z.id.
Qed.

Lemma at_index_last {A : Type} (l : list A) :
  at_index l (Z.of_nat (length l) - 1) = hd_error (rev l).
Proof.
  destruct l as [| a l] using rev_ind.
  - reflexivity.
  - rewrite rev_app_distr, length_app. simpl.
    replace (Z.of_nat (length l + 1) - 1)%Z with (Z.of_nat (length l)) by lia.
    rewrite at_index_nat, nth_error_app2, Nat.sub_diag by lia. reflexivity.
Qed.

(** ** The stable sort *)

Section SortFacts.
Variable A : Type.
Variable key : A -> Q.

Let le (a b : A) : Prop := key a <= key b.

Lemma insert_perm (a : A) (l : list A) : Permutation (insert key a l) (a :: l).
Proof.
  induction l as [| b l IH]; simpl.
  - reflexivity.
  - destruct (Qltb (key a) (key b)).
    + reflexivity.
    + rewrite IH. apply perm_swap.
Qed.

Lemma sort_from_perm (l acc : list A) :
  Permutation (fold_left (fun acc a => insert key a acc) l acc) (acc ++ l).
Proof.
  revert acc. induction l as [| a l IH]; intros acc; simpl.
  - now rewrite app_nil_r.
  - rewrite IH, insert_perm. apply Permutation_middle.
Qed.

Lemma sort_perm (l : list A) : Permutation (sort key l) l.
Proof. unfold sort. now rewrite sort_from_perm. Qed.

Lemma sort_in (l : list A) (a : A) : In a (sort key l) <-> In a l.
Proof.
  split; apply Permutation_in; [| symmetry]; apply sort_perm.
Qed.

Lemma insert_sorted (a : A) (l : list A) :
  StronglySorted le l -> StronglySorted le (insert key a l).
Proof.
  induction 1 as [| b l Hs IH Hb]; simpl.
  - constructor; constructor.
  - destruct (Qltb (key a) (key b)) eqn:E.
    + apply Qltb_lt in E. constructor.
      * now constructor.
      * constructor.
        -- apply Qlt_le_weak, E.
        -- eapply Forall_impl; [| exact Hb]. intros c Hc. unfold le in *.
           eapply Qle_trans; [apply Qlt_le_weak, E | exact Hc].
    + apply Qltb_ge in E. constructor; [exact IH |].
      rewrite Forall_forall. intros c Hc.
      apply (Permutation_in _ (insert_perm a l)) in Hc.
      destruct Hc as [<- | Hc]; [exact E |].
      rewrite Forall_forall in Hb. now apply Hb.
Qed.

Lemma sort_from_sorted (l acc : list A) :
  StronglySorted le acc ->
  StronglySorted le (fold_left (fun acc a => insert key a acc) l acc).
Proof.
  revert acc. induction l as [| a l IH]; intros acc H; simpl.
  - exact H.
  - apply IH. now apply insert_sorted.
Qed.

Lemma sort_sorted (l : list A) : StronglySorted le (sort key l).
Proof. apply sort_from_sorted. constructor. Qed.

(** A sorted array is left as it is. *)
Lemma insert_last (a : A) (l : list A) :
  Forall (fun b => key b <= key a) l -> insert key a l = l ++ [a].
Proof.
  induction 1 as [| b l Hb _ IH]; simpl.
  - reflexivity.
  - apply Qltb_ge in Hb. now rewrite Hb, IH.
Qed.

Lemma sort_from_id (l acc : list A) :
  StronglySorted le (acc ++ l) ->
  fold_left (fun acc a => insert key a acc) l acc = acc ++ l.
Proof.
  revert acc. induction l as [| a l IH]; intros acc H; simpl.
  - now rewrite app_nil_r.
  - assert (E : insert key a acc = acc ++ [a]).
    { apply insert_last. clear IH. induction acc as [| b acc IH]; simpl in *.
      - constructor.
      - inversion H as [| ? ? Hs Hf]; subst. constructor.
        + rewrite Forall_forall in Hf. apply Hf. apply in_or_app. right. now left.
        + now apply IH. }
    rewrite E, IH; rewrite <- app_assoc; [reflexivity | exact H].
Qed.

Lemma sort_id (l : list A) : StronglySorted le l -> sort key l = l.
Proof. intros H. unfold sort. now rewrite sort_from_id. Qed.

Lemma sort_length (l : list A) : length (sort key l) = length l.
Proof. apply Permutation_length, sort_perm. Qed.

End SortFacts.

(** ** Maps *)

Lemma get_set (k k' : Key) (r : Ring) (c : Connections) :
  get (set k r c) k' = if key_eqb k k' then Some r else get c k'.
Proof.
  induction c as [| [k0 r0] c IH]; simpl.
  - reflexivity.
  - destruct (key_eqb k0 k) eqn:E; simpl.
    + apply key_eqb_eq in E. rewrite E.
      destruct (key_eqb k k'); reflexivity.
    + rewrite IH. destruct (key_eqb k0 k') eqn:E'; [| reflexivity].
      apply key_eqb_eq in E'. apply key_eqb_neq in E.
      assert (N : key_eqb k k' = false) by (apply key_eqb_neq; congruence).
      now rewrite N.
Qed.

Lemma get_set_same (k : Key) (r : Ring) (c : Connections) :
  get (set k r c) k = Some r.
Proof. now rewrite get_set, key_eqb_refl. Qed.

Lemma get_set_other (k k' : Key) (r : Ring) (c : Connections) :
  k <> k' -> get (set k r c) k' = get c k'.
Proof. intros H. apply key_eqb_neq in H. now rewrite get_set, H. Qed.

Lemma get_keys (c : Connections) (k : Key) :
  get c k <> None <-> In k (keys c).
Proof.
  induction c as [| [k0 r0] c IH]; simpl.
  - tauto.
  - destruct (key_eqb k0 k) eqn:E.
    + apply key_eqb_eq in E. split; [now left | discriminate].
    + apply key_eqb_neq in E. rewrite IH. tauto.
Qed.

Lemma get_some_keys (c : Connections) (k : Key) (r : Ring) :
  get c k = Some r -> In k (keys c).
Proof. intros H. apply get_keys. congruence. Qed.

Lemma keys_set_present (k : Key) (r r' : Ring) (c : Connections) :
  get c k = Some r -> keys (set k r' c) = keys c.
Proof.
  induction c as [| [k0 r0] c IH]; simpl; [discriminate |].
  destruct (key_eqb k0 k) eqn:E; simpl.
  - apply key_eqb_eq in E. now subst.
  - intros H. now rewrite IH.
Qed.

Lemma keys_set_absent (k : Key) (r : Ring) (c : Connections) :
  get c k = None -> keys (set k r c) = keys c ++ [k].
Proof.
  induction c as [| [k0 r0] c IH]; simpl; [reflexivity |].
  destruct (key_eqb k0 k) eqn:E; simpl; [discriminate |].
  intros H. now rewrite IH.
Qed.

Lemma keys_set_in (k k' : Key) (r : Ring) (c : Connections) :
  In k' (keys (set k r c)) <-> k' = k \/ In k' (keys c).
Proof.
  destruct (get c k) as [r0 |] eqn:E.
  - rewrite (keys_set_present _ _ _ _ E). pose proof (get_some_keys _ _ _ E). 
    split; [tauto | intros [-> | H']; assumption].
  - rewrite (keys_set_absent _ _ _ E), in_app_iff. simpl. intuition.
Qed.

Lemma keys_set_nodup (k : Key) (r : Ring) (c : Connections) :
  NoDup (keys c) -> NoDup (keys (set k r c)).
Proof.
  intros H. destruct (get c k) as [r0 |] eqn:E.
  - now rewrite (keys_set_present _ _ _ _ E).
  - rewrite (keys_set_absent _ _ _ E).
    apply NoDup_app; [exact H | repeat constructor; simpl; tauto |].
    intros k1 H1 [<- | []]. apply get_keys in H1. congruence.
Qed.

Lemma get_assign (t s : Connections) (k : Key) :
  NoDup (keys s) ->
  get (assign t s) k = match get s k with Some r => Some r | None => get t k end.
Proof.
  unfold assign. revert t. induction s as [| [k0 r0] s IH]; intros t H; simpl.
  - reflexivity.
  - inversion H as [| ? ? Hn Hs]; subst. rewrite IH by exact Hs.
    destruct (key_eqb k0 k) eqn:E.
    + apply key_eqb_eq in E. subst k0.
      destruct (get s k) eqn:G.
      * exfalso. apply Hn. now apply get_some_keys in G.
      * apply get_set_same.
    + apply key_eqb_neq in E. now rewrite get_set_other.
Qed.

Lemma keys_assign_nodup (t s : Connections) :
  NoDup (keys t) -> NoDup (keys (assign t s)).
Proof.
  unfold assign. revert t. induction s as [| [k0 r0] s IH]; intros t H; simpl.
  - exact H.
  - apply IH. now apply keys_set_nodup.
Qed.

Lemma keys_assign_in (t s : Connections) (k : Key) :
  In k (keys (assign t s)) <-> In k (keys t) \/ In k (keys s).
Proof.
  unfold assign. revert t. induction s as [| [k0 r0] s IH]; intros t; simpl.
  - tauto.
  - rewrite IH, keys_set_in. intuition.
Qed.

Lemma get_merge (c d : Connections) (k : Key) :
  NoDup (keys c) -> NoDup (keys d) ->
  get (mergeConnections c d) k =
  match get d k with Some r => Some r | None => get c k end.
Proof.
  intros Hc Hd. unfold mergeConnections.
  rewrite get_assign by exact Hd. rewrite get_assign by exact Hc.
  simpl. destruct (get d k); [reflexivity |]. now destruct (get c k).
Qed.

Lemma keys_merge_nodup (c d : Connections) : NoDup (keys (mergeConnections c d)).
Proof.
  unfold mergeConnections. apply keys_assign_nodup, keys_assign_nodup. constructor.
Qed.

Lemma keys_merge_in (c d : Connections) (k : Key) :
  In k (keys (mergeConnections c d)) <-> In k (keys c) \/ In k (keys d).
Proof.
  unfold mergeConnections. rewrite !keys_assign_in. simpl. tauto.
Qed.

Lemma keys_empty_in (pts : list Point) (k : Key) :
  In k (keys (emptyConnections pts)) <-> In k (map id pts).
Proof.
  unfold emptyConnections.
  assert (G : forall c, In k (keys (fold_left
             (fun c pt => set (id pt) (mkRing pt []) c) pts c))
             <-> In k (keys c) \/ In k (map id pts)).
  { induction pts as [| p pts IH]; intros c; simpl.
    - tauto.
    - rewrite IH, keys_set_in. intuition. }
  rewrite G. simpl. tauto.
Qed.

Lemma keys_empty_nodup (pts : list Point) : NoDup (keys (emptyConnections pts)).
Proof.
  unfold emptyConnections.
  assert (G : forall c, NoDup (keys c) -> NoDup (keys (fold_left
             (fun c pt => set (id pt) (mkRing pt []) c) pts c))).
  { induction pts as [| p pts IH]; intros c H; simpl.
    - exact H.
    - apply IH. now apply keys_set_nodup. }
  apply G. constructor.
Qed.

Lemma get_fill (PTS pts : list Point) (c : Connections) :
  incl pts PTS ->
  (forall k r, get c k = Some r ->
               exists p, In p PTS /\ r = mkRing p [] /\ k = id p) ->
  forall k r,
    get (fold_left (fun c pt => set (id pt) (mkRing pt []) c) pts c) k = Some r ->
    exists p, In p PTS /\ r = mkRing p [] /\ k = id p.
Proof.
  revert c. induction pts as [| p pts IH]; intros c Hi Hc; simpl.
  - exact Hc.
  - apply IH.
    + intros a Ha. apply Hi. now right.
    + intros k r. rewrite get_set. destruct (key_eqb (id p) k) eqn:E.
      * apply key_eqb_eq in E. intros [= <-]. exists p. split; [| auto].
        apply Hi. now left.
      * apply Hc.
Qed.

Lemma get_empty (pts : list Point) (k : Key) (r : Ring) :
  get (emptyConnections pts) k = Some r ->
  exists p, In p pts /\ r = mkRing p [] /\ k = id p.
Proof.
  apply get_fill.
  - apply incl_refl.
  - simpl. discriminate.
Qed.

(** ** Rings *)

Lemma links_add (p : Point) (r : Ring) (l : Link) :
  In l (links (addConnection p r)) <->
  In l (links r) \/ l = mkLink p (angle_from (center r) p).
Proof.
  unfold addConnection. simpl. rewrite sort_in, in_app_iff. simpl.
  intuition.
Qed.

Lemma links_remove (p : Point) (r : Ring) (l : Link) :
  In l (links (removeConnection p r)) <->
  In l (links r) /\ oid (point l) <> oid p.
Proof.
  unfold removeConnection. simpl. rewrite filter_In, negb_true_iff.
  rewrite <- not_true_iff_false, same_oid. tauto.
Qed.

Lemma sorted_add (p : Point) (r : Ring) : sorted_ring (addConnection p r).
Proof. unfold sorted_ring, sorted_links, addConnection. simpl. apply sort_sorted. Qed.

Lemma sorted_filter (f : Link -> bool) (ls : list Link) :
  sorted_links ls -> sorted_links (filter f ls).
Proof.
  unfold sorted_links. induction 1 as [| l ls Hs IH Hl]; simpl.
  - constructor.
  - destruct (f l); [| exact IH]. constructor; [exact IH |].
    rewrite Forall_forall in *. intros l' Hl'. apply filter_In in Hl'.
    now apply Hl.
Qed.

Lemma sorted_remove (p : Point) (r : Ring) :
  sorted_ring r -> sorted_ring (removeConnection p r).
Proof. unfold sorted_ring, removeConnection. simpl. apply sorted_filter. Qed.

Lemma angles_add (p : Point) (r : Ring) :
  angles_ok r -> angles_ok (addConnection p r).
Proof.
  unfold angles_ok. rewrite !Forall_forall. intros H l Hl.
  apply links_add in Hl. destruct Hl as [Hl | ->].
  - now apply H.
  - reflexivity.
Qed.

Lemma angles_remove (p : Point) (r : Ring) :
  angles_ok r -> angles_ok (removeConnection p r).
Proof.
  unfold angles_ok. rewrite !Forall_forall. intros H l Hl.
  apply links_remove in Hl. now apply H.
Qed.

(** ** The two halves of [connect] and [disconnect] *)

Lemma connect_update (p q : Point) (c : Connections) :
  connect p q c =
  (c1 <- update (id p) (addConnection q) c ;; update (id q) (addConnection p) c1).
Proof.
  unfold connect, update. destruct (getRing c (id p)); reflexivity.
Qed.

Lemma disconnect_update (p q : Point) (c : Connections) :
  disconnect p q c =
  (c1 <- update (id p) (removeConnection q) c ;;
   update (id q) (removeConnection p) c1).
Proof.
  unfold disconnect, update. destruct (getRing c (id p)); reflexivity.
Qed.

Lemma update_ok (k : Key) (f : Ring -> Ring) (c c' : Connections) :
  update k f c = Ok c' ->
  exists r, get c k = Some r /\ c' = set k (f r) c.
Proof.
  unfold update, getRing. destruct (get c k) as [r |]; simpl; [| discriminate].
  intros [= <-]. now exists r.
Qed.

Lemma update_get (k : Key) (f : Ring -> Ring) (c c' : Connections) (k' : Key) :
  update k f c = Ok c' ->
  get c' k' = if key_eqb k k' then option_map f (get c k) else get c k'.
Proof.
  intros H. apply update_ok in H. destruct H as (r & Hr & ->).
  rewrite get_set, Hr. reflexivity.
Qed.

Lemma update_keys (k : Key) (f : Ring -> Ring) (c c' : Connections) :
  update k f c = Ok c' -> keys c' = keys c.
Proof.
  intros H. apply update_ok in H. destruct H as (r & Hr & ->).
  apply (keys_set_present _ _ _ _ Hr).
Qed.

Lemma update_each (P : Ring -> Prop) (k : Key) (f : Ring -> Ring)
      (c c' : Connections) :
  (forall r, P r -> P (f r)) ->
  each_ring P c -> update k f c = Ok c' -> each_ring P c'.
Proof.
  intros Hf Hc H k' r'. rewrite (update_get _ _ _ _ k' H).
  destruct (key_eqb k k') eqn:E.
  - apply key_eqb_eq in E. subst k'. destruct (get c k) as [r |] eqn:G; simpl.
    + intros [= <-]. apply Hf. now apply (Hc k).
    + discriminate.
  - apply Hc.
Qed.

Lemma has_link_add (k : Key) (t : Point) (c c' : Connections)
      (k' : Key) (l : Link) :
  update k (addConnection t) c = Ok c' ->
  (has_link c' k' l <->
   has_link c k' l \/
   (k' = k /\ exists r, get c k = Some r /\ l = mkLink t (angle_from (center r) t))).
Proof.
  intros H. unfold has_link. pose proof (update_ok _ _ _ _ H) as (r & Hr & _).
  split.
  - intros (r' & G & Hl). rewrite (update_get _ _ _ _ k' H) in G.
    destruct (key_eqb k k') eqn:E.
    + apply key_eqb_eq in E. subst k'. rewrite Hr in G. simpl in G.
      injection G as <-. apply links_add in Hl. destruct Hl as [Hl | Hl].
      * left. now exists r.
      * right. split; [reflexivity |]. now exists r.
    + left. now exists r'.
  - intros [(r' & G & Hl) | (-> & r' & G & ->)].
    + rewrite (update_get _ _ _ _ k' H).
      destruct (key_eqb k k') eqn:E.
      * apply key_eqb_eq in E. subst k'. rewrite G. simpl.
        eexists. split; [reflexivity |]. apply links_add. now left.
      * now exists r'.
    + rewrite (update_get _ _ _ _ k H), key_eqb_refl, G. simpl.
      eexists. split; [reflexivity |]. apply links_add. now right.
Qed.

Lemma has_link_remove (k : Key) (t : Point) (c c' : Connections)
      (k' : Key) (l : Link) :
  update k (removeConnection t) c = Ok c' ->
  (has_link c' k' l <->
   has_link c k' l /\ ~ (k' = k /\ oid (point l) = oid t)).
Proof.
  intros H. unfold has_link. pose proof (update_ok _ _ _ _ H) as (r & Hr & _).
  rewrite (update_get _ _ _ _ k' H).
  destruct (key_eqb k k') eqn:E.
  - apply key_eqb_eq in E. subst k'. rewrite Hr. simpl. split.
    + intros (r' & [= <-] & Hl). apply links_remove in Hl. split.
      * exists r. tauto.
      * tauto.
    + intros ((r' & [= <-] & Hl) & N). eexists. split; [reflexivity |].
      apply links_remove. split; [exact Hl |]. intros O. apply N. now split.
  - apply key_eqb_neq in E. split.
    + intros (r' & G & Hl). split; [now exists r' |]. intros [-> _]. now apply E.
    + intros [(r' & G & Hl) _]. now exists r'.
Qed.

Lemma linked_has_link (c : Connections) (p q : Point) :
  linked c p q <-> exists l, has_link c (id p) l /\ id (point l) = id q.
Proof.
  unfold linked, has_link. split.
  - intros (r & l & G & Hl & E). exists l. split; [now exists r | exact E].
  - intros (l & (r & G & Hl) & E). now exists r, l.
Qed.

(** What [connect] does to the links: it adds the two directed links and
    leaves every other link as it is. *)
Lemma connect_linked (p q : Point) (c c' : Connections) (a b : Point) :
  connect p q c = Ok c' ->
  (linked c' a b <->
   linked c a b \/ (id a = id p /\ id b = id q) \/ (id a = id q /\ id b = id p)).
Proof.
  rewrite connect_update.
  destruct (update (id p) (addConnection q) c) as [c1 |] eqn:H1; simpl;
    [| discriminate].
  intros H2. rewrite !linked_has_link.
  pose proof (update_ok _ _ _ _ H1) as (rp & Gp & _).
  pose proof (update_ok _ _ _ _ H2) as (rq & Gq & _).
  split.
  - intros (l & Hl & E). apply (has_link_add _ _ _ _ _ _ H2) in Hl.
    destruct Hl as [Hl | (Ea & r & G & ->)].
    + apply (has_link_add _ _ _ _ _ _ H1) in Hl.
      destruct Hl as [Hl | (Ea & r & G & ->)].
      * left. now exists l.
      * right. left. simpl in E. auto.
    + right. right. simpl in E. auto.
  - intros [(l & Hl & E) | [[Ea Eb] | [Ea Eb]]].
    + exists l. split; [| exact E].
      apply (has_link_add _ _ _ _ _ _ H2). left.
      apply (has_link_add _ _ _ _ _ _ H1). now left.
    + exists (mkLink q (angle_from (center rp) q)). split; [| simpl; congruence].
      apply (has_link_add _ _ _ _ _ _ H2). left.
      apply (has_link_add _ _ _ _ _ _ H1). right. split; [exact Ea |].
      now exists rp.
    + exists (mkLink p (angle_from (center rq) p)). split; [| simpl; congruence].
      apply (has_link_add _ _ _ _ _ _ H2). right. split; [exact Ea |].
      now exists rq.
Qed.

Lemma connect_symmetric (p q : Point) (c c' : Connections) :
  symmetric c -> connect p q c = Ok c' -> symmetric c'.
Proof.
  intros S H a b. rewrite !(connect_linked _ _ _ _ _ _ H).
  intros [L | [[Ea Eb] | [Ea Eb]]]; auto.
Qed.

(** What [disconnect] does to the links: it removes from the ring of [p] the
    links whose target is the object [q], and from the ring of [q] those
    whose target is the object [p]. *)
Lemma disconnect_has_link (p q : Point) (c c' : Connections)
      (k : Key) (l : Link) :
  disconnect p q c = Ok c' ->
  (has_link c' k l <->
   has_link c k l /\ ~ (k = id p /\ oid (point l) = oid q)
                  /\ ~ (k = id q /\ oid (point l) = oid p)).
Proof.
  rewrite disconnect_update.
  destruct (update (id p) (removeConnection q) c) as [c1 |] eqn:H1; simpl;
    [| discriminate].
  intros H2. rewrite (has_link_remove _ _ _ _ _ _ H2), (has_link_remove _ _ _ _ _ _ H1).
  tauto.
Qed.

Lemma disconnect_symmetric (p q : Point) (c c' : Connections) :
  held c p -> held c q ->
  symmetric c -> disconnect p q c = Ok c' -> symmetric c'.
Proof.
  intros Hp Hq S H a b. rewrite !linked_has_link.
  intros (l & Hl & E). apply (disconnect_has_link _ _ _ _ _ _ H) in Hl.
  destruct Hl as (Hl & N1 & N2).
  assert (L : linked c b a).
  { apply S. apply linked_has_link. now exists l. }
  apply linked_has_link in L. destruct L as (l' & Hl' & E').
  exists l'. split; [| exact E'].
  apply (disconnect_has_link _ _ _ _ _ _ H). split; [exact Hl' |].
  destruct Hl as (r & G & Il). destruct Hl' as (r' & G' & Il').
  split.
  - intros [Eb O]. apply N2. split.
    + rewrite <- E'. now apply (Hq _ _ _ G' Il').
    + apply (Hp _ _ _ G Il). congruence.
  - intros [Eb O]. apply N1. split.
    + rewrite <- E'. now apply (Hp _ _ _ G' Il').
    + apply (Hq _ _ _ G Il). congruence.
Qed.

Lemma disconnect_unlinked (p q : Point) (c c' : Connections) :
  held c p -> held c q ->
  disconnect p q c = Ok c' -> ~ linked c' p q /\ ~ linked c' q p.
Proof.
  intros Hp Hq H. rewrite !linked_has_link. split.
  - intros (l & Hl & E). apply (disconnect_has_link _ _ _ _ _ _ H) in Hl.
    destruct Hl as ((r & G & Il) & N1 & N2). apply N1. split; [reflexivity |].
    now apply (Hq _ _ _ G Il).
  - intros (l & Hl & E). apply (disconnect_has_link _ _ _ _ _ _ H) in Hl.
    destruct Hl as ((r & G & Il) & N1 & N2). apply N2. split; [reflexivity |].
    now apply (Hp _ _ _ G Il).
Qed.

Lemma connect_each (P : Ring -> Prop) (p q : Point) (c c' : Connections) :
  (forall t r, P r -> P (addConnection t r)) ->
  each_ring P c -> connect p q c = Ok c' -> each_ring P c'.
Proof.
  intros Hf Hc. rewrite connect_update.
  destruct (update (id p) (addConnection q) c) as [c1 |] eqn:H1; simpl;
    [| discriminate].
  intros H2. eapply update_each; [apply Hf | | exact H2].
  eapply update_each; [apply Hf | exact Hc | exact H1].
Qed.

Lemma disconnect_each (P : Ring -> Prop) (p q : Point) (c c' : Connections) :
  (forall t r, P r -> P (removeConnection t r)) ->
  each_ring P c -> disconnect p q c = Ok c' -> each_ring P c'.
Proof.
  intros Hf Hc. rewrite disconnect_update.
  destruct (update (id p) (removeConnection q) c) as [c1 |] eqn:H1; simpl;
    [| discriminate].
  intros H2. eapply update_each; [apply Hf | | exact H2].
  eapply update_each; [apply Hf | exact Hc | exact H1].
Qed.

Lemma connect_keys (p q : Point) (c c' : Connections) :
  connect p q c = Ok c' -> keys c' = keys c.
Proof.
  rewrite connect_update.
  destruct (update (id p) (addConnection q) c) as [c1 |] eqn:H1; simpl;
    [| discriminate].
  intros H2. now rewrite (update_keys _ _ _ _ H2), (update_keys _ _ _ _ H1).
Qed.

Lemma disconnect_keys (p q : Point) (c c' : Connections) :
  disconnect p q c = Ok c' -> keys c' = keys c.
Proof.
  rewrite disconnect_update.
  destruct (update (id p) (removeConnection q) c) as [c1 |] eqn:H1; simpl;
    [| discriminate].
  intros H2. now rewrite (update_keys _ _ _ _ H2), (update_keys _ _ _ _ H1).
Qed.

(** ** Angles *)

Lemma ratio_range (n d : Q) : 0 <= n -> n < d -> 0 <= n / d /\ n / d < 1.
Proof.
  intros Hn Hd. assert (Hp : 0 < d) by lra. split.
  - apply Qle_shift_div_l; [exact Hp | lra].
  - apply Qlt_shift_div_r; [exact Hp | lra].
Qed.

Lemma ratio_pos (n d : Q) : 0 < n -> n < d -> 0 < n / d.
Proof.
  intros Hn Hd. apply Qlt_shift_div_l; lra.
Qed.

Lemma atan2_range (dy dx : Q) : - PI < atan2 dy dx /\ atan2 dy dx <= PI.
Proof.
  unfold atan2, PI.
  destruct (Qeq_bool dy 0) eqn:E0.
  - destruct (Qltb dx 0); lra.
  - apply Qeq_bool_neq in E0.
    destruct (Qltb 0 dy) eqn:E1.
    + apply Qltb_lt in E1. destruct (Qltb 0 dx) eqn:E2.
      * apply Qltb_lt in E2.
        destruct (ratio_range dy (dx + dy)) as [A B]; lra.
      * apply Qltb_ge in E2.
        destruct (ratio_range (- dx) (dy - dx)) as [A B]; lra.
    + apply Qltb_ge in E1. assert (N : dy < 0) by (apply Qle_lteq in E1; tauto).
      destruct (Qltb dx 0) eqn:E2.
      * apply Qltb_lt in E2.
        destruct (ratio_range (- dy) (- dx - dy)) as [A B]; try lra.
        pose proof (ratio_pos (- dy) (- dx - dy)). lra.
      * apply Qltb_ge in E2.
        destruct (ratio_range dx (dx - dy)) as [A B]; lra.
Qed.

Lemma range_add (p : Point) (r : Ring) : in_range r -> in_range (addConnection p r).
Proof.
  unfold in_range. rewrite !Forall_forall. intros H l Hl.
  apply links_add in Hl. destruct Hl as [Hl | ->].
  - now apply H.
  - simpl. apply atan2_range.
Qed.

Lemma range_remove (p : Point) (r : Ring) :
  in_range r -> in_range (removeConnection p r).
Proof.
  unfold in_range. rewrite !Forall_forall. intros H l Hl.
  apply links_remove in Hl. now apply H.
Qed.

(** ** The scan of [nextConnectionFromAngle] *)

Lemma passed_dec (a : Q) (d : Z) (l : Link) :
  (Qeq_bool (angle l) a && (d <=? 0)%Z = false /\ Qltb a (angle l) = false)
  <-> passed a d l.
Proof.
  unfold passed. rewrite andb_false_iff, Qltb_ge, Z.leb_gt.
  rewrite <- not_true_iff_false, Qeq_bool_iff. split.
  - intros [[N | P] L].
    + left. apply Qle_lteq in L. destruct L as [L | L]; [exact L |]. 
      now elim N.
    + apply Qle_lteq in L. tauto.
  - intros [L | [E P]].
    + split; [left | lra]. intros E. lra.
    + split; [now right | lra].
Qed.

(** The scan stops at the first link that is not passed. *)
Lemma scan_split (a : Q) (d : Z) (ls : list Link) :
  exists pre suf,
    ls = pre ++ suf /\ length pre = scan a d ls /\
    Forall (passed a d) pre /\
    match suf with
    | [] => True
    | l :: _ => ~ passed a d l
    end.
Proof.
  induction ls as [| l ls IH]; simpl.
  - exists [], []. repeat split; constructor.
  - destruct (Qeq_bool (angle l) a && (d <=? 0)%Z) eqn:E1.
    + exists [], (l :: ls). repeat split; [constructor |].
      intros P. apply passed_dec in P. destruct P. congruence.
    + destruct (Qltb a (angle l)) eqn:E2.
      * exists [], (l :: ls). repeat split; [constructor |].
        intros P. apply passed_dec in P. destruct P. congruence.
      * destruct IH as (pre & suf & -> & L & F & S).
        exists (l :: pre), suf. simpl. repeat split; auto.
        constructor; [| exact F]. apply passed_dec. now split.
Qed.

Lemma nth_error_end {A : Type} (pre suf : list A) :
  nth_error (pre ++ suf) (length pre) = hd_error suf.
Proof.
  rewrite nth_error_app2, Nat.sub_diag by lia. now destruct suf.
Qed.

Lemma nth_error_before {A : Type} (pre suf : list A) (a : A) :
  nth_error ((pre ++ [a]) ++ suf) (length (pre ++ [a]) - 1) = Some a.
Proof.
  rewrite length_app. simpl. rewrite Nat.add_sub, <- app_assoc.
  rewrite nth_error_app2, Nat.sub_diag by lia. reflexivity.
Qed.

(** The value of [nextConnectionFromAngle] in terms of the two parts. *)
Lemma next_forward (a : Q) (ring : Ring) (d : Z) (pre suf : list Link) :
  (0 < d)%Z -> links ring = pre ++ suf -> length pre = scan a d (links ring) ->
  nextConnectionFromAngle a ring d =
  match or_else (hd_error suf) (hd_error (pre ++ suf)) with
  | Some l => Ok (point l)
  | None => Err TypeError
  end.
Proof.
  intros Hd E L. unfold nextConnectionFromAngle.
  apply Z.ltb_lt in Hd. rewrite Hd, <- L, at_index_nat, at_index_first, E.
  now rewrite nth_error_end.
Qed.

Lemma next_backward (a : Q) (ring : Ring) (d : Z) (pre suf : list Link) :
  (d <= 0)%Z -> links ring = pre ++ suf -> length pre = scan a d (links ring) ->
  nextConnectionFromAngle a ring d =
  match or_else (hd_error (rev pre)) (hd_error (rev (pre ++ suf))) with
  | Some l => Ok (point l)
  | None => Err TypeError
  end.
Proof.
  intros Hd E L. unfold nextConnectionFromAngle.
  assert (Hd' : (0 <? d)%Z = false) by (apply Z.ltb_ge; exact Hd).
  rewrite Hd', <- L, at_index_last, E. 
  destruct pre as [| b pre] using rev_ind.
  - reflexivity.
  - rewrite (rev_app_distr pre [b]). simpl.
    replace (Z.of_nat (length (pre ++ [b])) - 1)%Z
      with (Z.of_nat (length (pre ++ [b]) - 1)).
    + now rewrite at_index_nat, nth_error_before.
    + rewrite length_app. simpl. lia.
Qed.

(** On a ring that has a link, the lookup returns the target of one of its
    links; on a ring that has none, it fails. *)
Lemma next_in_ring (a : Q) (ring : Ring) (d : Z) :
  links ring <> [] ->
  exists l, In l (links ring) /\ nextConnectionFromAngle a ring d = Ok (point l).
Proof.
  intros N. destruct (scan_split a d (links ring)) as (pre & suf & E & L & _ & _).
  destruct (Z.ltb_spec 0 d) as [Hd | Hd].
  - rewrite (next_forward a ring d pre suf Hd E L). rewrite E in *.
    destruct suf as [| l suf]; simpl.
    + destruct pre as [| l pre]; simpl; [now elim N |].
      exists l. split; [now left | reflexivity].
    + exists l. split; [| reflexivity]. apply in_or_app. right. now left.
  - rewrite (next_backward a ring d pre suf Hd E L). rewrite E in *.
    destruct pre as [| b pre] using rev_ind; simpl.
    + destruct suf as [| b suf] using rev_ind; simpl; [now elim N |].
      rewrite rev_app_distr. simpl. exists b. split; [| reflexivity].
      apply in_or_app. right. now left.
    + rewrite rev_app_distr. simpl. exists b. split; [| reflexivity].
      apply in_or_app. left. apply in_or_app. right. now left.
Qed.

Lemma next_empty (a : Q) (ring : Ring) (d : Z) :
  links ring = [] -> nextConnectionFromAngle a ring d = Err TypeError.
Proof.
  intros E. unfold nextConnectionFromAngle. rewrite E. simpl.
  destruct (0 <? d)%Z; reflexivity.
Qed.

Lemma next_ok_in (a : Q) (ring : Ring) (d : Z) (t : Point) :
  nextConnectionFromAngle a ring d = Ok t ->
  exists l, In l (links ring) /\ point l = t.
Proof.
  intros H. destruct (links ring) as [| l0 ls] eqn:E.
  - rewrite next_empty in H by exact E. discriminate.
  - destruct (next_in_ring a ring d) as (l & Hl & G).
    + rewrite E. discriminate.
    + rewrite G in H. injection H as <-. exists l. rewrite <- E. now split.
Qed.

Lemma nextConnection_ok_in (p : Reference) (ring : Ring) (d : Z) (t : Point) :
  nextConnection p ring d = Ok t ->
  exists l, In l (links ring) /\ point l = t.
Proof. destruct p; simpl; apply next_ok_in. Qed.

(** ** The angles compare as those of [Math.atan2] *)

Lemma frac_lt (a b c d : Q) :
  0 < b -> 0 < d -> (a / b < c / d <-> a * d < c * b).
Proof.
  intros Hb Hd.
  assert (Ea : a * d == a / b * (b * d)) by (field; lra).
  assert (Ec : c * b == c / d * (b * d)) by (field; lra).
  assert (Hp : 0 < b * d) by (apply Qmult_lt_0_compat; assumption).
  rewrite Ea, Ec. split.
  - intros H. apply Qmult_lt_compat_r; assumption.
  - intros H. apply Qnot_le_lt. intros N.
    apply (Qmult_le_compat_r _ _ (b * d)) in N; [lra | lra].
Qed.

(** The four axes and the origin. *)
Lemma atan2_axes :
  atan2 0 1 == 0 /\ atan2 1 0 == PI / 2 /\ atan2 0 (- (1)) == PI /\
  atan2 (- (1)) 0 == - (PI / 2) /\ atan2 0 0 == 0.
Proof. repeat split. Qed.

(** The two half planes. *)
Lemma atan2_upper (dy dx : Q) : 0 < dy -> 0 < atan2 dy dx /\ atan2 dy dx < PI.
Proof.
  intros H. unfold atan2, PI.
  assert (E0 : Qeq_bool dy 0 = false).
  { apply not_true_iff_false. rewrite Qeq_bool_iff. lra. }
  assert (E1 : Qltb 0 dy = true) by (now apply Qltb_lt).
  rewrite E0, E1. destruct (Qltb 0 dx) eqn:E2.
  - apply Qltb_lt in E2.
    destruct (ratio_range dy (dx + dy)) as [A B]; try lra.
    pose proof (ratio_pos dy (dx + dy)). lra.
  - apply Qltb_ge in E2.
    destruct (ratio_range (- dx) (dy - dx)) as [A B]; lra.
Qed.

Lemma atan2_lower (dy dx : Q) : dy < 0 -> - PI < atan2 dy dx /\ atan2 dy dx < 0.
Proof.
  intros H. unfold atan2, PI.
  assert (E0 : Qeq_bool dy 0 = false).
  { apply not_true_iff_false. rewrite Qeq_bool_iff. lra. }
  assert (E1 : Qltb 0 dy = false) by (apply Qltb_ge; lra).
  rewrite E0, E1. destruct (Qltb dx 0) eqn:E2.
  - apply Qltb_lt in E2.
    destruct (ratio_range (- dy) (- dx - dy)) as [A B]; try lra.
    pose proof (ratio_pos (- dy) (- dx - dy)). lra.
  - apply Qltb_ge in E2.
    destruct (ratio_range dx (dx - dy)) as [A B]; lra.
Qed.

Lemma atan2_flat (dy dx : Q) :
  dy == 0 -> (0 <= dx -> atan2 dy dx == 0) /\ (dx < 0 -> atan2 dy dx == PI).
Proof.
  intros H. unfold atan2. apply Qeq_bool_iff in H. rewrite H. split; intros Hx.
  - apply Qltb_ge in Hx. now rewrite Hx.
  - apply Qltb_lt in Hx. now rewrite Hx.
Qed.

(** Inside a half plane, the angle of (dx, dy) is before that of (dx', dy')
    exactly when the turn from the first to the second is counter-clockwise
    (their cross product is positive). *)
Lemma atan2_order_upper (dy dx dy' dx' : Q) :
  0 < dy -> 0 < dy' ->
  (atan2 dy dx < atan2 dy' dx' <-> 0 < dx * dy' - dy * dx').
Proof.
  intros H H'. unfold atan2.
  assert (E0 : Qeq_bool dy 0 = false).
  { apply not_true_iff_false. rewrite Qeq_bool_iff. lra. }
  assert (E0' : Qeq_bool dy' 0 = false).
  { apply not_true_iff_false. rewrite Qeq_bool_iff. lra. }
  assert (E1 : Qltb 0 dy = true) by (now apply Qltb_lt).
  assert (E1' : Qltb 0 dy' = true) by (now apply Qltb_lt).
  rewrite E0, E0', E1, E1'.
  destruct (Qltb 0 dx) eqn:E2, (Qltb 0 dx') eqn:E2';
    try apply Qltb_lt in E2; try apply Qltb_lt in E2';
    try apply Qltb_ge in E2; try apply Qltb_ge in E2'.
  - rewrite frac_lt by lra. split; intros G; lra.
  - destruct (ratio_range dy (dx + dy)) as [A B]; try lra.
    destruct (ratio_range (- dx') (dy' - dx')) as [A' B']; try lra.
    assert (P1 : 0 < dx * dy') by (apply Qmult_lt_0_compat; assumption).
    assert (P2 : 0 <= dy * (- dx')) by (apply Qmult_le_0_compat; lra).
    split; intros G; lra.
  - destruct (ratio_range dy' (dx' + dy')) as [A B]; try lra.
    destruct (ratio_range (- dx) (dy - dx)) as [A' B']; try lra.
    assert (P1 : 0 < dy * dx') by (apply Qmult_lt_0_compat; assumption).
    assert (P2 : 0 <= (- dx) * dy') by (apply Qmult_le_0_compat; lra).
    split; intros G; lra.
  - assert (F : 1 + - dx / (dy - dx) < 1 + - dx' / (dy' - dx')
                <-> - dx / (dy - dx) < - dx' / (dy' - dx')) by (split; lra).
    rewrite F, frac_lt by lra. split; intros G; lra.
Qed.

Lemma atan2_order_lower (dy dx dy' dx' : Q) :
  dy < 0 -> dy' < 0 ->
  (atan2 dy dx < atan2 dy' dx' <-> 0 < dx * dy' - dy * dx').
Proof.
  intros H H'. unfold atan2.
  assert (E0 : Qeq_bool dy 0 = false).
  { apply not_true_iff_false. rewrite Qeq_bool_iff. lra. }
  assert (E0' : Qeq_bool dy' 0 = false).
  { apply not_true_iff_false. rewrite Qeq_bool_iff. lra. }
  assert (E1 : Qltb 0 dy = false) by (apply Qltb_ge; lra).
  assert (E1' : Qltb 0 dy' = false) by (apply Qltb_ge; lra).
  rewrite E0, E0', E1, E1'.
  destruct (Qltb dx 0) eqn:E2, (Qltb dx' 0) eqn:E2';
    try apply Qltb_lt in E2; try apply Qltb_lt in E2';
    try apply Qltb_ge in E2; try apply Qltb_ge in E2'.
  - assert (F : - (2) + - dy / (- dx - dy) < - (2) + - dy' / (- dx' - dy')
                <-> - dy / (- dx - dy) < - dy' / (- dx' - dy')) by (split; lra).
    rewrite F, frac_lt by lra. split; intros G; lra.
  - destruct (ratio_range (- dy) (- dx - dy)) as [A B]; try lra.
    destruct (ratio_range dx' (dx' - dy')) as [A' B']; try lra.
    assert (P1 : 0 < (- dx) * (- dy')) by (apply Qmult_lt_0_compat; lra).
    assert (P2 : 0 <= (- dy) * dx') by (apply Qmult_le_0_compat; lra).
    split; intros G; lra.
  - destruct (ratio_range (- dy') (- dx' - dy')) as [A B]; try lra.
    destruct (ratio_range dx (dx - dy)) as [A' B']; try lra.
    assert (P1 : 0 < (- dy) * (- dx')) by (apply Qmult_lt_0_compat; lra).
    assert (P2 : 0 <= dx * (- dy')) by (apply Qmult_le_0_compat; lra).
    split; intros G; lra.
  - assert (F : - (1) + dx / (dx - dy) < - (1) + dx' / (dx' - dy')
                <-> dx / (dx - dy) < dx' / (dx' - dy')) by (split; lra).
    rewrite F, frac_lt by lra. split; intros G; lra.
Qed.

(** ** What the ring lookup returns *)

Lemma sorted_app (pre suf : list Link) :
  sorted_links (pre ++ suf) ->
  sorted_links pre /\ sorted_links suf /\
  forall a b, In a pre -> In b suf -> angle a <= angle b.
Proof.
  unfold sorted_links. induction pre as [| l pre IH]; simpl; intros H.
  - repeat split; [constructor | exact H | intros a b []].
  - inversion H as [| ? ? Hs Hf]; subst.
    destruct (IH Hs) as (S1 & S2 & S3). rewrite Forall_forall in Hf.
    repeat split.
    + constructor; [exact S1 |]. rewrite Forall_forall. intros b Hb.
      apply Hf. apply in_or_app. now left.
    + exact S2.
    + intros a b [<- | Ha] Hb.
      * apply Hf. apply in_or_app. now right.
      * now apply S3.
Qed.

Lemma sorted_head (l : Link) (ls : list Link) (l' : Link) :
  sorted_links (l :: ls) -> In l' (l :: ls) -> angle l <= angle l'.
Proof.
  intros H [<- | Hl]; [apply Qle_refl |].
  inversion H as [| ? ? _ Hf]; subst. rewrite Forall_forall in Hf. now apply Hf.
Qed.

Lemma next_after_spec (a : Q) (ring : Ring) :
  links ring <> [] -> sorted_ring ring ->
  exists t, nextConnectionFromAngle a ring 1 = Ok t /\
            next_after a (links ring) t.
Proof.
  intros N S. destruct (scan_split a 1 (links ring)) as (pre & suf & E & L & F & H).
  rewrite (next_forward a ring 1 pre suf eq_refl E L).
  unfold sorted_ring in S. rewrite E in *. rewrite Forall_forall in F.
  assert (P : forall l, In l pre -> angle l <= a).
  { intros l Hl. destruct (F l Hl) as [G | [G _]]; lra. }
  destruct (sorted_app _ _ S) as (S1 & S2 & S3).
  destruct suf as [| l suf]; simpl.
  - destruct pre as [| l pre]; [now elim N |]. simpl.
    exists (point l). split; [reflexivity |]. right. split.
    + intros l' Hl'. rewrite app_nil_r in Hl'. apply P in Hl'. lra.
    + now exists l.
  - exists (point l). split; [reflexivity |]. left. exists l.
    assert (G : a < angle l).
    { apply Qnot_le_lt. intros G. apply H. unfold passed.
      apply Qle_lteq in G. destruct G as [G | G]; [now left |].
      right. split; [exact G | reflexivity]. }
    repeat split; [apply in_or_app; right; now left | exact G |].
    intros l' Hl' G'. apply in_app_or in Hl'. destruct Hl' as [Hl' | Hl'].
    + apply P in Hl'. lra.
    + now apply (sorted_head _ _ _ S2).
Qed.

Lemma next_before_spec (a : Q) (ring : Ring) :
  links ring <> [] -> sorted_ring ring ->
  exists t, nextConnectionFromAngle a ring (-1) = Ok t /\
            next_before a (links ring) t.
Proof.
  intros N S.
  destruct (scan_split a (-1) (links ring)) as (pre & suf & E & L & F & H).
  assert (Hd : (-1 <= 0)%Z) by lia.
  rewrite (next_backward a ring (-1) pre suf Hd E L).
  unfold sorted_ring in S. rewrite E in *. rewrite Forall_forall in F.
  assert (P : forall l, In l pre -> angle l < a).
  { intros l Hl. destruct (F l Hl) as [G | [_ G]]; [exact G | lia]. }
  destruct (sorted_app _ _ S) as (S1 & S2 & S3).
  assert (Q : forall l, In l suf -> a <= angle l).
  { destruct suf as [| l0 suf]; [intros l [] |]. intros l Hl.
    apply Qle_trans with (angle l0); [| now apply (sorted_head _ _ _ S2)].
    apply Qnot_lt_le. intros G. apply H. now left. }
  destruct pre as [| b pre _] using rev_ind; simpl.
  - destruct suf as [| b suf _] using rev_ind; [now elim N |].
    rewrite rev_app_distr. simpl.
    exists (point b). split; [reflexivity |]. right. split.
    + intros l' Hl'. apply Q in Hl'. lra.
    + exists b. rewrite rev_app_distr. now split.
  - rewrite (rev_app_distr pre [b]). simpl.
    exists (point b). split; [reflexivity |]. left. exists b.
    assert (Hb : In b (pre ++ [b])) by (apply in_or_app; right; now left).
    repeat split; [apply in_or_app; now left | now apply P |].
    intros l' Hl' G'. apply in_app_or in Hl'. destruct Hl' as [Hl' | Hl'].
    + apply in_app_or in Hl'. destruct Hl' as [Hl' | [<- | []]].
      * destruct (sorted_app _ _ S1) as (_ & _ & S4). apply S4; [exact Hl' | now left].
      * apply Qle_refl.
    + apply Q in Hl'. lra.
Qed.

(** ** The invariant under [connect] and [disconnect] *)

Lemma ring_ok_add (t : Point) (r : Ring) : ring_ok r -> ring_ok (addConnection t r).
Proof.
  intros (S & A & R). repeat split;
    [apply sorted_add | now apply angles_add | now apply range_add].
Qed.

Lemma ring_ok_remove (t : Point) (r : Ring) :
  ring_ok r -> ring_ok (removeConnection t r).
Proof.
  intros (S & A & R). repeat split;
    [now apply sorted_remove | now apply angles_remove | now apply range_remove].
Qed.

Lemma connect_has_link (p q : Point) (c c' : Connections) (k : Key) (l : Link) :
  connect p q c = Ok c' ->
  has_link c' k l -> has_link c k l \/ point l = q \/ point l = p.
Proof.
  rewrite connect_update.
  destruct (update (id p) (addConnection q) c) as [c1 |] eqn:H1; simpl;
    [| discriminate].
  intros H2 Hl. apply (has_link_add _ _ _ _ _ _ H2) in Hl.
  destruct Hl as [Hl | (_ & r & _ & ->)]; [| now right; right].
  apply (has_link_add _ _ _ _ _ _ H1) in Hl.
  destruct Hl as [Hl | (_ & r & _ & ->)]; [now left | now right; left].
Qed.

Lemma held_closed (U : list Point) (c : Connections) (p : Point) :
  coherent U -> closed U c -> In p U -> held c p.
Proof.
  intros Hc Hcl Hp k r l G Hl.
  assert (Ht : In (point l) U) by (apply (Hcl k); now exists r).
  split; intros E.
  - f_equal. apply Hc; auto.
  - assert (E' : point l = p) by (apply Hc; auto). now rewrite E'.
Qed.

Ltac split_inv := unfold Inv; split; [| split; [| split; [| split]]].

Lemma Inv_connect (U : list Point) (p q : Point) (c c' : Connections) :
  In p U -> In q U -> Inv U c -> connect p q c = Ok c' -> Inv U c'.
Proof.
  intros Hp Hq (N & K & C & S & R) H. unfold Inv.
  rewrite (connect_keys _ _ _ _ H). split_inv.
  - exact N.
  - intros k. unfold keyed in K. rewrite (connect_keys _ _ _ _ H). apply K.
  - intros k l Hl. apply (connect_has_link _ _ _ _ _ _ H) in Hl.
    destruct Hl as [Hl | [-> | ->]]; [now apply (C k) | exact Hq | exact Hp].
  - now apply (connect_symmetric _ _ _ _ S H).
  - apply (connect_each ring_ok _ _ _ _ ring_ok_add R H).
Qed.

Lemma Inv_disconnect (U : list Point) (p q : Point) (c c' : Connections) :
  coherent U -> In p U -> In q U -> Inv U c -> disconnect p q c = Ok c' ->
  Inv U c'.
Proof.
  intros Hc Hp Hq (N & K & C & S & R) H. unfold Inv.
  rewrite (disconnect_keys _ _ _ _ H). split_inv.
  - exact N.
  - intros k. unfold keyed in K. rewrite (disconnect_keys _ _ _ _ H). apply K.
  - intros k l Hl. apply (disconnect_has_link _ _ _ _ _ _ H) in Hl.
    apply (C k). tauto.
  - apply (disconnect_symmetric _ _ _ _ (held_closed _ _ _ Hc C Hp)
                                (held_closed _ _ _ Hc C Hq) S H).
  - apply (disconnect_each ring_ok _ _ _ _ ring_ok_remove R H).
Qed.

Lemma Inv_incl (U V : list Point) (c : Connections) :
  incl U V -> Inv U c -> Inv V c.
Proof.
  intros I (N & K & C & S & R). split_inv; auto.
  - intros k Hk. apply K in Hk. apply in_map_iff in Hk.
    destruct Hk as (p & <- & Hp). apply in_map. now apply I.
  - intros k l Hl. apply I. now apply (C k).
Qed.

Lemma Inv_empty (pts : list Point) : Inv pts (emptyConnections pts).
Proof.
  split_inv.
  - apply keys_empty_nodup.
  - intros k. apply keys_empty_in.
  - intros k l (r & G & Hl). apply get_empty in G.
    destruct G as (p & _ & -> & _). destruct Hl.
  - intros p q (r & l & G & Hl & _). apply get_empty in G.
    destruct G as (p' & _ & -> & _). destruct Hl.
  - intros k r H. apply get_empty in H. destruct H as (p & _ & -> & _).
    repeat split; constructor.
Qed.

Lemma Inv_merge (L R : list Point) (c d : Connections) :
  (forall a b, In a L -> In b R -> id a <> id b) ->
  Inv L c -> Inv R d -> Inv (L ++ R) (mergeConnections c d).
Proof.
  intros Dj (Nc & Kc & Cc & Sc & Rc) (Nd & Kd & Cd & Sd & Rd).
  assert (G : forall k r, get (mergeConnections c d) k = Some r ->
              get d k = Some r \/ (get d k = None /\ get c k = Some r)).
  { intros k r. rewrite get_merge by assumption.
    destruct (get d k); [now left | now right]. }
  split_inv.
  - apply keys_merge_nodup.
  - intros k Hk. apply keys_merge_in in Hk. rewrite map_app, in_app_iff.
    destruct Hk as [Hk | Hk]; [left; now apply Kc | right; now apply Kd].
  - intros k l (r & Hr & Hl). apply in_or_app.
    destruct (G _ _ Hr) as [Hd | [_ Hc]].
    + right. apply (Cd k). now exists r.
    + left. apply (Cc k). now exists r.
  - intros p q (r & l & Hr & Hl & E).
    destruct (G _ _ Hr) as [Hd | [Hn Hc]].
    + destruct (Sd p q) as (r' & l' & Hr' & Hl' & E'); [now exists r, l |].
      exists r', l'. repeat split; auto.
      rewrite get_merge by assumption. now rewrite Hr'.
    + destruct (Sc p q) as (r' & l' & Hr' & Hl' & E'); [now exists r, l |].
      exists r', l'. repeat split; auto.
      rewrite get_merge by assumption.
      destruct (get d (id q)) as [rd |] eqn:Gd; [| exact Hr'].
      exfalso. apply get_some_keys in Gd. apply Kd in Gd.
      apply in_map_iff in Gd. destruct Gd as (b & Eb & Hb).
      assert (Hq : In (point l) L) by (apply (Cc (id p)); now exists r).
      apply (Dj _ _ Hq Hb). congruence.
  - intros k r H.
    destruct (G _ _ H) as [Hd | [_ Hc]]; [now apply (Rd k) | now apply (Rc k)].
Qed.

(** ** The invariant along the builder *)

Arguments belowLine : simpl never.
Arguments aboveLine : simpl never.
Arguments inCircle : simpl never.
Arguments connect : simpl never.
Arguments disconnect : simpl never.
Arguments nextConnection : simpl never.
Arguments nextConnectionAbove : simpl never.
Arguments findCandidate : simpl never.
Arguments getRing : simpl never.

Lemma bind_ok {A B : Type} (r : Result A) (k : A -> Result B) (v : B) :
  bind r k = Ok v -> exists a, r = Ok a /\ k a = Ok v.
Proof. destruct r as [a | e]; simpl; [now exists a | discriminate]. Qed.

Ltac bind_inv H :=
  let a := fresh "v" in
  let Ha := fresh "Hv" in
  apply bind_ok in H; destruct H as (a & Ha & H).

Lemma getRing_ok (c : Connections) (k : Key) (r : Ring) :
  getRing c k = Ok r -> get c k = Some r.
Proof. unfold getRing. destruct (get c k); [intros [= ->]; reflexivity | discriminate]. Qed.

Lemma next_closed (U : list Point) (c : Connections) (k : Key) (ring : Ring)
      (ref : Reference) (d : Z) (t : Point) :
  closed U c -> getRing c k = Ok ring -> nextConnection ref ring d = Ok t ->
  In t U.
Proof.
  intros C G H. apply getRing_ok in G. apply nextConnection_ok_in in H.
  destruct H as (l & Hl & <-). apply (C k). now exists ring.
Qed.

Lemma above_closed (U : list Point) (c : Connections) (k : Key) (ring : Ring)
      (p : Point) (d : Z) (line : Point * Point) (o : option Point) :
  closed U c -> getRing c k = Ok ring ->
  nextConnectionAbove p ring d line = Ok o ->
  forall t, o = Some t -> In t U.
Proof.
  intros C G H t ->. unfold nextConnectionAbove in H. bind_inv H.
  destruct (aboveLine v line); [| discriminate]. injection H as <-.
  eapply next_closed; eauto.
Qed.

Lemma lowerTangent_closed (U : list Point) (c : Connections) (fuel : nat) :
  closed U c ->
  forall left right nextLeft nextRight l r,
    In left U -> In right U -> In nextLeft U -> In nextRight U ->
    lowerTangent fuel c left right nextLeft nextRight = Ok (l, r) ->
    In l U /\ In r U.
Proof.
  intros C. induction fuel as [| fuel IH]; intros left right nextLeft nextRight l r
    Hl Hr Hnl Hnr; simpl;
    destruct (belowLine nextLeft (left, right) || belowLine nextRight (left, right));
    try discriminate; try (intros [= <- <-]; now split).
  destruct (belowLine nextLeft (left, right)); intros H; bind_inv H; bind_inv H.
  - apply (IH _ _ _ _ _ _ Hnl Hr (next_closed _ _ _ _ _ _ _ C Hv Hv0) Hnr H).
  - apply (IH _ _ _ _ _ _ Hl Hnr Hnl (next_closed _ _ _ _ _ _ _ C Hv Hv0) H).
Qed.

Lemma refine_inv (U : list Point) (fuel : nat) :
  coherent U ->
  forall c pivot d left right cand nc c' cand',
    Inv U c -> In pivot U -> In cand U -> (forall n, nc = Some n -> In n U) ->
    refine fuel c pivot d left right cand nc = Ok (c', cand') ->
    Inv U c' /\ In cand' U.
Proof.
  intros Hc. induction fuel as [| fuel IH];
    intros c pivot d left right cand nc c' cand' I Hp Hcand Hn; simpl;
    destruct nc as [n |]; try (intros [= <- <-]; now split);
    destruct (inCircle n (left, right, cand));
    try discriminate; try (intros [= <- <-]; now split).
  intros H. bind_inv H. bind_inv H. bind_inv H.
  assert (I' : Inv U v) by (apply (Inv_disconnect U pivot cand c v Hc Hp Hcand I Hv)).
  eapply IH; [exact I' | exact Hp | now apply Hn | | exact H].
  destruct I' as (_ & _ & C & _). eapply above_closed; eauto.
Qed.

Lemma findCandidate_inv (U : list Point) (fuel : nat) (c : Connections)
      (pivot other : Point) (d : Z) (left right : Point)
      (c' : Connections) (o : option Point) :
  coherent U -> Inv U c -> In pivot U ->
  findCandidate fuel c pivot other d left right = Ok (c', o) ->
  Inv U c' /\ forall t, o = Some t -> In t U.
Proof.
  intros Hc I Hp H. unfold findCandidate in H. bind_inv H. bind_inv H.
  pose proof I as (_ & _ & C & _).
  destruct v0 as [cand |].
  - bind_inv H. bind_inv H. destruct v1 as [c1 cand1]. simpl in H.
    injection H as <- <-.
    assert (Hcand : In cand U)
      by (apply (above_closed U c _ _ _ _ _ _ C Hv Hv0 cand eq_refl)).
    assert (Hnext : forall n, v0 = Some n -> In n U)
      by (apply (above_closed U c _ _ _ _ _ _ C Hv Hv1)).
    destruct (refine_inv U fuel Hc c pivot d left right cand v0 c1 cand1
                         I Hp Hcand Hnext Hv2) as [I1 H1].
    split; [exact I1 |]. now intros t [= <-].
  - injection H as <- <-. split; [exact I | discriminate].
Qed.

Lemma mergeLoop_inv (U : list Point) (fuel : nat) :
  coherent U ->
  forall c left right c',
    Inv U c -> In left U -> In right U ->
    mergeLoop fuel c left right = Ok c' -> Inv U c'.
Proof.
  intros Hc. induction fuel as [| fuel IH]; intros c left right c' I Hl Hr;
    simpl; [discriminate |].
  intros H. bind_inv H. destruct v as [c1 lc].
  bind_inv H. destruct v as [c2 rc].
  destruct (findCandidate_inv U fuel c left right 1 left right c1 lc Hc I Hl Hv)
    as [I1 L1].
  destruct (findCandidate_inv U fuel c1 right left (-1) left right c2 rc Hc I1 Hr Hv0)
    as [I2 L2].
  destruct lc as [lc |], rc as [rc |].
  - destruct (inCircle rc (lc, left, right)); bind_inv H.
    + eapply IH; [| | | exact H]; [eapply Inv_connect; [| | exact I2 | exact Hv1] | |]; auto.
    + eapply IH; [| | | exact H]; [eapply Inv_connect; [| | exact I2 | exact Hv1] | |]; auto.
  - bind_inv H.
    eapply IH; [| | | exact H]; [eapply Inv_connect; [| | exact I2 | exact Hv1] | |]; auto.
  - bind_inv H.
    eapply IH; [| | | exact H]; [eapply Inv_connect; [| | exact I2 | exact Hv1] | |]; auto.
  - now injection H as <-.
Qed.

Arguments mergeHalves : simpl never.
Arguments emptyConnections : simpl never.

Lemma elem_ok {A : Type} (o : option A) (a : A) : elem o = Ok a -> o = Some a.
Proof. destruct o; simpl; [intros [= ->]; reflexivity | discriminate]. Qed.

Lemma mergeHalves_inv (fuel : nat) (L R : list Point) (cl cr c : Connections) :
  coherent (L ++ R) ->
  (forall a b, In a L -> In b R -> id a <> id b) ->
  Inv L cl -> Inv R cr ->
  mergeHalves fuel L R cl cr = Ok c -> Inv (L ++ R) c.
Proof.
  intros Hc Dj Il Ir H. unfold mergeHalves in H.
  pose proof (Inv_merge L R cl cr Dj Il Ir) as I.
  pose proof I as (_ & _ & C & _).
  bind_inv H. bind_inv H. bind_inv H. bind_inv H. bind_inv H. bind_inv H.
  bind_inv H. destruct v5 as [left right]. simpl in H. bind_inv H.
  assert (Hl : In v (L ++ R)).
  { apply elem_ok, at_index_in in Hv. apply in_or_app. now left. }
  assert (Hr : In v0 (L ++ R)).
  { apply elem_ok, at_index_in in Hv0. apply in_or_app. now right. }
  destruct (lowerTangent_closed (L ++ R) _ fuel C v v0 v2 v4 left right Hl Hr
              (next_closed _ _ _ _ _ _ _ C Hv1 Hv2)
              (next_closed _ _ _ _ _ _ _ C Hv3 Hv4) Hv5) as [Hl' Hr'].
  apply (mergeLoop_inv (L ++ R) fuel Hc v5 left right c
           (Inv_connect _ _ _ _ _ Hl' Hr' I Hv6) Hl' Hr' H).
Qed.

(** The three shapes of a call. *)
Lemma delaunay_short (fuel : nat) (pts : list Point) :
  (length pts < 2)%nat -> delaunay fuel pts = (pts, Err InsufficientPoints).
Proof.
  intros H. apply Nat.ltb_lt in H. destruct fuel; simpl; now rewrite H.
Qed.

Lemma delaunay_long (fuel : nat) (pts : list Point) :
  (2 <= length pts)%nat ->
  delaunay fuel pts =
  (sort x pts,
   match sort x pts with
   | [p; q] => connect p q (emptyConnections (sort x pts))
   | [p; q; r] =>
       connections <- connect p q (emptyConnections (sort x pts)) ;;
       connections <- connect q r connections ;;
       connect r p connections
   | _ =>
       match fuel with
       | O => Err OutOfFuel
       | S fuel' =>
           let mid := (length (sort x pts) / 2)%nat in
           leftConnections <- snd (delaunay fuel' (firstn mid (sort x pts))) ;;
           rightConnections <- snd (delaunay fuel' (skipn mid (sort x pts))) ;;
           mergeHalves fuel' (firstn mid (sort x pts)) (skipn mid (sort x pts))
                       leftConnections rightConnections
       end
   end).
Proof.
  intros H. apply Nat.ltb_ge in H. destruct fuel; simpl; rewrite H; reflexivity.
Qed.

Lemma coherent_incl (U V : list Point) : incl U V -> coherent V -> coherent U.
Proof. intros I H a b Ha Hb. apply H; now apply I. Qed.

Lemma nodup_app_disjoint {A : Type} (l1 l2 : list A) :
  NoDup (l1 ++ l2) ->
  NoDup l1 /\ NoDup l2 /\ forall a b, In a l1 -> In b l2 -> a <> b.
Proof.
  induction l1 as [| a l1 IH]; simpl; intros H.
  - repeat split; [constructor | exact H | intros a b []].
  - inversion H as [| ? ? Hn Hd]; subst. destruct (IH Hd) as (N1 & N2 & D).
    repeat split.
    + constructor; [| exact N1]. intros Ha. apply Hn, in_or_app. now left.
    + exact N2.
    + intros a' b [<- | Ha'] Hb.
      * intros ->. apply Hn, in_or_app. now right.
      * now apply D.
Qed.

Lemma delaunay_inv (fuel : nat) :
  forall pts pts' c,
    coherent pts -> NoDup (map id pts) ->
    delaunay fuel pts = (pts', Ok c) -> Inv pts c.
Proof.
  induction fuel as [| fuel IH]; intros pts pts' c Hc Hn H;
    (destruct (Nat.lt_ge_cases (length pts) 2) as [Hs | Hs];
     [rewrite delaunay_short in H by exact Hs; discriminate |]);
    rewrite delaunay_long in H by exact Hs;
    cbv zeta in H;
    set (mid := (length (sort x pts) / 2)%nat) in *;
    clearbody mid;
    pose proof (sort_perm Point x pts) as P;
    pose proof (sort_length Point x pts) as Hlen;
    (assert (I : incl (sort x pts) pts)
      by (intros a; apply Permutation_in, P));
    apply (Inv_incl (sort x pts) pts c I);
    (assert (Hc' : coherent (sort x pts)) by (apply (coherent_incl _ _ I Hc)));
    (assert (Hn' : NoDup (map id (sort x pts)))
      by (apply (Permutation_NoDup (Permutation_map id (Permutation_sym P)) Hn)));
    injection H as _ H;
    pose proof (Inv_empty (sort x pts)) as I0;
    destruct (sort x pts) as [| p [| q [| r [| t rest]]]] eqn:E;
    try (simpl in Hlen; lia); try discriminate.
  - eapply Inv_connect; [| | exact I0 | exact H]; simpl; auto.
  - bind_inv H. bind_inv H.
    eapply Inv_connect; [| | | exact H]; simpl; auto.
    eapply Inv_connect; [| | | exact Hv0]; simpl; auto.
    eapply Inv_connect; [| | exact I0 | exact Hv]; simpl; auto.
  - eapply Inv_connect; [| | exact I0 | exact H]; simpl; auto.
  - bind_inv H. bind_inv H.
    eapply Inv_connect; [| | | exact H]; simpl; auto.
    eapply Inv_connect; [| | | exact Hv0]; simpl; auto.
    eapply Inv_connect; [| | exact I0 | exact Hv]; simpl; auto.
  - bind_inv H. bind_inv H.
    set (s := p :: q :: r :: t :: rest) in *.
    pose proof (firstn_skipn mid s) as Es.
    rewrite <- Es in Hc', Hn' |- *. rewrite map_app in Hn'.
    destruct (nodup_app_disjoint _ _ Hn') as (N1 & N2 & D).
    apply (mergeHalves_inv fuel _ _ v v0 c Hc'); auto.
    + intros a b Ha Hb. apply D; now apply in_map.
    + destruct (delaunay fuel (firstn mid s)) as [s1 r1] eqn:E1. simpl in Hv.
      subst r1.
      apply (IH _ _ _ (coherent_incl _ _ (incl_appl _ (incl_refl _)) Hc') N1 E1).
    + destruct (delaunay fuel (skipn mid s)) as [s2 r2] eqn:E2. simpl in Hv0.
      subst r2.
      apply (IH _ _ _ (coherent_incl _ _ (incl_appr _ (incl_refl _)) Hc') N2 E2).
Qed.

(** ** General position *)

Lemma pairs_ok_cons (P : Point -> Point -> bool) (a : Point) (l : list Point) :
  pairs_ok P (a :: l) = true ->
  (forall b, In b l -> P a b = true) /\ pairs_ok P l = true.
Proof.
  simpl. rewrite andb_true_iff, forallb_forall. tauto.
Qed.

Lemma pairs_ok_nodup {K : Type} (f : Point -> K) (P : Point -> Point -> bool)
      (l : list Point) :
  (forall a b, P a b = true -> f a <> f b) ->
  pairs_ok P l = true -> NoDup (map f l).
Proof.
  intros HP. induction l as [| a l IH]; intros H; simpl.
  - constructor.
  - apply pairs_ok_cons in H. destruct H as [Ha Hl]. constructor.
    + intros Hi. apply in_map_iff in Hi. destruct Hi as (b & E & Hb).
      apply (HP a b (Ha b Hb)). now symmetry.
    + now apply IH.
Qed.

Lemma general_position_keys (pts : list Point) :
  general_position pts = true -> NoDup (map id pts).
Proof.
  unfold general_position. rewrite !andb_true_iff. intros [[H _] _].
  revert H. apply pairs_ok_nodup. intros a b H E.
  apply negb_true_iff in H. apply id_coincide in E. destruct E as [E _].
  apply Qeq_bool_iff in E. congruence.
Qed.

Lemma distinct_objects_oids (pts : list Point) :
  distinct_objects pts = true -> NoDup (map oid pts).
Proof.
  apply pairs_ok_nodup. intros a b H E.
  apply negb_true_iff in H. apply same_oid in E. congruence.
Qed.

Lemma nodup_map_inj {A K : Type} (f : A -> K) (l : list A) (a b : A) :
  NoDup (map f l) -> In a l -> In b l -> f a = f b -> a = b.
Proof.
  induction l as [| c l IH]; simpl; intros N Ha Hb E; [destruct Ha |].
  inversion N as [| ? ? Hn Hd]; subst.
  destruct Ha as [-> | Ha], Hb as [-> | Hb].
  - reflexivity.
  - exfalso. apply Hn. rewrite E. now apply in_map.
  - exfalso. apply Hn. rewrite <- E. now apply in_map.
  - now apply IH.
Qed.

Lemma general_position_coherent (pts : list Point) :
  general_position pts = true -> distinct_objects pts = true -> coherent pts.
Proof.
  intros G D a b Ha Hb [E | E].
  - apply (nodup_map_inj oid pts a b (distinct_objects_oids pts D) Ha Hb E).
  - apply (nodup_map_inj id pts a b (general_position_keys pts G) Ha Hb E).
Qed.

Lemma delaunay_Inv (fuel : nat) (pts pts' : list Point) (c : Connections) :
  general_position pts = true -> distinct_objects pts = true ->
  delaunay fuel pts = (pts', Ok c) -> Inv pts c.
Proof.
  intros G D H.
  apply (delaunay_inv fuel pts pts' c (general_position_coherent pts G D)
                      (general_position_keys pts G) H).
Qed.

(** ** One link per target *)

Lemma unique_remove (t : Point) (r : Ring) :
  unique_targets r -> unique_targets (removeConnection t r).
Proof.
  unfold unique_targets, removeConnection. simpl.
  induction (links r) as [| l ls IH]; simpl; intros H.
  - constructor.
  - inversion H as [| ? ? Hn Hd]; subst.
    destruct (negb (same (point l) t)); simpl; [| now apply IH].
    constructor; [| now apply IH].
    intros Hi. apply Hn. apply in_map_iff in Hi.
    destruct Hi as (l' & E & Hl'). apply filter_In in Hl'.
    rewrite <- E. apply (in_map (fun l => id (point l))). tauto.
Qed.

Lemma unique_add (t : Point) (r : Ring) :
  unique_targets r ->
  (forall l, In l (links r) -> id (point l) <> id t) ->
  unique_targets (addConnection t r).
Proof.
  unfold unique_targets, addConnection. simpl. intros H N.
  apply (Permutation_NoDup
           (l := map (fun l => id (point l))
                     (mkLink t (angle_from (center r) t) :: links r))).
  - apply Permutation_map. symmetry.
    rewrite sort_perm. symmetry. apply Permutation_cons_append.
  - simpl. constructor; [| exact H].
    intros Hi. apply in_map_iff in Hi. destruct Hi as (l & E & Hl).
    now apply (N l Hl).
Qed.

Lemma update_each_at (P : Ring -> Prop) (k : Key) (f : Ring -> Ring)
      (c c' : Connections) :
  (forall r, get c k = Some r -> P r -> P (f r)) ->
  each_ring P c -> update k f c = Ok c' -> each_ring P c'.
Proof.
  intros Hf Hc H k' r'. rewrite (update_get _ _ _ _ k' H).
  destruct (key_eqb k k') eqn:E.
  - apply key_eqb_eq in E. subst k'. destruct (get c k) as [r |] eqn:G; simpl.
    + intros [= <-]. apply Hf; [reflexivity |]. now apply (Hc k).
    + discriminate.
  - apply Hc.
Qed.

Lemma connect_unique (p q : Point) (c c' : Connections) :
  each_ring unique_targets c ->
  id p <> id q -> ~ linked c p q -> ~ linked c q p ->
  connect p q c = Ok c' -> each_ring unique_targets c'.
Proof.
  intros U N Lpq Lqp. rewrite connect_update.
  destruct (update (id p) (addConnection q) c) as [c1 |] eqn:H1; simpl;
    [| discriminate].
  intros H2.
  assert (U1 : each_ring unique_targets c1).
  { apply (update_each_at unique_targets _ _ _ _) with (3 := H1); [| exact U].
    intros r G Ur. apply unique_add; [exact Ur |].
    intros l Hl E. apply Lpq. now exists r, l. }
  apply (update_each_at unique_targets _ _ _ _) with (3 := H2); [| exact U1].
  intros r G Ur. apply unique_add; [exact Ur |].
  intros l Hl E. apply Lqp.
  rewrite (update_get _ _ _ _ (id q) H1) in G.
  apply key_eqb_neq in N. rewrite N in G. now exists r, l.
Qed.

(** ** Checking a map entry by entry *)

Lemma get_in (c : Connections) (k : Key) (r : Ring) :
  get c k = Some r -> exists k', In (k', r) c.
Proof.
  induction c as [| [k0 r0] c IH]; simpl; [discriminate |].
  destruct (key_eqb k0 k).
  - intros [= <-]. exists k0. now left.
  - intros H. destruct (IH H) as (k' & Hk). exists k'. now right.
Qed.

Lemma each_ring_forall (P : Ring -> Prop) (c : Connections) :
  Forall (fun kr => P (snd kr)) c -> each_ring P c.
Proof.
  intros F k r G. apply get_in in G. destruct G as (k' & Hk).
  rewrite Forall_forall in F. apply (F (k', r) Hk).
Qed.

(** ** A map without edges *)

Lemma empty_rings_ok (pts : list Point) : each_ring ring_ok (emptyConnections pts).
Proof. destruct (Inv_empty pts) as (_ & _ & _ & _ & R). exact R. Qed.

Lemma empty_rings_unique (pts : list Point) :
  each_ring unique_targets (emptyConnections pts).
Proof.
  intros k r G. apply get_empty in G. destruct G as (p & _ & -> & _). constructor.
Qed.

Lemma empty_unlinked (pts : list Point) (p q : Point) :
  ~ linked (emptyConnections pts) p q.
Proof.
  intros (r & l & G & Hl & _). apply get_empty in G.
  destruct G as (p' & _ & -> & _). destruct Hl.
Qed.


(** ** Determinants *)

Ltac expand_det :=
  unfold det, Cofactor.det, determinant;
  cbn [length];
  repeat match goal with
         | |- context [Permutations.S ?n] =>
             let v := eval vm_compute in (Permutations.S n) in
             change (Permutations.S n) with v
         | |- context [perms ?l] =>
             let v := eval vm_compute in (perms l) in
             change (perms l) with v
         end;
  cbn [fold_left fold_right map seq entry nth fst snd Nat.sub tl app
       Cofactor.det_rows Cofactor.drop_col firstn skipn
       Nat.add length Qsum Qprod];
  repeat match goal with
         | |- context [sgn ?s] =>
             let v := eval vm_compute in (sgn s) in
             change (sgn s) with v
         | |- context [Cofactor.sign ?i] =>
             let v := eval vm_compute in (Cofactor.sign i) in
             change (Cofactor.sign i) with v
         end.

Lemma square_3 (M : Matrix) :
  square 3 M ->
  exists a1 a2 a3 b1 b2 b3 c1 c2 c3,
    M = [[a1; a2; a3]; [b1; b2; b3]; [c1; c2; c3]].
Proof.
  intros [L F].
  destruct M as [| [| a1 [| a2 [| a3 [| ? ?]]]]
                   [| [| b1 [| b2 [| b3 [| ? ?]]]]
                      [| [| c1 [| c2 [| c3 [| ? ?]]]] [| ? ?]]]];
    try discriminate;
    repeat match goal with
           | H : Forall _ (_ :: _) |- _ => inversion H; clear H; subst
           end;
    try discriminate.
  now exists a1, a2, a3, b1, b2, b3, c1, c2, c3.
Qed.

Lemma square_4 (M : Matrix) :
  square 4 M ->
  exists a1 a2 a3 a4 b1 b2 b3 b4 c1 c2 c3 c4 d1 d2 d3 d4,
    M = [[a1; a2; a3; a4]; [b1; b2; b3; b4];
         [c1; c2; c3; c4]; [d1; d2; d3; d4]].
Proof.
  intros [L F].
  destruct M as [| [| a1 [| a2 [| a3 [| a4 [| ? ?]]]]]
                   [| [| b1 [| b2 [| b3 [| b4 [| ? ?]]]]]
                      [| [| c1 [| c2 [| c3 [| c4 [| ? ?]]]]]
                         [| [| d1 [| d2 [| d3 [| d4 [| ? ?]]]]] [| ? ?]]]]];
    try discriminate;
    repeat match goal with
           | H : Forall _ (_ :: _) |- _ => inversion H; clear H; subst
           end;
    try discriminate.
  now exists a1, a2, a3, a4, b1, b2, b3, b4, c1, c2, c3, c4, d1, d2, d3, d4.
Qed.

Lemma det_3 (a1 a2 a3 b1 b2 b3 c1 c2 c3 : Q) :
  det [[a1; a2; a3]; [b1; b2; b3]; [c1; c2; c3]] ==
  a1 * (b2 * c3 - b3 * c2) - a2 * (b1 * c3 - b3 * c1) + a3 * (b1 * c2 - b2 * c1).
Proof. expand_det. ring. Qed.

Lemma det_3_leibniz (M : Matrix) : square 3 M -> det M == determinant 3 M.
Proof.
  intros H. destruct (square_3 M H) as (a1 & a2 & a3 & b1 & b2 & b3 & c1 & c2 & c3 & ->).
  expand_det. ring.
Qed.

Lemma cofactor_3_leibniz (M : Matrix) :
  square 3 M -> Cofactor.det M == determinant 3 M.
Proof.
  intros H. destruct (square_3 M H) as (a1 & a2 & a3 & b1 & b2 & b3 & c1 & c2 & c3 & ->).
  expand_det. ring.
Qed.

Lemma det_4_leibniz (M : Matrix) : square 4 M -> det M == determinant 4 M.
Proof.
  intros H.
  destruct (square_4 M H)
    as (a1 & a2 & a3 & a4 & b1 & b2 & b3 & b4 & c1 & c2 & c3 & c4
        & d1 & d2 & d3 & d4 & ->).
  expand_det. ring.
Qed.

Lemma cofactor_4_leibniz (M : Matrix) :
  square 4 M -> Cofactor.det M == determinant 4 M.
Proof.
  intros H.
  destruct (square_4 M H)
    as (a1 & a2 & a3 & a4 & b1 & b2 & b3 & b4 & c1 & c2 & c3 & c4
        & d1 & d2 & d3 & d4 & ->).
  expand_det. ring.
Qed.

(** ** The predicates *)

Lemma sort_two (a b : Point) :
  sort x [a; b] = [fst (canonical a b); snd (canonical a b)].
Proof.
  unfold sort, canonical. simpl. destruct (Qltb (x b) (x a)); reflexivity.
Qed.

Lemma belowLine_eq (p a b : Point) :
  belowLine p (a, b) =
  if includes [a; b] p then false
  else Qltb (orientation (fst (canonical a b)) (snd (canonical a b)) p) 0.
Proof. unfold belowLine. now rewrite sort_two. Qed.

Lemma aboveLine_eq (p a b : Point) :
  aboveLine p (a, b) =
  if includes [a; b] p then false
  else Qltb 0 (orientation (fst (canonical a b)) (snd (canonical a b)) p).
Proof. unfold aboveLine. now rewrite sort_two. Qed.

Lemma orientation_formula (a b c : Point) :
  orientation a b c ==
  x a * (y b - y c) - y a * (x b - x c) + (x b * y c - y b * x c).
Proof. unfold orientation, row3. rewrite det_3. ring. Qed.

(** ** The permutation table *)

Lemma S_step (n : nat) :
  Permutations.S (S (S n)) =
  Permutations.extend (S (S n)) (Permutations.S (S n)).
Proof. reflexivity. Qed.

Lemma S_memo_spec (n : nat) :
  forall c, cache_ok c ->
            fst (Permutations.S_memo n c) = Permutations.S n /\
            cache_ok (snd (Permutations.S_memo n c)).
Proof.
  induction n as [| n IH]; intros c H.
  - simpl. destruct (Permutations.cache_get c 0) as [v |] eqn:E; simpl.
    + split; [apply (H _ _ E) | exact H].
    + split; [reflexivity | exact H].
  - cbn [Permutations.S_memo].
    destruct (Permutations.cache_get c (S n)) as [v |] eqn:E.
    + split; [apply (H _ _ E) | exact H].
    + destruct n as [| n].
      * split; [reflexivity | exact H].
      * destruct (IH c H) as [E1 E2].
        destruct (Permutations.S_memo (S n) c) as [prev c1].
        simpl in E1, E2. subst prev. split.
        -- reflexivity.
        -- intros m v. cbn [snd Permutations.cache_get].
           destruct (Nat.eqb_spec (S (S n)) m) as [<- | N].
           ++ now intros [= <-].
           ++ apply E2.
Qed.

Lemma cache_ok_empty : cache_ok [].
Proof. intros n v. discriminate. Qed.

(** ** The argument array *)

Lemma delaunay_array (fuel : nat) (pts : list Point) :
  fst (delaunay fuel pts) =
  if (length pts <? 2)%nat then pts else sort x pts.
Proof.
  destruct (Nat.ltb_spec (length pts) 2) as [H | H].
  - now rewrite delaunay_short.
  - now rewrite delaunay_long.
Qed.


(** ** Evaluations *)

Lemma heldb_held (c : Connections) (p : Point) : heldb c p = true -> held c p.
Proof.
  unfold heldb. rewrite forallb_forall. intros H k r l G Hl.
  apply get_in in G. destruct G as (k' & Hk). specialize (H _ Hk).
  simpl in H. rewrite forallb_forall in H. specialize (H l Hl).
  apply eqb_prop in H. rewrite <- same_oid, <- key_eqb_eq, H. tauto.
Qed.

Lemma sample_run : delaunay 5 sample = (sort x sample, Ok sample_result).
Proof. vm_compute. reflexivity. Qed.

Lemma triangle_run (fuel : nat) :
  delaunay fuel triangle_input =
  ([pt 0 0 0; pt 2 0 1; pt 1 1 0], Ok triangle_result).
Proof. destruct fuel; vm_compute; reflexivity. Qed.

(** ** Where InsufficientPoints comes from *)

Lemma enough_bind {A B : Type} (r : Result A) (k : A -> Result B) :
  enough r -> (forall a, enough (k a)) -> enough (bind r k).
Proof.
  intros Hr Hk. destruct r as [a | e]; simpl; [apply Hk |].
  intros [= ->]. now apply Hr.
Qed.

Ltac enough_step :=
  match goal with
  | |- enough (bind _ _) => apply enough_bind; [| intros ?]
  | |- enough (Ok _) => discriminate
  | |- enough (Err TypeError) => discriminate
  | |- enough (Err OutOfFuel) => discriminate
  | |- enough (Err MalformedTriangulation) => discriminate
  | |- enough (match ?o with Some _ => _ | None => _ end) => destruct o
  | |- enough (if ?b then _ else _) => destruct b
  | |- enough (let '(_, _) := ?p in _) => destruct p
  end.

Lemma enough_elem {A : Type} (o : option A) : enough (elem o).
Proof. unfold elem. repeat enough_step. Qed.

Lemma halves_long (n : nat) : (4 <= n -> 2 <= n / 2 /\ 2 <= n - n / 2)%nat.
Proof.
  intros H. pose proof (Nat.div_mod_eq n 2) as E.
  pose proof (Nat.mod_upper_bound n 2). lia.
Qed.

(** ** The edges across a merge *)

Lemma height_lt (m : Q) (a b c d : Point) :
  x a < x b -> x c < x d ->
  (y a * (x b - m) + y b * (m - x a)) * (x d - x c) <
  (y c * (x d - m) + y d * (m - x c)) * (x b - x a) ->
  height m a b < height m c d.
Proof.
  intros Hab Hcd H. unfold height.
  apply Qlt_shift_div_l; [lra |].
  assert (E : (y a * (x b - m) + y b * (m - x a)) / (x b - x a) * (x d - x c)
              == (y a * (x b - m) + y b * (m - x a)) * (x d - x c) / (x b - x a)).
  { field. lra. }
  rewrite E. apply Qlt_shift_div_r; [lra | exact H].
Qed.

(** Turning the base edge about its right end, up to a point on the left of
    that end, raises it wherever it is left of that end. *)
Lemma raise_left (m : Q) (l r p : Point) :
  x l < x r -> x p < x r -> m < x r -> 0 < orientation l r p ->
  height m l r < height m p r.
Proof.
  intros Hl Hp Hm H. apply height_lt; [exact Hl | exact Hp |].
  rewrite orientation_formula in H.
  apply Qlt_minus_iff.
  assert (E : (y p * (x r - m) + y r * (m - x p)) * (x r - x l) +
              - ((y l * (x r - m) + y r * (m - x l)) * (x r - x p))
              == (x l * (y r - y p) - y l * (x r - x p) + (x r * y p - y r * x p))
                 * (x r - m)) by ring.
  rewrite E. apply Qmult_lt_0_compat; lra.
Qed.

(** Turning the base edge about its left end, up to a point on the right of
    that end, raises it wherever it is right of that end. *)
Lemma raise_right (m : Q) (l r p : Point) :
  x l < x r -> x l < x p -> x l < m -> 0 < orientation l r p ->
  height m l r < height m l p.
Proof.
  intros Hr Hp Hm H. apply height_lt; [exact Hr | exact Hp |].
  rewrite orientation_formula in H.
  apply Qlt_minus_iff.
  assert (E : (y l * (x p - m) + y p * (m - x l)) * (x r - x l) +
              - ((y l * (x r - m) + y r * (m - x l)) * (x p - x l))
              == (x l * (y r - y p) - y l * (x r - x p) + (x r * y p - y r * x p))
                 * (m - x l)) by ring.
  rewrite E. apply Qmult_lt_0_compat; lra.
Qed.

(** ** What the candidate search returns *)

Lemma above_orientation (t left right : Point) :
  x left < x right -> aboveLine t (left, right) = true ->
  0 < orientation left right t.
Proof.
  intros H. rewrite aboveLine_eq. destruct (includes [left; right] t);
    [discriminate |].
  unfold canonical. assert (E : Qltb (x right) (x left) = false)
    by (apply Qltb_ge; lra).
  rewrite E. simpl. apply Qltb_lt.
Qed.

Lemma linked_target (c : Connections) (p : Point) (ring : Ring)
      (ref : Reference) (d : Z) (t : Point) :
  getRing c (id p) = Ok ring -> nextConnection ref ring d = Ok t ->
  linked c p t.
Proof.
  intros G H. apply getRing_ok in G. apply nextConnection_ok_in in H.
  destruct H as (l & Hl & <-). now exists ring, l.
Qed.

Lemma above_target (c : Connections) (p : Point) (ring : Ring)
      (q : Point) (d : Z) (line : Point * Point) (t : Point) :
  getRing c (id p) = Ok ring ->
  nextConnectionAbove q ring d line = Ok (Some t) ->
  linked c p t /\ aboveLine t line = true.
Proof.
  intros G H. unfold nextConnectionAbove in H. bind_inv H.
  destruct (aboveLine v line) eqn:E; [| discriminate]. injection H as <-.
  split; [apply (linked_target c p ring _ d v G Hv) | exact E].
Qed.

Lemma disconnect_sub (p q : Point) (c c' : Connections) (a b : Point) :
  disconnect p q c = Ok c' -> linked c' a b -> linked c a b.
Proof.
  intros H. rewrite !linked_has_link. intros (l & Hl & E).
  apply (disconnect_has_link _ _ _ _ _ _ H) in Hl. exists l. tauto.
Qed.

Lemma refine_facts (fuel : nat) :
  forall c pivot d left right cand nc c' cand',
    each_ring unique_targets c ->
    (forall n, nc = Some n ->
               linked c pivot n /\ aboveLine n (left, right) = true) ->
    refine fuel c pivot d left right cand nc = Ok (c', cand') ->
    each_ring unique_targets c' /\
    (forall a b, linked c' a b -> linked c a b) /\
    (cand' = cand \/
     (linked c pivot cand' /\ aboveLine cand' (left, right) = true)).
Proof.
  induction fuel as [| fuel IH];
    intros c pivot d left right cand nc c' cand' U Hn; simpl;
    destruct nc as [n |]; try (intros [= <- <-]; auto);
    destruct (inCircle n (left, right, cand));
    try discriminate; try (intros [= <- <-]; auto).
  intros H. bind_inv H. bind_inv H. bind_inv H.
  assert (U' : each_ring unique_targets v)
    by (apply (disconnect_each unique_targets _ _ _ _ unique_remove U Hv)).
  assert (Hn' : forall n', v1 = Some n' ->
                           linked v pivot n' /\ aboveLine n' (left, right) = true).
  { intros n' ->. apply (above_target v pivot v0 n d _ n' Hv0 Hv1). }
  destruct (IH _ _ _ _ _ _ _ _ _ U' Hn' H) as (U2 & S2 & C2).
  split; [exact U2 |]. split.
  - intros a b Hl. apply (disconnect_sub _ _ _ _ _ _ Hv). now apply S2.
  - right. destruct C2 as [-> | [C2 A2]].
    + now apply Hn.
    + split; [| exact A2]. apply (disconnect_sub _ _ _ _ _ _ Hv C2).
Qed.

Lemma findCandidate_facts (fuel : nat) (c : Connections) (pivot other : Point)
      (d : Z) (left right : Point) (c' : Connections) (o : option Point) :
  each_ring unique_targets c ->
  findCandidate fuel c pivot other d left right = Ok (c', o) ->
  each_ring unique_targets c' /\
  (forall a b, linked c' a b -> linked c a b) /\
  (forall t, o = Some t ->
             linked c pivot t /\ aboveLine t (left, right) = true).
Proof.
  intros U H. unfold findCandidate in H. bind_inv H. bind_inv H.
  destruct v0 as [cand |].
  - bind_inv H. bind_inv H. destruct v1 as [c1 cand1]. simpl in H.
    injection H as <- <-.
    pose proof (above_target c pivot v other d _ cand Hv Hv0) as Hc.
    assert (Hn : forall n, v0 = Some n ->
                           linked c pivot n /\ aboveLine n (left, right) = true).
    { intros n ->. apply (above_target c pivot v cand d _ n Hv Hv1). }
    destruct (refine_facts fuel _ _ _ _ _ _ _ _ _ U Hn Hv2) as (U1 & S1 & C1).
    split; [exact U1 | split; [exact S1 |]].
    intros t [= <-]. destruct C1 as [-> | C1]; assumption.
  - injection H as <- <-. split; [exact U | split; [auto | discriminate]].
Qed.

(** ** One link per target along the merge *)

Section Merge.

Variables (L R : list Point) (m : Q).
Hypothesis Hsep : separates m L R.
Hypothesis Hcoh : coherent (L ++ R).

Let U : list Point := L ++ R.

Lemma sides_x (a b : Point) : In a L -> In b R -> x a < x b.
Proof.
  intros Ha Hb. destruct Hsep as [HL HR].
  specialize (HL a Ha). specialize (HR b Hb). lra.
Qed.

Lemma sides_id (a b : Point) : In a L -> In b R -> id a <> id b.
Proof.
  intros Ha Hb E. apply id_coincide in E. destruct E as [E _].
  pose proof (sides_x a b Ha Hb). lra.
Qed.

Lemma same_key_same (a b : Point) : In a U -> In b U -> id a = id b -> a = b.
Proof. intros Ha Hb E. apply Hcoh; auto. Qed.

Lemma crossings_sub (c c' : Connections) (left right : Point) :
  (forall a b, linked c' a b -> linked c a b) ->
  crossings_below m L R c left right -> crossings_below m L R c' left right.
Proof. intros S K a b Ha Hb Hl. apply (K a b Ha Hb). now apply S. Qed.

(** A neighbour of [left] above the base edge is on the left. *)
Lemma candidate_left (c : Connections) (left right t : Point) :
  crossings_below m L R c left right -> In left L -> In right R -> In t U ->
  linked c left t -> aboveLine t (left, right) = true -> In t L.
Proof.
  intros K Hl Hr Ht Lk A. apply in_app_or in Ht. destruct Ht as [Ht | Ht];
    [exact Ht | exfalso].
  pose proof (K left t Hl Ht Lk) as H1.
  pose proof (sides_x left right Hl Hr) as X.
  pose proof (above_orientation t left right X A) as O.
  pose proof (raise_right m left right t X (sides_x left t Hl Ht)
                          (proj1 Hsep left Hl) O).
  lra.
Qed.

(** A neighbour of [right] above the base edge is on the right. *)
Lemma candidate_right (c : Connections) (left right t : Point) :
  crossings_below m L R c left right -> In left L -> In right R -> In t U ->
  linked c t right -> aboveLine t (left, right) = true -> In t R.
Proof.
  intros K Hl Hr Ht Lk A. apply in_app_or in Ht. destruct Ht as [Ht | Ht];
    [exfalso | exact Ht].
  pose proof (K t right Ht Hr Lk) as H1.
  pose proof (sides_x left right Hl Hr) as X.
  pose proof (above_orientation t left right X A) as O.
  pose proof (raise_left m left right t X (sides_x t right Ht Hr)
                         (proj2 Hsep right Hr) O).
  lra.
Qed.

(** The new base edge, with its left end moved up to [t]. *)
Lemma advance_left (c c' : Connections) (left right t : Point) :
  Inv U c -> each_ring unique_targets c ->
  crossings_below m L R c left right ->
  In left L -> In right R -> In t L -> aboveLine t (left, right) = true ->
  connect t right c = Ok c' ->
  Inv U c' /\ each_ring unique_targets c' /\ crossings_below m L R c' t right.
Proof.
  intros I Uq K Hl Hr Ht A H.
  pose proof (sides_x left right Hl Hr) as X.
  pose proof (above_orientation t left right X A) as O.
  pose proof (raise_left m left right t X (sides_x t right Ht Hr)
                         (proj2 Hsep right Hr) O) as Up.
  assert (HtU : In t U) by (apply in_or_app; now left).
  assert (HrU : In right U) by (apply in_or_app; now right).
  assert (N : ~ linked c t right).
  { intros Lk. pose proof (K t right Ht Hr Lk). lra. }
  assert (N' : ~ linked c right t).
  { intros Lk. apply N. destruct I as (_ & _ & _ & S & _). now apply S. }
  split; [apply (Inv_connect U t right c c' HtU HrU I H) |].
  split; [apply (connect_unique t right c c' Uq (sides_id t right Ht Hr) N N' H) |].
  intros a b Ha Hb Lk. apply (connect_linked _ _ _ _ _ _ H) in Lk.
  destruct Lk as [Lk | [[Ea Eb] | [Ea Eb]]].
  - pose proof (K a b Ha Hb Lk). lra.
  - assert (a = t) by (apply same_key_same; auto; apply in_or_app; now left).
    assert (b = right) by (apply same_key_same; auto; apply in_or_app; now right).
    subst. apply Qle_refl.
  - exfalso. apply (sides_id a right Ha Hr Ea).
Qed.

(** The new base edge, with its right end moved up to [t]. *)
Lemma advance_right (c c' : Connections) (left right t : Point) :
  Inv U c -> each_ring unique_targets c ->
  crossings_below m L R c left right ->
  In left L -> In right R -> In t R -> aboveLine t (left, right) = true ->
  connect left t c = Ok c' ->
  Inv U c' /\ each_ring unique_targets c' /\ crossings_below m L R c' left t.
Proof.
  intros I Uq K Hl Hr Ht A H.
  pose proof (sides_x left right Hl Hr) as X.
  pose proof (above_orientation t left right X A) as O.
  pose proof (raise_right m left right t X (sides_x left t Hl Ht)
                          (proj1 Hsep left Hl) O) as Up.
  assert (HtU : In t U) by (apply in_or_app; now right).
  assert (HlU : In left U) by (apply in_or_app; now left).
  assert (N : ~ linked c left t).
  { intros Lk. pose proof (K left t Hl Ht Lk). lra. }
  assert (N' : ~ linked c t left).
  { intros Lk. apply N. destruct I as (_ & _ & _ & S & _). now apply S. }
  split; [apply (Inv_connect U left t c c' HlU HtU I H) |].
  split; [apply (connect_unique left t c c' Uq (sides_id left t Hl Ht) N N' H) |].
  intros a b Ha Hb Lk. apply (connect_linked _ _ _ _ _ _ H) in Lk.
  destruct Lk as [Lk | [[Ea Eb] | [Ea Eb]]].
  - pose proof (K a b Ha Hb Lk). lra.
  - assert (a = left) by (apply same_key_same; auto; apply in_or_app; now left).
    assert (b = t) by (apply same_key_same; auto; apply in_or_app; now right).
    subst. apply Qle_refl.
  - exfalso. apply (sides_id a t Ha Ht Ea).
Qed.

Lemma mergeLoop_unique (fuel : nat) :
  forall c left right c',
    Inv U c -> each_ring unique_targets c ->
    crossings_below m L R c left right -> In left L -> In right R ->
    mergeLoop fuel c left right = Ok c' -> each_ring unique_targets c'.
Proof.
  induction fuel as [| fuel IH]; intros c left right c' I Uq K Hl Hr;
    simpl; [discriminate |].
  intros H. bind_inv H. destruct v as [c1 lc].
  bind_inv H. destruct v as [c2 rc].
  assert (HlU : In left U) by (apply in_or_app; now left).
  assert (HrU : In right U) by (apply in_or_app; now right).
  destruct (findCandidate_inv U fuel c left right 1 left right c1 lc
                              Hcoh I HlU Hv) as [I1 T1].
  destruct (findCandidate_facts fuel c left right 1 left right c1 lc Uq Hv)
    as (U1 & S1 & F1).
  destruct (findCandidate_inv U fuel c1 right left (-1) left right c2 rc
                              Hcoh I1 HrU Hv0) as [I2 T2].
  destruct (findCandidate_facts fuel c1 right left (-1) left right c2 rc U1 Hv0)
    as (U2 & S2 & F2).
  assert (K2 : crossings_below m L R c2 left right).
  { apply (crossings_sub c c2); [| exact K]. intros a b Lk. now apply S1, S2. }
  assert (GoLeft : forall t c3, lc = Some t -> connect t right c2 = Ok c3 ->
                                mergeLoop fuel c3 t right = Ok c' ->
                                each_ring unique_targets c').
  { intros t c3 -> Hc Hm. destruct (F1 t eq_refl) as [Lk A].
    assert (Ht : In t L)
      by (apply (candidate_left c left right t K Hl Hr (T1 t eq_refl) Lk A)).
    destruct (advance_left c2 c3 left right t I2 U2 K2 Hl Hr Ht A Hc)
      as (I3 & U3 & K3).
    apply (IH c3 t right c' I3 U3 K3 Ht Hr Hm). }
  assert (GoRight : forall t c3, rc = Some t -> connect left t c2 = Ok c3 ->
                                 mergeLoop fuel c3 left t = Ok c' ->
                                 each_ring unique_targets c').
  { intros t c3 -> Hc Hm. destruct (F2 t eq_refl) as [Lk A].
    assert (Lk' : linked c t right).
    { destruct I as (_ & _ & _ & S & _). apply S. now apply S1. }
    assert (Ht : In t R)
      by (apply (candidate_right c left right t K Hl Hr (T2 t eq_refl) Lk' A)).
    destruct (advance_right c2 c3 left right t I2 U2 K2 Hl Hr Ht A Hc)
      as (I3 & U3 & K3).
    apply (IH c3 left t c' I3 U3 K3 Hl Ht Hm). }
  destruct lc as [lc |], rc as [rc |].
  - destruct (inCircle rc (lc, left, right)); bind_inv H.
    + apply (GoRight rc v eq_refl Hv1 H).
    + apply (GoLeft lc v eq_refl Hv1 H).
  - bind_inv H. apply (GoLeft lc v eq_refl Hv1 H).
  - bind_inv H. apply (GoRight rc v eq_refl Hv1 H).
  - now injection H as <-.
Qed.

(** Before the first edge across: the walk along the two hulls stays on its
    side. *)
Lemma lowerTangent_sides (c : Connections) (fuel : nat) :
  closed U c -> apart L R c -> symmetric c ->
  forall left right nextLeft nextRight l r,
    In left L -> In right R -> In nextLeft L -> In nextRight R ->
    lowerTangent fuel c left right nextLeft nextRight = Ok (l, r) ->
    In l L /\ In r R.
Proof.
  intros C A S. induction fuel as [| fuel IH];
    intros left right nextLeft nextRight l r Hl Hr Hnl Hnr; simpl;
    destruct (belowLine nextLeft (left, right) || belowLine nextRight (left, right));
    try discriminate; try (intros [= <- <-]; now split).
  destruct (belowLine nextLeft (left, right)); intros H; bind_inv H; bind_inv H.
  - apply (IH _ _ _ _ _ _ Hnl Hr) with (3 := H); [| exact Hnr].
    pose proof (next_closed U c _ _ _ _ _ C Hv Hv0) as Hn.
    pose proof (linked_target c nextLeft v _ _ v0 Hv Hv0) as Lk.
    apply in_app_or in Hn. destruct Hn as [Hn | Hn]; [exact Hn |].
    now elim (A nextLeft v0 Hnl Hn).
  - apply (IH _ _ _ _ _ _ Hl Hnr Hnl) with (2 := H).
    pose proof (next_closed U c _ _ _ _ _ C Hv Hv0) as Hn.
    pose proof (linked_target c nextRight v _ _ v0 Hv Hv0) as Lk.
    apply in_app_or in Hn. destruct Hn as [Hn | Hn]; [| exact Hn].
    exfalso. apply (A v0 nextRight Hn Hnr). now apply S.
Qed.

Lemma merge_apart (cl cr : Connections) :
  Inv L cl -> Inv R cr -> apart L R (mergeConnections cl cr).
Proof.
  intros (Nc & Kc & Cc & _) (Nd & Kd & Cd & _) a b Ha Hb (r & l & G & Hl & E).
  rewrite get_merge in G by assumption.
  destruct (get cr (id a)) as [r' |] eqn:G'.
  - apply get_some_keys in G'. apply Kd in G'. apply in_map_iff in G'.
    destruct G' as (b' & E' & Hb'). now apply (sides_id a b' Ha Hb').
  - assert (Ht : In (point l) L) by (apply (Cc (id a)); now exists r).
    now apply (sides_id (point l) b Ht Hb).
Qed.

Lemma merge_unique (cl cr : Connections) :
  NoDup (keys cl) -> NoDup (keys cr) ->
  each_ring unique_targets cl -> each_ring unique_targets cr ->
  each_ring unique_targets (mergeConnections cl cr).
Proof.
  intros Nc Nd Uc Ud k r. rewrite get_merge by assumption.
  destruct (get cr k) as [r' |] eqn:G.
  - intros [= <-]. now apply (Ud k).
  - apply Uc.
Qed.

Lemma mergeHalves_unique (fuel : nat) (cl cr c : Connections) :
  Inv L cl -> Inv R cr ->
  each_ring unique_targets cl -> each_ring unique_targets cr ->
  mergeHalves fuel L R cl cr = Ok c -> each_ring unique_targets c.
Proof.
  intros Il Ir Ul Ur H. unfold mergeHalves in H.
  pose proof (Inv_merge L R cl cr sides_id Il Ir) as I.
  pose proof (merge_apart cl cr Il Ir) as A.
  assert (Um : each_ring unique_targets (mergeConnections cl cr)).
  { destruct Il as (Nc & _), Ir as (Nd & _). now apply merge_unique. }
  pose proof I as (_ & _ & C & S & _).
  bind_inv H. bind_inv H. bind_inv H. bind_inv H. bind_inv H. bind_inv H.
  bind_inv H. destruct v5 as [left right]. simpl in H. bind_inv H.
  assert (Hl : In v L) by (apply elem_ok, at_index_in in Hv; exact Hv).
  assert (Hr : In v0 R) by (apply elem_ok, at_index_in in Hv0; exact Hv0).
  assert (Hnl : In v2 L).
  { pose proof (next_closed U _ _ _ _ _ _ C Hv1 Hv2) as Hn.
    pose proof (linked_target _ v v1 _ _ v2 Hv1 Hv2) as Lk.
    apply in_app_or in Hn. destruct Hn as [Hn | Hn]; [exact Hn |].
    now elim (A v v2 Hl Hn). }
  assert (Hnr : In v4 R).
  { pose proof (next_closed U _ _ _ _ _ _ C Hv3 Hv4) as Hn.
    pose proof (linked_target _ v0 v3 _ _ v4 Hv3 Hv4) as Lk.
    apply in_app_or in Hn. destruct Hn as [Hn | Hn]; [| exact Hn].
    exfalso. apply (A v4 v0 Hn Hr). now apply S. }
  destruct (lowerTangent_sides _ fuel C A S v v0 v2 v4 left right
                               Hl Hr Hnl Hnr Hv5) as [Hl' Hr'].
  assert (HlU : In left U) by (apply in_or_app; now left).
  assert (HrU : In right U) by (apply in_or_app; now right).
  assert (N : ~ linked (mergeConnections cl cr) left right) by (now apply A).
  assert (N' : ~ linked (mergeConnections cl cr) right left).
  { intros Lk. apply N. now apply S. }
  apply (mergeLoop_unique fuel v5 left right c
           (Inv_connect U _ _ _ _ HlU HrU I Hv6)
           (connect_unique _ _ _ _ Um (sides_id _ _ Hl' Hr') N N' Hv6));
    [| exact Hl' | exact Hr' | exact H].
  intros a b Ha Hb Lk. apply (connect_linked _ _ _ _ _ _ Hv6) in Lk.
  destruct Lk as [Lk | [[Ea Eb] | [Ea Eb]]].
  - now elim (A a b Ha Hb).
  - assert (a = left) by (apply same_key_same; auto; apply in_or_app; now left).
    assert (b = right) by (apply same_key_same; auto; apply in_or_app; now right).
    subst. apply Qle_refl.
  - exfalso. apply (sides_id a right Ha Hr' Ea).
Qed.

End Merge.

(** ** One link per target in what [delaunay] returns *)

Lemma general_position_x (pts : list Point) :
  general_position pts = true -> x_distinct pts.
Proof.
  unfold general_position. rewrite !andb_true_iff. intros [[H _] _].
  induction pts as [| c pts IH]; intros a b Ha Hb E; [destruct Ha |].
  apply pairs_ok_cons in H. destruct H as [Hc Hp].
  destruct Ha as [-> | Ha], Hb as [-> | Hb].
  - reflexivity.
  - specialize (Hc b Hb). apply negb_true_iff in Hc.
    apply Qeq_bool_iff in E. congruence.
  - specialize (Hc a Ha). apply negb_true_iff in Hc.
    symmetry in E. apply Qeq_bool_iff in E. congruence.
  - now apply IH.
Qed.

Lemma x_distinct_incl (U V : list Point) :
  incl U V -> x_distinct V -> x_distinct U.
Proof. intros I H a b Ha Hb. apply H; now apply I. Qed.

Lemma sorted_x_app (L R : list Point) :
  StronglySorted (fun p q => x p <= x q) (L ++ R) ->
  forall a b, In a L -> In b R -> x a <= x b.
Proof.
  induction L as [| c L IH]; simpl; intros H a b Ha Hb; [destruct Ha |].
  inversion H as [| ? ? Hs Hf]; subst. destruct Ha as [<- | Ha].
  - rewrite Forall_forall in Hf. apply Hf, in_or_app. now right.
  - now apply IH.
Qed.

Lemma sorted_x_tail (c : Point) (L : list Point) :
  StronglySorted (fun p q => x p <= x q) (c :: L) ->
  StronglySorted (fun p q => x p <= x q) L /\ forall a, In a L -> x c <= x a.
Proof.
  intros H. inversion H as [| ? ? Hs Hf]; subst. rewrite Forall_forall in Hf.
  now split.
Qed.

Lemma sorted_separates (L R : list Point) :
  StronglySorted (fun p q => x p <= x q) (L ++ R) ->
  NoDup (L ++ R) -> x_distinct (L ++ R) ->
  exists m, separates m L R.
Proof.
  intros S N D.
  assert (Lt : forall a b, In a L -> In b R -> x a < x b).
  { intros a b Ha Hb. pose proof (sorted_x_app L R S a b Ha Hb) as Le.
    apply Qle_lteq in Le. destruct Le as [Le | E]; [exact Le | exfalso].
    assert (a = b) by (apply D; auto; apply in_or_app; auto). subst b.
    destruct (nodup_app_disjoint _ _ N) as (_ & _ & Dj). now apply (Dj a a). }
  clear N D. induction L as [| c L IH].
  - destruct R as [| b R].
    + exists 0. split; intros p [].
    + exists (x b - 1). split; [intros p [] |].
      intros p Hp. simpl in S. pose proof (sorted_head_x := sorted_x_tail b R S).
      destruct sorted_head_x as [_ Hb]. destruct Hp as [<- | Hp]; [lra |].
      specialize (Hb p Hp). lra.
  - simpl in S. destruct (sorted_x_tail c (L ++ R) S) as [S' Hc].
    destruct L as [| c' L].
    + destruct R as [| b R].
      * exists (x c + 1). split; [| intros p []].
        intros p [<- | []]. lra.
      * exists ((x c + x b) / 2). 
        assert (Hcb : x c < x b) by (apply Lt; now left).
        assert (E : (x c + x b) / 2 == (x c + x b) * (1 # 2)) by (field).
        split.
        -- intros p [<- | []]. rewrite E. lra.
        -- intros p Hp. rewrite E. simpl in S'.
           destruct (sorted_x_tail b R S') as [_ Hb].
           destruct Hp as [<- | Hp]; [lra |]. specialize (Hb p Hp). lra.
    + destruct IH as (m & HL & HR); [exact S' | |].
      * intros a b Ha Hb. apply Lt; [now right | exact Hb].
      * exists m. split; [| exact HR].
        intros p [<- | Hp]; [| now apply HL].
        assert (x c <= x c') by (apply Hc; now left).
        assert (x c' < m) by (apply HL; now left). lra.
Qed.

Lemma distinct_ids_3 (p q r : Point) :
  NoDup (map id [p; q; r]) -> id p <> id q /\ id q <> id r /\ id r <> id p.
Proof.
  simpl. intros H. inversion H as [| ? ? H1 H']; subst.
  inversion H' as [| ? ? H2 _]; subst. simpl in *. intuition congruence.
Qed.

Lemma delaunay_unique (fuel : nat) :
  forall pts pts' c,
    coherent pts -> NoDup (map id pts) -> x_distinct pts ->
    delaunay fuel pts = (pts', Ok c) -> each_ring unique_targets c.
Proof.
  induction fuel as [| fuel IH]; intros pts pts' c Hc Hn Hx H;
    (destruct (Nat.lt_ge_cases (length pts) 2) as [Hs | Hs];
     [rewrite delaunay_short in H by exact Hs; discriminate |]);
    rewrite delaunay_long in H by exact Hs;
    cbv zeta in H;
    set (mid := (length (sort x pts) / 2)%nat) in *;
    clearbody mid;
    pose proof (sort_perm Point x pts) as P;
    pose proof (sort_length Point x pts) as Hlen;
    pose proof (sort_sorted Point x pts) as Hsorted;
    (assert (I : incl (sort x pts) pts)
      by (intros a; apply Permutation_in, P));
    (assert (Hc' : coherent (sort x pts)) by (apply (coherent_incl _ _ I Hc)));
    (assert (Hx' : x_distinct (sort x pts)) by (apply (x_distinct_incl _ _ I Hx)));
    (assert (Hn' : NoDup (map id (sort x pts)))
      by (apply (Permutation_NoDup (Permutation_map id (Permutation_sym P)) Hn)));
    injection H as _ H;
    pose proof (empty_rings_unique (sort x pts)) as U0;
    pose proof (empty_unlinked (sort x pts)) as N0;
    destruct (sort x pts) as [| p [| q [| r [| t rest]]]] eqn:E;
    try (simpl in Hlen; lia); try discriminate.
  - assert (Npq : id p <> id q).
    { simpl in Hn'. inversion Hn' as [| ? ? H1 _]; subst. simpl in H1.
      intros Eq. apply H1. left. now symmetry. }
    apply (connect_unique p q _ c U0); auto.
  - destruct (distinct_ids_3 p q r Hn') as (Npq & Nqr & Nrp).
    bind_inv H. bind_inv H.
    assert (U1 : each_ring unique_targets v)
      by (apply (connect_unique p q _ v U0); auto).
    assert (U2 : each_ring unique_targets v0).
    { apply (connect_unique q r _ v0 U1); auto;
        rewrite (connect_linked _ _ _ _ _ _ Hv); intros [Lk | [[] | []]];
        try congruence; now apply (N0 _ _ Lk). }
    apply (connect_unique r p _ c U2); auto;
      rewrite (connect_linked _ _ _ _ _ _ Hv0), (connect_linked _ _ _ _ _ _ Hv);
      intros [[Lk | [[] | []]] | [[] | []]];
      try congruence; now apply (N0 _ _ Lk).
  - assert (Npq : id p <> id q).
    { simpl in Hn'. inversion Hn' as [| ? ? H1 _]; subst. simpl in H1.
      intros Eq. apply H1. left. now symmetry. }
    apply (connect_unique p q _ c U0); auto.
  - destruct (distinct_ids_3 p q r Hn') as (Npq & Nqr & Nrp).
    bind_inv H. bind_inv H.
    assert (U1 : each_ring unique_targets v)
      by (apply (connect_unique p q _ v U0); auto).
    assert (U2 : each_ring unique_targets v0).
    { apply (connect_unique q r _ v0 U1); auto;
        rewrite (connect_linked _ _ _ _ _ _ Hv); intros [Lk | [[] | []]];
        try congruence; now apply (N0 _ _ Lk). }
    apply (connect_unique r p _ c U2); auto;
      rewrite (connect_linked _ _ _ _ _ _ Hv0), (connect_linked _ _ _ _ _ _ Hv);
      intros [[Lk | [[] | []]] | [[] | []]];
      try congruence; now apply (N0 _ _ Lk).
  - bind_inv H. bind_inv H.
    set (s := p :: q :: r :: t :: rest) in *.
    pose proof (firstn_skipn mid s) as Es.
    rewrite <- Es in Hc', Hn', Hx', Hsorted.
    pose proof (NoDup_map_inv id _ Hn') as Nd.
    rewrite map_app in Hn'.
    destruct (nodup_app_disjoint _ _ Hn') as (N1 & N2 & D).
    destruct (sorted_separates _ _ Hsorted Nd Hx') as (m & Hsep).
    destruct (delaunay fuel (firstn mid s)) as [s1 r1] eqn:E1. simpl in Hv.
    destruct (delaunay fuel (skipn mid s)) as [s2 r2] eqn:E2. simpl in Hv0.
    subst r1 r2.
    pose proof (coherent_incl _ _ (incl_appl _ (incl_refl _)) Hc') as C1.
    pose proof (coherent_incl _ _ (incl_appr _ (incl_refl _)) Hc') as C2.
    pose proof (x_distinct_incl _ _ (incl_appl _ (incl_refl _)) Hx') as X1.
    pose proof (x_distinct_incl _ _ (incl_appr _ (incl_refl _)) Hx') as X2.
    apply (mergeHalves_unique _ _ m Hsep Hc' fuel v v0 c
             (delaunay_inv fuel _ _ _ C1 N1 E1)
             (delaunay_inv fuel _ _ _ C2 N2 E2)
             (IH _ _ _ C1 N1 X1 E1) (IH _ _ _ C2 N2 X2 E2) H).
Qed.

Lemma delaunay_fine (fuel : nat) (pts pts' : list Point) (c : Connections) :
  general_position pts = true -> distinct_objects pts = true ->
  delaunay fuel pts = (pts', Ok c) -> each_ring well_formed c.
Proof.
  intros G D H.
  destruct (delaunay_Inv fuel pts pts' c G D H) as (_ & _ & _ & _ & Rk).
  pose proof (delaunay_unique fuel pts pts' c
                (general_position_coherent pts G D)
                (general_position_keys pts G) (general_position_x pts G) H) as Uq.
  intros k r Hr. destruct (Rk k r Hr) as (A & B & C).
  repeat split; try assumption. now apply (Uq k).
Qed.

(** In what [delaunay] returns, each point is one object: the links use, for
    a point of the input, the object of the input. *)
Lemma delaunay_held (fuel : nat) (pts pts' : list Point) (c : Connections) :
  general_position pts = true -> distinct_objects pts = true ->
  delaunay fuel pts = (pts', Ok c) -> forall p, In p pts -> held c p.
Proof.
  intros G D H p Hp.
  destruct (delaunay_Inv fuel pts pts' c G D H) as (_ & _ & C & _).
  apply (held_closed pts c p (general_position_coherent pts G D) C Hp).
Qed.

(** ** Turns *)

Lemma orientation_cross (a b c : Point) :
  orientation a b c == cross (vec a b) (vec a c).
Proof.
  rewrite orientation_formula. unfold cross, vec, minus. simpl. ring.
Qed.

Lemma cross_antisym (u w : Q * Q) : cross w u == - cross u w.
Proof. unfold cross. ring. Qed.

Lemma orientation_swap (a b c : Point) :
  orientation a c b == - orientation a b c.
Proof. rewrite !orientation_formula. ring. Qed.

Lemma orientation_rotate (a b c : Point) :
  orientation b c a == orientation a b c.
Proof. rewrite !orientation_formula. ring. Qed.

(** Among vectors that point to the right, and among vectors that point to
    the left, "the turn from u to w is counter-clockwise" is transitive: it
    is the order of the slopes. *)
Lemma turn_trans_right (u s w : Q * Q) :
  0 < fst u -> 0 < fst s -> 0 < fst w ->
  0 < cross u s -> 0 <= cross s w -> 0 < cross u w.
Proof.
  unfold cross. intros Hu Hs Hw H1 H2.
  assert (E : fst s * (fst u * snd w - snd u * fst w)
              == fst w * (fst u * snd s - snd u * fst s)
                 + fst u * (fst s * snd w - snd s * fst w)) by ring.
  assert (P : 0 < fst s * (fst u * snd w - snd u * fst w)).
  { rewrite E.
    assert (0 < fst w * (fst u * snd s - snd u * fst s))
      by (apply Qmult_lt_0_compat; assumption).
    assert (0 <= fst u * (fst s * snd w - snd s * fst w))
      by (apply Qmult_le_0_compat; [lra | assumption]).
    lra. }
  apply Qnot_le_lt. intros N.
  assert (fst s * (fst u * snd w - snd u * fst w) <= 0).
  { rewrite <- (Qmult_0_r (fst s)). apply Qmult_le_l; [exact Hs | exact N]. }
  lra.
Qed.

Lemma turn_trans_right' (u s w : Q * Q) :
  0 < fst u -> 0 < fst s -> 0 < fst w ->
  0 <= cross u s -> 0 < cross s w -> 0 < cross u w.
Proof.
  unfold cross. intros Hu Hs Hw H1 H2.
  assert (E : fst s * (fst u * snd w - snd u * fst w)
              == fst w * (fst u * snd s - snd u * fst s)
                 + fst u * (fst s * snd w - snd s * fst w)) by ring.
  assert (P : 0 < fst s * (fst u * snd w - snd u * fst w)).
  { rewrite E.
    assert (0 <= fst w * (fst u * snd s - snd u * fst s))
      by (apply Qmult_le_0_compat; [lra | assumption]).
    assert (0 < fst u * (fst s * snd w - snd s * fst w))
      by (apply Qmult_lt_0_compat; assumption).
    lra. }
  apply Qnot_le_lt. intros N.
  assert (fst s * (fst u * snd w - snd u * fst w) <= 0).
  { rewrite <- (Qmult_0_r (fst s)). apply Qmult_le_l; [exact Hs | exact N]. }
  lra.
Qed.

Lemma turn_trans_left (u s w : Q * Q) :
  fst u < 0 -> fst s < 0 -> fst w < 0 ->
  0 < cross u s -> 0 <= cross s w -> 0 < cross u w.
Proof.
  intros Hu Hs Hw H1 H2.
  assert (G : 0 < cross (- fst u, - snd u) (- fst w, - snd w)).
  { apply (turn_trans_right (- fst u, - snd u) (- fst s, - snd s)); simpl;
      try lra; unfold cross in *; simpl.
    - assert (E : - fst u * - snd s - - snd u * - fst s
                  == fst u * snd s - snd u * fst s) by ring. lra.
    - assert (E : - fst s * - snd w - - snd s * - fst w
                  == fst s * snd w - snd s * fst w) by ring. lra. }
  unfold cross in *. simpl in G.
  assert (E : - fst u * - snd w - - snd u * - fst w
              == fst u * snd w - snd u * fst w) by ring. lra.
Qed.

Lemma turn_trans_left' (u s w : Q * Q) :
  fst u < 0 -> fst s < 0 -> fst w < 0 ->
  0 <= cross u s -> 0 < cross s w -> 0 < cross u w.
Proof.
  intros Hu Hs Hw H1 H2.
  assert (G : 0 < cross (- fst u, - snd u) (- fst w, - snd w)).
  { apply (turn_trans_right' (- fst u, - snd u) (- fst s, - snd s)); simpl;
      try lra; unfold cross in *; simpl.
    - assert (E : - fst u * - snd s - - snd u * - fst s
                  == fst u * snd s - snd u * fst s) by ring. lra.
    - assert (E : - fst s * - snd w - - snd s * - fst w
                  == fst s * snd w - snd s * fst w) by ring. lra. }
  unfold cross in *. simpl in G.
  assert (E : - fst u * - snd w - - snd u * - fst w
              == fst u * snd w - snd u * fst w) by ring. lra.
Qed.

(** ** Angles and turns *)

#[export] Instance atan2_proper : Proper (Qeq ==> Qeq ==> Qeq) atan2.
Proof.
  intros a a' Ha b b' Hb. unfold atan2.
  assert (E1 : Qeq_bool a 0 = Qeq_bool a' 0).
  { apply eq_true_iff_eq. rewrite !Qeq_bool_iff. now rewrite Ha. }
  rewrite E1. rewrite <- (Qltb_proper _ _ Hb 0 0 (Qeq_refl 0)).
  rewrite <- (Qltb_proper 0 0 (Qeq_refl 0) _ _ Ha).
  rewrite <- (Qltb_proper 0 0 (Qeq_refl 0) _ _ Hb).
  destruct (Qeq_bool a' 0); [reflexivity |].
  destruct (Qltb 0 a), (Qltb 0 b), (Qltb b 0); now rewrite Ha, Hb.
Qed.

Lemma Qeq_bool_false (a b : Q) : ~ a == b -> Qeq_bool a b = false.
Proof. intros H. apply not_true_iff_false. now rewrite Qeq_bool_iff. Qed.

(** The opposite of a direction of the upper half plane is a half turn
    back. *)
Lemma atan2_opposite (dy dx : Q) :
  0 < dy -> atan2 (- dy) (- dx) == atan2 dy dx - 2.
Proof.
  intros H. unfold atan2.
  rewrite (Qeq_bool_false dy 0) by lra.
  rewrite (Qeq_bool_false (- dy) 0) by lra.
  rewrite (proj2 (Qltb_lt 0 dy)) by lra.
  rewrite (proj2 (Qltb_ge 0 (- dy))) by lra.
  destruct (Qltb 0 dx) eqn:E.
  - apply Qltb_lt in E. rewrite (proj2 (Qltb_lt (- dx) 0)) by lra.
    field. lra.
  - apply Qltb_ge in E. rewrite (proj2 (Qltb_ge (- dx) 0)) by lra.
    field. lra.
Qed.

Lemma kind_of (u : Q * Q) : nonzero u -> Kind u.
Proof.
  destruct u as [dx dy]. unfold nonzero. simpl. intros N.
  destruct (Q_dec dy 0) as [[Hy | Hy] | Hy].
  - apply Down; unfold angle_of; simpl; try exact Hy.
    + apply (atan2_lower dy dx Hy).
    + apply (atan2_lower dy dx Hy).
    + assert (E := atan2_opposite (- dy) (- dx)).
      assert (Ey : - - dy == dy) by ring. assert (Ex : - - dx == dx) by ring.
      rewrite Ey, Ex in E. rewrite E by lra. ring.
  - apply Up; unfold angle_of; simpl; try exact Hy.
    + apply (atan2_upper dy dx Hy).
    + apply (atan2_upper dy dx Hy).
    + now apply atan2_opposite.
  - destruct (Q_dec dx 0) as [[Hx | Hx] | Hx].
    + apply West; unfold angle_of; simpl; try assumption.
      * apply (atan2_flat dy dx Hy). exact Hx.
      * apply (atan2_flat (- dy) (- dx)); lra.
    + apply East; unfold angle_of; simpl; try assumption.
      * apply (atan2_flat dy dx Hy). lra.
      * apply (atan2_flat (- dy) (- dx)); lra.
    + exfalso. apply N. split; assumption.
Qed.

Lemma cross_opp_r (u w : Q * Q) :
  cross u (- fst w, - snd w) == - cross u w.
Proof. unfold cross. simpl. ring. Qed.

Lemma cross_opp_l (u w : Q * Q) :
  cross (- fst u, - snd u) w == - cross u w.
Proof. unfold cross. simpl. ring. Qed.

(** In the half plane of the directions [Up] and [East] the angle grows
    with the slope. *)
Lemma upper_order (u w : Q * Q) :
  (0 < snd u \/ (snd u == 0 /\ 0 < fst u)) ->
  (0 < snd w \/ (snd w == 0 /\ 0 < fst w)) ->
  (0 < cross u w <-> angle_of u < angle_of w).
Proof.
  destruct u as [dx dy], w as [dx' dy']. unfold cross, angle_of. simpl.
  intros [Hu | [Hu Hx]] [Hw | [Hw Hx']].
  - symmetry. now apply atan2_order_upper.
  - rewrite (proj1 (atan2_flat dy' dx' Hw)) by lra.
    assert (A := atan2_upper dy dx Hu). rewrite Hw.
    assert (0 < dy * dx') by (apply Qmult_lt_0_compat; assumption).
    split; intros; lra.
  - rewrite (proj1 (atan2_flat dy dx Hu)) by lra.
    assert (A := atan2_upper dy' dx' Hw). rewrite Hu.
    assert (0 < dx * dy') by (apply Qmult_lt_0_compat; assumption).
    split; intros; lra.
  - rewrite (proj1 (atan2_flat dy dx Hu)) by lra.
    rewrite (proj1 (atan2_flat dy' dx' Hw)) by lra.
    rewrite Hu, Hw. split; intros; lra.
Qed.

Lemma ccw_turn_lt (a b : Q) : a < b -> ccw_turn a b = b - a.
Proof. intros H. unfold ccw_turn. now rewrite (proj2 (Qltb_lt a b)). Qed.

Lemma ccw_turn_ge (a b : Q) : b <= a -> ccw_turn a b = b - a + 4.
Proof. intros H. unfold ccw_turn. now rewrite (proj2 (Qltb_ge a b)). Qed.

#[export] Instance ccw_turn_proper : Proper (Qeq ==> Qeq ==> Qeq) ccw_turn.
Proof.
  intros a a' Ha b b' Hb. unfold ccw_turn.
  rewrite (Qltb_proper _ _ Ha _ _ Hb). destruct (Qltb a' b'); now rewrite Ha, Hb.
Qed.

Ltac turns :=
  unfold ccw_turn in *;
  repeat match goal with
         | H : context [Qltb ?a ?b] |- _ =>
             let E := fresh "E" in
             destruct (Qltb a b) eqn:E;
             [apply Qltb_lt in E | apply Qltb_ge in E]
         | |- context [Qltb ?a ?b] =>
             let E := fresh "E" in
             destruct (Qltb a b) eqn:E;
             [apply Qltb_lt in E | apply Qltb_ge in E]
         end;
  try lra.

(** The turn from one direction to another is counter-clockwise exactly
    when the angle of the second is less than a half turn after the angle
    of the first. *)
Lemma turn_cross (u w : Q * Q) :
  nonzero u -> nonzero w ->
  (0 < cross u w <-> ccw_turn (angle_of u) (angle_of w) < 2).
Proof.
  intros Nu Nw.
  set (u' := (- fst u, - snd u)). set (w' := (- fst w, - snd w)).
  assert (Cw : cross u w' == - cross u w) by apply cross_opp_r.
  assert (Cu : cross u' w == - cross u w) by apply cross_opp_l.
  assert (Cuw : cross u' w' == cross u w).
  { unfold u', w', cross. simpl. ring. }
  assert (Aw : cross w' u == cross u w).
  { unfold w', cross. simpl. ring. }
  assert (Au : cross w u' == cross u w).
  { unfold u', cross. simpl. ring. }
  destruct (kind_of u Nu) as [U1 U2 U3 U4 | U1 U2 U3 U4 | U1 U2 U3 U4 | U1 U2 U3 U4];
    destruct (kind_of w Nw) as [W1 W2 W3 W4 | W1 W2 W3 W4 | W1 W2 W3 W4 | W1 W2 W3 W4];
    fold u' in U4; fold w' in W4.
  - (* up, up *)
    rewrite (upper_order u w) by (left; assumption). split; intros; turns.
  - rewrite (upper_order u w) by (try (left; assumption); right; split; assumption).
    split; intros; turns.
  - (* up, down *)
    rewrite <- Aw. rewrite (upper_order w' u); [| left; unfold w'; simpl; lra | left; assumption].
    split; intros; turns.
  - rewrite <- Aw. rewrite (upper_order w' u); [| right; unfold w'; simpl; split; lra | left; assumption].
    split; intros; turns.
  - rewrite (upper_order u w) by (try (left; assumption); right; split; assumption).
    split; intros; turns.
  - rewrite (upper_order u w) by (right; split; assumption).
    split; intros; turns.
  - rewrite <- Aw. rewrite (upper_order w' u); [| left; unfold w'; simpl; lra | right; split; assumption].
    split; intros; turns.
  - rewrite <- Aw. rewrite (upper_order w' u); [| right; unfold w'; simpl; split; lra | right; split; assumption].
    split; intros; turns.
  - (* down, up *)
    rewrite <- Au. rewrite (upper_order w u'); [| left; assumption | left; unfold u'; simpl; lra].
    split; intros; turns.
  - rewrite <- Au. rewrite (upper_order w u'); [| right; split; assumption | left; unfold u'; simpl; lra].
    split; intros; turns.
  - rewrite <- Cuw. rewrite (upper_order u' w'); [| left; unfold u'; simpl; lra | left; unfold w'; simpl; lra].
    split; intros; turns.
  - rewrite <- Cuw. rewrite (upper_order u' w'); [| left; unfold u'; simpl; lra | right; unfold w'; simpl; split; lra].
    split; intros; turns.
  - rewrite <- Au. rewrite (upper_order w u'); [| left; assumption | right; unfold u'; simpl; split; lra].
    split; intros; turns.
  - rewrite <- Au. rewrite (upper_order w u'); [| right; split; assumption | right; unfold u'; simpl; split; lra].
    split; intros; turns.
  - rewrite <- Cuw. rewrite (upper_order u' w'); [| right; unfold u'; simpl; split; lra | left; unfold w'; simpl; lra].
    split; intros; turns.
  - rewrite <- Cuw. rewrite (upper_order u' w'); [| right; unfold u'; simpl; split; lra | right; unfold w'; simpl; split; lra].
    split; intros; turns.
Qed.

(** ** The lower hull *)

Lemma Point_eq_dec (a b : Point) : {a = b} + {a <> b}.
Proof.
  destruct a as [o1 [n1 d1] [n1' d1']], b as [o2 [n2 d2] [n2' d2']].
  destruct (Nat.eq_dec o1 o2) as [-> | N]; [| right; congruence].
  destruct (Z.eq_dec n1 n2) as [-> | N]; [| right; congruence].
  destruct (Pos.eq_dec d1 d2) as [-> | N]; [| right; congruence].
  destruct (Z.eq_dec n1' n2') as [-> | N]; [| right; congruence].
  destruct (Pos.eq_dec d1' d2') as [-> | N]; [| right; congruence].
  now left.
Qed.

Lemma orientation_flip (a b c : Point) :
  orientation c b a == - orientation a b c.
Proof. rewrite !orientation_formula. ring. Qed.

Lemma orientation_flip_base (a b c : Point) :
  orientation b a c == - orientation a b c.
Proof. rewrite !orientation_formula. ring. Qed.

(** [z] above the line through [p] and [v], read from [v]. *)
Lemma orientation_from_right (p v z : Point) :
  orientation p v z == cross (vec v z) (vec v p).
Proof. rewrite orientation_formula. unfold cross, vec, minus. simpl. ring. Qed.

Lemma vec_x (v z : Point) : fst (vec v z) = x z - x v.
Proof. reflexivity. Qed.

Lemma vec_nonzero (v z : Point) : ~ x z == x v -> nonzero (vec v z).
Proof. intros N [E _]. rewrite vec_x in E. apply N. lra. Qed.

Lemma leftmost_dec (v : Point) (Z : list Point) :
  (exists z, In z Z /\ x z < x v) \/ (forall z, In z Z -> x v <= x z).
Proof.
  induction Z as [| z0 Z IH].
  - right. intros z [].
  - destruct IH as [(z & Hz & Lt) | IH].
    + left. exists z. split; [now right | exact Lt].
    + destruct (Qlt_le_dec (x z0) (x v)) as [Lt | Le].
      * left. exists z0. split; [now left | exact Lt].
      * right. intros z [<- | Hz]; [exact Le | now apply IH].
Qed.

Lemma rightmost_dec (v : Point) (Z : list Point) :
  (exists z, In z Z /\ x v < x z) \/ (forall z, In z Z -> x z <= x v).
Proof.
  induction Z as [| z0 Z IH].
  - right. intros z [].
  - destruct IH as [(z & Hz & Lt) | IH].
    + left. exists z. split; [now right | exact Lt].
    + destruct (Qlt_le_dec (x v) (x z0)) as [Lt | Le].
      * left. exists z0. split; [now left | exact Lt].
      * right. intros z [<- | Hz]; [exact Le | now apply IH].
Qed.

Lemma no_collinear_incl (U V : list Point) :
  incl U V -> no_collinear V -> no_collinear U.
Proof. intros I H a b c Ha Hb Hc. apply H; now apply I. Qed.

Lemma lower_edge_incl (U V : list Point) (a b : Point) :
  incl U V -> In a U -> In b U -> lower_edge V a b -> lower_edge U a b.
Proof.
  intros I Ha Hb (_ & _ & X & H). repeat split; try assumption.
  intros z Hz. apply H. now apply I.
Qed.

Section Hull.

Variable P : list Point.
Hypothesis Hx : x_distinct P.
Hypothesis Hn : no_collinear P.

Lemma distinct_x (a b : Point) : In a P -> In b P -> a <> b -> ~ x a == x b.
Proof. intros Ha Hb N E. apply N. now apply Hx. Qed.

Lemma x_neq (a b : Point) : x a < x b -> a <> b.
Proof. intros H ->. lra. Qed.

Ltac distinct :=
  first [ assumption
        | match goal with I : incl _ _ |- In _ _ => apply I; assumption end
        | apply x_neq; assumption
        | apply not_eq_sym; assumption
        | apply not_eq_sym; apply x_neq; assumption
        | (let E := fresh in intros E; subst; lra) ].

Lemma strictly (a b c : Point) :
  In a P -> In b P -> In c P -> a <> b -> b <> c -> a <> c ->
  0 <= orientation a b c -> 0 < orientation a b c.
Proof.
  intros Ha Hb Hc N1 N2 N3 H. apply Qle_lteq in H. destruct H as [H | H];
    [exact H |]. exfalso. apply (Hn a b c Ha Hb Hc N1 N2 N3). now symmetry.
Qed.

(** Among the points on the left of [v], one has every other above the line
    from it to [v]. *)
Lemma lowest_left (v : Point) (Z : list Point) :
  In v P -> incl Z P -> (exists z, In z Z /\ x z < x v) ->
  exists p, In p Z /\ x p < x v /\
            forall z, In z Z -> x z < x v -> z <> p -> 0 < orientation p v z.
Proof.
  intros Hv. induction Z as [| z0 Z IH]; intros I E.
  - destruct E as (z & [] & _).
  - assert (I' : incl Z P) by (intros z Hz; apply I; now right).
    assert (H0 : In z0 P) by (apply I; now left).
    destruct (leftmost_dec v Z) as [E' | A].
    + destruct (IH I' E') as (p & Hp & Xp & Low).
      destruct (Qlt_le_dec (x z0) (x v)) as [Lt | Le].
      * destruct (Point_eq_dec z0 p) as [-> | N].
        { exists p. split; [now left |]. split; [exact Xp |].
          intros z [<- | Hz] Xz Nz; [now elim Nz | now apply Low]. }
        destruct (Qlt_le_dec (orientation p v z0) 0) as [Neg | Pos].
        { exists z0. split; [now left |]. split; [exact Lt |].
          intros z [<- | Hz] Xz Nz; [now elim Nz |].
          assert (Hpz0 : 0 < cross (vec v p) (vec v z0)).
          { rewrite orientation_from_right in Neg.
            rewrite (cross_antisym (vec v z0) (vec v p)). lra. }
          rewrite orientation_from_right.
          destruct (Point_eq_dec z p) as [-> | Nzp]; [exact Hpz0 |].
          apply (turn_trans_left (vec v z) (vec v p) (vec v z0));
            rewrite ?vec_x; try lra.
          rewrite <- orientation_from_right. now apply Low. }
        { exists p. split; [now right |]. split; [exact Xp |].
          intros z [<- | Hz] Xz Nz; [| now apply Low].
          apply strictly; distinct. }
      * exists p. split; [now right |]. split; [exact Xp |].
        intros z [<- | Hz] Xz Nz; [lra | now apply Low].
    + destruct E as (z & [<- | Hz] & Xz).
      * exists z0. split; [now left |]. split; [exact Xz |].
        intros z [<- | Hz] Xz' Nz; [now elim Nz |]. specialize (A z Hz). lra.
      * specialize (A z Hz). lra.
Qed.

(** [z] above the line through [v] and [q], read from [v]. *)
Lemma orientation_from_left (v q z : Point) :
  orientation v q z == cross (vec v q) (vec v z).
Proof. apply orientation_cross. Qed.

Lemma lowest_right (v : Point) (Z : list Point) :
  In v P -> incl Z P -> (exists z, In z Z /\ x v < x z) ->
  exists q, In q Z /\ x v < x q /\
            forall z, In z Z -> x v < x z -> z <> q -> 0 < orientation v q z.
Proof.
  intros Hv. induction Z as [| z0 Z IH]; intros I E.
  - destruct E as (z & [] & _).
  - assert (I' : incl Z P) by (intros z Hz; apply I; now right).
    assert (H0 : In z0 P) by (apply I; now left).
    destruct (rightmost_dec v Z) as [E' | A].
    + destruct (IH I' E') as (q & Hq & Xq & Low).
      destruct (Qlt_le_dec (x v) (x z0)) as [Lt | Le].
      * destruct (Point_eq_dec z0 q) as [-> | N].
        { exists q. split; [now left |]. split; [exact Xq |].
          intros z [<- | Hz] Xz Nz; [now elim Nz | now apply Low]. }
        destruct (Qlt_le_dec (orientation v q z0) 0) as [Neg | Pos].
        { exists z0. split; [now left |]. split; [exact Lt |].
          intros z [<- | Hz] Xz Nz; [now elim Nz |].
          assert (Hz0q : 0 < cross (vec v z0) (vec v q)).
          { rewrite orientation_from_left in Neg.
            rewrite (cross_antisym (vec v q) (vec v z0)). lra. }
          rewrite orientation_from_left.
          destruct (Point_eq_dec z q) as [-> | Nzq]; [exact Hz0q |].
          apply (turn_trans_right (vec v z0) (vec v q) (vec v z));
            rewrite ?vec_x; try lra.
          rewrite <- orientation_from_left. apply Qlt_le_weak. now apply Low. }
        { exists q. split; [now right |]. split; [exact Xq |].
          intros z [<- | Hz] Xz Nz; [| now apply Low].
          apply strictly; distinct. }
      * exists q. split; [now right |]. split; [exact Xq |].
        intros z [<- | Hz] Xz Nz; [lra | now apply Low].
    + destruct E as (z & [<- | Hz] & Xz).
      * exists z0. split; [now left |]. split; [exact Xz |].
        intros z [<- | Hz] Xz' Nz; [now elim Nz |]. specialize (A z Hz). lra.
      * specialize (A z Hz). lra.
Qed.

(** The rightmost point ends an edge of the lower hull, and the leftmost
    point starts one. *)
Lemma hull_edge_last (v : Point) :
  In v P -> (forall z, In z P -> x z <= x v) ->
  (exists z, In z P /\ x z < x v) -> exists p, lower_edge P p v.
Proof.
  intros Hv Max E.
  destruct (lowest_left v P Hv (incl_refl P) E) as (p & Hp & Xp & Low).
  exists p. repeat split; try assumption. intros z Hz Np Nv.
  apply Low; try assumption. specialize (Max z Hz).
  apply Qle_lteq in Max. destruct Max as [Lt | Eq]; [exact Lt |].
  elim Nv. now apply Hx.
Qed.

Lemma hull_edge_first (v : Point) :
  In v P -> (forall z, In z P -> x v <= x z) ->
  (exists z, In z P /\ x v < x z) -> exists q, lower_edge P v q.
Proof.
  intros Hv Min E.
  destruct (lowest_right v P Hv (incl_refl P) E) as (q & Hq & Xq & Low).
  exists q. repeat split; try assumption. intros z Hz Nv Nq.
  apply Low; try assumption. specialize (Min z Hz).
  apply Qle_lteq in Min. destruct Min as [Lt | Eq]; [exact Lt |].
  elim Nv. symmetry. now apply Hx.
Qed.

(** The edge of the lower hull before a vertex that has one after it, and
    the other way round. *)
Lemma hull_edge_before (v s : Point) :
  lower_edge P v s -> (exists z, In z P /\ x z < x v) ->
  exists p, lower_edge P p v.
Proof.
  intros (Hv & Hs & Xs & Up) E.
  destruct (lowest_left v P Hv (incl_refl P) E) as (p & Hp & Xp & Low).
  exists p. repeat split; try assumption. intros z Hz Np Nv.
  destruct (Qlt_le_dec (x z) (x v)) as [Lt | Le]; [now apply Low |].
  assert (Xz : x v < x z).
  { apply Qle_lteq in Le. destruct Le as [Lt | Eq]; [exact Lt |].
    elim Nv. symmetry. now apply Hx. }
  assert (Ps : 0 < cross (vec v s) (vec v p)).
  { rewrite <- orientation_from_left. apply Up; auto.
    - apply x_neq in Xp. exact Xp.
    - intros ->. lra. }
  assert (Zs : 0 <= cross (vec v s) (vec v z)).
  { destruct (Point_eq_dec z s) as [-> | Ns].
    - unfold cross. apply Qle_minus_iff.
      assert (E0 : fst (vec v s) * snd (vec v s) - snd (vec v s) * fst (vec v s) + - 0 == 0) by ring.
      rewrite E0. apply Qle_refl.
    - apply Qlt_le_weak. rewrite <- orientation_from_left. apply Up; auto. }
  (* from v: p is on the left, s and z on the right *)
  rewrite orientation_from_right.
  set (p' := (- fst (vec v p), - snd (vec v p))).
  assert (E1 : cross (vec v z) (vec v p) == cross p' (vec v z)).
  { unfold p', cross. simpl. ring. }
  rewrite E1.
  apply (turn_trans_right p' (vec v s) (vec v z)); try assumption;
    unfold p'; simpl; try lra.
  assert (E2 : cross (- (x p - x v), - (y p - y v)) (vec v s)
               == cross (vec v s) (vec v p)).
  { unfold cross, vec, minus. simpl. ring. }
  rewrite E2. exact Ps.
Qed.

Lemma hull_edge_after (s v : Point) :
  lower_edge P s v -> (exists z, In z P /\ x v < x z) ->
  exists q, lower_edge P v q.
Proof.
  intros (Hs & Hv & Xs & Up) E.
  destruct (lowest_right v P Hv (incl_refl P) E) as (q & Hq & Xq & Low).
  exists q. repeat split; try assumption. intros z Hz Nv Nq.
  destruct (Qlt_le_dec (x v) (x z)) as [Lt | Le]; [now apply Low |].
  assert (Xz : x z < x v).
  { apply Qle_lteq in Le. destruct Le as [Lt | Eq]; [exact Lt |].
    elim Nv. now apply Hx. }
  assert (Qs : 0 < cross (vec v q) (vec v s)).
  { rewrite <- orientation_from_right. apply Up; auto.
    - intros ->. lra.
    - apply not_eq_sym. apply x_neq. exact Xq. }
  assert (Zs : 0 <= cross (vec v z) (vec v s)).
  { destruct (Point_eq_dec z s) as [-> | Ns].
    - unfold cross. apply Qle_minus_iff.
      assert (E0 : fst (vec v s) * snd (vec v s) - snd (vec v s) * fst (vec v s) + - 0 == 0) by ring.
      rewrite E0. apply Qle_refl.
    - apply Qlt_le_weak. rewrite <- orientation_from_right. apply Up; auto. }
  rewrite orientation_from_left.
  set (q' := (- fst (vec v q), - snd (vec v q))).
  assert (E1 : cross (vec v q) (vec v z) == cross (vec v z) q').
  { unfold q', cross. simpl. ring. }
  assert (E2 : cross (vec v s) q' == cross (vec v q) (vec v s)).
  { unfold q', cross. simpl. ring. }
  rewrite E1.
  destruct (Qle_lt_or_eq _ _ Zs) as [Zs' | Zs'].
  - apply (turn_trans_left (vec v z) (vec v s) q');
      [ | | | exact Zs' | rewrite E2; lra ]; unfold q'; simpl; lra.
  - (* z = s *)
    assert (z = s).
    { destruct (Point_eq_dec z s) as [-> | Ns]; [reflexivity |]. exfalso.
      assert (0 < cross (vec v z) (vec v s)).
      { rewrite <- orientation_from_right. apply Up; auto. }
      lra. }
    subst z. rewrite E2. exact Qs.
Qed.

End Hull.

(** ** The lookups, as least turns *)

Lemma sorted_last (ls : list Link) (l : Link) :
  sorted_links ls -> hd_error (rev ls) = Some l ->
  forall l', In l' ls -> angle l' <= angle l.
Proof.
  intros S H l' Hl'.
  destruct (rev ls) as [| l0 tl] eqn:E; [discriminate |].
  injection H as ->.
  assert (E' : ls = rev tl ++ [l]).
  { rewrite <- (rev_involutive ls), E. reflexivity. }
  rewrite E' in S, Hl'. destruct (sorted_app _ _ S) as (_ & _ & S3).
  apply in_app_or in Hl'. destruct Hl' as [Hl' | [<- | []]].
  - apply S3; [exact Hl' | now left].
  - apply Qle_refl.
Qed.

Lemma sorted_first (ls : list Link) (l : Link) :
  sorted_links ls -> hd_error ls = Some l ->
  forall l', In l' ls -> angle l <= angle l'.
Proof.
  intros S H l' Hl'. destruct ls as [| l0 tl]; [discriminate |].
  injection H as ->. now apply (sorted_head l tl).
Qed.

(** With a positive direction the lookup returns a link of least
    counter-clockwise turn from the reference angle; with a negative
    direction, one of least clockwise turn. *)
Lemma lookup_after (a : Q) (ring : Ring) :
  links ring <> [] -> ring_ok ring -> - (2) <= a -> a <= 2 ->
  exists l, In l (links ring) /\
            nextConnectionFromAngle a ring 1 = Ok (point l) /\
            forall l', In l' (links ring) ->
                       ccw_turn a (angle l) <= ccw_turn a (angle l').
Proof.
  intros N (S & _ & Rg) A1 A2.
  destruct (next_after_spec a ring N S) as (t & H & Nx).
  unfold in_range, PI in Rg. rewrite Forall_forall in Rg.
  destruct Nx as [(l & Hl & <- & Lt & Min) | (None & l & Hd & <-)].
  - exists l. split; [exact Hl |]. split; [exact H |].
    intros l' Hl'. pose proof (Rg l Hl) as R1. pose proof (Rg l' Hl') as R2.
    rewrite (ccw_turn_lt a (angle l) Lt).
    destruct (Qlt_le_dec a (angle l')) as [Lt' | Le'].
    + rewrite (ccw_turn_lt a (angle l') Lt'). specialize (Min l' Hl' Lt'). lra.
    + rewrite (ccw_turn_ge a (angle l') Le'). lra.
  - assert (Hl : In l (links ring)).
    { destruct (links ring); [discriminate |]. injection Hd as ->. now left. }
    exists l. split; [exact Hl |]. split; [exact H |].
    intros l' Hl'. pose proof (sorted_first _ _ S Hd l' Hl') as Le.
    assert (L1 : angle l <= a).
    { apply Qnot_lt_le. apply (None l Hl). }
    assert (L2 : angle l' <= a).
    { apply Qnot_lt_le. apply (None l' Hl'). }
    rewrite (ccw_turn_ge a (angle l) L1), (ccw_turn_ge a (angle l') L2). lra.
Qed.

Lemma lookup_before (a : Q) (ring : Ring) :
  links ring <> [] -> ring_ok ring -> - (2) <= a -> a <= 2 ->
  exists l, In l (links ring) /\
            nextConnectionFromAngle a ring (-1) = Ok (point l) /\
            forall l', In l' (links ring) ->
                       ccw_turn (angle l) a <= ccw_turn (angle l') a.
Proof.
  intros N (S & _ & Rg) A1 A2.
  destruct (next_before_spec a ring N S) as (t & H & Nx).
  unfold in_range, PI in Rg. rewrite Forall_forall in Rg.
  destruct Nx as [(l & Hl & <- & Lt & Max) | (None & l & Hd & <-)].
  - exists l. split; [exact Hl |]. split; [exact H |].
    intros l' Hl'. pose proof (Rg l Hl) as R1. pose proof (Rg l' Hl') as R2.
    rewrite (ccw_turn_lt (angle l) a Lt).
    destruct (Qlt_le_dec (angle l') a) as [Lt' | Le'].
    + rewrite (ccw_turn_lt (angle l') a Lt'). specialize (Max l' Hl' Lt'). lra.
    + rewrite (ccw_turn_ge (angle l') a Le'). lra.
  - assert (Hl : In l (links ring)).
    { apply in_rev. destruct (rev (links ring)); [discriminate |].
      injection Hd as ->. now left. }
    exists l. split; [exact Hl |]. split; [exact H |].
    intros l' Hl'. pose proof (sorted_last _ _ S Hd l' Hl') as Le.
    assert (L1 : a <= angle l).
    { apply Qnot_lt_le. apply (None l Hl). }
    assert (L2 : a <= angle l').
    { apply Qnot_lt_le. apply (None l' Hl'). }
    rewrite (ccw_turn_ge (angle l) a L1), (ccw_turn_ge (angle l') a L2). lra.
Qed.

(** ** Rings that are there, centered, and without loops *)

Lemma complete_keys (U : list Point) (c c' : Connections) :
  keys c' = keys c -> complete U c -> complete U c'.
Proof.
  intros E H p Hp. destruct (H p Hp) as (r & G).
  apply get_some_keys in G. rewrite <- E in G. apply get_keys in G.
  destruct (get c' (id p)) as [r' |]; [now exists r' | now elim G].
Qed.

Lemma update_centered (k : Key) (f : Ring -> Ring) (c c' : Connections) :
  (forall r, center (f r) = center r) ->
  centered c -> update k f c = Ok c' -> centered c'.
Proof.
  intros Hf Hc H k' r'. rewrite (update_get _ _ _ _ k' H).
  destruct (key_eqb k k') eqn:E.
  - apply key_eqb_eq in E. subst k'. destruct (get c k) as [r |] eqn:G; simpl.
    + intros [= <-]. rewrite Hf. now apply Hc.
    + discriminate.
  - apply Hc.
Qed.

Lemma connect_centered (p q : Point) (c c' : Connections) :
  centered c -> connect p q c = Ok c' -> centered c'.
Proof.
  intros Hc. rewrite connect_update.
  destruct (update (id p) (addConnection q) c) as [c1 |] eqn:H1; simpl;
    [| discriminate].
  intros H2. eapply update_centered; [| | exact H2]; [reflexivity |].
  eapply update_centered; [| exact Hc | exact H1]. reflexivity.
Qed.

Lemma disconnect_centered (p q : Point) (c c' : Connections) :
  centered c -> disconnect p q c = Ok c' -> centered c'.
Proof.
  intros Hc. rewrite disconnect_update.
  destruct (update (id p) (removeConnection q) c) as [c1 |] eqn:H1; simpl;
    [| discriminate].
  intros H2. eapply update_centered; [| | exact H2]; [reflexivity |].
  eapply update_centered; [| exact Hc | exact H1]. reflexivity.
Qed.

Lemma tidy_connect (U : list Point) (p q : Point) (c c' : Connections) :
  id p <> id q -> tidy U c -> connect p q c = Ok c' -> tidy U c'.
Proof.
  intros N (Hc & Hm & Hi) H. split; [| split].
  - apply (complete_keys U c c' (connect_keys _ _ _ _ H) Hc).
  - apply (connect_centered p q c c' Hm H).
  - intros a Lk. apply (connect_linked _ _ _ _ _ _ H) in Lk.
    destruct Lk as [Lk | [[E1 E2] | [E1 E2]]].
    + now apply (Hi a).
    + apply N. congruence.
    + apply N. congruence.
Qed.

Lemma tidy_disconnect (U : list Point) (p q : Point) (c c' : Connections) :
  tidy U c -> disconnect p q c = Ok c' -> tidy U c'.
Proof.
  intros (Hc & Hm & Hi) H. split; [| split].
  - apply (complete_keys U c c' (disconnect_keys _ _ _ _ H) Hc).
  - apply (disconnect_centered p q c c' Hm H).
  - intros a Lk. apply (disconnect_sub _ _ _ _ _ _ H) in Lk. now apply (Hi a).
Qed.

Lemma tidy_empty (pts : list Point) : tidy pts (emptyConnections pts).
Proof.
  split; [| split].
  - intros p Hp.
    assert (K : In (id p) (keys (emptyConnections pts)))
      by (apply keys_empty_in; now apply in_map).
    apply get_keys in K. destruct (get (emptyConnections pts) (id p)) as [r |];
      [now exists r | now elim K].
  - intros k r G. apply get_empty in G. now destruct G as (p & _ & -> & ->).
  - intros p (r & l & G & Hl & _). apply get_empty in G.
    destruct G as (p' & _ & -> & _). destruct Hl.
Qed.

Lemma complete_total (U : list Point) (c : Connections) (p : Point) :
  complete U c -> In p U -> exists r, getRing c (id p) = Ok r.
Proof.
  intros H Hp. destruct (H p Hp) as (r & G). exists r. unfold getRing.
  now rewrite G.
Qed.

Lemma update_total (k : Key) (f : Ring -> Ring) (c : Connections) (r : Ring) :
  get c k = Some r -> update k f c = Ok (set k (f r) c).
Proof. intros G. unfold update, getRing. now rewrite G. Qed.

Lemma connect_total (U : list Point) (c : Connections) (p q : Point) :
  complete U c -> In p U -> In q U -> exists c', connect p q c = Ok c'.
Proof.
  intros H Hp Hq. rewrite connect_update.
  destruct (H p Hp) as (rp & Gp). rewrite (update_total _ _ _ _ Gp). simpl.
  assert (H1 : complete U (set (id p) (addConnection q rp) c)).
  { apply (complete_keys U c); [| exact H].
    apply (keys_set_present _ _ _ _ Gp). }
  destruct (H1 q Hq) as (rq & Gq). rewrite (update_total _ _ _ _ Gq).
  eexists. reflexivity.
Qed.

Lemma disconnect_total (U : list Point) (c : Connections) (p q : Point) :
  complete U c -> In p U -> In q U -> exists c', disconnect p q c = Ok c'.
Proof.
  intros H Hp Hq. rewrite disconnect_update.
  destruct (H p Hp) as (rp & Gp). rewrite (update_total _ _ _ _ Gp). simpl.
  assert (H1 : complete U (set (id p) (removeConnection q rp) c)).
  { apply (complete_keys U c); [| exact H].
    apply (keys_set_present _ _ _ _ Gp). }
  destruct (H1 q Hq) as (rq & Gq). rewrite (update_total _ _ _ _ Gq).
  eexists. reflexivity.
Qed.

(** The links of the union of two maps on disjoint point sets. *)
Lemma merge_get_left (L R : list Point) (cl cr : Connections) (a : Point) :
  (forall a b, In a L -> In b R -> id a <> id b) ->
  Inv L cl -> Inv R cr -> In a L ->
  get (mergeConnections cl cr) (id a) = get cl (id a).
Proof.
  intros Dj (Nc & _) (Nd & Kd & _) Ha. rewrite get_merge by assumption.
  destruct (get cr (id a)) as [r |] eqn:G; [| reflexivity].
  apply get_some_keys in G. apply Kd in G. apply in_map_iff in G.
  destruct G as (b & E & Hb). exfalso. apply (Dj a b Ha Hb). now symmetry.
Qed.

Lemma merge_get_right (L R : list Point) (cl cr : Connections) (b : Point) :
  Inv L cl -> Inv R cr -> complete R cr -> In b R ->
  get (mergeConnections cl cr) (id b) = get cr (id b).
Proof.
  intros (Nc & _) (Nd & _) C Hb. rewrite get_merge by assumption.
  destruct (C b Hb) as (r & ->). reflexivity.
Qed.

Lemma tidy_merge (L R : list Point) (cl cr : Connections) :
  (forall a b, In a L -> In b R -> id a <> id b) ->
  Inv L cl -> Inv R cr -> tidy L cl -> tidy R cr ->
  tidy (L ++ R) (mergeConnections cl cr).
Proof.
  intros Dj Il Ir (Cl & Ml & Xl) (Cr & Mr & Xr).
  pose proof Il as (Nc & Kc & _). pose proof Ir as (Nd & Kd & _).
  split; [| split].
  - intros p Hp. apply in_app_or in Hp. destruct Hp as [Hp | Hp].
    + rewrite (merge_get_left L R cl cr p Dj Il Ir Hp). now apply Cl.
    + rewrite (merge_get_right L R cl cr p Il Ir Cr Hp). now apply Cr.
  - intros k r. rewrite get_merge by assumption.
    destruct (get cr k) as [r' |] eqn:G.
    + intros [= <-]. now apply Mr.
    + apply Ml.
  - intros p (r & l & G & Hl & E). rewrite get_merge in G by assumption.
    destruct (get cr (id p)) as [r' |] eqn:G'.
    + injection G as <-. apply (Xr p). now exists r', l.
    + apply (Xl p). now exists r, l.
Qed.

Lemma merge_linked_left (L R : list Point) (cl cr : Connections) (a b : Point) :
  (forall a b, In a L -> In b R -> id a <> id b) ->
  Inv L cl -> Inv R cr -> In a L ->
  (linked (mergeConnections cl cr) a b <-> linked cl a b).
Proof.
  intros Dj Il Ir Ha. unfold linked.
  rewrite (merge_get_left L R cl cr a Dj Il Ir Ha). tauto.
Qed.

Lemma merge_linked_right (L R : list Point) (cl cr : Connections) (a b : Point) :
  Inv L cl -> Inv R cr -> complete R cr -> In a R ->
  (linked (mergeConnections cl cr) a b <-> linked cr a b).
Proof.
  intros Il Ir C Ha. unfold linked.
  rewrite (merge_get_right L R cl cr a Il Ir C Ha). tauto.
Qed.

(** ** Turns about a point *)

Lemma angle_from_of (v z : Point) : angle_from v z = angle_of (vec v z).
Proof. reflexivity. Qed.

Lemma angle_from_range (v z : Point) : in_turn (angle_from v z).
Proof. unfold angle_from. apply (atan2_range _ _). Qed.

Lemma angle_from_coincide (v v' z : Point) :
  coincide v v' -> angle_from v z == angle_from v' z.
Proof.
  intros [Ex Ey]. unfold angle_from, minus. simpl. now rewrite Ex, Ey.
Qed.

(** The turn from [a] to [b] about [v] is counter-clockwise when [b] is on
    the left of the line from [v] to [a]. *)
Lemma turn_orientation (v a b : Point) :
  ~ x a == x v -> ~ x b == x v ->
  (0 < orientation v a b <->
   ccw_turn (angle_from v a) (angle_from v b) < 2).
Proof.
  intros Na Nb. rewrite orientation_cross, !angle_from_of.
  apply turn_cross; now apply vec_nonzero.
Qed.

Lemma angle_north : angle_of (0, 1) == 1.
Proof. reflexivity. Qed.

Lemma angle_west : angle_of (- (1), 0) == 2.
Proof. reflexivity. Qed.

(** The angles of the directions towards the right, and towards the
    left. *)
Lemma angle_right (v z : Point) :
  x v < x z -> - (1) < angle_from v z /\ angle_from v z < 1.
Proof.
  intros H. pose proof (angle_from_range v z) as [R1 R2].
  assert (T : ccw_turn (angle_from v z) 1 < 2).
  { rewrite <- angle_north, angle_from_of. apply turn_cross.
    - apply vec_nonzero. lra.
    - intros [_ E]. simpl in E. lra.
    - unfold cross. rewrite vec_x. simpl. lra. }
  turns.
Qed.

Lemma angle_left (v z : Point) :
  x z < x v ->
  (1 < angle_from v z /\ angle_from v z <= 2) \/
  (- (2) < angle_from v z /\ angle_from v z < - (1)).
Proof.
  intros H. pose proof (angle_from_range v z) as [R1 R2].
  assert (T : ccw_turn 1 (angle_from v z) < 2).
  { rewrite <- angle_north, angle_from_of. apply turn_cross.
    - intros [_ E]. simpl in E. lra.
    - apply vec_nonzero. lra.
    - unfold cross. rewrite vec_x. simpl. lra. }
  unfold ccw_turn in T. destruct (Qltb 1 (angle_from v z)) eqn:E.
  - apply Qltb_lt in E. left. lra.
  - apply Qltb_ge in E. right. lra.
Qed.

(** The arithmetic of the walks along a lower hull and of the candidate
    search. *)
Lemma walk_left_turns (s t p : Q) :
  in_turn s -> in_turn t -> in_turn p ->
  ccw_turn s t < 2 -> ccw_turn t p < 2 -> ccw_turn s p < 2 ->
  ccw_turn t s <= ccw_turn p s -> False.
Proof. unfold in_turn. intros [Ra Ra'] [Rb Rb'] [Rc Rc'] H1 H2 H3 H4. turns. Qed.

Lemma walk_right_turns (s t q : Q) :
  in_turn s -> in_turn t -> in_turn q ->
  ccw_turn t s < 2 -> ccw_turn q s < 2 -> ccw_turn q t < 2 ->
  ccw_turn s t <= ccw_turn s q -> False.
Proof. unfold in_turn. intros [Ra Ra'] [Rb Rb'] [Rc Rc'] H1 H2 H3 H4. turns. Qed.

Lemma full_turn (a b : Q) :
  in_turn a -> in_turn b -> ccw_turn a b < 2 -> ccw_turn b a < 4.
Proof. unfold in_turn. intros [Ra Ra'] [Rb Rb'] H. turns. Qed.

Lemma turn_self (a b : Q) : a == b -> ccw_turn a b == 4.
Proof. intros E. rewrite ccw_turn_ge by lra. lra. Qed.

Lemma candidate_turns (o c n : Q) :
  in_turn o -> in_turn c -> in_turn n ->
  ccw_turn o c < 2 -> ccw_turn o n < 2 -> ccw_turn c n <= ccw_turn c o ->
  ccw_turn c n < 2.
Proof. unfold in_turn. intros [Ra Ra'] [Rb Rb'] [Rc Rc'] H1 H2 H3. turns. Qed.

Lemma candidate_turns' (o c n : Q) :
  in_turn o -> in_turn c -> in_turn n ->
  ccw_turn c o < 2 -> ccw_turn n o < 2 -> ccw_turn n c <= ccw_turn o c ->
  ccw_turn n c < 2.
Proof. unfold in_turn. intros [Ra Ra'] [Rb Rb'] [Rc Rc'] H1 H2 H3. turns. Qed.

Lemma first_left_turns (t p : Q) :
  ((1 < t /\ t <= 2) \/ (- (2) < t /\ t < - (1))) ->
  ((1 < p /\ p <= 2) \/ (- (2) < p /\ p < - (1))) ->
  ccw_turn t p < 2 -> ccw_turn t 0 <= ccw_turn p 0 -> False.
Proof. intros [[Ra Ra'] | [Ra Ra']] [[Rb Rb'] | [Rb Rb']] H1 H2; turns. Qed.

Lemma first_right_turns (t q : Q) :
  - (1) < t -> t < 1 -> - (1) < q -> q < 1 ->
  ccw_turn q t < 2 -> ccw_turn (- (2)) t <= ccw_turn (- (2)) q -> False.
Proof. intros Ra Ra' Rb Rb' H1 H2. turns. Qed.

(** ** The neighbours of a point, in turn *)

Section Around.

Variables (U : list Point) (c : Connections).
Hypothesis Hcoh : coherent U.
Hypothesis Hx : x_distinct U.
Hypothesis HI : Inv U c.
Hypothesis HT : tidy U c.

Lemma ring_at (v : Point) :
  In v U ->
  exists r, getRing c (id v) = Ok r /\ get c (id v) = Some r /\ ring_ok r /\
            coincide (center r) v.
Proof.
  intros Hv. destruct HT as (Hc & Hm & _). destruct (Hc v Hv) as (r & G).
  exists r. split; [unfold getRing; now rewrite G |]. split; [exact G |].
  split.
  - destruct HI as (_ & _ & _ & _ & R). now apply (R (id v)).
  - apply id_coincide. now apply Hm.
Qed.

Lemma link_facts (v : Point) (r : Ring) (l : Link) :
  In v U -> get c (id v) = Some r -> In l (links r) ->
  In (point l) U /\ point l <> v /\ linked c v (point l) /\
  angle l == angle_from v (point l) /\ ~ x (point l) == x v.
Proof.
  intros Hv G Hl. destruct HI as (_ & _ & C & _ & R).
  destruct HT as (_ & Hm & Hi).
  assert (Hp : In (point l) U) by (apply (C (id v)); now exists r).
  assert (Lk : linked c v (point l)) by (now exists r, l).
  assert (N : point l <> v).
  { intros E. apply (Hi v). now rewrite E in Lk. }
  repeat split; try assumption.
  - destruct (R _ _ G) as (_ & A & _). unfold angles_ok in A.
    rewrite Forall_forall in A. rewrite (A l Hl).
    apply angle_from_coincide. apply id_coincide. now apply Hm.
  - intros E. apply N. now apply Hx.
Qed.

Lemma linked_link (v t : Point) (r : Ring) :
  get c (id v) = Some r -> linked c v t -> In t U ->
  exists l, In l (links r) /\ point l = t.
Proof.
  intros G (r' & l & G' & Hl & E) Ht. rewrite G in G'. injection G' as <-.
  exists l. split; [exact Hl |]. destruct HI as (_ & _ & C & _).
  apply Hcoh; auto. apply (C (id v)). now exists r.
Qed.

Lemma ref_angle_eq (v : Point) (r : Ring) (ref : Reference) (d : Z) :
  coincide (center r) v ->
  exists a, a == ref_angle v ref /\
            nextConnection ref r d = nextConnectionFromAngle a r d.
Proof.
  intros E. destruct ref as [a | s]; simpl.
  - exists a. split; reflexivity.
  - exists (angle_from (center r) s). split; [| reflexivity].
    now apply angle_from_coincide.
Qed.

(** A lookup with direction 1 in the ring of [v]: a neighbour of least
    counter-clockwise turn from the reference. *)
Lemma around_after (v : Point) (ref : Reference) (r : Ring) :
  In v U -> getRing c (id v) = Ok r -> (exists z, linked c v z) ->
  - (2) <= ref_angle v ref -> ref_angle v ref <= 2 ->
  exists t, nextConnection ref r 1 = Ok t /\ linked c v t /\ In t U /\
            t <> v /\
            forall z, In z U -> linked c v z ->
                      ccw_turn (ref_angle v ref) (angle_from v t)
                      <= ccw_turn (ref_angle v ref) (angle_from v z).
Proof.
  intros Hv G (z0 & r0 & l0 & G0 & Hl0 & _) A1 A2.
  apply getRing_ok in G. rewrite G in G0. injection G0 as <-.
  destruct (ring_at v Hv) as (r' & _ & G' & Rk & Ec).
  rewrite G in G'. injection G' as <-.
  destruct (ref_angle_eq v r ref 1 Ec) as (a & Ea & ->).
  destruct (lookup_after a r) as (l & Hl & H & Min); try assumption;
    try (rewrite Ea; assumption).
  { intros E. rewrite E in Hl0. destruct Hl0. }
  destruct (link_facts v r l Hv G Hl) as (F1 & F2 & F3 & F4 & _).
  exists (point l). repeat split; try assumption.
  intros z Hz Lk. destruct (linked_link v z r G Lk Hz) as (l' & Hl' & <-).
  destruct (link_facts v r l' Hv G Hl') as (_ & _ & _ & F4' & _).
  rewrite <- Ea, <- F4, <- F4'. now apply Min.
Qed.

(** A lookup with direction -1: a neighbour of least clockwise turn. *)
Lemma around_before (v : Point) (ref : Reference) (r : Ring) :
  In v U -> getRing c (id v) = Ok r -> (exists z, linked c v z) ->
  - (2) <= ref_angle v ref -> ref_angle v ref <= 2 ->
  exists t, nextConnection ref r (-1) = Ok t /\ linked c v t /\ In t U /\
            t <> v /\
            forall z, In z U -> linked c v z ->
                      ccw_turn (angle_from v t) (ref_angle v ref)
                      <= ccw_turn (angle_from v z) (ref_angle v ref).
Proof.
  intros Hv G (z0 & r0 & l0 & G0 & Hl0 & _) A1 A2.
  apply getRing_ok in G. rewrite G in G0. injection G0 as <-.
  destruct (ring_at v Hv) as (r' & _ & G' & Rk & Ec).
  rewrite G in G'. injection G' as <-.
  destruct (ref_angle_eq v r ref (-1) Ec) as (a & Ea & ->).
  destruct (lookup_before a r) as (l & Hl & H & Min); try assumption;
    try (rewrite Ea; assumption).
  { intros E. rewrite E in Hl0. destruct Hl0. }
  destruct (link_facts v r l Hv G Hl) as (F1 & F2 & F3 & F4 & _).
  exists (point l). repeat split; try assumption.
  intros z Hz Lk. destruct (linked_link v z r G Lk Hz) as (l' & Hl' & <-).
  destruct (link_facts v r l' Hv G Hl') as (_ & _ & _ & F4' & _).
  rewrite <- Ea, <- F4, <- F4'. now apply Min.
Qed.

Lemma ref_point_range (v s : Point) :
  - (2) <= ref_angle v (FromPoint s) /\ ref_angle v (FromPoint s) <= 2.
Proof. simpl. destruct (angle_from_range v s). split; lra. Qed.

End Around.

(** ** Slopes about a point *)

Lemma Qmult_neg_pos (a b : Q) : a < 0 -> 0 < b -> a * b < 0.
Proof.
  intros Ha Hb. assert (0 < (- a) * b) by (apply Qmult_lt_0_compat; lra).
  assert (E : (- a) * b == - (a * b)) by ring. lra.
Qed.

Lemma Qmult_neg_cancel (a g : Q) : a < 0 -> a * g < 0 -> 0 < g.
Proof.
  intros Ha H. apply Qnot_le_lt. intros N.
  assert (0 <= (- a) * (- g)) by (apply Qmult_le_0_compat; lra).
  assert (E : (- a) * (- g) == a * g) by ring. lra.
Qed.

(** The points on the right of [v] are ordered by the slope of the line
    from [v]; so are the points on its left. *)
Lemma slope_right (v a b c : Point) :
  x v < x a -> x v < x b -> x v < x c ->
  0 < orientation v a b -> 0 <= orientation v b c -> 0 < orientation v a c.
Proof.
  intros Xa Xb Xc. rewrite !orientation_cross.
  apply turn_trans_right; rewrite vec_x; lra.
Qed.

Lemma slope_right' (v a b c : Point) :
  x v < x a -> x v < x b -> x v < x c ->
  0 <= orientation v a b -> 0 < orientation v b c -> 0 < orientation v a c.
Proof.
  intros Xa Xb Xc. rewrite !orientation_cross.
  apply turn_trans_right'; rewrite vec_x; lra.
Qed.

Lemma slope_left (v a b c : Point) :
  x a < x v -> x b < x v -> x c < x v ->
  0 < orientation v a b -> 0 <= orientation v b c -> 0 < orientation v a c.
Proof.
  intros Xa Xb Xc. rewrite !orientation_cross.
  apply turn_trans_left; rewrite vec_x; lra.
Qed.

(** With [p] on the left of [v] and [s], [z] on its right: if [p] is above
    the line from [v] to [s], and [z] is on or above it, then [z] is above
    the line from [p] to [v]. *)
Lemma slope_across_right (v p s z : Point) :
  x p < x v -> x v < x s -> x v < x z ->
  0 < orientation v s p -> 0 <= orientation v s z -> 0 < orientation p v z.
Proof.
  intros Xp Xs Xz Ps Zs. rewrite (orientation_from_right p v z).
  rewrite orientation_cross in Ps, Zs.
  set (p' := (- fst (vec v p), - snd (vec v p))).
  assert (E1 : cross (vec v z) (vec v p) == cross p' (vec v z)).
  { unfold p', cross. simpl. ring. }
  assert (E2 : cross p' (vec v s) == cross (vec v s) (vec v p)).
  { unfold p', cross. simpl. ring. }
  rewrite E1.
  apply (turn_trans_right p' (vec v s) (vec v z));
    [ | | | rewrite E2; exact Ps | exact Zs ]; unfold p'; simpl; lra.
Qed.

(** With [q] on the right of [v] and [s], [z] on its left: if [q] is above
    the line from [s] to [v], and [z] is on or above it, then [z] is above
    the line from [v] to [q]. *)
Lemma slope_across_left (v q s z : Point) :
  x v < x q -> x s < x v -> x z < x v ->
  0 < orientation s v q -> 0 <= orientation s v z -> 0 < orientation v q z.
Proof.
  intros Xq Xs Xz Qs Zs. rewrite (orientation_cross v q z).
  rewrite (orientation_from_right s v q) in Qs.
  rewrite (orientation_from_right s v z) in Zs.
  set (q' := (- fst (vec v q), - snd (vec v q))).
  assert (E1 : cross (vec v q) (vec v z) == cross (vec v z) q').
  { unfold q', cross. simpl. ring. }
  assert (E2 : cross (vec v s) q' == cross (vec v q) (vec v s)).
  { unfold q', cross. simpl. ring. }
  rewrite E1.
  apply Qle_lteq in Zs. destruct Zs as [Zs | Zs].
  - apply (turn_trans_left (vec v z) (vec v s) q');
      [ | | | exact Zs | rewrite E2; lra ]; unfold q'; simpl; lra.
  - (* z on the line from s to v, on the side of s *)
    assert (C : 0 < cross (vec v s) q') by (rewrite E2; exact Qs).
    assert (E3 : fst (vec v s) * cross (vec v z) q'
                 == fst (vec v z) * cross (vec v s) q'
                    + fst q' * cross (vec v z) (vec v s)).
    { unfold q', cross. simpl. ring. }
    assert (N1 : fst (vec v z) * cross (vec v s) q' < 0)
      by (apply Qmult_neg_pos; [simpl; lra | exact C]).
    apply (Qmult_neg_cancel (fst (vec v s))); [simpl; lra |].
    rewrite E3. rewrite <- Zs. lra.
Qed.

(** ** Below and above a line *)

Lemma includes_two (a b t : Point) :
  includes [a; b] t = false <-> oid t <> oid a /\ oid t <> oid b.
Proof.
  unfold includes. simpl. rewrite !orb_false_iff. unfold same.
  rewrite !Nat.eqb_neq. split; intros H; repeat split; try tauto;
    destruct H as (H1 & H2); try destruct H2 as (H2 & _); congruence.
Qed.

Lemma below_orientation (t left right : Point) :
  x left < x right -> belowLine t (left, right) = true ->
  orientation left right t < 0.
Proof.
  intros H. rewrite belowLine_eq. destruct (includes [left; right] t);
    [discriminate |].
  unfold canonical. assert (E : Qltb (x right) (x left) = false)
    by (apply Qltb_ge; lra).
  rewrite E. simpl. apply Qltb_lt.
Qed.

Lemma not_below (t left right : Point) :
  x left < x right -> oid t <> oid left -> oid t <> oid right ->
  belowLine t (left, right) = false -> 0 <= orientation left right t.
Proof.
  intros H N1 N2. rewrite belowLine_eq.
  rewrite (proj2 (includes_two left right t)) by now split.
  unfold canonical. assert (E : Qltb (x right) (x left) = false)
    by (apply Qltb_ge; lra).
  rewrite E. simpl. apply Qltb_ge.
Qed.

Lemma above_objects (t left right : Point) :
  aboveLine t (left, right) = true -> oid t <> oid left /\ oid t <> oid right.
Proof.
  rewrite aboveLine_eq. destruct (includes [left; right] t) eqn:E;
    [discriminate |]. intros _. now apply includes_two.
Qed.

Lemma above_intro (t left right : Point) :
  x left < x right -> oid t <> oid left -> oid t <> oid right ->
  0 < orientation left right t -> aboveLine t (left, right) = true.
Proof.
  intros H N1 N2 O. rewrite aboveLine_eq.
  rewrite (proj2 (includes_two left right t)) by now split.
  unfold canonical. assert (E : Qltb (x right) (x left) = false)
    by (apply Qltb_ge; lra).
  rewrite E. simpl. now apply Qltb_lt.
Qed.

(** ** Heights on the separating line *)

Lemma lower_left (m : Q) (l r p : Point) :
  x l < x r -> x p < x r -> m < x r -> orientation l r p < 0 ->
  height m p r < height m l r.
Proof.
  intros Hl Hp Hm H. apply height_lt; [exact Hp | exact Hl |].
  rewrite orientation_formula in H.
  apply Qlt_minus_iff.
  assert (E : (y l * (x r - m) + y r * (m - x l)) * (x r - x p) +
              - ((y p * (x r - m) + y r * (m - x p)) * (x r - x l))
              == (- (x l * (y r - y p) - y l * (x r - x p) + (x r * y p - y r * x p)))
                 * (x r - m)) by ring.
  rewrite E. apply Qmult_lt_0_compat; lra.
Qed.

Lemma lower_right (m : Q) (l r p : Point) :
  x l < x r -> x l < x p -> x l < m -> orientation l r p < 0 ->
  height m l p < height m l r.
Proof.
  intros Hr Hp Hm H. apply height_lt; [exact Hp | exact Hr |].
  rewrite orientation_formula in H.
  apply Qlt_minus_iff.
  assert (E : (y l * (x r - m) + y r * (m - x l)) * (x p - x l) +
              - ((y l * (x p - m) + y p * (m - x l)) * (x r - x l))
              == (- (x l * (y r - y p) - y l * (x r - x p) + (x r * y p - y r * x p)))
                 * (m - x l)) by ring.
  rewrite E. apply Qmult_lt_0_compat; lra.
Qed.

(** ** Counting *)

Lemma filter_length_lt {A : Type} (f g : A -> bool) (l : list A) (a : A) :
  (forall b, f b = true -> g b = true) ->
  In a l -> g a = true -> f a = false ->
  (length (filter f l) < length (filter g l))%nat.
Proof.
  intros Hfg. induction l as [| b l IH]; intros Ha Ga Fa; [destruct Ha |].
  assert (Le : (length (filter f l) <= length (filter g l))%nat).
  { clear - Hfg. induction l as [| b l IH]; simpl; [lia |].
    destruct (f b) eqn:Fb.
    - rewrite (Hfg b Fb). simpl. lia.
    - destruct (g b); simpl; lia. }
  simpl. destruct Ha as [-> | Ha].
  - rewrite Ga, Fa. simpl. lia.
  - specialize (IH Ha Ga Fa). destruct (f b) eqn:Fb.
    + rewrite (Hfg b Fb). simpl. lia.
    + destruct (g b); simpl; lia.
Qed.

(** ** The walk to the lower tangent *)

Ltac orient H :=
  generalize H; rewrite !orientation_formula; intro; lra.

Ltac orient2 H H' :=
  generalize H H'; rewrite !orientation_formula; intros; lra.

Section Tangent.

Variables (L R : list Point) (m : Q) (c : Connections).
Hypothesis Hsep : separates m L R.
Hypothesis Hcoh : coherent (L ++ R).
Hypothesis Hx : x_distinct (L ++ R).
Hypothesis Hn : no_collinear (L ++ R).
Hypothesis HI : Inv (L ++ R) c.
Hypothesis HT : tidy (L ++ R) c.
Hypothesis Hap : apart L R c.
Hypothesis HhL : forall a b, lower_edge L a b -> linked c a b.
Hypothesis HhR : forall a b, lower_edge R a b -> linked c a b.

Let U : list Point := L ++ R.

Lemma in_left (a : Point) : In a L -> In a (L ++ R).
Proof. intros H. apply in_or_app. now left. Qed.

Lemma in_right (a : Point) : In a R -> In a (L ++ R).
Proof. intros H. apply in_or_app. now right. Qed.

Lemma sym_c : symmetric c.
Proof. now destruct HI as (_ & _ & _ & S & _). Qed.

Lemma no_loop (v : Point) : ~ linked c v v.
Proof. destruct HT as (_ & _ & H). apply H. Qed.

Lemma stay_left (v z : Point) :
  In v L -> In z (L ++ R) -> linked c v z -> In z L.
Proof.
  intros Hv Hz Lk. apply in_app_or in Hz. destruct Hz as [Hz | Hz];
    [exact Hz |]. now elim (Hap v z Hv Hz).
Qed.

Lemma stay_right (v z : Point) :
  In v R -> In z (L ++ R) -> linked c v z -> In z R.
Proof.
  intros Hv Hz Lk. apply in_app_or in Hz. destruct Hz as [Hz | Hz];
    [| exact Hz]. elim (Hap z v Hz Hv). now apply sym_c.
Qed.

Lemma left_x : x_distinct L.
Proof. apply (x_distinct_incl L (L ++ R)); [| exact Hx]. intros a. apply in_left. Qed.

Lemma right_x : x_distinct R.
Proof. apply (x_distinct_incl R (L ++ R)); [| exact Hx]. intros a. apply in_right. Qed.

Lemma left_lines : no_collinear L.
Proof. apply (no_collinear_incl L (L ++ R)); [| exact Hn]. intros a. apply in_left. Qed.

Lemma right_lines : no_collinear R.
Proof. apply (no_collinear_incl R (L ++ R)); [| exact Hn]. intros a. apply in_right. Qed.

Lemma other_x (a b : Point) : In a (L ++ R) -> In b (L ++ R) -> a <> b -> ~ x a == x b.
Proof. intros Ha Hb N E. apply N. now apply Hx. Qed.

(** From a vertex of the left lower hull, the lookup that the loop makes
    gives the vertex before it. *)
Lemma walk_left_next (p v s : Point) (r : Ring) :
  lower_edge L p v -> lower_edge L v s -> getRing c (id v) = Ok r ->
  nextConnection (FromPoint s) r (-1) = Ok p.
Proof.
  intros (Hp & Hv & Xp & Up1) (_ & Hs & Xs & Up2) G.
  assert (Lkp : linked c v p).
  { apply sym_c. apply HhL. repeat split; assumption. }
  destruct (ref_point_range v s) as [A1 A2].
  destruct (around_before (L ++ R) c Hcoh Hx HI HT v (FromPoint s) r
                          (in_left v Hv) G (ex_intro _ p Lkp) A1 A2)
    as (t & Ht & Lk & HtU & Ntv & Min).
  destruct (Point_eq_dec t p) as [-> | N]; [exact Ht | exfalso].
  assert (HtL : In t L) by (apply (stay_left v t Hv HtU Lk)).
  specialize (Min p (in_left p Hp) Lkp). simpl in Min.
  assert (Nps : p <> s) by (intros ->; lra).
  assert (Npv : p <> v) by (intros ->; lra).
  assert (Nsv : s <> v) by (intros ->; lra).
  assert (Tsp : ccw_turn (angle_from v s) (angle_from v p) < 2).
  { apply turn_orientation; [lra | lra |]. now apply Up2. }
  destruct (Point_eq_dec t s) as [-> | Ns].
  - rewrite (turn_self (angle_from v s) (angle_from v s)) in Min
      by reflexivity.
    pose proof (full_turn _ _ (angle_from_range v s) (angle_from_range v p) Tsp).
    lra.
  - apply (walk_left_turns (angle_from v s) (angle_from v t) (angle_from v p));
      try apply angle_from_range; try assumption.
    + apply turn_orientation; [lra | apply other_x; auto using in_left |].
      now apply Up2.
    + apply turn_orientation;
        [apply other_x; auto using in_left | lra |].
      rewrite orientation_rotate. now apply Up1.
Qed.

Lemma walk_right_next (s v q : Point) (r : Ring) :
  lower_edge R s v -> lower_edge R v q -> getRing c (id v) = Ok r ->
  nextConnection (FromPoint s) r 1 = Ok q.
Proof.
  intros (Hs & Hv & Xs & Up1) (_ & Hq & Xq & Up2) G.
  assert (Lkq : linked c v q).
  { apply HhR. repeat split; assumption. }
  destruct (ref_point_range v s) as [A1 A2].
  destruct (around_after (L ++ R) c Hcoh Hx HI HT v (FromPoint s) r
                         (in_right v Hv) G (ex_intro _ q Lkq) A1 A2)
    as (t & Ht & Lk & HtU & Ntv & Min).
  destruct (Point_eq_dec t q) as [-> | N]; [exact Ht | exfalso].
  assert (HtR : In t R) by (apply (stay_right v t Hv HtU Lk)).
  specialize (Min q (in_right q Hq) Lkq). simpl in Min.
  assert (Nqs : q <> s) by (intros ->; lra).
  assert (Nqv : q <> v) by (intros ->; lra).
  assert (Nsv : s <> v) by (intros ->; lra).
  assert (Tqs : ccw_turn (angle_from v q) (angle_from v s) < 2).
  { apply turn_orientation; [lra | lra |].
    rewrite orientation_rotate. now apply Up1. }
  destruct (Point_eq_dec t s) as [-> | Ns].
  - rewrite (turn_self (angle_from v s) (angle_from v s)) in Min
      by reflexivity.
    pose proof (full_turn _ _ (angle_from_range v q) (angle_from_range v s) Tqs).
    lra.
  - apply (walk_right_turns (angle_from v s) (angle_from v t) (angle_from v q));
      try apply angle_from_range; try assumption.
    + apply turn_orientation;
        [apply other_x; auto using in_right | lra |].
      rewrite orientation_rotate. now apply Up1.
    + apply turn_orientation; [lra | apply other_x; auto using in_right |].
      now apply Up2.
Qed.

(** The first lookups, from the rightmost point of the left half and from
    the leftmost point of the right half. *)
Lemma walk_left_first (p v : Point) (r : Ring) :
  lower_edge L p v -> (forall z, In z L -> x z <= x v) ->
  getRing c (id v) = Ok r ->
  nextConnection (FromAngle 0) r (-1) = Ok p.
Proof.
  intros (Hp & Hv & Xp & Up1) Max G.
  assert (Lkp : linked c v p).
  { apply sym_c. apply HhL. repeat split; assumption. }
  assert (A1 : - (2) <= ref_angle v (FromAngle 0)) by (simpl; lra).
  assert (A2 : ref_angle v (FromAngle 0) <= 2) by (simpl; lra).
  destruct (around_before (L ++ R) c Hcoh Hx HI HT v (FromAngle 0) r
                          (in_left v Hv) G (ex_intro _ p Lkp) A1 A2)
    as (t & Ht & Lk & HtU & Ntv & Min).
  destruct (Point_eq_dec t p) as [-> | N]; [exact Ht | exfalso].
  assert (HtL : In t L) by (apply (stay_left v t Hv HtU Lk)).
  specialize (Min p (in_left p Hp) Lkp). simpl in Min.
  assert (Xt : x t < x v).
  { pose proof (Max t HtL) as Le. apply Qle_lteq in Le.
    destruct Le as [Lt | E]; [exact Lt |]. elim Ntv. now apply left_x. }
  apply (first_left_turns (angle_from v t) (angle_from v p));
    try (apply angle_left; assumption); try assumption.
  apply turn_orientation; [lra | lra |].
  rewrite orientation_rotate. now apply Up1.
Qed.

Lemma walk_right_first (v q : Point) (r : Ring) :
  lower_edge R v q -> (forall z, In z R -> x v <= x z) ->
  getRing c (id v) = Ok r ->
  nextConnection (FromAngle (- PI)) r 1 = Ok q.
Proof.
  intros (Hv & Hq & Xq & Up2) Min' G.
  assert (Lkq : linked c v q).
  { apply HhR. repeat split; assumption. }
  assert (A1 : - (2) <= ref_angle v (FromAngle (- PI))) by (simpl; unfold PI; lra).
  assert (A2 : ref_angle v (FromAngle (- PI)) <= 2) by (simpl; unfold PI; lra).
  destruct (around_after (L ++ R) c Hcoh Hx HI HT v (FromAngle (- PI)) r
                         (in_right v Hv) G (ex_intro _ q Lkq) A1 A2)
    as (t & Ht & Lk & HtU & Ntv & Min).
  destruct (Point_eq_dec t q) as [-> | N]; [exact Ht | exfalso].
  assert (HtR : In t R) by (apply (stay_right v t Hv HtU Lk)).
  specialize (Min q (in_right q Hq) Lkq). simpl in Min. unfold PI in Min.
  assert (Xt : x v < x t).
  { pose proof (Min' t HtR) as Le. apply Qle_lteq in Le.
    destruct Le as [Lt | E]; [exact Lt |]. elim Ntv. symmetry. now apply right_x. }
  destruct (angle_right v t Xt) as [T1 T2].
  destruct (angle_right v q Xq) as [Q1 Q2].
  apply (first_right_turns (angle_from v t) (angle_from v q));
    try assumption.
  apply turn_orientation; [lra | lra |]. now apply Up2.
Qed.

Lemma pair_x (a b : Point) : In a L -> In b R -> x a < x b.
Proof. apply (sides_x L R m Hsep). Qed.

Lemma object_neq (a b : Point) :
  In a (L ++ R) -> In b (L ++ R) -> a <> b -> oid a <> oid b.
Proof. intros Ha Hb N E. apply N. apply Hcoh; auto. Qed.

Lemma count_down (a b : Point) (h : Q) :
  In a L -> In b R -> height m a b < h ->
  (below_count m L R (height m a b) < below_count m L R h)%nat.
Proof.
  intros Ha Hb Lt. unfold below_count.
  apply (filter_length_lt _ _ _ (a, b)).
  - intros ab E. apply Qltb_lt in E. apply Qltb_lt. lra.
  - now apply in_prod.
  - simpl. now apply Qltb_lt.
  - simpl. apply Qltb_irrefl.
Qed.

(** The next vertex of the left hull, when the left end moves. *)
Lemma step_left (left nextLeft : Point) :
  lower_edge L nextLeft left ->
  exists r n, getRing c (id nextLeft) = Ok r /\
              nextConnection (FromPoint left) r (-1) = Ok n /\
              In n L /\ linked c nextLeft n /\
              ((forall z, In z L -> x nextLeft <= x z) \/
               lower_edge L n nextLeft).
Proof.
  intros E. pose proof E as (Hp & Hl & Xp & Up).
  destruct (ring_at (L ++ R) c HI HT nextLeft (in_left _ Hp))
    as (r & G & _).
  exists r. destruct (leftmost_dec nextLeft L) as [Ex | Min].
  - destruct (hull_edge_before L left_x left_lines nextLeft left E Ex) as (p & E').
    exists p. split; [exact G |].
    split; [apply (walk_left_next p nextLeft left r E' E G) |].
    pose proof E' as (Hp' & _). split; [exact Hp' |].
    split; [apply sym_c; now apply HhL | now right].
  - assert (Lk : linked c nextLeft left) by (apply HhL; exact E).
    destruct (ref_point_range nextLeft left) as [A1 A2].
    destruct (around_before (L ++ R) c Hcoh Hx HI HT nextLeft (FromPoint left) r
                            (in_left _ Hp) G (ex_intro _ left Lk) A1 A2)
      as (t & Ht & Lkt & HtU & _).
    exists t. split; [exact G |]. split; [exact Ht |].
    split; [apply (stay_left nextLeft t Hp HtU Lkt) |].
    split; [exact Lkt | now left].
Qed.

Lemma step_right (right nextRight : Point) :
  lower_edge R right nextRight ->
  exists r n, getRing c (id nextRight) = Ok r /\
              nextConnection (FromPoint right) r 1 = Ok n /\
              In n R /\ linked c nextRight n /\
              ((forall z, In z R -> x z <= x nextRight) \/
               lower_edge R nextRight n).
Proof.
  intros E. pose proof E as (Hr & Hq & Xq & Up).
  destruct (ring_at (L ++ R) c HI HT nextRight (in_right _ Hq))
    as (r & G & _).
  exists r. destruct (rightmost_dec nextRight R) as [Ex | Max].
  - destruct (hull_edge_after R right_x right_lines right nextRight E Ex) as (q & E').
    exists q. split; [exact G |].
    split; [apply (walk_right_next right nextRight q r E E' G) |].
    pose proof E' as (_ & Hq' & _). split; [exact Hq' |].
    split; [now apply HhR | now right].
  - assert (Lk : linked c nextRight right) by (apply sym_c; apply HhR; exact E).
    destruct (ref_point_range nextRight right) as [A1 A2].
    destruct (around_after (L ++ R) c Hcoh Hx HI HT nextRight (FromPoint right) r
                           (in_right _ Hq) G (ex_intro _ right Lk) A1 A2)
      as (t & Ht & Lkt & HtU & _).
    exists t. split; [exact G |]. split; [exact Ht |].
    split; [apply (stay_right nextRight t Hq HtU Lkt) |].
    split; [exact Lkt | now left].
Qed.

(** The loop ends, at the edge of the lower hull of the union that goes
    across. *)
Lemma lowerTangent_total (fuel : nat) :
  forall left right nextLeft nextRight,
    (below_count m L R (height m left right) < fuel)%nat ->
    tangent_state L R c left right nextLeft nextRight ->
    exists l r, lowerTangent fuel c left right nextLeft nextRight = Ok (l, r) /\
                In l L /\ In r R /\ lower_edge (L ++ R) l r.
Proof.
  induction fuel as [| fuel IH]; intros left right nextLeft nextRight Hf St;
    [lia |].
  destruct St as (Hl & Hr & Hnl & Hnr & Lkl & Lkr & SL & SR & EL & ER).
  pose proof (pair_x left right Hl Hr) as X.
  pose proof (proj1 Hsep left Hl) as Xlm.
  pose proof (proj2 Hsep right Hr) as Xmr.
  assert (Nl : nextLeft <> left).
  { intros E. rewrite E in Lkl. now apply (no_loop left). }
  assert (Nr : nextRight <> right).
  { intros E. rewrite E in Lkr. now apply (no_loop right). }
  assert (Nlr : nextLeft <> right).
  { intros E. pose proof (pair_x nextLeft right Hnl Hr). rewrite E in H. lra. }
  assert (Nrl : nextRight <> left).
  { intros E. pose proof (pair_x left nextRight Hl Hnr). rewrite E in H. lra. }
  simpl.
  destruct (belowLine nextLeft (left, right)) eqn:BL; simpl.
  - (* the left end moves *)
    pose proof (below_orientation _ _ _ X BL) as O.
    assert (E : lower_edge L nextLeft left).
    { destruct EL as [Min | E]; [exfalso | exact E].
      pose proof (Min nextLeft Hnl) as Le. apply Qle_lteq in Le.
      destruct Le as [Lt | Eq].
      - pose proof (SL nextLeft Hnl Lt). lra.
      - apply Nl. symmetry. now apply left_x. }
    destruct (step_left left nextLeft E) as (r & n & G & Hn' & HnL & Lkn & EL').
    rewrite G. simpl. rewrite Hn'. simpl.
    pose proof E as (_ & _ & Xp & Up).
    pose proof (pair_x nextLeft right Hnl Hr) as Xpr.
    apply IH.
    + pose proof (count_down nextLeft right (height m left right) Hnl Hr
                             (lower_left m left right nextLeft X Xpr Xmr O)).
      lia.
    + repeat split; try assumption.
      * intros z Hz Xz. destruct (Point_eq_dec z left) as [-> | Nz].
        { orient O. }
        apply (slope_right nextLeft right left z); try lra.
        { orient O. }
        { apply Qlt_le_weak. apply Up; auto. intros ->. lra. }
      * intros z Hz Xz. pose proof (SR z Hz Xz) as Oz.
        assert (G1 : 0 < orientation right z nextLeft).
        { apply (slope_left right z left nextLeft); try lra.
          - orient Oz.
          - apply Qlt_le_weak. orient O. }
        orient G1.
  - destruct (belowLine nextRight (left, right)) eqn:BR; simpl.
    + (* the right end moves *)
      pose proof (below_orientation _ _ _ X BR) as O.
      assert (E : lower_edge R right nextRight).
      { destruct ER as [Max | E]; [exfalso | exact E].
        pose proof (Max nextRight Hnr) as Le. apply Qle_lteq in Le.
        destruct Le as [Lt | Eq].
        - pose proof (SR nextRight Hnr Lt). lra.
        - apply Nr. now apply right_x. }
      destruct (step_right right nextRight E) as (r & n & G & Hn' & HnR & Lkn & ER').
      rewrite G. simpl. rewrite Hn'. simpl.
      pose proof E as (_ & _ & Xq & Up).
      pose proof (pair_x left nextRight Hl Hnr) as Xlq.
      apply IH.
      * pose proof (count_down left nextRight (height m left right) Hl Hnr
                               (lower_right m left right nextRight X Xlq Xlm O)).
        lia.
      * repeat split; try assumption.
        { intros z Hz Xz. pose proof (SL z Hz Xz) as Oz.
          apply (slope_right left nextRight right z); try lra.
          orient O. }
        { intros z Hz Xz. destruct (Point_eq_dec z right) as [-> | Nz].
          { orient O. }
          assert (G1 : 0 < orientation nextRight z left).
          { apply (slope_left nextRight z right left); try lra.
            - assert (Oz : 0 < orientation right nextRight z).
              { apply Up; auto. intros ->. lra. }
              orient Oz.
            - apply Qlt_le_weak. orient O. }
          orient G1. }
    + (* the lower tangent *)
      exists left, right. split; [reflexivity |]. split; [exact Hl |].
      split; [exact Hr |].
      assert (Al : 0 < orientation left right nextLeft).
      { apply (strictly (L ++ R) Hn); auto using in_left, in_right.
        - intros ->. lra.
        - apply (not_below _ _ _ X); auto using object_neq, in_left, in_right. }
      assert (Ar : 0 < orientation left right nextRight).
      { apply (strictly (L ++ R) Hn); auto using in_left, in_right.
        - intros ->. lra.
        - apply (not_below _ _ _ X); auto using object_neq, in_left, in_right. }
      split; [apply in_left, Hl |]. split; [apply in_right, Hr |].
      split; [exact X |].
      intros z Hz Nzl Nzr. apply in_app_or in Hz. destruct Hz as [Hz | Hz].
      * destruct (Qlt_le_dec (x left) (x z)) as [Lt | Le]; [now apply SL |].
        assert (Xz : x z < x left).
        { apply Qle_lteq in Le. destruct Le as [Lt | Eq]; [exact Lt |].
          elim Nzl. now apply left_x. }
        destruct EL as [Min | (_ & _ & Xp & Up)].
        { pose proof (Min z Hz). lra. }
        destruct (Point_eq_dec z nextLeft) as [-> | Nz]; [exact Al |].
        apply (slope_across_left left right nextLeft z); try lra.
        { orient Al. }
        { apply Qlt_le_weak. now apply Up. }
      * destruct (Qlt_le_dec (x z) (x right)) as [Lt | Le]; [now apply SR |].
        assert (Xz : x right < x z).
        { apply Qle_lteq in Le. destruct Le as [Lt | Eq]; [exact Lt |].
          elim Nzr. symmetry. now apply right_x. }
        destruct ER as [Max | (_ & _ & Xq & Up)].
        { pose proof (Max z Hz). lra. }
        destruct (Point_eq_dec z nextRight) as [-> | Nz]; [exact Ar |].
        apply (slope_across_right right left nextRight z); try lra.
        { orient Ar. }
        { apply Qlt_le_weak. now apply Up. }
Qed.

End Tangent.

(** ** Removing an edge *)

Lemma filter_length_strict {A : Type} (f : A -> bool) (l : list A) (a : A) :
  In a l -> f a = false -> (length (filter f l) < length l)%nat.
Proof.
  intros Ha Fa. induction l as [| b l IH]; [destruct Ha |].
  assert (Le : (length (filter f l) <= length l)%nat) by apply filter_length_le.
  simpl. destruct Ha as [-> | Ha].
  - rewrite Fa. lia.
  - specialize (IH Ha). destruct (f b); simpl; lia.
Qed.

Lemma disconnect_keeps (U : list Point) (p q : Point) (c c' : Connections)
      (a b : Point) :
  coherent U -> closed U c -> In a U -> In b U -> In p U -> In q U ->
  disconnect p q c = Ok c' -> linked c a b ->
  ~ (a = p /\ b = q) -> ~ (a = q /\ b = p) -> linked c' a b.
Proof.
  intros Hc C Ha Hb Hp Hq H Lk N1 N2. rewrite linked_has_link in *.
  destruct Lk as (l & Hl & E). exists l. split; [| exact E].
  assert (Ht : In (point l) U) by (apply (C (id a)); exact Hl).
  assert (Et : point l = b) by (apply Hc; auto).
  apply (disconnect_has_link _ _ _ _ _ _ H). split; [exact Hl |].
  split; intros [Ek Eo].
  - apply N1. split; [apply Hc; auto |]. rewrite <- Et. apply Hc; auto.
  - apply N2. split; [apply Hc; auto |]. rewrite <- Et. apply Hc; auto.
Qed.

Lemma ring_shrinks (p q : Point) (c c' : Connections) (r r' : Ring) :
  id p <> id q -> disconnect p q c = Ok c' ->
  get c (id p) = Some r -> get c' (id p) = Some r' ->
  (exists l, In l (links r) /\ point l = q) ->
  (length (links r') < length (links r))%nat.
Proof.
  intros N H G G' (l & Hl & E). rewrite disconnect_update in H.
  destruct (update (id p) (removeConnection q) c) as [c1 |] eqn:H1;
    simpl in H; [| discriminate].
  rewrite (update_get _ _ _ _ (id p) H) in G'.
  assert (K : key_eqb (id q) (id p) = false)
    by (apply key_eqb_neq; congruence).
  rewrite K in G'. rewrite (update_get _ _ _ _ (id p) H1) in G'.
  rewrite key_eqb_refl, G in G'. simpl in G'. injection G' as <-.
  simpl. apply (filter_length_strict _ _ l Hl).
  rewrite E. unfold same. now rewrite Nat.eqb_refl.
Qed.

Lemma ring_length_bound (U : list Point) (c : Connections) (k : Key) (r : Ring) :
  closed U c -> each_ring unique_targets c -> get c k = Some r ->
  (length (links r) <= length U)%nat.
Proof.
  intros C Uq G.
  rewrite <- (length_map (fun l => id (point l)) (links r)).
  rewrite <- (length_map id U).
  apply NoDup_incl_length; [apply (Uq k r G) |].
  intros a Ha. apply in_map_iff in Ha. destruct Ha as (l & <- & Hl).
  apply in_map. apply (C k). now exists r.
Qed.

Lemma orientation_twice (a b : Point) : orientation a b b == 0.
Proof. rewrite orientation_formula. ring. Qed.

(** ** The edges across *)

Section Fill.

Variables (L R : list Point) (m : Q).
Hypothesis Hsep : separates m L R.
Hypothesis Hcoh : coherent (L ++ R).
Hypothesis Hx : x_distinct (L ++ R).
Hypothesis Hn : no_collinear (L ++ R).

(** One edge of the lower hull of the union goes across. *)
Lemma cross_edge_unique (a b l r : Point) :
  lower_edge (L ++ R) a b -> lower_edge (L ++ R) l r ->
  In a L -> In b R -> In l L -> In r R -> a = l /\ b = r.
Proof.
  intros (HaU & HbU & Xab & Up1) (HlU & HrU & Xlr & Up2) Ha Hb Hl Hr.
  pose proof (sides_x L R m Hsep a r Ha Hr) as Xar.
  pose proof (sides_x L R m Hsep l b Hl Hb) as Xlb.
  assert (Eb : 0 <= orientation l r b).
  { destruct (Point_eq_dec b r) as [-> | N].
    - rewrite orientation_twice. apply Qle_refl.
    - apply Qlt_le_weak. apply Up2; auto. intros ->. lra. }
  assert (Er : 0 <= orientation a b r).
  { destruct (Point_eq_dec r b) as [-> | N].
    - rewrite orientation_twice. apply Qle_refl.
    - apply Qlt_le_weak. apply Up1; auto. intros ->. lra. }
  assert (E : a = l).
  { destruct (Point_eq_dec a l) as [E | N]; [exact E | exfalso].
    assert (Oa : 0 < orientation l r a).
    { apply Up2; auto. intros ->. lra. }
    assert (Ol : 0 < orientation a b l).
    { apply Up1; auto. intros ->. lra. }
    destruct (Q_dec (x a) (x l)) as [[Lt | Gt] | Eq].
    - pose proof (slope_across_right l a r b Lt Xlr Xlb Oa Eb) as G.
      orient2 G Ol.
    - pose proof (slope_across_right a l b r Gt Xab Xar Ol Er) as G.
      orient2 G Oa.
    - apply N. now apply Hx. }
  subst l. split; [reflexivity |].
  destruct (Point_eq_dec b r) as [E | N]; [exact E | exfalso].
  assert (O1 : 0 < orientation a r b).
  { apply Up2; auto. intros ->. lra. }
  assert (O2 : 0 < orientation a b r).
  { apply Up1; auto. intros ->. lra. }
  orient2 O1 O2.
Qed.

Lemma fill_left (a : Point) : In a L -> In a (L ++ R).
Proof. intros H. apply in_or_app. now left. Qed.

Lemma fill_right (a : Point) : In a R -> In a (L ++ R).
Proof. intros H. apply in_or_app. now right. Qed.

Lemma pivot_in (s : bool) (left right : Point) :
  In left L -> In right R ->
  In (pivot_of s left right) (L ++ R) /\ In (other_of s left right) (L ++ R) /\
  pivot_of s left right <> other_of s left right.
Proof.
  intros Hl Hr. pose proof (sides_x L R m Hsep left right Hl Hr) as X.
  destruct s; simpl; (split; [| split]);
    auto using fill_left, fill_right; intros E; rewrite E in X; lra.
Qed.

Lemma pivot_linked (s : bool) (c : Connections) (left right : Point) :
  symmetric c -> linked c left right ->
  linked c (pivot_of s left right) (other_of s left right).
Proof. intros S Lk. destruct s; simpl; [exact Lk | now apply S]. Qed.

Lemma distinct_x' (a b : Point) :
  In a (L ++ R) -> In b (L ++ R) -> a <> b -> ~ x a == x b.
Proof. intros Ha Hb N E. apply N. now apply Hx. Qed.

(** A lookup in the ring of an end of the base edge. *)
Lemma lookup_side (s : bool) (c : Connections) (v : Point) (ref : Reference)
      (ring : Ring) :
  Inv (L ++ R) c -> tidy (L ++ R) c -> In v (L ++ R) ->
  getRing c (id v) = Ok ring -> (exists z, linked c v z) ->
  - (2) <= ref_angle v ref -> ref_angle v ref <= 2 ->
  exists t, nextConnection ref ring (direction s) = Ok t /\ linked c v t /\
            In t (L ++ R) /\ t <> v /\
            forall z, In z (L ++ R) -> linked c v z ->
                      if s then
                        ccw_turn (ref_angle v ref) (angle_from v t)
                        <= ccw_turn (ref_angle v ref) (angle_from v z)
                      else
                        ccw_turn (angle_from v t) (ref_angle v ref)
                        <= ccw_turn (angle_from v z) (ref_angle v ref).
Proof.
  intros I T Hv G E A1 A2. destruct s; simpl.
  - apply (around_after (L ++ R) c Hcoh Hx I T v ref ring Hv G E A1 A2).
  - apply (around_before (L ++ R) c Hcoh Hx I T v ref ring Hv G E A1 A2).
Qed.

(** The edge that the inner loop removes is not an edge of the lower hull:
    the other end of the base edge and the next candidate are on the two
    sides of it. *)
Lemma kept_edges (s : bool) (c : Connections) (left right cd n : Point)
      (ring : Ring) :
  Inv (L ++ R) c -> tidy (L ++ R) c -> In left L -> In right R ->
  linked c left right ->
  getRing c (id (pivot_of s left right)) = Ok ring ->
  In cd (L ++ R) -> aboveLine cd (left, right) = true ->
  nextConnection (FromPoint cd) ring (direction s) = Ok n ->
  aboveLine n (left, right) = true ->
  In n (L ++ R) /\ linked c (pivot_of s left right) n /\
  n <> cd /\ n <> left /\ n <> right /\ cd <> left /\ cd <> right /\
  ~ lower_edge (L ++ R) (pivot_of s left right) cd /\
  ~ lower_edge (L ++ R) cd (pivot_of s left right).
Proof.
  intros I T Hl Hr Lk G Hcd Acd Hn' An.
  pose proof (sides_x L R m Hsep left right Hl Hr) as X.
  pose proof (above_orientation _ _ _ X Acd) as Ocd.
  pose proof (above_orientation _ _ _ X An) as On.
  destruct (pivot_in s left right Hl Hr) as (Hv & Ho & Nvo).
  pose proof I as (_ & _ & _ & S & _).
  pose proof (pivot_linked s c left right S Lk) as Lko.
  destruct (ref_point_range (pivot_of s left right) cd) as [A1 A2].
  destruct (lookup_side s c _ (FromPoint cd) ring I T Hv G
                        (ex_intro _ _ Lko) A1 A2)
    as (t & Ht & Lkt & HtU & Ntv & Min).
  rewrite Hn' in Ht. injection Ht as <-.
  specialize (Min _ Ho Lko).
  assert (Ncl : cd <> left).
  { intros ->. rewrite orientation_formula in Ocd.
    assert (E : x left * (y right - y left) - y left * (x right - x left)
                + (x right * y left - y right * x left) == 0) by ring.
    lra. }
  assert (Ncr : cd <> right).
  { intros ->. rewrite orientation_twice in Ocd. lra. }
  assert (Nnl : n <> left).
  { intros ->. rewrite orientation_formula in On.
    assert (E : x left * (y right - y left) - y left * (x right - x left)
                + (x right * y left - y right * x left) == 0) by ring.
    lra. }
  assert (Nnr : n <> right).
  { intros ->. rewrite orientation_twice in On. lra. }
  split; [exact HtU |]. split; [exact Lkt |].
  destruct s; simpl in *.
  - (* about left, counter-clockwise from right *)
    assert (Xc : ~ x cd == x left) by (apply distinct_x'; auto using fill_left).
    assert (Xn : ~ x n == x left) by (apply distinct_x'; auto using fill_left).
    assert (Xr : ~ x right == x left) by lra.
    assert (T1 : ccw_turn (angle_from left right) (angle_from left cd) < 2)
      by (now apply turn_orientation).
    assert (T2 : ccw_turn (angle_from left right) (angle_from left n) < 2)
      by (now apply turn_orientation).
    pose proof (candidate_turns _ _ _ (angle_from_range left right)
                                (angle_from_range left cd)
                                (angle_from_range left n) T1 T2 Min) as T3.
    apply turn_orientation in T3; [| assumption | assumption].
    assert (Nn : n <> cd).
    { intros ->. rewrite orientation_twice in T3. lra. }
    repeat split; try assumption.
    + intros (_ & _ & _ & Up).
      pose proof (Up right Ho (not_eq_sym Nvo) (not_eq_sym Ncr)) as G1. orient2 G1 Ocd.
    + intros (_ & _ & _ & Up).
      pose proof (Up n HtU Nn Nnl) as G1. orient2 G1 T3.
  - (* about right, clockwise from left *)
    assert (Xc : ~ x cd == x right) by (apply distinct_x'; auto using fill_right).
    assert (Xn : ~ x n == x right) by (apply distinct_x'; auto using fill_right).
    assert (Xl : ~ x left == x right) by lra.
    assert (T1 : ccw_turn (angle_from right cd) (angle_from right left) < 2).
    { apply turn_orientation; [assumption | assumption |]. orient Ocd. }
    assert (T2 : ccw_turn (angle_from right n) (angle_from right left) < 2).
    { apply turn_orientation; [assumption | assumption |]. orient On. }
    pose proof (candidate_turns' _ _ _ (angle_from_range right left)
                                 (angle_from_range right cd)
                                 (angle_from_range right n) T1 T2 Min) as T3.
    apply turn_orientation in T3; [| assumption | assumption].
    assert (Nn : n <> cd).
    { intros ->. rewrite orientation_twice in T3. lra. }
    repeat split; try assumption.
    + intros (_ & _ & _ & Up).
      pose proof (Up n HtU Ntv Nn) as G1. orient2 G1 T3.
    + intros (_ & _ & _ & Up).
      pose proof (Up left Ho (not_eq_sym Ncl) (not_eq_sym Nvo)) as G1. orient2 G1 Ocd.
Qed.

(** The inner loop of a candidate search ends: each round takes a link out
    of the ring of the pivot.  It keeps the edges of the lower hull and the
    base edge. *)
Lemma refine_total (s : bool) (left right : Point) :
  In left L -> In right R ->
  forall fuel c cd nc ring,
    Inv (L ++ R) c -> tidy (L ++ R) c -> hull_linked (L ++ R) c ->
    linked c left right ->
    getRing c (id (pivot_of s left right)) = Ok ring ->
    linked c (pivot_of s left right) cd -> In cd (L ++ R) ->
    aboveLine cd (left, right) = true ->
    nextConnectionAbove cd ring (direction s) (left, right) = Ok nc ->
    (length (links ring) <= fuel)%nat ->
    exists c' cd',
      refine fuel c (pivot_of s left right) (direction s) left right cd nc
      = Ok (c', cd') /\
      tidy (L ++ R) c' /\ hull_linked (L ++ R) c' /\ linked c' left right.
Proof.
  intros Hl Hr. destruct (pivot_in s left right Hl Hr) as (Hv & Ho & Nvo).
  induction fuel as [| fuel IH];
    intros c cd nc ring I T Hh Lk G Lkc Hcd Acd Hnc Len.
  - exfalso. apply getRing_ok in G.
    destruct (linked_link (L ++ R) c Hcoh I _ cd ring G Lkc Hcd) as (l & Hl' & _).
    destruct (links ring); [destruct Hl' | simpl in Len; lia].
  - destruct nc as [n |]; simpl;
      [| exists c, cd; split; [reflexivity | split; [exact T | split; assumption]]].
    destruct (inCircle n (left, right, cd));
      [| exists c, cd; split; [reflexivity | split; [exact T | split; assumption]]].
    unfold nextConnectionAbove in Hnc. bind_inv Hnc.
    destruct (aboveLine v (left, right)) eqn:An; [| discriminate].
    injection Hnc as ->.
    destruct (kept_edges s c left right cd n ring I T Hl Hr Lk G Hcd Acd Hv0 An)
      as (HnU & Lkn & Nn & Nnl & Nnr & Ncl & Ncr & NE1 & NE2).
    pose proof T as (Cm & _).
    destruct (disconnect_total (L ++ R) c _ cd Cm Hv Hcd) as (c1 & Hd).
    rewrite Hd. simpl.
    pose proof (Inv_disconnect (L ++ R) _ cd c c1 Hcoh Hv Hcd I Hd) as I1.
    pose proof (tidy_disconnect (L ++ R) _ cd c c1 T Hd) as T1.
    destruct (ring_at (L ++ R) c1 I1 T1 _ Hv) as (ring1 & G1 & G1' & _).
    rewrite G1. simpl.
    pose proof I as (_ & _ & C & S & _).
    assert (Ncv : cd <> pivot_of s left right) by (destruct s; assumption).
    assert (Nco : cd <> other_of s left right) by (destruct s; assumption).
    assert (Nnv : n <> pivot_of s left right) by (destruct s; assumption).
    assert (Keep : forall a b, In a (L ++ R) -> In b (L ++ R) -> linked c a b ->
                               ~ (a = pivot_of s left right /\ b = cd) ->
                               ~ (a = cd /\ b = pivot_of s left right) ->
                               linked c1 a b).
    { intros a b Ha Hb Lkab N1 N2.
      apply (disconnect_keeps (L ++ R) _ cd c c1 a b Hcoh C Ha Hb Hv Hcd Hd Lkab N1 N2). }
    assert (Lko1 : linked c1 (pivot_of s left right) (other_of s left right)).
    { apply Keep; auto.
      - apply (pivot_linked s c left right S Lk).
      - intros [_ E]. now apply Nco.
      - intros [E _]. now apply Ncv. }
    destruct (ref_point_range (pivot_of s left right) n) as [A1 A2].
    destruct (lookup_side s c1 _ (FromPoint n) ring1 I1 T1 Hv G1
                          (ex_intro _ _ Lko1) A1 A2)
      as (t1 & Ht1 & _).
    assert (Hnc1 : nextConnectionAbove n ring1 (direction s) (left, right)
                   = Ok (if aboveLine t1 (left, right) then Some t1 else None)).
    { unfold nextConnectionAbove. rewrite Ht1. reflexivity. }
    rewrite Hnc1. simpl.
    apply (IH c1 n _ ring1); try assumption.
    + intros a b E. pose proof E as (Ha & Hb & _). apply Keep; auto.
      * intros [-> ->]. now apply NE1.
      * intros [-> ->]. now apply NE2.
    + apply Keep; auto using fill_left, fill_right.
      * intros [_ E]. now apply Ncr.
      * intros [E _]. now apply Ncl.
    + apply Keep; auto.
      * intros [_ E]. now apply Nn.
      * intros [_ E]. now apply Nnv.
    + assert (Sh : (length (links ring1) < length (links ring))%nat).
      { apply (ring_shrinks (pivot_of s left right) cd c c1 ring ring1).
        - intros E. apply Ncv. symmetry. apply Hcoh; auto.
        - exact Hd.
        - now apply getRing_ok.
        - exact G1'.
        - apply getRing_ok in G.
          apply (linked_link (L ++ R) c Hcoh I _ cd ring G Lkc Hcd). }
      lia.
Qed.

(** A candidate search ends. *)
Lemma findCandidate_total (s : bool) (left right : Point) (fuel : nat)
      (c : Connections) :
  In left L -> In right R ->
  Inv (L ++ R) c -> tidy (L ++ R) c -> hull_linked (L ++ R) c ->
  linked c left right -> each_ring unique_targets c ->
  (length (L ++ R) <= fuel)%nat ->
  exists c' o,
    findCandidate fuel c (pivot_of s left right) (other_of s left right)
                  (direction s) left right = Ok (c', o) /\
    tidy (L ++ R) c' /\ hull_linked (L ++ R) c' /\ linked c' left right.
Proof.
  intros Hl Hr I T Hh Lk Uq Hf.
  destruct (pivot_in s left right Hl Hr) as (Hv & Ho & Nvo).
  pose proof I as (_ & _ & C & S & _).
  pose proof (pivot_linked s c left right S Lk) as Lko.
  destruct (ring_at (L ++ R) c I T _ Hv) as (ring & G & G' & _).
  unfold findCandidate. rewrite G. simpl.
  destruct (ref_point_range (pivot_of s left right) (other_of s left right))
    as [A1 A2].
  destruct (lookup_side s c _ (FromPoint (other_of s left right)) ring I T Hv G
                        (ex_intro _ _ Lko) A1 A2)
    as (t & Ht & Lkt & HtU & _).
  assert (Hc1 : nextConnectionAbove (other_of s left right) ring (direction s)
                                    (left, right)
                = Ok (if aboveLine t (left, right) then Some t else None)).
  { unfold nextConnectionAbove. rewrite Ht. reflexivity. }
  rewrite Hc1. simpl. destruct (aboveLine t (left, right)) eqn:At.
  - destruct (ref_point_range (pivot_of s left right) t) as [B1 B2].
    destruct (lookup_side s c _ (FromPoint t) ring I T Hv G
                          (ex_intro _ _ Lko) B1 B2)
      as (t2 & Ht2 & _).
    assert (Hc2 : nextConnectionAbove t ring (direction s) (left, right)
                  = Ok (if aboveLine t2 (left, right) then Some t2 else None)).
    { unfold nextConnectionAbove. rewrite Ht2. reflexivity. }
    rewrite Hc2. simpl.
    destruct (refine_total s left right Hl Hr fuel c t _ ring I T Hh Lk G Lkt
                           HtU At Hc2)
      as (c' & cd' & Hr' & T' & Hh' & Lk').
    { pose proof (ring_length_bound (L ++ R) c _ ring C Uq G'). lia. }
    rewrite Hr'. simpl. exists c', (Some cd').
    split; [reflexivity | split; [exact T' | split; assumption]].
  - exists c, None.
    split; [reflexivity | split; [exact T | split; assumption]].
Qed.

Lemma count_up (a b : Point) (h : Q) :
  In a L -> In b R -> h < height m a b ->
  (above_count m L R (height m a b) < above_count m L R h)%nat.
Proof.
  intros Ha Hb Lt. unfold above_count.
  apply (filter_length_lt _ _ _ (a, b)).
  - intros ab E. apply Qltb_lt in E. apply Qltb_lt. lra.
  - now apply in_prod.
  - simpl. now apply Qltb_lt.
  - simpl. apply Qltb_irrefl.
Qed.

(** The loop that fills the edges across ends: the base edge goes up on the
    separating line at each round. *)
Lemma mergeLoop_total (fuel : nat) :
  forall c left right,
    (above_count m L R (height m left right) + length (L ++ R) < fuel)%nat ->
    fill_state m L R c left right ->
    exists c', mergeLoop fuel c left right = Ok c' /\ good (L ++ R) c'.
Proof.
  induction fuel as [| fuel IH]; intros c left right Hf St; [lia |].
  destruct St as (I & Uq & T & Hh & K & Hl & Hr & Lk).
  pose proof (sides_x L R m Hsep left right Hl Hr) as X.
  assert (Hf' : (length (L ++ R) <= fuel)%nat) by lia.
  simpl.
  destruct (findCandidate_total true left right fuel c Hl Hr I T Hh Lk Uq Hf')
    as (c1 & lc & H1 & T1 & Hh1 & Lk1).
  simpl in H1. rewrite H1. simpl.
  destruct (findCandidate_inv (L ++ R) fuel c left right 1 left right c1 lc
                              Hcoh I (fill_left left Hl) H1) as [I1 In1].
  destruct (findCandidate_facts fuel c left right 1 left right c1 lc Uq H1)
    as (U1 & S1 & F1).
  destruct (findCandidate_total false left right fuel c1 Hl Hr I1 T1 Hh1 Lk1 U1 Hf')
    as (c2 & rc & H2 & T2 & Hh2 & Lk2).
  simpl in H2. rewrite H2. simpl.
  destruct (findCandidate_inv (L ++ R) fuel c1 right left (-1) left right c2 rc
                              Hcoh I1 (fill_right right Hr) H2) as [I2 In2].
  destruct (findCandidate_facts fuel c1 right left (-1) left right c2 rc U1 H2)
    as (U2 & S2 & F2).
  assert (K2 : crossings_below m L R c2 left right).
  { apply (crossings_sub L R m c c2); [| exact K]. intros a b Lkab. now apply S1, S2. }
  pose proof T2 as (Cm2 & _).
  assert (GoLeft : forall t, lc = Some t ->
            exists c', (c3 <- connect t right c2 ;; mergeLoop fuel c3 t right)
                       = Ok c' /\ good (L ++ R) c').
  { intros t ->. destruct (F1 t eq_refl) as [Lkt At].
    assert (Ht : In t L)
      by (apply (candidate_left L R m Hsep c left right t K Hl Hr
                                (In1 t eq_refl) Lkt At)).
    destruct (connect_total (L ++ R) c2 t right Cm2 (fill_left t Ht)
                            (fill_right right Hr)) as (c3 & Hc).
    rewrite Hc. simpl.
    destruct (advance_left L R m Hsep Hcoh c2 c3 left right t I2 U2 K2 Hl Hr Ht At Hc)
      as (I3 & U3 & K3).
    pose proof (above_orientation t left right X At) as O.
    pose proof (raise_left m left right t X (sides_x L R m Hsep t right Ht Hr)
                           (proj2 Hsep right Hr) O) as Up.
    apply IH.
    - pose proof (count_up t right (height m left right) Ht Hr Up). lia.
    - split; [exact I3 |]. split; [exact U3 |].
      split; [apply (tidy_connect (L ++ R) t right c2 c3
                       (sides_id L R m Hsep t right Ht Hr) T2 Hc) |].
      split.
      { intros a b E. apply (connect_linked _ _ _ _ _ _ Hc). left. now apply Hh2. }
      split; [exact K3 |]. split; [exact Ht |]. split; [exact Hr |].
      apply (connect_linked _ _ _ _ _ _ Hc). right. left. now split. }
  assert (GoRight : forall t, rc = Some t ->
            exists c', (c3 <- connect left t c2 ;; mergeLoop fuel c3 left t)
                       = Ok c' /\ good (L ++ R) c').
  { intros t ->. destruct (F2 t eq_refl) as [Lkt At].
    assert (Lkt' : linked c t right).
    { destruct I as (_ & _ & _ & S & _). apply S. now apply S1. }
    assert (Ht : In t R)
      by (apply (candidate_right L R m Hsep c left right t K Hl Hr
                                 (In2 t eq_refl) Lkt' At)).
    destruct (connect_total (L ++ R) c2 left t Cm2 (fill_left left Hl)
                            (fill_right t Ht)) as (c3 & Hc).
    rewrite Hc. simpl.
    destruct (advance_right L R m Hsep Hcoh c2 c3 left right t I2 U2 K2 Hl Hr Ht At Hc)
      as (I3 & U3 & K3).
    pose proof (above_orientation t left right X At) as O.
    pose proof (raise_right m left right t X (sides_x L R m Hsep left t Hl Ht)
                            (proj1 Hsep left Hl) O) as Up.
    apply IH.
    - pose proof (count_up left t (height m left right) Hl Ht Up). lia.
    - split; [exact I3 |]. split; [exact U3 |].
      split; [apply (tidy_connect (L ++ R) left t c2 c3
                       (sides_id L R m Hsep left t Hl Ht) T2 Hc) |].
      split.
      { intros a b E. apply (connect_linked _ _ _ _ _ _ Hc). left. now apply Hh2. }
      split; [exact K3 |]. split; [exact Hl |]. split; [exact Ht |].
      apply (connect_linked _ _ _ _ _ _ Hc). right. left. now split. }
  destruct lc as [lc |], rc as [rc |].
  - destruct (inCircle rc (lc, left, right)).
    + apply (GoRight rc eq_refl).
    + apply (GoLeft lc eq_refl).
  - apply (GoLeft lc eq_refl).
  - apply (GoRight rc eq_refl).
  - exists c2. split; [reflexivity |].
    split; [exact I2 | split; [exact U2 | split; [exact T2 | exact Hh2]]].
Qed.

End Fill.

(** ** A merge ends *)

Lemma last_index {A : Type} (pre : list A) (a : A) :
  at_index (pre ++ [a]) (Z.of_nat (length (pre ++ [a])) - 1) = Some a.
Proof.
  unfold at_index. rewrite length_app. simpl.
  replace (Z.of_nat (length pre + 1) - 1)%Z with (Z.of_nat (length pre)) by lia.
  destruct (Z.ltb_spec (Z.of_nat (length pre)) 0) as [Lt | _]; [lia |].
  rewrite Nat2Z.id. now rewrite nth_error_end.
Qed.

Lemma sorted_x_parts (L R : list Point) :
  StronglySorted (fun p q => x p <= x q) (L ++ R) ->
  StronglySorted (fun p q => x p <= x q) L /\
  StronglySorted (fun p q => x p <= x q) R.
Proof.
  induction L as [| a L IH]; simpl; intros H.
  - split; [constructor | exact H].
  - inversion H as [| ? ? Hs Hf]; subst. destruct (IH Hs) as [S1 S2].
    split; [| exact S2]. constructor; [exact S1 |].
    rewrite Forall_forall in *. intros b Hb. apply Hf. apply in_or_app. now left.
Qed.

(** The rightmost point of a sorted list of at least two points, and the
    leftmost. *)
Lemma sorted_last_point (L : list Point) :
  StronglySorted (fun p q => x p <= x q) L -> NoDup L -> x_distinct L ->
  (2 <= length L)%nat ->
  exists a, at_index L (Z.of_nat (length L) - 1) = Some a /\ In a L /\
            (forall z, In z L -> x z <= x a) /\
            exists z, In z L /\ x z < x a.
Proof.
  intros S N D Len.
  destruct (exists_last (l := L)) as (pre & a & E).
  { intros ->. simpl in Len. lia. }
  subst L. exists a. split; [apply last_index |].
  assert (Ha : In a (pre ++ [a])) by (apply in_or_app; right; now left).
  split; [exact Ha |].
  assert (Le : forall z, In z pre -> x z <= x a).
  { intros z Hz. apply (sorted_x_app pre [a] S z a Hz). now left. }
  split.
  - intros z Hz. apply in_app_or in Hz. destruct Hz as [Hz | [<- | []]];
      [now apply Le | apply Qle_refl].
  - destruct pre as [| z pre]; [simpl in Len; lia |].
    exists z. split; [now left |].
    pose proof (Le z (or_introl eq_refl)) as Lz. apply Qle_lteq in Lz.
    destruct Lz as [Lt | Eq]; [exact Lt | exfalso].
    assert (z = a) by (apply D; auto; now left). subst z.
    simpl in N. inversion N as [| ? ? Hn _]; subst. apply Hn.
    apply in_or_app. right. now left.
Qed.

Lemma sorted_first_point (R : list Point) :
  StronglySorted (fun p q => x p <= x q) R -> NoDup R -> x_distinct R ->
  (2 <= length R)%nat ->
  exists b, at_index R 0 = Some b /\ In b R /\
            (forall z, In z R -> x b <= x z) /\
            exists z, In z R /\ x b < x z.
Proof.
  intros S N D Len. destruct R as [| b [| z R]]; try (simpl in Len; lia).
  exists b. split; [reflexivity |]. split; [now left |].
  destruct (sorted_x_tail b (z :: R) S) as [_ Le]. split.
  - intros z' [<- | Hz]; [apply Qle_refl | now apply Le].
  - exists z. split; [right; now left |].
    pose proof (Le z (or_introl eq_refl)) as Lz. apply Qle_lteq in Lz.
    destruct Lz as [Lt | Eq]; [exact Lt | exfalso].
    assert (b = z) by (apply D; simpl; auto). subst z.
    inversion N as [| ? ? Hn _]; subst. apply Hn. now left.
Qed.

Lemma count_below_bound (m : Q) (L R : list Point) (h : Q) :
  (below_count m L R h <= length L * length R)%nat.
Proof.
  unfold below_count. rewrite <- length_prod. apply filter_length_le.
Qed.

Lemma count_above_bound (m : Q) (L R : list Point) (h : Q) :
  (above_count m L R h <= length L * length R)%nat.
Proof.
  unfold above_count. rewrite <- length_prod. apply filter_length_le.
Qed.

Lemma mergeHalves_total (fuel : nat) (L R : list Point) (m : Q)
      (cl cr : Connections) :
  separates m L R -> coherent (L ++ R) -> x_distinct (L ++ R) ->
  no_collinear (L ++ R) -> NoDup (L ++ R) ->
  StronglySorted (fun p q => x p <= x q) (L ++ R) ->
  (2 <= length L)%nat -> (2 <= length R)%nat ->
  good L cl -> good R cr ->
  (length L * length R + length (L ++ R) < fuel)%nat ->
  exists c, mergeHalves fuel L R cl cr = Ok c /\ good (L ++ R) c.
Proof.
  intros Hsep Hcoh Hx Hn Nd Srt LenL LenR (Il & Ul & Tl & Hl) (Ir & Ur & Tr & Hr) Hf.
  pose proof (sides_id L R m Hsep) as Dj.
  pose proof (Inv_merge L R cl cr Dj Il Ir) as I.
  pose proof (tidy_merge L R cl cr Dj Il Ir Tl Tr) as T.
  pose proof (merge_apart L R m Hsep cl cr Il Ir) as A.
  assert (Um : each_ring unique_targets (mergeConnections cl cr)).
  { destruct Il as (Nc & _), Ir as (Ndd & _). now apply merge_unique. }
  pose proof I as (_ & _ & C & S & _).
  set (c0 := mergeConnections cl cr) in *.
  assert (HhL : forall a b, lower_edge L a b -> linked c0 a b).
  { intros a b E. pose proof E as (Ha & _).
    apply (merge_linked_left L R cl cr a b Dj Il Ir Ha). now apply Hl. }
  assert (HhR : forall a b, lower_edge R a b -> linked c0 a b).
  { intros a b E. pose proof E as (Ha & _). destruct Tr as (Cr & _).
    apply (merge_linked_right L R cl cr a b Il Ir Cr Ha). now apply Hr. }
  destruct (sorted_x_parts L R Srt) as [SL SR].
  destruct (nodup_app_disjoint _ _ Nd) as (NL & NR & _).
  assert (XL : x_distinct L).
  { apply (x_distinct_incl L (L ++ R)); [| exact Hx]. apply incl_appl, incl_refl. }
  assert (XR : x_distinct R).
  { apply (x_distinct_incl R (L ++ R)); [| exact Hx]. apply incl_appr, incl_refl. }
  assert (CL : no_collinear L).
  { apply (no_collinear_incl L (L ++ R)); [| exact Hn]. apply incl_appl, incl_refl. }
  assert (CR : no_collinear R).
  { apply (no_collinear_incl R (L ++ R)); [| exact Hn]. apply incl_appr, incl_refl. }
  destruct (sorted_last_point L SL NL XL LenL) as (left0 & El & Hl0 & MaxL & ExL).
  destruct (sorted_first_point R SR NR XR LenR) as (right0 & Er & Hr0 & MinR & ExR).
  destruct (hull_edge_last L XL CL left0 Hl0 MaxL ExL) as (p & Ep).
  destruct (hull_edge_first R XR CR right0 Hr0 MinR ExR) as (q & Eq).
  destruct (ring_at (L ++ R) c0 I T left0 (fill_left L R left0 Hl0))
    as (ringL & GL & _).
  destruct (ring_at (L ++ R) c0 I T right0 (fill_right L R right0 Hr0))
    as (ringR & GR & _).
  pose proof (walk_left_first L R c0 Hcoh Hx I T A HhL p left0 ringL Ep MaxL GL)
    as WL.
  pose proof (walk_right_first L R c0 Hcoh Hx I T A HhR right0 q ringR Eq MinR GR)
    as WR.
  pose proof Ep as (HpL & _). pose proof Eq as (_ & HqR & _).
  assert (St : tangent_state L R c0 left0 right0 p q).
  { repeat split; try assumption.
    - apply S. now apply HhL.
    - now apply HhR.
    - intros z Hz Xz. specialize (MaxL z Hz). lra.
    - intros z Hz Xz. specialize (MinR z Hz). lra.
    - now right.
    - now right. }
  destruct (lowerTangent_total L R m c0 Hsep Hcoh Hx Hn I T A HhL HhR fuel
                               left0 right0 p q) as (l & r & HT & HlL & HrR & Elr).
  { pose proof (count_below_bound m L R (height m left0 right0)). lia. }
  { exact St. }
  pose proof T as (Cm & _).
  destruct (connect_total (L ++ R) c0 l r Cm (fill_left L R l HlL)
                          (fill_right L R r HrR)) as (c1 & Hc).
  assert (N : ~ linked c0 l r) by (now apply A).
  assert (N' : ~ linked c0 r l).
  { intros Lk. apply N. now apply S. }
  destruct (mergeLoop_total L R m Hsep Hcoh Hx fuel c1 l r) as (c & Hm & G).
  { pose proof (count_above_bound m L R (height m l r)). lia. }
  { split; [apply (Inv_connect (L ++ R) l r c0 c1 (fill_left L R l HlL)
                               (fill_right L R r HrR) I Hc) |].
    split; [apply (connect_unique l r c0 c1 Um (Dj l r HlL HrR) N N' Hc) |].
    split; [apply (tidy_connect (L ++ R) l r c0 c1 (Dj l r HlL HrR) T Hc) |].
    split.
    { intros a b E. pose proof E as (Ha & Hb & Xab & _).
      apply (connect_linked _ _ _ _ _ _ Hc).
      apply in_app_or in Ha. apply in_app_or in Hb.
      destruct Ha as [Ha | Ha], Hb as [Hb | Hb].
      - left. apply HhL.
        apply (lower_edge_incl L (L ++ R)); auto. apply incl_appl, incl_refl.
      - destruct (cross_edge_unique L R m Hsep Hx a b l r E Elr Ha Hb HlL HrR)
          as [-> ->].
        right. left. now split.
      - exfalso. pose proof (sides_x L R m Hsep b a Hb Ha). lra.
      - left. apply HhR.
        apply (lower_edge_incl R (L ++ R)); auto. apply incl_appr, incl_refl. }
    split.
    { intros a b Ha Hb Lk. apply (connect_linked _ _ _ _ _ _ Hc) in Lk.
      destruct Lk as [Lk | [[Ea Eb] | [Ea Eb]]].
      - now elim (A a b Ha Hb).
      - assert (a = l) by (apply Hcoh; auto using fill_left).
        assert (b = r) by (apply Hcoh; auto using fill_right).
        subst. apply Qle_refl.
      - exfalso. apply (Dj a r Ha HrR Ea). }
    split; [exact HlL |]. split; [exact HrR |].
    apply (connect_linked _ _ _ _ _ _ Hc). right. left. now split. }
  exists c. split; [| exact G].
  unfold mergeHalves. fold c0. rewrite El. simpl. rewrite Er. simpl.
  rewrite GL. simpl. rewrite WL. simpl. rewrite GR. simpl. rewrite WR. simpl.
  rewrite HT. simpl. rewrite Hc. simpl. exact Hm.
Qed.

(** ** [delaunay] completes *)

Lemma pairs_ok_in (P : Point -> Point -> bool) (l : list Point) :
  pairs_ok P l = true -> (forall a b, P a b = true -> P b a = true) ->
  forall a b, In a l -> In b l -> a <> b -> P a b = true.
Proof.
  intros H Sym. induction l as [| h l IH]; intros a b Ha Hb N; [destruct Ha |].
  apply pairs_ok_cons in H. destruct H as [Hh Hl].
  destruct Ha as [-> | Ha], Hb as [-> | Hb].
  - now elim N.
  - now apply Hh.
  - apply Sym. now apply Hh.
  - now apply IH.
Qed.

Lemma triples_ok_in (P : Point -> Point -> Point -> bool) (l : list Point) :
  triples_ok P l = true ->
  (forall a b c, P a b c = true -> P b a c = true) ->
  (forall a b c, P a b c = true -> P a c b = true) ->
  forall a b c, In a l -> In b l -> In c l ->
                a <> b -> b <> c -> a <> c -> P a b c = true.
Proof.
  intros H S1 S2. induction l as [| h l IH];
    intros a b c Ha Hb Hc N1 N2 N3; [destruct Ha |].
  simpl in H. apply andb_true_iff in H. destruct H as [Hh Hl].
  pose proof (pairs_ok_in (P h) l Hh (S2 h)) as Hp.
  destruct Ha as [-> | Ha], Hb as [-> | Hb], Hc as [-> | Hc];
    try (now elim N1); try (now elim N2); try (now elim N3).
  - now apply Hp.
  - apply S1. now apply Hp.
  - apply S2, S1. now apply Hp.
  - now apply IH.
Qed.

Lemma general_position_lines (pts : list Point) :
  general_position pts = true -> no_collinear pts.
Proof.
  unfold general_position. rewrite !andb_true_iff. intros [[_ H] _].
  intros a b c Ha Hb Hc N1 N2 N3 E.
  assert (G : negb (Qeq_bool (orientation a b c) 0) = true).
  { apply (triples_ok_in
             (fun a b c => negb (Qeq_bool (orientation a b c) 0)) pts);
      try assumption.
    - intros a' b' c' P. apply negb_true_iff in P. apply negb_true_iff.
      apply not_true_iff_false. rewrite Qeq_bool_iff.
      apply not_true_iff_false in P. rewrite Qeq_bool_iff in P.
      intros E'. apply P. rewrite orientation_flip_base in E'. lra.
    - intros a' b' c' P. apply negb_true_iff in P. apply negb_true_iff.
      apply not_true_iff_false. rewrite Qeq_bool_iff.
      apply not_true_iff_false in P. rewrite Qeq_bool_iff in P.
      intros E'. apply P. rewrite orientation_swap in E'. lra. }
  apply negb_true_iff in G. apply not_true_iff_false in G.
  apply G. now apply Qeq_bool_iff.
Qed.

Lemma tidy_equiv (U V : list Point) (c : Connections) :
  incl V U -> tidy U c -> tidy V c.
Proof.
  intros I (Cm & Ce & Ir). split; [| split; assumption].
  intros p Hp. apply Cm. now apply I.
Qed.

Lemma hull_equiv (U V : list Point) (c : Connections) :
  incl U V -> incl V U -> hull_linked U c -> hull_linked V c.
Proof.
  intros I1 I2 H a b (Ha & Hb & X & Up). apply H.
  split; [now apply I2 | split; [now apply I2 | split; [exact X |]]].
  intros z Hz. apply Up. now apply I1.
Qed.

Lemma good_equiv (U V : list Point) (c : Connections) :
  incl U V -> incl V U -> good U c -> good V c.
Proof.
  intros I1 I2 (I & Uq & T & H). split; [apply (Inv_incl U V c I1 I) |].
  split; [exact Uq |]. split; [apply (tidy_equiv U V c I2 T) |].
  apply (hull_equiv U V c I1 I2 H).
Qed.

(** The fuel that suffices for [n] points. *)
Lemma fuel_halves (n k fuel : nat) :
  (4 <= n -> 2 <= k -> k <= n - 2 ->
   n * n + n + 2 <= S fuel ->
   k * k + k + 2 <= fuel /\ k * (n - k) + n < fuel)%nat.
Proof. intros H4 H2 Hk Hf. split; nia. Qed.

Lemma connect_both (p q : Point) (c c' : Connections) :
  connect p q c = Ok c' ->
  linked c' p q /\ linked c' q p /\ forall a b, linked c a b -> linked c' a b.
Proof.
  intros H. split; [| split].
  - apply (connect_linked _ _ _ _ _ _ H). right. left. now split.
  - apply (connect_linked _ _ _ _ _ _ H). right. right. now split.
  - intros a b Lk. apply (connect_linked _ _ _ _ _ _ H). now left.
Qed.

Lemma delaunay_result (fuel : nat) (pts : list Point) (c : Connections) :
  coherent pts -> NoDup (map id pts) -> x_distinct pts ->
  snd (delaunay fuel pts) = Ok c ->
  Inv pts c /\ each_ring unique_targets c.
Proof.
  intros Hc Hn Hx H. destruct (delaunay fuel pts) as [s r] eqn:E.
  simpl in H. subst r. split.
  - apply (delaunay_inv fuel pts s c Hc Hn E).
  - apply (delaunay_unique fuel pts s c Hc Hn Hx E).
Qed.

Lemma delaunay_total (fuel : nat) :
  forall pts,
    (length pts * length pts + length pts + 2 <= fuel)%nat ->
    (2 <= length pts)%nat ->
    coherent pts -> NoDup (map id pts) -> x_distinct pts -> no_collinear pts ->
    exists c, snd (delaunay fuel pts) = Ok c /\ good pts c.
Proof.
  induction fuel as [| fuel IH]; intros pts Hf Hs Hc Hn Hx Hl; [lia |].
  assert (G : exists c, snd (delaunay (S fuel) pts) = Ok c /\
                        tidy pts c /\ hull_linked pts c).
  { rewrite delaunay_long by exact Hs. cbv zeta.
    set (mid := (length (sort x pts) / 2)%nat).
    assert (Hmid : mid = (length (sort x pts) / 2)%nat) by reflexivity.
    clearbody mid.
    pose proof (sort_perm Point x pts) as P.
    pose proof (sort_length Point x pts) as Hlen.
    pose proof (sort_sorted Point x pts) as Hsorted.
    assert (I : incl (sort x pts) pts)
      by (intros a; apply Permutation_in, P).
    assert (I' : incl pts (sort x pts))
      by (intros a; apply Permutation_in, Permutation_sym, P).
    assert (Hc' : coherent (sort x pts)) by (apply (coherent_incl _ _ I Hc)).
    assert (Hx' : x_distinct (sort x pts)) by (apply (x_distinct_incl _ _ I Hx)).
    assert (Hl' : no_collinear (sort x pts))
      by (apply (no_collinear_incl _ _ I Hl)).
    assert (Hn' : NoDup (map id (sort x pts)))
      by (apply (Permutation_NoDup (Permutation_map id (Permutation_sym P)) Hn)).
    pose proof (tidy_empty (sort x pts)) as T0.
    assert (Back : forall c, tidy (sort x pts) c /\ hull_linked (sort x pts) c ->
                             tidy pts c /\ hull_linked pts c).
    { intros c [T H]. split; [apply (tidy_equiv _ _ c I' T) |].
      apply (hull_equiv _ _ c I I' H). }
    simpl snd.
    destruct (sort x pts) as [| p [| q [| r [| t rest]]]] eqn:E;
      try (simpl in Hlen; lia).
    - (* two points *)
      assert (Npq : id p <> id q).
      { simpl in Hn'. inversion Hn' as [| ? ? H1 _]; subst. simpl in H1.
        intros Eq. apply H1. left. now symmetry. }
      pose proof T0 as (C0 & _).
      destruct (connect_total _ _ p q C0 (or_introl eq_refl)
                              (or_intror (or_introl eq_refl))) as (c & H).
      exists c. split; [exact H |]. apply Back.
      split; [apply (tidy_connect _ p q _ c Npq T0 H) |].
      destruct (connect_both p q _ c H) as (L1 & L2 & _).
      intros a b (Ha & Hb & X & _).
      destruct Ha as [<- | [<- | []]], Hb as [<- | [<- | []]];
        try assumption; lra.
    - (* three points *)
      destruct (distinct_ids_3 p q r Hn') as (Npq & Nqr & Nrp).
      pose proof T0 as (C0 & _).
      destruct (connect_total _ _ p q C0 (or_introl eq_refl)
                              (or_intror (or_introl eq_refl))) as (c1 & H1).
      pose proof (tidy_connect _ p q _ c1 Npq T0 H1) as T1.
      pose proof T1 as (C1 & _).
      destruct (connect_total _ _ q r C1 (or_intror (or_introl eq_refl))
                              (or_intror (or_intror (or_introl eq_refl))))
        as (c2 & H2).
      pose proof (tidy_connect _ q r _ c2 Nqr T1 H2) as T2.
      pose proof T2 as (C2 & _).
      destruct (connect_total _ _ r p C2
                              (or_intror (or_intror (or_introl eq_refl)))
                              (or_introl eq_refl)) as (c3 & H3).
      pose proof (tidy_connect _ r p _ c3 Nrp T2 H3) as T3.
      exists c3. rewrite H1. simpl. rewrite H2. simpl.
      split; [exact H3 |]. apply Back. split; [exact T3 |].
      destruct (connect_both p q _ c1 H1) as (A1 & A2 & _).
      destruct (connect_both q r _ c2 H2) as (B1 & B2 & K2).
      destruct (connect_both r p _ c3 H3) as (D1 & D2 & K3).
      intros a b (Ha & Hb & X & _).
      destruct Ha as [<- | [<- | [<- | []]]], Hb as [<- | [<- | [<- | []]]];
        try assumption; try lra; auto.
    - (* the halves *)
      set (s := p :: q :: r :: t :: rest) in *.
      pose proof (firstn_skipn mid s) as Es.
      assert (Len4 : (4 <= length s)%nat) by (unfold s; simpl; lia).
      destruct (halves_long (length s) Len4) as [M1 M2].
      rewrite <- Hmid in M1, M2.
      assert (LenL : length (firstn mid s) = mid).
      { rewrite length_firstn. lia. }
      assert (LenR : length (skipn mid s) = (length s - mid)%nat)
        by apply length_skipn.
      rewrite <- Es in Hc', Hn', Hx', Hl', Hsorted.
      pose proof (NoDup_map_inv id _ Hn') as Nd.
      rewrite map_app in Hn'.
      destruct (nodup_app_disjoint _ _ Hn') as (N1 & N2 & D).
      destruct (sorted_separates _ _ Hsorted Nd Hx') as (m & Hsep).
      pose proof (coherent_incl _ _ (incl_appl _ (incl_refl _)) Hc') as C1.
      pose proof (coherent_incl _ _ (incl_appr _ (incl_refl _)) Hc') as C2.
      pose proof (x_distinct_incl _ _ (incl_appl _ (incl_refl _)) Hx') as X1.
      pose proof (x_distinct_incl _ _ (incl_appr _ (incl_refl _)) Hx') as X2.
      pose proof (no_collinear_incl _ _ (incl_appl _ (incl_refl _)) Hl') as L1.
      pose proof (no_collinear_incl _ _ (incl_appr _ (incl_refl _)) Hl') as L2.
      assert (Hlen' : length s = length pts) by exact Hlen.
      destruct (fuel_halves (length s) mid fuel Len4 M1) as [F1 F1']; try lia.
      destruct (fuel_halves (length s) (length s - mid) fuel Len4 M2)
        as [F2 _]; try lia.
      destruct (IH (firstn mid s)) as (cl & Hcl & Gl); try assumption;
        try (rewrite LenL; assumption).
      destruct (IH (skipn mid s)) as (cr & Hcr & Gr); try assumption;
        try (rewrite LenR; assumption).
      destruct (mergeHalves_total fuel (firstn mid s) (skipn mid s) m cl cr)
        as (c & Hm & Gm); try assumption.
      { rewrite LenL. exact M1. }
      { rewrite LenR. exact M2. }
      { rewrite length_app, LenL, LenR. lia. }
      exists c. rewrite Hcl. simpl. rewrite Hcr. simpl.
      split; [exact Hm |]. apply Back. rewrite <- Es.
      destruct Gm as (_ & _ & T & H). now split. }
  destruct G as (c & H & T & Hh). exists c. split; [exact H |].
  destruct (delaunay_result (S fuel) pts c Hc Hn Hx H) as [I Uq].
  split; [exact I |]. split; [exact Uq |]. now split.
Qed.

(** * The claims *)

(** C1, as the code has it.  Symmetry of the adjacency map: whenever the
    ring of p holds a link to q, the ring of q holds a link to p.  A call
    of [connect] that returns has added both directed links and keeps the
    map symmetric; a call of [disconnect] that returns, given the objects
    that the map holds for the two points, has removed both and keeps the
    map symmetric; and every map that [delaunay] returns for at least two
    points in general position (distinct objects) is symmetric.
    [held c p] says that the links of the map use the object [p] for its
    point, as they do in every map the builder makes: a point is one
    object. *)
Theorem symmetry_invariant :
  (forall c p q c',
      symmetric c -> connect p q c = Ok c' ->
      symmetric c' /\ linked c' p q /\ linked c' q p) /\
  (forall c p q c',
      held c p -> held c q -> symmetric c -> disconnect p q c = Ok c' ->
      symmetric c' /\ ~ linked c' p q /\ ~ linked c' q p) /\
  (forall fuel pts pts' c,
      (2 <= length pts)%nat ->
      general_position pts = true -> distinct_objects pts = true ->
      delaunay fuel pts = (pts', Ok c) -> symmetric c).
Proof.
  split; [| split].
  - intros c p q c' S H. split; [apply (connect_symmetric p q c c' S H) |].
    rewrite !(connect_linked p q c c' _ _ H). split; auto.
  - intros c p q c' Hp Hq S H. split.
    + apply (disconnect_symmetric p q c c' Hp Hq S H).
    + apply (disconnect_unlinked p q c c' Hp Hq H).
  - intros fuel pts pts' c _ G D H.
    destruct (delaunay_Inv fuel pts pts' c G D H) as (_ & _ & _ & S & _).
    exact S.
Qed.

Lemma symmetry_invariant_witness :
  (symmetric (emptyConnections [pt 0 0 0; pt 1 1 0]) /\
   connect (pt 0 0 0) (pt 1 1 0) (emptyConnections [pt 0 0 0; pt 1 1 0])
   = Ok one_edge /\
   symmetric one_edge /\ linked one_edge (pt 0 0 0) (pt 1 1 0)) /\
  (held one_edge (pt 0 0 0) /\ held one_edge (pt 1 1 0) /\
   disconnect (pt 0 0 0) (pt 1 1 0) one_edge
   = Ok (emptyConnections [pt 0 0 0; pt 1 1 0]) /\
   symmetric (emptyConnections [pt 0 0 0; pt 1 1 0])) /\
  ((2 <= length sample)%nat /\ general_position sample = true /\
   distinct_objects sample = true /\
   delaunay 5 sample = (sort x sample, Ok sample_result) /\
   symmetric sample_result).
Proof.
  assert (S0 : symmetric (emptyConnections [pt 0 0 0; pt 1 1 0])).
  { destruct (Inv_empty [pt 0 0 0; pt 1 1 0]) as (_ & _ & _ & S & _). exact S. }
  assert (E : connect (pt 0 0 0) (pt 1 1 0) (emptyConnections [pt 0 0 0; pt 1 1 0])
              = Ok one_edge) by (vm_compute; reflexivity).
  destruct symmetry_invariant as (C & D & B).
  destruct (C _ _ _ _ S0 E) as (S1 & L1 & _).
  assert (H0 : held one_edge (pt 0 0 0)) by (apply heldb_held; reflexivity).
  assert (H1 : held one_edge (pt 1 1 0)) by (apply heldb_held; reflexivity).
  assert (E' : disconnect (pt 0 0 0) (pt 1 1 0) one_edge
               = Ok (emptyConnections [pt 0 0 0; pt 1 1 0]))
    by (vm_compute; reflexivity).
  split; [| split].
  - split; [exact S0 | split; [exact E | split; [exact S1 | exact L1]]].
  - destruct (D _ _ _ _ H0 H1 S1 E') as (S2 & _).
    split; [exact H0 | split; [exact H1 | split; [exact E' | exact S2]]].
  - assert (L : (2 <= length sample)%nat) by (simpl; lia).
    split; [exact L | split; [reflexivity | split; [reflexivity |]]].
    split; [exact sample_run |].
    apply (B 5%nat sample _ _ L eq_refl eq_refl sample_run).
Defined.

(** C1, as stated, fails: [disconnect] removes a link by comparing
    objects.  Given, for the second point, another object with the same
    coordinates, it finds the ring of that point by its key and removes
    from it the link to the first point, but leaves the link from the
    first point in place: one direction of the edge is left. *)
Lemma disconnect_copy_one_sided :
  symmetric one_edge /\
  coincide (pt 2 1 0) (pt 1 1 0) /\
  exists c',
    disconnect (pt 0 0 0) (pt 2 1 0) one_edge = Ok c' /\
    linked c' (pt 0 0 0) (pt 1 1 0) /\
    ~ linked c' (pt 1 1 0) (pt 0 0 0) /\
    ~ symmetric c'.
Proof.
  assert (L : linked [(id (pt 0 0 0), mkRing (pt 0 0 0) [mkLink (pt 1 1 0) 0]);
                      (id (pt 1 1 0), mkRing (pt 1 1 0) [])]
                     (pt 0 0 0) (pt 1 1 0)).
  { exists (mkRing (pt 0 0 0) [mkLink (pt 1 1 0) 0]), (mkLink (pt 1 1 0) 0).
    split; [reflexivity | split; [now left | reflexivity]]. }
  assert (N : ~ linked [(id (pt 0 0 0), mkRing (pt 0 0 0) [mkLink (pt 1 1 0) 0]);
                        (id (pt 1 1 0), mkRing (pt 1 1 0) [])]
                       (pt 1 1 0) (pt 0 0 0)).
  { intros (r & l & G & Hl & _). vm_compute in G. injection G as <-.
    destruct Hl. }
  split; [| split; [split; reflexivity |]].
  - destruct (Inv_empty [pt 0 0 0; pt 1 1 0]) as (_ & _ & _ & S0 & _).
    apply (connect_symmetric (pt 0 0 0) (pt 1 1 0) _ one_edge S0).
    vm_compute. reflexivity.
  - eexists. split; [vm_compute; reflexivity |].
    split; [exact L | split; [exact N |]].
    intros S. apply N, S, L.
Qed.

(** C3.  The ring lookup.  On a ring that has a link and is sorted by angle,
    with the reference angle [a] given or computed as atan2 from a reference
    point: direction +1 returns the target of a link of least angle among
    those strictly greater than [a], the first link when there is none;
    direction -1 returns the target of a link of greatest angle among those
    strictly less than [a], the last link when there is none.  For every
    direction the scan passes exactly the leading links that lie before
    [a], together with those at [a] when the direction is positive: a link
    at angle [a] stops the scan only for a direction <= 0. *)
Theorem lookup_semantics (ring : Ring) (ref : Reference) :
  links ring <> [] -> sorted_ring ring ->
  let a := match ref with
           | FromAngle a => a
           | FromPoint p =>
               atan2 (y p - y (center ring)) (x p - x (center ring))
           end in
  (exists t, nextConnection ref ring 1 = Ok t /\ next_after a (links ring) t) /\
  (exists t, nextConnection ref ring (-1) = Ok t /\
             next_before a (links ring) t) /\
  (forall direction,
      nextConnection ref ring direction =
      nextConnectionFromAngle a ring direction /\
      exists pre suf,
        links ring = pre ++ suf /\
        length pre = scan a direction (links ring) /\
        Forall (passed a direction) pre /\
        match suf with
        | [] => True
        | l :: _ => ~ passed a direction l
        end).
Proof.
  intros N S a.
  assert (E : forall d, nextConnection ref ring d = nextConnectionFromAngle a ring d)
    by (intros d; destruct ref; reflexivity).
  split; [| split].
  - rewrite E. apply (next_after_spec a ring N S).
  - rewrite E. apply (next_before_spec a ring N S).
  - intros d. split; [apply E | apply scan_split].
Qed.

Lemma sample_ring_sorted : sorted_ring sample_ring.
Proof.
  unfold sorted_ring, sorted_links, sample_ring. simpl.
  repeat constructor; simpl; unfold Qle; simpl; lia.
Qed.

Lemma lookup_semantics_witness :
  links sample_ring <> [] /\ sorted_ring sample_ring /\
  (exists t, nextConnection (FromAngle (1 # 2)) sample_ring 1 = Ok t /\
             next_after (1 # 2) (links sample_ring) t) /\
  nextConnection (FromAngle (1 # 2)) sample_ring 1 = Ok (pt 3 (-1) 1) /\
  nextConnection (FromPoint (pt 9 2 2)) sample_ring (-1) = Ok (pt 1 1 (-1)).
Proof.
  assert (N : links sample_ring <> []) by discriminate.
  split; [exact N | split; [exact sample_ring_sorted |]].
  split; [| split; reflexivity].
  destruct (lookup_semantics sample_ring (FromAngle (1 # 2)) N
                             sample_ring_sorted) as (A & _).
  exact A.
Defined.

(** C10.  The ring lookup needs a ring with a link.  On such a ring it
    returns, for every reference and every direction, the target of a link
    that is in the ring - the fallback for an index out of bounds reads an
    element that exists.  On a ring without links the access fails with a
    TypeError, and so does each caller that consults such a ring:
    [randomTriangle] on a map whose first ring is empty, [rightTriangle] on
    an edge whose end has an empty ring, and the candidate search of the
    merge loop on an isolated end of the base edge. *)
Theorem lookup_precondition :
  (forall ref ring direction,
      links ring <> [] ->
      exists l, In l (links ring) /\
                nextConnection ref ring direction = Ok (point l)) /\
  (forall ref ring direction,
      links ring = [] -> nextConnection ref ring direction = Err TypeError) /\
  (forall k ring rest,
      links ring = [] -> randomTriangle ((k, ring) :: rest) = Err TypeError) /\
  (forall c p q rq,
      get c (id q) = Some rq -> links rq = [] ->
      rightTriangle c p q = Err TypeError) /\
  (forall fuel c pivot other direction left right r,
      get c (id pivot) = Some r -> links r = [] ->
      findCandidate fuel c pivot other direction left right = Err TypeError).
Proof.
  split; [| split; [| split; [| split]]].
  - intros ref ring d N. destruct ref; simpl; unfold nextConnection;
      apply next_in_ring; exact N.
  - intros ref ring d E. destruct ref; unfold nextConnection;
      apply next_empty; exact E.
  - intros k ring rest E. unfold randomTriangle. now rewrite E.
  - intros c p q rq G E. unfold rightTriangle, getRing. rewrite G. simpl.
    unfold nextConnection. now rewrite next_empty.
  - intros fuel c pivot other d left right r G E.
    unfold findCandidate, getRing. rewrite G. simpl.
    unfold nextConnectionAbove, nextConnection. now rewrite next_empty.
Qed.

Lemma lookup_precondition_witness :
  links sample_ring <> [] /\
  (exists l, In l (links sample_ring) /\
             nextConnection (FromAngle 2) sample_ring 1 = Ok (point l)) /\
  links (mkRing (pt 0 0 0) []) = [] /\
  nextConnection (FromAngle 0) (mkRing (pt 0 0 0) []) (-1) = Err TypeError.
Proof.
  assert (N : links sample_ring <> []) by discriminate.
  destruct lookup_precondition as (A & B & _).
  split; [exact N | split; [exact (A (FromAngle 2) sample_ring 1%Z N) |]].
  split; [reflexivity |].
  exact (B (FromAngle 0) (mkRing (pt 0 0 0) []) (-1)%Z eq_refl).
Defined.

(** C4, as the code has it.  [delaunay] sorts its argument in place: when
    the call ends the array holds the elements it was given (a permutation
    of them) in ascending order of x, equal x keeping their order; an array
    of fewer than two points, and one that is already sorted, is left as it
    is.  The table of permutations that [det] fills on first use returns,
    with or without an entry, the list that [S] computes, so the outcome
    depends on the argument alone. *)
Theorem delaunay_effects :
  (forall fuel pts,
      fst (delaunay fuel pts) =
      if (length pts <? 2)%nat then pts else sort x pts) /\
  (forall pts,
      Permutation (sort x pts) pts /\
      StronglySorted (fun p q => x p <= x q) (sort x pts)) /\
  (forall fuel pts,
      StronglySorted (fun p q => x p <= x q) pts ->
      fst (delaunay fuel pts) = pts) /\
  (forall n c,
      cache_ok c ->
      fst (Permutations.S_memo n c) = Permutations.S n /\
      cache_ok (snd (Permutations.S_memo n c))).
Proof.
  split; [| split; [| split]].
  - apply delaunay_array.
  - intros pts. split; [apply sort_perm | apply sort_sorted].
  - intros fuel pts H. rewrite delaunay_array.
    destruct (length pts <? 2)%nat; [reflexivity | now apply sort_id].
  - intros n c H. now apply S_memo_spec.
Qed.

Lemma delaunay_effects_witness :
  StronglySorted (fun p q => x p <= x q) [pt 0 0 0; pt 1 1 0] /\
  fst (delaunay 0 [pt 0 0 0; pt 1 1 0]) = [pt 0 0 0; pt 1 1 0] /\
  cache_ok [] /\
  fst (Permutations.S_memo 3 []) = Permutations.S 3.
Proof.
  assert (S : StronglySorted (fun p q => x p <= x q) [pt 0 0 0; pt 1 1 0]).
  { repeat constructor. simpl. unfold Qle. simpl. lia. }
  destruct delaunay_effects as (_ & _ & A & B).
  split; [exact S | split; [exact (A 0%nat _ S) |]].
  split; [exact cache_ok_empty |].
  exact (proj1 (B 3%nat [] cache_ok_empty)).
Defined.

(** C4, as stated, fails: the call reorders the caller's array. *)
Lemma delaunay_sorts_its_argument :
  fst (delaunay 0 [pt 1 1 0; pt 0 0 0]) = [pt 0 0 0; pt 1 1 0] /\
  fst (delaunay 0 [pt 1 1 0; pt 0 0 0]) <> [pt 1 1 0; pt 0 0 0].
Proof.
  split; [reflexivity | discriminate].
Qed.

(** C7.  For the two points (0,0) and (1,0), given in either order as
    distinct objects, [delaunay] returns the map with the single undirected
    edge between them (one link in each of the two rings), and [dual]
    applied to that map raises MalformedTriangulation: [rightTriangle] finds
    no triangle on the seed edge in either orientation. *)
Theorem two_points (o1 o2 : nat) (fuel fuel' : nat) :
  o1 <> o2 ->
  let a := pt o1 0 0 in
  let b := pt o2 1 0 in
  let c := [(id a, mkRing a [mkLink b 0]); (id b, mkRing b [mkLink a PI])] in
  snd (delaunay fuel [a; b]) = Ok c /\
  snd (delaunay fuel [b; a]) = Ok c /\
  link_count c = 2%nat /\ linked c a b /\ linked c b a /\
  rightTriangle c a b = Ok None /\ rightTriangle c b a = Ok None /\
  randomTriangle c = Err MalformedTriangulation /\
  dual fuel' c = Err MalformedTriangulation.
Proof.
  intros N a b c.
  assert (E1 : same a b = false) by (apply Nat.eqb_neq; exact N).
  assert (E2 : same b a = false) by (apply Nat.eqb_neq; auto).
  assert (R1 : rightTriangle c a b = Ok None).
  { unfold rightTriangle. vm_compute. vm_compute in E1. rewrite E1. reflexivity. }
  assert (R2 : rightTriangle c b a = Ok None).
  { unfold rightTriangle. vm_compute. vm_compute in E2. rewrite E2. reflexivity. }
  assert (R : randomTriangle c = Err MalformedTriangulation).
  { unfold randomTriangle, c. cbn [links center point]. fold c.
    rewrite R1. cbn [bind]. rewrite R2. reflexivity. }
  split; [destruct fuel; vm_compute; reflexivity |].
  split; [destruct fuel; vm_compute; reflexivity |].
  split; [reflexivity |].
  split; [exists (mkRing a [mkLink b 0]), (mkLink b 0); repeat split; now left |].
  split; [exists (mkRing b [mkLink a PI]), (mkLink a PI); repeat split; now left |].
  split; [exact R1 | split; [exact R2 | split; [exact R |]]].
  unfold dual. rewrite R. reflexivity.
Qed.

Lemma two_points_witness :
  0%nat <> 1%nat /\
  snd (delaunay 0 [pt 0 0 0; pt 1 1 0]) = Ok one_edge /\
  dual 3 one_edge = Err MalformedTriangulation.
Proof.
  assert (N : 0%nat <> 1%nat) by discriminate.
  destruct (two_points 0 1 0 3 N) as (A & _ & _ & _ & _ & _ & _ & _ & B).
  split; [exact N | split; [exact A | exact B]].
Defined.

(** C2, at the input (0,0), (1,0), (0,1).  [delaunay] returns the three
    mutual edges of the triangle.  [dual] returns a map with a single
    vertex, the circumcenter (1/2, 1/2); its ring is not empty: it holds six
    links, each from the vertex to itself, two for each side of the
    triangle. *)
Theorem triangle_dual (fuel fuel' : nat) :
  let p := pt 0 0 0 in
  let q := pt 2 0 1 in
  let r := pt 1 1 0 in
  snd (delaunay fuel triangle_input) = Ok triangle_result /\
  triangle_result =
  [(id p, mkRing p [mkLink r 0; mkLink q 1]);
   (id q, mkRing q [mkLink p (- (1)); mkLink r (- (1 # 2))]);
   (id r, mkRing r [mkLink q (3 # 2); mkLink p 2])] /\
  exists ring,
    dual (S (S fuel')) triangle_result = Ok [((1 # 2, 1 # 2), ring)] /\
    coincide (center ring) (mkPoint 0 (1 # 2) (1 # 2)) /\
    length (links ring) = 6%nat /\
    Forall (fun l => id (point l) = id (center ring)) (links ring).
Proof.
  intros p q r.
  split; [now rewrite triangle_run |].
  split; [vm_compute; reflexivity |].
  eexists. split; [vm_compute; reflexivity |].
  split; [split; reflexivity |].
  split; [reflexivity |].
  repeat constructor.
Qed.

(** * Further properties of the code *)

(** ** The map operations *)

Lemma set_absent (k : Key) (r : Ring) (c : Connections) :
  get c k = None -> set k r c = c ++ [(k, r)].
Proof.
  induction c as [| [k0 r0] c IH]; simpl; [reflexivity |].
  destruct (key_eqb k0 k); [discriminate |]. intros H. now rewrite IH.
Qed.

Lemma set_present (k : Key) (r : Ring) (c : Connections) :
  get c k = Some r -> set k r c = c.
Proof.
  induction c as [| [k0 r0] c IH]; simpl; [discriminate |].
  destruct (key_eqb k0 k) eqn:E.
  - apply key_eqb_eq in E. intros [= ->]. now subst.
  - intros H. now rewrite IH.
Qed.

Lemma set_twice (k : Key) (r r' : Ring) (c : Connections) :
  set k r (set k r' c) = set k r c.
Proof.
  induction c as [| [k0 r0] c IH]; simpl.
  - now rewrite key_eqb_refl.
  - destruct (key_eqb k0 k) eqn:E; simpl.
    + now rewrite key_eqb_refl.
    + now rewrite E, IH.
Qed.

Lemma set_swap (k k' : Key) (r r' : Ring) (c : Connections) :
  k <> k' -> get c k <> None -> get c k' <> None ->
  set k r (set k' r' c) = set k' r' (set k r c).
Proof.
  intros N.
  assert (F : key_eqb k k' = false) by (now apply key_eqb_neq).
  assert (F' : key_eqb k' k = false) by (apply key_eqb_neq; congruence).
  induction c as [| [k0 r0] c IH]; simpl; [tauto |].
  destruct (key_eqb k0 k) eqn:E, (key_eqb k0 k') eqn:E'; simpl;
    rewrite ?E, ?E', ?F, ?F'; simpl.
  - apply key_eqb_eq in E. apply key_eqb_eq in E'. congruence.
  - reflexivity.
  - reflexivity.
  - intros H H'. now rewrite IH.
Qed.

Lemma points_set (k : Key) (r r0 : Ring) (c : Connections) :
  get c k = Some r0 -> center r = center r0 ->
  getPoints (set k r c) = getPoints c.
Proof.
  unfold getPoints. induction c as [| [k0 r1] c IH]; simpl; [discriminate |].
  destruct (key_eqb k0 k); simpl.
  - intros [= ->] E. now rewrite E.
  - intros H E. now rewrite IH.
Qed.

Lemma count_set (k : Key) (r r0 : Ring) (c : Connections) :
  get c k = Some r0 ->
  (link_count (set k r c) + length (links r0)
   = link_count c + length (links r))%nat.
Proof.
  unfold link_count. induction c as [| [k0 r1] c IH]; simpl; [discriminate |].
  destruct (key_eqb k0 k); simpl.
  - intros [= ->]. lia.
  - intros H. specialize (IH H). lia.
Qed.

Lemma fill_fresh (pts : list Point) (c : Connections) :
  NoDup (keys c ++ map id pts) ->
  fold_left (fun c pt => set (id pt) (mkRing pt []) c) pts c
  = c ++ map (fun p => (id p, mkRing p [])) pts.
Proof.
  revert c. induction pts as [| p pts IH]; intros c N; simpl.
  - now rewrite app_nil_r.
  - assert (G : get c (id p) = None).
    { destruct (get c (id p)) eqn:G; [| reflexivity]. exfalso.
      apply get_some_keys in G. apply NoDup_remove_2 in N. apply N.
      apply in_or_app. now left. }
    rewrite (set_absent _ _ _ G). rewrite IH.
    + now rewrite <- app_assoc.
    + unfold keys in *. rewrite map_app. simpl. rewrite <- app_assoc. exact N.
Qed.

Lemma empty_list (pts : list Point) :
  NoDup (map id pts) ->
  emptyConnections pts = map (fun p => (id p, mkRing p [])) pts.
Proof.
  intros N. unfold emptyConnections. now rewrite fill_fresh.
Qed.

Lemma assign_fresh (t s : Connections) :
  NoDup (keys t ++ keys s) -> assign t s = t ++ s.
Proof.
  unfold assign. revert t. induction s as [| [k r] s IH]; intros t N; simpl.
  - now rewrite app_nil_r.
  - assert (G : get t k = None).
    { destruct (get t k) eqn:G; [| reflexivity]. exfalso.
      apply get_some_keys in G. apply NoDup_remove_2 in N. apply N.
      apply in_or_app. now left. }
    rewrite (set_absent _ _ _ G). rewrite IH.
    + now rewrite <- app_assoc.
    + unfold keys in *. rewrite map_app. simpl. rewrite <- app_assoc. exact N.
Qed.

Lemma merge_disjoint (c d : Connections) :
  NoDup (keys c ++ keys d) -> mergeConnections c d = c ++ d.
Proof.
  intros N. unfold mergeConnections.
  assert (E : assign [] c = c).
  { apply (assign_fresh [] c). simpl. now apply NoDup_app_remove_r in N. }
  rewrite E. now apply assign_fresh.
Qed.

(** X1.  [emptyConnections] followed by [getPoints] gives the points back,
    in the order given, when no two of them have the same coordinates;
    each point then has a ring with itself as center and no links. *)
Theorem empty_round_trip (pts : list Point) :
  NoDup (map id pts) ->
  getPoints (emptyConnections pts) = pts /\
  forall p, In p pts ->
            get (emptyConnections pts) (id p) = Some (mkRing p []).
Proof.
  intros N. split.
  - rewrite (empty_list pts N). unfold getPoints. rewrite map_map. simpl.
    apply map_id.
  - intros p Hp.
    assert (K : In (id p) (keys (emptyConnections pts)))
      by (apply keys_empty_in; now apply in_map).
    apply get_keys in K.
    destruct (get (emptyConnections pts) (id p)) as [r |] eqn:G;
      [| now elim K].
    destruct (get_empty pts _ _ G) as (p' & Hp' & -> & E).
    now rewrite (nodup_map_inj id pts p p' N Hp Hp' E).
Qed.

Lemma sample_keys : NoDup (map id sample).
Proof. apply general_position_keys. vm_compute. reflexivity. Qed.

Lemma empty_round_trip_witness :
  getPoints (emptyConnections sample) = sample /\
  forall p, In p sample ->
            get (emptyConnections sample) (id p) = Some (mkRing p []).
Proof. apply (empty_round_trip sample). apply sample_keys. Defined.

Lemma ring_errors (p q : Point) (c : Connections) :
  (connect p q c = Err TypeError <->
   get c (id p) = None \/ get c (id q) = None) /\
  (disconnect p q c = Err TypeError <->
   get c (id p) = None \/ get c (id q) = None) /\
  (forall e, connect p q c = Err e \/ disconnect p q c = Err e ->
             e = TypeError).
Proof.
  unfold connect, disconnect, getRing.
  destruct (get c (id p)) as [rp |] eqn:Gp; simpl.
  - rewrite !get_set. destruct (key_eqb (id p) (id q)) eqn:E; simpl.
    + apply key_eqb_eq in E. rewrite <- E, Gp.
      repeat split; try discriminate; try (intros [H | H]; discriminate).
      intros e [H | H]; discriminate.
    + destruct (get c (id q)) as [rq |]; simpl.
      * repeat split; try discriminate; try (intros [H | H]; discriminate).
        intros e [H | H]; discriminate.
      * repeat split; auto. intros e [H | H]; congruence.
  - repeat split; auto. intros e [H | H]; congruence.
Qed.


(** X2.  The only way [connect] and [disconnect] fail is a missing ring:
    each raises a TypeError exactly when the map has no ring for one of the
    two points, and returns a map otherwise. *)
Theorem connect_missing_ring (p q : Point) (c : Connections) :
  (connect p q c = Err TypeError <->
   get c (id p) = None \/ get c (id q) = None) /\
  (disconnect p q c = Err TypeError <->
   get c (id p) = None \/ get c (id q) = None) /\
  (forall e, connect p q c = Err e \/ disconnect p q c = Err e ->
             e = TypeError).
Proof. apply ring_errors. Qed.

Lemma connect_count (p q : Point) (c c' : Connections) :
  connect p q c = Ok c' -> link_count c' = (link_count c + 2)%nat.
Proof.
  intros H. rewrite connect_update in H.
  destruct (update (id p) (addConnection q) c) as [c1 |] eqn:H1;
    simpl in H; [| discriminate].
  apply update_ok in H1. destruct H1 as (rp & Gp & ->).
  apply update_ok in H. destruct H as (rq & Gq & ->).
  pose proof (count_set (id p) (addConnection q rp) rp c Gp) as E1.
  pose proof (count_set (id q) (addConnection p rq) rq _ Gq) as E2.
  assert (A1 : forall t r, length (links (addConnection t r))
                           = (length (links r) + 1)%nat).
  { intros t r. unfold addConnection. simpl.
    now rewrite sort_length, length_app. }
  rewrite A1 in E1, E2. lia.
Qed.

(** The keys with the centers stored under them, in their order. *)
Lemma frame_set (k : Key) (r r0 : Ring) (c : Connections) :
  get c k = Some r0 -> center r = center r0 ->
  frame (set k r c) = frame c.
Proof.
  unfold frame. induction c as [| [k0 r1] c IH]; simpl; [discriminate |].
  destruct (key_eqb k0 k) eqn:E; simpl.
  - apply key_eqb_eq in E. intros [= ->] Ec. now rewrite Ec, E.
  - intros H Ec. now rewrite IH.
Qed.

Lemma frame_update (k : Key) (f : Ring -> Ring) (c c' : Connections) :
  (forall r, center (f r) = center r) ->
  update k f c = Ok c' -> frame c' = frame c.
Proof.
  intros Hf H. apply update_ok in H. destruct H as (r & G & ->).
  apply (frame_set k (f r) r c G (Hf r)).
Qed.

Lemma connect_frame (p q : Point) (c c' : Connections) :
  connect p q c = Ok c' -> frame c' = frame c.
Proof.
  rewrite connect_update.
  destruct (update (id p) (addConnection q) c) as [c1 |] eqn:H1; simpl;
    [| discriminate].
  intros H2.
  rewrite (frame_update (id q) (addConnection p) c1 c' (fun r => eq_refl) H2).
  apply (frame_update (id p) (addConnection q) c c1 (fun r => eq_refl) H1).
Qed.

Lemma disconnect_frame (p q : Point) (c c' : Connections) :
  disconnect p q c = Ok c' -> frame c' = frame c.
Proof.
  rewrite disconnect_update.
  destruct (update (id p) (removeConnection q) c) as [c1 |] eqn:H1; simpl;
    [| discriminate].
  intros H2.
  rewrite (frame_update (id q) (removeConnection p) c1 c' (fun r => eq_refl) H2).
  apply (frame_update (id p) (removeConnection q) c c1 (fun r => eq_refl) H1).
Qed.

Lemma frame_points (c : Connections) : getPoints c = map snd (frame c).
Proof. unfold getPoints, frame. now rewrite map_map. Qed.

Lemma frame_keys (c : Connections) : keys c = map fst (frame c).
Proof. unfold keys, frame. now rewrite map_map. Qed.

(** X3.  A successful [connect] adds exactly two links to the map, also
    when the two points are already linked or are the same point; it adds
    or removes no key and leaves the centers, in their order, as they
    were. *)
Theorem connect_adds_two (p q : Point) (c c' : Connections) :
  connect p q c = Ok c' ->
  link_count c' = (link_count c + 2)%nat /\ keys c' = keys c /\
  getPoints c' = getPoints c.
Proof.
  intros H. split; [apply (connect_count _ _ _ _ H) |].
  split; [apply (connect_keys _ _ _ _ H) |].
  now rewrite !frame_points, (connect_frame _ _ _ _ H).
Qed.

Lemma connect_adds_two_witness :
  link_count one_edge = (link_count (emptyConnections [pt 0 0 0; pt 1 1 0]) + 2)%nat /\
  keys one_edge = keys (emptyConnections [pt 0 0 0; pt 1 1 0]) /\
  getPoints one_edge = getPoints (emptyConnections [pt 0 0 0; pt 1 1 0]).
Proof.
  apply (connect_adds_two (pt 0 0 0) (pt 1 1 0)). vm_compute. reflexivity.
Defined.

(** X4.  For two points with different coordinates, [connect(p, q, c)]
    returns exactly when [connect(q, p, c)] does, and the two calls then
    return the same map, which is the map they leave behind.  They throw
    together too, but a call that throws has already put its link into the
    ring of its first argument when that ring exists: with a ring for [p]
    and none for [q], [connect(p, q, c)] leaves the ring of [p] with a link
    to [q], and [connect(q, p, c)] leaves the map as it was. *)
Theorem connect_commutes (p q : Point) (c : Connections) :
  id p <> id q ->
  (forall c', connect p q c = Ok c' <-> connect q p c = Ok c') /\
  (forall c', connect p q c = Ok c' ->
              connect_store p q c = c' /\ connect_store q p c = c') /\
  (forall rp,
      get c (id p) = Some rp -> get c (id q) = None ->
      connect p q c = Err TypeError /\ connect q p c = Err TypeError /\
      connect_store p q c = set (id p) (addConnection q rp) c /\
      connect_store q p c = c).
Proof.
  intros N.
  assert (F : key_eqb (id p) (id q) = false) by (now apply key_eqb_neq).
  assert (F' : key_eqb (id q) (id p) = false)
    by (apply key_eqb_neq; congruence).
  assert (E : connect p q c = connect q p c).
  { unfold connect, getRing.
    destruct (get c (id p)) as [rp |] eqn:Gp, (get c (id q)) as [rq |] eqn:Gq;
      simpl; rewrite ?get_set, ?F, ?F', ?Gp, ?Gq; simpl; try reflexivity.
    f_equal. symmetry. apply set_swap; congruence. }
  split; [| split].
  - intros c'. now rewrite E.
  - intros c' H. pose proof H as H'. rewrite E in H'.
    unfold connect, getRing, connect_store in *.
    destruct (get c (id p)) as [rp |] eqn:Gp, (get c (id q)) as [rq |] eqn:Gq;
      simpl in *; rewrite ?get_set, ?F, ?F', ?Gp, ?Gq in *; simpl in *;
      try discriminate.
    injection H as <-. injection H' as H'. now split.
  - intros rp Gp Gq. unfold connect, getRing, connect_store.
    rewrite Gp, Gq. simpl. rewrite !get_set, F, Gq. simpl. now repeat split.
Qed.

Lemma connect_commutes_witness :
  id (pt 0 0 0) <> id (pt 1 1 0) /\
  (connect (pt 0 0 0) (pt 1 1 0) (emptyConnections [pt 0 0 0; pt 1 1 0])
   = Ok one_edge <->
   connect (pt 1 1 0) (pt 0 0 0) (emptyConnections [pt 0 0 0; pt 1 1 0])
   = Ok one_edge) /\
  connect (pt 0 0 0) (pt 1 1 0) (emptyConnections [pt 0 0 0]) = Err TypeError /\
  connect_store (pt 0 0 0) (pt 1 1 0) (emptyConnections [pt 0 0 0]) =
  [(id (pt 0 0 0), mkRing (pt 0 0 0) [mkLink (pt 1 1 0) 0])] /\
  connect_store (pt 1 1 0) (pt 0 0 0) (emptyConnections [pt 0 0 0]) =
  emptyConnections [pt 0 0 0].
Proof.
  assert (N : id (pt 0 0 0) <> id (pt 1 1 0)) by (vm_compute; discriminate).
  destruct (connect_commutes (pt 0 0 0) (pt 1 1 0)
              (emptyConnections [pt 0 0 0; pt 1 1 0]) N) as (A & _).
  destruct (connect_commutes (pt 0 0 0) (pt 1 1 0)
              (emptyConnections [pt 0 0 0]) N) as (_ & _ & B).
  destruct (B (mkRing (pt 0 0 0) []) eq_refl eq_refl) as (B1 & _ & B3 & B4).
  split; [exact N | split; [apply A |]].
  split; [exact B1 | split; [exact B3 | exact B4]].
Defined.

(** ** Taking a link out *)

Lemma filter_insert_out {A : Type} (key : A -> Q) (f : A -> bool) (a : A)
      (l : list A) :
  f a = false -> forallb f l = true -> filter f (insert key a l) = l.
Proof.
  intros Fa. induction l as [| b l IH]; simpl.
  - now rewrite Fa.
  - rewrite andb_true_iff. intros [Fb Fl].
    destruct (Qltb (key a) (key b)); simpl.
    + rewrite Fa, Fb. f_equal. clear IH.
      induction l as [| c l IH]; simpl in *; [reflexivity |].
      apply andb_true_iff in Fl. destruct Fl as [Fc Fl].
      rewrite Fc. f_equal. now apply IH.
    + rewrite Fb. f_equal. now apply IH.
Qed.

Lemma filter_all {A : Type} (f : A -> bool) (l : list A) :
  forallb f l = true -> filter f l = l.
Proof.
  induction l as [| b l IH]; simpl; [reflexivity |].
  rewrite andb_true_iff. intros [Fb Fl]. rewrite Fb. f_equal. now apply IH.
Qed.

Lemma sort_snoc {A : Type} (key : A -> Q) (l : list A) (a : A) :
  sort key (l ++ [a]) = insert key a (sort key l).
Proof. unfold sort. now rewrite fold_left_app. Qed.

Lemma remove_nothing (p : Point) (r : Ring) :
  no_link_to p r = true -> removeConnection p r = r.
Proof.
  intros H. unfold removeConnection. rewrite (filter_all _ _ H).
  now destruct r.
Qed.

Lemma remove_added (p : Point) (r : Ring) :
  sorted_ring r -> no_link_to p r = true ->
  removeConnection p (addConnection p r) = r.
Proof.
  intros S H. unfold removeConnection, addConnection. simpl.
  rewrite sort_snoc, (sort_id Link angle (links r) S).
  rewrite filter_insert_out; [now destruct r | | exact H].
  simpl. unfold same. now rewrite Nat.eqb_refl.
Qed.

Lemma disconnect_nothing (p q : Point) (c : Connections) (rp rq : Ring) :
  get c (id p) = Some rp -> get c (id q) = Some rq ->
  no_link_to q rp = true -> no_link_to p rq = true ->
  disconnect p q c = Ok c.
Proof.
  intros Gp Gq Hp Hq. unfold disconnect, getRing. rewrite Gp. simpl.
  rewrite (remove_nothing q rp Hp), (set_present _ _ _ Gp), Gq. simpl.
  now rewrite (remove_nothing p rq Hq), (set_present _ _ _ Gq).
Qed.

(** X5.  [disconnect] undoes [connect]: for two points with different
    coordinates whose rings are sorted and hold no link to the object
    given for the other end, connecting and then disconnecting them gives
    back the map as it was. *)
Theorem connect_disconnect (p q : Point) (c : Connections) (rp rq : Ring) :
  id p <> id q ->
  get c (id p) = Some rp -> get c (id q) = Some rq ->
  sorted_ring rp -> sorted_ring rq ->
  no_link_to q rp = true -> no_link_to p rq = true ->
  (c1 <- connect p q c ;; disconnect p q c1) = Ok c.
Proof.
  intros N Gp Gq Sp Sq Hp Hq.
  assert (F : key_eqb (id p) (id q) = false) by (now apply key_eqb_neq).
  assert (F' : key_eqb (id q) (id p) = false)
    by (apply key_eqb_neq; congruence).
  unfold connect, disconnect, getRing. rewrite Gp. simpl.
  rewrite get_set, F, Gq. simpl.
  rewrite !get_set, F', key_eqb_refl. simpl.
  rewrite !get_set, F, key_eqb_refl. simpl.
  rewrite (remove_added q rp Sp Hp), (remove_added p rq Sq Hq).
  f_equal.
  rewrite (set_swap (id p) (id q)); try assumption;
    try (rewrite get_set_same; discriminate);
    try (rewrite get_set, F, Gq; discriminate).
  rewrite set_twice, set_twice.
  now rewrite (set_present _ _ _ Gp), (set_present _ _ _ Gq).
Qed.

Lemma connect_disconnect_witness :
  (c1 <- connect (pt 0 0 0) (pt 1 1 0) (emptyConnections [pt 0 0 0; pt 1 1 0]) ;;
   disconnect (pt 0 0 0) (pt 1 1 0) c1)
  = Ok (emptyConnections [pt 0 0 0; pt 1 1 0]).
Proof.
  apply (connect_disconnect (pt 0 0 0) (pt 1 1 0) _
                            (mkRing (pt 0 0 0) []) (mkRing (pt 1 1 0) []));
    try (vm_compute; reflexivity); try (vm_compute; discriminate);
    constructor.
Defined.

(** X6.  [disconnect] goes by object, not by coordinates: when the ring of
    each point holds no link whose point is the very object given for the
    other end, the map comes back unchanged, also when the rings do hold
    links to points with the same coordinates. *)
Theorem disconnect_by_object (p q : Point) (c : Connections) (rp rq : Ring) :
  get c (id p) = Some rp -> get c (id q) = Some rq ->
  no_link_to q rp = true -> no_link_to p rq = true ->
  disconnect p q c = Ok c.
Proof. apply disconnect_nothing. Qed.

Lemma disconnect_by_object_witness :
  linked one_edge (pt 7 0 0) (pt 8 1 0) /\
  disconnect (pt 7 0 0) (pt 8 1 0) one_edge = Ok one_edge.
Proof.
  split.
  - exists (mkRing (pt 0 0 0) [mkLink (pt 1 1 0) 0]), (mkLink (pt 1 1 0) 0).
    split; [vm_compute; reflexivity |]. split; [now left |].
    vm_compute. reflexivity.
  - apply (disconnect_by_object (pt 7 0 0) (pt 8 1 0) one_edge
                                (mkRing (pt 0 0 0) [mkLink (pt 1 1 0) 0])
                                (mkRing (pt 1 1 0) [mkLink (pt 0 0 0) 2]));
      vm_compute; reflexivity.
Defined.

(** X7.  [disconnect] twice is [disconnect] once: applied to its own
    result, with the same two points, it returns that result unchanged. *)
Theorem disconnect_again (p q : Point) (c c' : Connections) :
  disconnect p q c = Ok c' -> disconnect p q c' = Ok c'.
Proof.
  intros H.
  assert (G : forall t, get c t <> None -> get c' t <> None).
  { intros t Ht. apply get_keys. rewrite (disconnect_keys _ _ _ _ H).
    now apply get_keys. }
  assert (Gp : get c (id p) <> None /\ get c (id q) <> None).
  { pose proof (proj2 (proj1 (proj2 (ring_errors p q c)))) as M.
    rewrite H in M.
    split; intros E; (assert (Ok c' = Err TypeError) by (apply M; auto));
      discriminate. }
  destruct Gp as [Gp Gq]. apply G in Gp. apply G in Gq.
  destruct (get c' (id p)) as [rp |] eqn:Ep; [| now elim Gp].
  destruct (get c' (id q)) as [rq |] eqn:Eq; [| now elim Gq].
  apply (disconnect_nothing p q c' rp rq Ep Eq).
  - unfold no_link_to. apply forallb_forall. intros l Hl.
    apply negb_true_iff, not_true_iff_false. rewrite same_oid. intros E.
    assert (Hh : has_link c' (id p) l) by (now exists rp).
    apply (disconnect_has_link _ _ _ _ _ _ H) in Hh. tauto.
  - unfold no_link_to. apply forallb_forall. intros l Hl.
    apply negb_true_iff, not_true_iff_false. rewrite same_oid. intros E.
    assert (Hh : has_link c' (id q) l) by (now exists rq).
    apply (disconnect_has_link _ _ _ _ _ _ H) in Hh. tauto.
Qed.

Lemma disconnect_again_witness :
  disconnect (pt 0 0 0) (pt 1 1 0) (emptyConnections [pt 0 0 0; pt 1 1 0])
  = Ok (emptyConnections [pt 0 0 0; pt 1 1 0]).
Proof.
  apply (disconnect_again (pt 0 0 0) (pt 1 1 0) one_edge).
  vm_compute. reflexivity.
Defined.

(** X8.  [mergeConnections(c, d)] reads like [d] where [d] has the key and
    like [c] elsewhere; when the two maps share no key its entries are those
    of [c] followed by those of [d], in their order. *)
Theorem merge_lookup (c d : Connections) :
  NoDup (keys c) -> NoDup (keys d) ->
  (forall k, get (mergeConnections c d) k =
             match get d k with Some r => Some r | None => get c k end) /\
  ((forall k, In k (keys c) -> ~ In k (keys d)) ->
   mergeConnections c d = c ++ d).
Proof.
  intros Nc Nd. split.
  - intros k. now apply get_merge.
  - intros Dj. apply merge_disjoint. apply NoDup_app; assumption.
Qed.

Lemma merge_lookup_witness :
  (forall k, get (mergeConnections (emptyConnections [pt 0 0 0])
                                   (emptyConnections [pt 1 1 0])) k =
             match get (emptyConnections [pt 1 1 0]) k with
             | Some r => Some r
             | None => get (emptyConnections [pt 0 0 0]) k
             end) /\
  mergeConnections (emptyConnections [pt 0 0 0]) (emptyConnections [pt 1 1 0])
  = emptyConnections [pt 0 0 0] ++ emptyConnections [pt 1 1 0].
Proof.
  destruct (merge_lookup (emptyConnections [pt 0 0 0])
                         (emptyConnections [pt 1 1 0])
                         (keys_empty_nodup _) (keys_empty_nodup _)) as [H1 H2].
  split; [exact H1 |]. apply H2. vm_compute. intros k [<- | []] [E | []].
  discriminate.
Defined.

(** X9.  [addPoint] for a point that has no ring yet appends an empty ring
    for it; for a point that has one it puts an empty ring in its place,
    dropping the links, and adds no key.  No other ring changes. *)
Theorem addPoint_effect (p : Point) (c : Connections) :
  (get c (id p) = None -> addPoint p c = c ++ [(id p, mkRing p [])]) /\
  (get c (id p) <> None -> keys (addPoint p c) = keys c) /\
  get (addPoint p c) (id p) = Some (mkRing p []) /\
  (forall k, k <> id p -> get (addPoint p c) k = get c k).
Proof.
  unfold addPoint. split; [apply set_absent |]. split.
  - intros H. destruct (get c (id p)) as [r |] eqn:G; [| now elim H].
    apply (keys_set_present _ _ _ _ G).
  - split; [apply get_set_same |]. intros k N. apply get_set_other. congruence.
Qed.

Lemma addPoint_effect_witness :
  addPoint (pt 2 5 5) one_edge = one_edge ++ [(id (pt 2 5 5), mkRing (pt 2 5 5) [])] /\
  keys (addPoint (pt 0 0 0) one_edge) = keys one_edge.
Proof.
  split.
  - apply (proj1 (addPoint_effect (pt 2 5 5) one_edge)). vm_compute. reflexivity.
  - apply (proj1 (proj2 (addPoint_effect (pt 0 0 0) one_edge))).
    vm_compute. discriminate.
Defined.

Lemma lookup_in_ring (ref : Reference) (ring : Ring) (d : Z) :
  links ring <> [] ->
  exists l, In l (links ring) /\ nextConnection ref ring d = Ok (point l).
Proof.
  intros N. destruct ref; unfold nextConnection; now apply next_in_ring.
Qed.

(** X10.  After [connect(p, q, c)] on a map where [p] had no link, every
    lookup in the ring of [p], from any angle or point and in any
    direction, returns [q]. *)
Theorem connect_then_lookup (p q : Point) (c : Connections) (rp : Ring) :
  get c (id p) = Some rp -> links rp = [] -> id p <> id q ->
  get c (id q) <> None ->
  exists c' r', connect p q c = Ok c' /\ get c' (id p) = Some r' /\
                forall ref direction, nextConnection ref r' direction = Ok q.
Proof.
  intros Gp E N Gq. destruct (get c (id q)) as [rq |] eqn:Gq';
    [| now elim Gq].
  assert (F : key_eqb (id p) (id q) = false) by (now apply key_eqb_neq).
  assert (F' : key_eqb (id q) (id p) = false)
    by (apply key_eqb_neq; congruence).
  exists (set (id q) (addConnection p rq) (set (id p) (addConnection q rp) c)),
         (addConnection q rp).
  split; [| split].
  - unfold connect, getRing. rewrite Gp. simpl. rewrite get_set, F, Gq'.
    reflexivity.
  - now rewrite get_set, F', get_set_same.
  - intros ref d.
    assert (L : links (addConnection q rp)
                = [mkLink q (angle_from (center rp) q)]).
    { unfold addConnection. simpl. now rewrite E. }
    destruct (lookup_in_ring ref (addConnection q rp) d) as (l & Hl & H).
    + rewrite L. discriminate.
    + rewrite L in Hl. destruct Hl as [<- | []]. exact H.
Qed.

Lemma connect_then_lookup_witness :
  exists c' r',
    connect (pt 0 0 0) (pt 1 1 0) (emptyConnections [pt 0 0 0; pt 1 1 0])
    = Ok c' /\
    get c' (id (pt 0 0 0)) = Some r' /\
    forall ref direction, nextConnection ref r' direction = Ok (pt 1 1 0).
Proof.
  apply (connect_then_lookup (pt 0 0 0) (pt 1 1 0) _ (mkRing (pt 0 0 0) []));
    try (vm_compute; reflexivity); vm_compute; discriminate.
Defined.

(** ** Lookups *)

Lemma scan_direction (a : Q) (d d' : Z) (ls : list Link) :
  (d <=? 0)%Z = (d' <=? 0)%Z -> scan a d ls = scan a d' ls.
Proof.
  intros E. induction ls as [| l ls IH]; simpl; [reflexivity |].
  now rewrite E, IH.
Qed.

(** X11.  A lookup depends on its direction only through the sign: every
    positive direction acts as 1, and every other one, 0 included, as
    -1. *)
Theorem lookup_direction (ref : Reference) (ring : Ring) (direction : Z) :
  nextConnection ref ring direction =
  nextConnection ref ring (if (0 <? direction)%Z then 1 else -1)%Z.
Proof.
  assert (G : forall a,
             nextConnectionFromAngle a ring direction =
             nextConnectionFromAngle a ring
               (if (0 <? direction)%Z then 1 else -1)%Z).
  { intros a. unfold nextConnectionFromAngle.
    destruct (Z.ltb_spec 0 direction) as [P | P].
    - rewrite (scan_direction a direction 1); [reflexivity |].
      destruct (Z.leb_spec direction 0); [lia | reflexivity].
    - rewrite (scan_direction a direction (-1)); [reflexivity |].
      destruct (Z.leb_spec direction 0); [reflexivity | lia]. }
  destruct ref; simpl; apply G.
Qed.

Lemma angle_of_link (ring : Ring) (l : Link) :
  ring_ok ring -> In l (links ring) ->
  nextConnection (FromPoint (point l)) ring =
  nextConnectionFromAngle (angle l) ring.
Proof.
  intros (_ & A & _) Hl. unfold angles_ok in A. rewrite Forall_forall in A.
  unfold nextConnection. now rewrite <- (A l Hl).
Qed.


(** X12.  On a ring that is sorted, with the angles of its links as
    [addConnection] computes them and no two of them equal, going to the
    next link and then to the previous one comes back: the lookup with
    direction 1 from the point of a link gives the point of a link from
    which the lookup with direction -1 gives the first point again. *)
Theorem next_then_previous (ring : Ring) (l : Link) :
  ring_ok ring -> distinct_angles ring -> In l (links ring) ->
  exists l', In l' (links ring) /\
             nextConnection (FromPoint (point l)) ring 1 = Ok (point l') /\
             nextConnection (FromPoint (point l')) ring (-1) = Ok (point l).
Proof.
  intros Rk D Hl. pose proof Rk as (S & _).
  assert (N : links ring <> []) by (intros E; rewrite E in Hl; destruct Hl).
  rewrite (angle_of_link ring l Rk Hl).
  destruct (next_after_spec (angle l) ring N S) as (t & H1 & Nx).
  assert (G : exists l', In l' (links ring) /\ point l' = t /\
                         ((angle l < angle l' /\
                           forall l'', In l'' (links ring) ->
                                       angle l < angle l'' ->
                                       angle l' <= angle l'') \/
                          ((forall l'', In l'' (links ring) ->
                                        ~ angle l < angle l'') /\
                           hd_error (links ring) = Some l'))).
  { destruct Nx as [(l' & Hl' & E & Lt & Min) | (None & l' & Hd & E)].
    - exists l'. repeat split; auto.
    - exists l'. split; [| split; [exact E | right; now split]].
      destruct (links ring); [discriminate |]. injection Hd as ->. now left. }
  destruct G as (l' & Hl' & <- & Cases). exists l'.
  split; [exact Hl' |]. split; [exact H1 |].
  rewrite (angle_of_link ring l' Rk Hl').
  destruct (next_before_spec (angle l') ring N S) as (t2 & H2 & Nb).
  rewrite H2. f_equal.
  destruct Cases as [[Lt Min] | [None Hd]].
  - destruct Nb as [(l2 & Hl2 & <- & Lt2 & Max) | (None & _)].
    + f_equal. apply D; auto. pose proof (Max l Hl Lt) as Le.
      destruct (Qlt_le_dec (angle l) (angle l2)) as [Lt3 | Le3].
      * pose proof (Min l2 Hl2 Lt3). lra.
      * lra.
    + elim (None l Hl Lt).
  - pose proof (sorted_first _ _ S Hd) as First.
    destruct Nb as [(l2 & Hl2 & _ & Lt2 & _) | (_ & l2 & Hd2 & <-)].
    + pose proof (First l2 Hl2). lra.
    + f_equal. assert (Hl2 : In l2 (links ring)).
      { apply in_rev. destruct (rev (links ring)); [discriminate |].
        injection Hd2 as ->. now left. }
      apply D; auto. pose proof (sorted_last _ _ S Hd2 l Hl) as Le.
      pose proof (None l2 Hl2) as Nl. lra.
Qed.

Lemma ring_ok_empty (p : Point) : ring_ok (mkRing p []).
Proof. repeat split; constructor. Qed.

Lemma next_then_previous_witness :
  exists l',
    In l' (links (addConnection (pt 2 0 1)
                                (addConnection (pt 1 1 0) (mkRing (pt 0 0 0) [])))) /\
    nextConnection (FromPoint (pt 1 1 0))
                   (addConnection (pt 2 0 1)
                                  (addConnection (pt 1 1 0) (mkRing (pt 0 0 0) [])))
                   1 = Ok (point l') /\
    nextConnection (FromPoint (point l'))
                   (addConnection (pt 2 0 1)
                                  (addConnection (pt 1 1 0) (mkRing (pt 0 0 0) [])))
                   (-1) = Ok (pt 1 1 0).
Proof.
  apply (next_then_previous
           (addConnection (pt 2 0 1)
                          (addConnection (pt 1 1 0) (mkRing (pt 0 0 0) [])))
           (mkLink (pt 1 1 0) 0)).
  - apply ring_ok_add, ring_ok_add, ring_ok_empty.
  - intros l l' Hl Hl' E. vm_compute in Hl, Hl'.
    destruct Hl as [<- | [<- | []]], Hl' as [<- | [<- | []]];
      try reflexivity; vm_compute in E; discriminate.
  - vm_compute. now left.
Defined.

(** ** The predicates *)

Lemma includes_swap (a b p : Point) : includes [a; b] p = includes [b; a] p.
Proof. unfold includes. simpl. rewrite !orb_false_r. apply orb_comm. Qed.

Lemma canonical_swap (a b : Point) :
  ~ x a == x b -> canonical b a = canonical a b.
Proof.
  intros N. unfold canonical.
  destruct (Qltb (x b) (x a)) eqn:E, (Qltb (x a) (x b)) eqn:E'; try reflexivity.
  - apply Qltb_lt in E. apply Qltb_lt in E'. lra.
  - apply Qltb_ge in E. apply Qltb_ge in E'. elim N. lra.
Qed.

(** X13.  [belowLine] and [aboveLine] are never both true.  For a line
    whose two ends have different abscissas the order in which the ends are
    given does not matter.  For a line given from its left end to its right
    end and a point that is neither of its ends, [aboveLine] is the test
    [ccw] of the two ends and the point. *)
Theorem line_sides (p a b : Point) :
  belowLine p (a, b) && aboveLine p (a, b) = false /\
  (~ x a == x b ->
   belowLine p (a, b) = belowLine p (b, a) /\
   aboveLine p (a, b) = aboveLine p (b, a)) /\
  (x a < x b -> includes [a; b] p = false -> aboveLine p (a, b) = ccw a b p).
Proof.
  rewrite !belowLine_eq, !aboveLine_eq, (includes_swap b a).
  split; [| split].
  - destruct (includes [a; b] p); [reflexivity |].
    destruct (Qltb (orientation (fst (canonical a b)) (snd (canonical a b)) p) 0)
      eqn:E; [| reflexivity].
    apply Qltb_lt in E. simpl. apply Qltb_ge. lra.
  - intros N. now rewrite (canonical_swap a b N).
  - intros L I. rewrite I. unfold canonical.
    rewrite (proj2 (Qltb_ge (x b) (x a))) by lra. reflexivity.
Qed.

Lemma line_sides_witness :
  (belowLine (pt 2 1 5) (pt 0 0 0, pt 1 3 1) = belowLine (pt 2 1 5) (pt 1 3 1, pt 0 0 0) /\
   aboveLine (pt 2 1 5) (pt 0 0 0, pt 1 3 1) = aboveLine (pt 2 1 5) (pt 1 3 1, pt 0 0 0)) /\
  aboveLine (pt 2 1 5) (pt 0 0 0, pt 1 3 1) = ccw (pt 0 0 0) (pt 1 3 1) (pt 2 1 5).
Proof.
  split.
  - apply (proj1 (proj2 (line_sides (pt 2 1 5) (pt 0 0 0) (pt 1 3 1)))).
    vm_compute. discriminate.
  - apply (proj2 (proj2 (line_sides (pt 2 1 5) (pt 0 0 0) (pt 1 3 1))));
      vm_compute; reflexivity.
Defined.

(** ** What the builder keeps *)

Section Builder.

Variable P : Connections -> Prop.
Hypothesis Pconnect :
  forall p q c c', P c -> connect p q c = Ok c' -> P c'.
Hypothesis Pdisconnect :
  forall p q c c', P c -> disconnect p q c = Ok c' -> P c'.

Lemma refine_keeps (fuel : nat) :
  forall c pivot d left right cand nc c' cand',
    P c -> refine fuel c pivot d left right cand nc = Ok (c', cand') -> P c'.
Proof.
  induction fuel as [| fuel IH];
    intros c pivot d left right cand nc c' cand' H; simpl;
    destruct nc as [n |]; try (intros [= <- <-]; exact H);
    destruct (inCircle n (left, right, cand));
    try discriminate; try (intros [= <- <-]; exact H).
  intros E. bind_inv E. bind_inv E. bind_inv E.
  apply (IH _ _ _ _ _ _ _ _ _ (Pdisconnect _ _ _ _ H Hv) E).
Qed.

Lemma findCandidate_keeps (fuel : nat) (c : Connections) (pivot other : Point)
      (d : Z) (left right : Point) (c' : Connections) (o : option Point) :
  P c -> findCandidate fuel c pivot other d left right = Ok (c', o) -> P c'.
Proof.
  intros H E. unfold findCandidate in E. bind_inv E. bind_inv E.
  destruct v0 as [cand |].
  - bind_inv E. bind_inv E. destruct v1 as [c1 cand1]. simpl in E.
    injection E as <- <-. apply (refine_keeps fuel _ _ _ _ _ _ _ _ _ H Hv2).
  - now injection E as <- <-.
Qed.

Lemma mergeLoop_keeps (fuel : nat) :
  forall c left right c', P c -> mergeLoop fuel c left right = Ok c' -> P c'.
Proof.
  induction fuel as [| fuel IH]; intros c left right c' H; simpl;
    [discriminate |].
  intros E. bind_inv E. destruct v as [c1 lc].
  bind_inv E. destruct v as [c2 rc].
  pose proof (findCandidate_keeps fuel c left right 1 left right c1 lc H Hv)
    as H1.
  pose proof (findCandidate_keeps fuel c1 right left (-1) left right c2 rc H1 Hv0)
    as H2.
  destruct lc as [lc |], rc as [rc |].
  - destruct (inCircle rc (lc, left, right)); bind_inv E;
      apply (IH _ _ _ _ (Pconnect _ _ _ _ H2 Hv1) E).
  - bind_inv E. apply (IH _ _ _ _ (Pconnect _ _ _ _ H2 Hv1) E).
  - bind_inv E. apply (IH _ _ _ _ (Pconnect _ _ _ _ H2 Hv1) E).
  - now injection E as <-.
Qed.

Lemma mergeHalves_keeps (fuel : nat) (L R : list Point)
      (cl cr c : Connections) :
  P (mergeConnections cl cr) -> mergeHalves fuel L R cl cr = Ok c -> P c.
Proof.
  intros H E. unfold mergeHalves in E.
  bind_inv E. bind_inv E. bind_inv E. bind_inv E. bind_inv E. bind_inv E.
  bind_inv E. bind_inv E.
  apply (mergeLoop_keeps fuel _ _ _ _ (Pconnect _ _ _ _ H Hv6) E).
Qed.

End Builder.

Lemma frame_empty (pts : list Point) :
  NoDup (map id pts) ->
  frame (emptyConnections pts) = map (fun p => (id p, p)) pts.
Proof.
  intros N. rewrite (empty_list pts N). unfold frame. now rewrite map_map.
Qed.

Lemma frame_app (c d : Connections) : frame (c ++ d) = frame c ++ frame d.
Proof. unfold frame. apply map_app. Qed.

Lemma ids_of_frame (l : list Point) :
  map fst (map (fun p : Point => (id p, p)) l) = map id l.
Proof. now rewrite map_map. Qed.

Lemma delaunay_frame (fuel : nat) :
  forall pts c,
    NoDup (map id pts) -> snd (delaunay fuel pts) = Ok c ->
    frame c = map (fun p => (id p, p)) (sort x pts).
Proof.
  induction fuel as [| fuel IH]; intros pts c Hn H;
    (destruct (Nat.lt_ge_cases (length pts) 2) as [Hs | Hs];
     [rewrite delaunay_short in H by exact Hs; discriminate |]);
    rewrite delaunay_long in H by exact Hs;
    cbv zeta in H;
    set (mid := (length (sort x pts) / 2)%nat) in *;
    clearbody mid;
    pose proof (sort_perm Point x pts) as Pm;
    pose proof (sort_length Point x pts) as Hlen;
    pose proof (sort_sorted Point x pts) as Hsorted;
    (assert (Hn' : NoDup (map id (sort x pts)))
      by (apply (Permutation_NoDup (Permutation_map id (Permutation_sym Pm)) Hn)));
    pose proof (frame_empty (sort x pts) Hn') as F0;
    simpl snd in H;
    destruct (sort x pts) as [| p [| q [| r [| t rest]]]] eqn:E;
    try (simpl in Hlen; lia); try discriminate.
  - now rewrite (connect_frame _ _ _ _ H).
  - bind_inv H. bind_inv H.
    now rewrite (connect_frame _ _ _ _ H), (connect_frame _ _ _ _ Hv0),
      (connect_frame _ _ _ _ Hv).
  - now rewrite (connect_frame _ _ _ _ H).
  - bind_inv H. bind_inv H.
    now rewrite (connect_frame _ _ _ _ H), (connect_frame _ _ _ _ Hv0),
      (connect_frame _ _ _ _ Hv).
  - bind_inv H. bind_inv H.
    set (s := p :: q :: r :: t :: rest) in *.
    pose proof (firstn_skipn mid s) as Es.
    rewrite <- Es in Hn', Hsorted. rewrite map_app in Hn'.
    destruct (nodup_app_disjoint _ _ Hn') as (N1 & N2 & _).
    destruct (sorted_x_parts _ _ Hsorted) as [S1 S2].
    pose proof (IH _ _ N1 Hv) as F1. pose proof (IH _ _ N2 Hv0) as F2.
    rewrite (sort_id Point x _ S1) in F1. rewrite (sort_id Point x _ S2) in F2.
    refine (mergeHalves_keeps
              (fun c => frame c = map (fun p => (id p, p)) s) _ _ fuel
              (firstn mid s) (skipn mid s) v v0 c _ H).
    + intros a b c0 c1 Hc Hc1. now rewrite (connect_frame _ _ _ _ Hc1).
    + intros a b c0 c1 Hc Hc1. now rewrite (disconnect_frame _ _ _ _ Hc1).
    + rewrite merge_disjoint.
      * rewrite frame_app, F1, F2, <- map_app. now rewrite Es.
      * now rewrite !frame_keys, F1, F2, !ids_of_frame.
Qed.

(** X18.  The map that [delaunay] returns lists the points in ascending
    order of x: its keys are those of the sorted input, in that order, and
    [getPoints] gives back the sorted input, object by object.  No two
    points of the input may have the same coordinates. *)
Theorem delaunay_points (fuel : nat) (pts : list Point) (c : Connections) :
  NoDup (map id pts) -> snd (delaunay fuel pts) = Ok c ->
  getPoints c = sort x pts /\ keys c = map id (sort x pts).
Proof.
  intros N H. pose proof (delaunay_frame fuel pts c N H) as F.
  rewrite frame_points, frame_keys, F, !map_map. simpl.
  split; [apply map_id | reflexivity].
Qed.

Lemma delaunay_points_witness :
  getPoints sample_result = sort x sample /\
  keys sample_result = map id (sort x sample).
Proof.
  apply (delaunay_points 5 sample sample_result sample_keys).
  vm_compute. reflexivity.
Defined.

Lemma count_empty (pts : list Point) :
  NoDup (map id pts) -> link_count (emptyConnections pts) = 0%nat.
Proof.
  intros N. rewrite (empty_list pts N). unfold link_count.
  clear N. induction pts as [| p pts IH]; simpl; [reflexivity | exact IH].
Qed.

Lemma both_linked (p q : Point) (c c' : Connections) :
  connect p q c = Ok c' ->
  linked c' p q /\ linked c' q p /\ forall a b, linked c a b -> linked c' a b.
Proof. apply connect_both. Qed.

(** X19.  For two points [delaunay] returns the single edge between them,
    and for three points the three edges of their triangle, whatever the
    position of the points (also when the three are on a line), for any
    two or three points of different coordinates: a map with 2, resp. 6,
    links, in which every two distinct points of the input are linked. *)
Theorem delaunay_small (fuel : nat) (pts : list Point) :
  NoDup (map id pts) -> (length pts = 2 \/ length pts = 3)%nat ->
  exists c, snd (delaunay fuel pts) = Ok c /\
            (forall a b, In a pts -> In b pts -> a <> b -> linked c a b) /\
            link_count c = (length pts * (length pts - 1))%nat.
Proof.
  intros Hn Len.
  assert (Hs : (2 <= length pts)%nat) by lia.
  rewrite delaunay_long by exact Hs. cbv zeta. simpl snd.
  pose proof (sort_perm Point x pts) as Pm.
  pose proof (sort_length Point x pts) as Hlen.
  assert (I' : incl pts (sort x pts))
    by (intros a; apply Permutation_in, Permutation_sym, Pm).
  assert (Hn' : NoDup (map id (sort x pts)))
    by (apply (Permutation_NoDup (Permutation_map id (Permutation_sym Pm)) Hn)).
  pose proof (tidy_empty (sort x pts)) as T0.
  pose proof (count_empty (sort x pts) Hn') as K0.
  destruct (sort x pts) as [| p [| q [| r [| t rest]]]] eqn:E;
    try (simpl in Hlen; lia).
  - pose proof T0 as (C0 & _).
    destruct (connect_total _ _ p q C0 (or_introl eq_refl)
                            (or_intror (or_introl eq_refl))) as (c & H).
    exists c. split; [exact H |].
    destruct (connect_both p q _ c H) as (L1 & L2 & _). split.
    + intros a b Ha Hb N. apply I' in Ha. apply I' in Hb.
      destruct Ha as [<- | [<- | []]], Hb as [<- | [<- | []]];
        try assumption; now elim N.
    + rewrite (connect_count _ _ _ _ H), K0. simpl in Hlen. rewrite <- Hlen.
      reflexivity.
  - destruct (distinct_ids_3 p q r Hn') as (Npq & Nqr & Nrp).
    pose proof T0 as (C0 & _).
    destruct (connect_total _ _ p q C0 (or_introl eq_refl)
                            (or_intror (or_introl eq_refl))) as (c1 & H1).
    pose proof (tidy_connect _ p q _ c1 Npq T0 H1) as T1.
    pose proof T1 as (C1 & _).
    destruct (connect_total _ _ q r C1 (or_intror (or_introl eq_refl))
                            (or_intror (or_intror (or_introl eq_refl))))
      as (c2 & H2).
    pose proof (tidy_connect _ q r _ c2 Nqr T1 H2) as T2.
    pose proof T2 as (C2 & _).
    destruct (connect_total _ _ r p C2
                            (or_intror (or_intror (or_introl eq_refl)))
                            (or_introl eq_refl)) as (c3 & H3).
    exists c3. rewrite H1. simpl. rewrite H2. simpl.
    split; [exact H3 |].
    destruct (connect_both p q _ c1 H1) as (A1 & A2 & _).
    destruct (connect_both q r _ c2 H2) as (B1 & B2 & K2).
    destruct (connect_both r p _ c3 H3) as (D1 & D2 & K3).
    split.
    + intros a b Ha Hb N. apply I' in Ha. apply I' in Hb.
      destruct Ha as [<- | [<- | [<- | []]]], Hb as [<- | [<- | [<- | []]]];
        try assumption; try (now elim N); auto.
    + rewrite (connect_count _ _ _ _ H3), (connect_count _ _ _ _ H2),
        (connect_count _ _ _ _ H1), K0. simpl in Hlen. rewrite <- Hlen.
      reflexivity.
Qed.

Lemma delaunay_small_witness :
  exists c, snd (delaunay 0 [pt 0 0 0; pt 1 1 1; pt 2 2 2]) = Ok c /\
            (forall a b, In a [pt 0 0 0; pt 1 1 1; pt 2 2 2] ->
                         In b [pt 0 0 0; pt 1 1 1; pt 2 2 2] ->
                         a <> b -> linked c a b) /\
            link_count c = 6%nat.
Proof.
  apply (delaunay_small 0 [pt 0 0 0; pt 1 1 1; pt 2 2 2]).
  - repeat constructor; simpl; intuition discriminate.
  - right. reflexivity.
Defined.

Lemma sorted_perm_eq (l1 : list Point) :
  forall l2,
    StronglySorted (fun p q => x p <= x q) l1 ->
    StronglySorted (fun p q => x p <= x q) l2 ->
    Permutation l1 l2 -> x_distinct l1 -> l1 = l2.
Proof.
  induction l1 as [| a t1 IH]; intros l2 S1 S2 Pm D.
  - apply Permutation_nil in Pm. now subst.
  - destruct l2 as [| b t2];
      [apply Permutation_sym, Permutation_nil in Pm; discriminate |].
    destruct (sorted_x_tail a t1 S1) as [S1' A1].
    destruct (sorted_x_tail b t2 S2) as [S2' A2].
    assert (E : a = b).
    { assert (Hb : In b (a :: t1))
        by (apply (Permutation_in _ (Permutation_sym Pm)); now left).
      assert (Ha : In a (b :: t2))
        by (apply (Permutation_in _ Pm); now left).
      destruct Hb as [Hb | Hb]; [exact Hb |].
      destruct Ha as [Ha | Ha]; [now symmetry |].
      apply D; [now left | now right |].
      pose proof (A1 b Hb). pose proof (A2 a Ha). lra. }
    subst b. f_equal. apply IH; try assumption.
    + apply (Permutation_cons_inv Pm).
    + intros u v Hu Hv. apply D; now right.
Qed.

(** X20.  The order in which the points are given does not matter: for
    points of pairwise different abscissas, two arrays that hold the same
    points give the same outcome, and leave the arrays with the same
    content. *)
Theorem delaunay_any_order (fuel : nat) (pts pts' : list Point) :
  Permutation pts pts' -> x_distinct pts ->
  delaunay fuel pts = delaunay fuel pts'.
Proof.
  intros Pm D. pose proof (Permutation_length Pm) as Len.
  destruct (Nat.lt_ge_cases (length pts) 2) as [Hs | Hs].
  - assert (E : pts = pts').
    { destruct pts as [| a [| b pts]]; try (simpl in Hs; lia).
      - apply Permutation_nil in Pm. now subst.
      - apply Permutation_length_1_inv in Pm. now subst. }
    now subst.
  - assert (E : sort x pts = sort x pts').
    { apply sorted_perm_eq.
      - apply sort_sorted.
      - apply sort_sorted.
      - rewrite (sort_perm Point x pts), (sort_perm Point x pts'). exact Pm.
      - apply (x_distinct_incl _ pts); [| exact D].
        intros a. apply Permutation_in, sort_perm. }
    rewrite !delaunay_long by lia. now rewrite E.
Qed.

Lemma delaunay_any_order_witness :
  delaunay 5 sample = delaunay 5 (rev sample).
Proof.
  apply (delaunay_any_order 5 sample (rev sample)).
  - apply Permutation_rev.
  - apply general_position_x. vm_compute. reflexivity.
Defined.

(** ** Triangles *)

Lemma rightTriangle_third (c : Connections) (p q : Point) (T : Triangle) :
  rightTriangle c p q = Ok (Some T) ->
  exists r, T = (q, p, r) /\ triangle_in c (q, p, r).
Proof.
  intros H. unfold rightTriangle in H.
  bind_inv H. bind_inv H. bind_inv H. bind_inv H.
  destruct (same v0 v2) eqn:E; simpl in H; [| discriminate].
  injection H as <-.
  apply getRing_ok in Hv, Hv1.
  apply nextConnection_ok_in in Hv0, Hv2.
  destruct Hv0 as (l & Hl & El). destruct Hv2 as (l' & Hl' & El').
  exists v0. split; [reflexivity |]. split.
  - exists l. split; [now exists v | exact El].
  - exists l'. split; [now exists v1 |].
    rewrite El'. symmetry. now apply same_oid.
Qed.

(** X21.  A triangle that [rightTriangle(c, p, q)] returns is [q], [p] and
    a third point that is the point of a link in the ring of [q] and, as
    the same object, the point of a link in the ring of [p]: a neighbour
    of both. *)
Theorem rightTriangle_neighbour (c : Connections) (p q : Point) (T : Triangle) :
  rightTriangle c p q = Ok (Some T) ->
  exists r l l',
    T = (q, p, r) /\
    has_link c (id q) l /\ point l = r /\
    has_link c (id p) l' /\ oid (point l') = oid r.
Proof.
  intros H. apply rightTriangle_third in H.
  destruct H as (r & -> & (l & Hl & El) & (l' & Hl' & El')).
  now exists r, l, l'.
Qed.

Lemma rightTriangle_neighbour_witness :
  exists r l l',
    (pt 1 1 0, pt 0 0 0, pt 2 0 1) = (pt 1 1 0, pt 0 0 0, r) /\
    has_link triangle_result (id (pt 1 1 0)) l /\ point l = r /\
    has_link triangle_result (id (pt 0 0 0)) l' /\ oid (point l') = oid r.
Proof.
  apply (rightTriangle_neighbour triangle_result (pt 0 0 0) (pt 1 1 0)).
  vm_compute. reflexivity.
Defined.

(** ** The table of permutations *)

Lemma power_alt (k : nat) : (-1) ^ Z.of_nat k == alt k.
Proof.
  induction k as [| k IH]; [reflexivity |].
  rewrite Nat2Z.inj_succ, <- Z.add_1_r, Qpower_plus by discriminate.
  rewrite IH. unfold alt. rewrite Nat.even_succ, <- Nat.negb_even.
  destruct (Nat.even k); simpl; ring.
Qed.

Lemma alt_succ (k : nat) : alt (S k) == - alt k.
Proof.
  unfold alt. rewrite Nat.even_succ, <- Nat.negb_even.
  destruct (Nat.even k); simpl; ring.
Qed.

Lemma alt_add (a b : nat) : alt (a + b) == alt a * alt b.
Proof.
  induction a as [| a IH]; simpl plus.
  - unfold alt at 2. simpl. ring.
  - rewrite !alt_succ, IH. ring.
Qed.

Lemma alt_square (a : nat) : alt a * alt a == 1.
Proof. unfold alt. destruct (Nat.even a); ring. Qed.

Lemma insert_at_perm (n i : nat) (p : list nat) :
  Permutation (Permutations.insert_at n i p) (n :: p).
Proof.
  unfold Permutations.insert_at. rewrite <- Permutation_middle.
  now rewrite firstn_skipn.
Qed.

Lemma insert_at_split (n : nat) (l1 l2 : list nat) :
  Permutations.insert_at n (length l1) (l1 ++ l2) = l1 ++ n :: l2.
Proof.
  unfold Permutations.insert_at.
  rewrite firstn_app, Nat.sub_diag, firstn_all, firstn_O, app_nil_r.
  rewrite skipn_app, Nat.sub_diag, skipn_all. reflexivity.
Qed.

Lemma in_extend (n : nat) (prev : list (Permutations.Permutation * Q)) (qs : Permutations.Permutation * Q) :
  In qs (Permutations.extend n prev) <->
  exists ps i, In ps prev /\ (i < n)%nat /\
               qs = (Permutations.insert_at n i (fst ps),
                     Permutations.sign_of n i (snd ps)).
Proof.
  unfold Permutations.extend. rewrite in_flat_map. split.
  - intros (ps & Hp & H). apply in_map_iff in H. destruct H as (i & <- & Hi).
    apply in_seq in Hi. exists ps, i. repeat split; [exact Hp | lia].
  - intros (ps & i & Hp & Hi & ->). exists ps. split; [exact Hp |].
    apply in_map_iff. exists i. split; [reflexivity |]. apply in_seq. lia.
Qed.

Lemma extend_cons (n : nat) (ps : Permutations.Permutation * Q)
      (prev : list (Permutations.Permutation * Q)) :
  Permutations.extend n (ps :: prev) =
  map (fun i => (Permutations.insert_at n i (fst ps),
                 Permutations.sign_of n i (snd ps))) (seq 0 n)
  ++ Permutations.extend n prev.
Proof. reflexivity. Qed.

Lemma length_extend (n : nat) (prev : list (Permutations.Permutation * Q)) :
  length (Permutations.extend n prev) = (length prev * n)%nat.
Proof.
  unfold Permutations.extend. induction prev as [| ps prev IH]; simpl;
    [reflexivity |].
  now rewrite length_app, length_map, length_seq, IH.
Qed.

Lemma S_length (n : nat) : length (Permutations.S (S n)) = fact (S n).
Proof.
  induction n as [| n IH]; [reflexivity |].
  rewrite S_step, length_extend, IH.
  change (fact (S (S n))) with (S (S n) * fact (S n))%nat. lia.
Qed.

Lemma S_perm (n : nat) :
  forall ps, In ps (Permutations.S (S n)) ->
             Permutation (fst ps) (seq 1 (S n)).
Proof.
  induction n as [| n IH]; intros ps H.
  - destruct H as [<- | []]. apply Permutation_refl.
  - rewrite S_step in H. apply in_extend in H.
    destruct H as (p & i & Hp & Hi & ->). simpl fst.
    rewrite insert_at_perm, (seq_S (S n) 1), (IH p Hp).
    apply Permutation_cons_append.
Qed.

Lemma S_complete (n : nat) :
  forall p, Permutation p (seq 1 (S n)) ->
            In p (map fst (Permutations.S (S n))).
Proof.
  induction n as [| n IH]; intros p H.
  - apply Permutation_sym, Permutation_length_1_inv in H. subst. now left.
  - rewrite (seq_S (S n) 1) in H. simpl plus in H.
    assert (Hin : In (S (S n)) p).
    { apply (Permutation_in _ (Permutation_sym H)), in_or_app. right.
      now left. }
    apply in_split in Hin. destruct Hin as (l1 & l2 & ->).
    pose proof (Permutation_length H) as Len.
    rewrite !length_app, length_seq in Len. simpl in Len.
    apply Permutation_app_inv in H. rewrite app_nil_r in H.
    apply IH, in_map_iff in H. destruct H as (ps & E & Hps).
    apply in_map_iff. rewrite S_step.
    exists (Permutations.insert_at (S (S n)) (length l1) (fst ps),
            Permutations.sign_of (S (S n)) (length l1) (snd ps)).
    split.
    + simpl. rewrite E. apply insert_at_split.
    + apply in_extend. exists ps, (length l1).
      repeat split; [exact Hps | lia].
Qed.

Lemma split_at_fresh (n : nat) (l1 : list nat) :
  forall l2 l3 l4,
    ~ In n l1 -> ~ In n l3 -> l1 ++ n :: l2 = l3 ++ n :: l4 ->
    l1 = l3 /\ l2 = l4.
Proof.
  induction l1 as [| a l1 IH]; intros l2 l3 l4 H1 H3 E; destruct l3 as [| b l3];
    simpl in E.
  - injection E as E. now split.
  - injection E as E1 E2. elim H3. now left.
  - injection E as E1 E2. elim H1. now left.
  - injection E as E1 E2. subst b.
    destruct (IH l2 l3 l4) as [-> ->]; auto.
    + intros F. apply H1. now right.
    + intros F. apply H3. now right.
Qed.

Lemma insert_at_inj (n i j : nat) (p q : list nat) :
  ~ In n p -> ~ In n q -> (i <= length p)%nat -> (j <= length q)%nat ->
  Permutations.insert_at n i p = Permutations.insert_at n j q ->
  i = j /\ p = q.
Proof.
  intros Hp Hq Hi Hj E. unfold Permutations.insert_at in E.
  apply split_at_fresh in E.
  - destruct E as [E1 E2].
    pose proof (f_equal (@length nat) E1) as L.
    rewrite !length_firstn in L. split; [lia |].
    now rewrite <- (firstn_skipn i p), <- (firstn_skipn j q), E1, E2.
  - intros F. apply Hp. rewrite <- (firstn_skipn i p). apply in_or_app.
    now left.
  - intros F. apply Hq. rewrite <- (firstn_skipn j q). apply in_or_app.
    now left.
Qed.

Lemma S_entries (n : nat) (ps : Permutations.Permutation * Q) :
  In ps (Permutations.S (S n)) ->
  length (fst ps) = S n /\
  (forall a, In a (fst ps) -> (1 <= a <= S n)%nat).
Proof.
  intros H. pose proof (S_perm n ps H) as Pm. split.
  - now rewrite (Permutation_length Pm), length_seq.
  - intros a Ha. apply (Permutation_in _ Pm), in_seq in Ha. lia.
Qed.

Lemma S_nodup (n : nat) : NoDup (map fst (Permutations.S (S n))).
Proof.
  induction n as [| n IH]; [repeat constructor; simpl; tauto |].
  rewrite S_step.
  assert (G : forall prev,
             incl prev (Permutations.S (S n)) -> NoDup (map fst prev) ->
             NoDup (map fst (Permutations.extend (S (S n)) prev))).
  { induction prev as [| ps prev IHp]; intros I N; [constructor |].
    rewrite extend_cons, map_app.
    inversion N as [| ? ? Nin N']; subst.
    destruct (S_entries n ps (I ps (or_introl eq_refl))) as [Lp Rp].
    assert (Fp : ~ In (S (S n)) (fst ps))
      by (intros F; apply Rp in F; lia).
    apply NoDup_app.
    - rewrite map_map. cbn [fst].
      assert (K : forall l, NoDup l ->
                  (forall i, In i l -> (i <= S n)%nat) ->
                  NoDup (map (fun i => Permutations.insert_at (S (S n)) i (fst ps)) l)).
      { induction l as [| i l IHl]; intros Nl Bl; [constructor |].
        inversion Nl; subst. simpl. constructor.
        - intros F. apply in_map_iff in F. destruct F as (j & E & Hj).
          apply insert_at_inj in E; try assumption.
          + destruct E as [-> _]. contradiction.
          + rewrite Lp. apply Bl. now right.
          + rewrite Lp. apply Bl. now left.
        - apply IHl; [assumption |]. intros j Hj. apply Bl. now right. }
      apply (K (seq 0 (S (S n)))); [apply seq_NoDup |]. intros i Hi. apply in_seq in Hi. lia.
    - apply IHp; [| exact N']. intros a Ha. apply I. now right.
    - intros q Hq F.
      apply in_map_iff in Hq. destruct Hq as (qs & <- & Hq).
      apply in_map_iff in Hq. destruct Hq as (i & <- & Hi). simpl in F.
      apply in_seq in Hi.
      apply in_map_iff in F. destruct F as (rs & E & Hr).
      apply in_extend in Hr. destruct Hr as (ps' & j & Hps' & Hj & ->).
      simpl in E.
      destruct (S_entries n ps' (I ps' (or_intror Hps'))) as [Lp' Rp'].
      apply insert_at_inj in E; try lia; try assumption.
      + destruct E as [_ E]. apply Nin. rewrite <- E. now apply in_map.
      + intros F. apply Rp' in F. lia. }
  apply G; [apply incl_refl | exact IH].
Qed.

Lemma filter_below (n : nat) (l : list nat) :
  (forall a, In a l -> (a < n)%nat) ->
  filter (fun b => b <? n)%nat l = l.
Proof.
  induction l as [| a l IH]; intros H; [reflexivity |]. simpl.
  destruct (Nat.ltb_spec a n) as [_ | F].
  - f_equal. apply IH. intros b Hb. apply H. now right.
  - specialize (H a (or_introl eq_refl)). lia.
Qed.

Lemma inversions_insert (n : nat) (l1 l2 : list nat) :
  (forall a, In a (l1 ++ l2) -> (a < n)%nat) ->
  inversions (l1 ++ n :: l2) = (inversions (l1 ++ l2) + length l2)%nat.
Proof.
  induction l1 as [| a l1 IH]; intros H; simpl.
  - rewrite filter_below by exact H. lia.
  - rewrite IH by (intros b Hb; apply H; now right).
    rewrite !filter_app. simpl.
    destruct (Nat.ltb_spec n a) as [F | _].
    + specialize (H a (or_introl eq_refl)). lia.
    + rewrite !length_app. lia.
Qed.

Lemma S_sign (n : nat) :
  forall ps, In ps (Permutations.S (S n)) ->
             snd ps == alt (inversions (fst ps)).
Proof.
  induction n as [| n IH]; intros ps H.
  - destruct H as [<- | []]. reflexivity.
  - rewrite S_step in H. apply in_extend in H.
    destruct H as (p & i & Hp & Hi & ->). simpl.
    destruct (S_entries n p Hp) as [Lp Rp].
    unfold Permutations.insert_at, Permutations.sign_of.
    rewrite inversions_insert.
    + rewrite firstn_skipn, power_alt, (IH p Hp), length_skipn, Lp.
      replace (S (S n) - i + 1)%nat with ((S n - i) + 2)%nat by lia.
      rewrite (Nat.add_comm (inversions (fst p))), !alt_add.
      change (alt 2) with 1. ring.
    + rewrite firstn_skipn. intros a Ha. apply Rp in Ha. lia.
Qed.

(** X22.  For every [n >= 1] the table [S(n)] lists the permutations of
    [1..n], each exactly once: it has [n!] entries, no sequence occurs
    twice, and a sequence occurs if and only if it is a rearrangement of
    [1, ..., n].  The sign stored with a permutation is its signature,
    [(-1)] to the number of its inversions. *)
Theorem S_enumerates (n : nat) :
  (1 <= n)%nat ->
  length (Permutations.S n) = fact n /\
  NoDup (map fst (Permutations.S n)) /\
  (forall p, In p (map fst (Permutations.S n)) <-> Permutation p (seq 1 n)) /\
  (forall ps, In ps (Permutations.S n) ->
              snd ps == (-1) ^ Z.of_nat (inversions (fst ps))).
Proof.
  intros H. destruct n as [| n]; [lia |].
  split; [exact (S_length n) |]. split; [exact (S_nodup n) |]. split.
  - intros p. split.
    + intros Hp. apply in_map_iff in Hp. destruct Hp as (ps & <- & Hps).
      exact (S_perm n ps Hps).
    + exact (S_complete n p).
  - intros ps Hps. rewrite power_alt. exact (S_sign n ps Hps).
Qed.

Lemma S_enumerates_witness :
  length (Permutations.S 4) = fact 4 /\
  NoDup (map fst (Permutations.S 4)) /\
  (forall p, In p (map fst (Permutations.S 4)) <-> Permutation p (seq 1 4)) /\
  (forall ps, In ps (Permutations.S 4) ->
              snd ps == (-1) ^ Z.of_nat (inversions (fst ps))).
Proof. apply (S_enumerates 4). lia. Defined.

(** ** The two determinants, for every size *)

Lemma fold_left_sum_over {A : Type} (f : A -> Q) (l : list A) :
  forall d, fold_left (fun d a => d + f a) l d == d + sum_over f l.
Proof.
  induction l as [| a l IH]; intros d; simpl; [ring |].
  rewrite IH. ring.
Qed.

Lemma sum_over_ext {A : Type} (f g : A -> Q) (l : list A) :
  (forall a, In a l -> f a == g a) -> sum_over f l == sum_over g l.
Proof.
  induction l as [| a l IH]; intros H; simpl; [reflexivity |].
  rewrite (H a (or_introl eq_refl)), IH; [reflexivity |].
  intros b Hb. apply H. now right.
Qed.

Lemma sum_over_cons {A : Type} (f : A -> Q) (a : A) (l : list A) :
  sum_over f (a :: l) = f a + sum_over f l.
Proof. reflexivity. Qed.

Lemma sum_over_app {A : Type} (f : A -> Q) (l l' : list A) :
  sum_over f (l ++ l') == sum_over f l + sum_over f l'.
Proof.
  induction l as [| a l IH]; simpl; [ring |]. rewrite IH. ring.
Qed.

Lemma sum_over_map {A B : Type} (f : B -> Q) (g : A -> B) (l : list A) :
  sum_over f (map g l) = sum_over (fun a => f (g a)) l.
Proof.
  induction l as [| a l IH]; simpl; [reflexivity |]. now rewrite IH.
Qed.

Lemma sum_over_flat_map {A B : Type} (f : B -> Q) (g : A -> list B) (l : list A) :
  sum_over f (flat_map g l) == sum_over (fun a => sum_over f (g a)) l.
Proof.
  induction l as [| a l IH]; simpl; [reflexivity |].
  now rewrite sum_over_app, IH.
Qed.

Lemma sum_over_scale {A : Type} (c : Q) (f : A -> Q) (l : list A) :
  sum_over (fun a => c * f a) l == c * sum_over f l.
Proof.
  induction l as [| a l IH]; simpl; [ring |]. rewrite IH. ring.
Qed.

Lemma sum_over_plus {A : Type} (f g : A -> Q) (l : list A) :
  sum_over (fun a => f a + g a) l == sum_over f l + sum_over g l.
Proof.
  induction l as [| a l IH]; simpl; [ring |]. rewrite IH. ring.
Qed.

Lemma sum_over_zero {A : Type} (l : list A) : sum_over (fun _ => 0) l == 0.
Proof.
  induction l as [| a l IH]; simpl; [reflexivity |]. rewrite IH. ring.
Qed.

Lemma sum_over_swap {A B : Type} (f : A -> B -> Q) (la : list A) (lb : list B) :
  sum_over (fun a => sum_over (fun b => f a b) lb) la ==
  sum_over (fun b => sum_over (fun a => f a b) la) lb.
Proof.
  induction la as [| a la IH]; simpl.
  - now rewrite sum_over_zero.
  - now rewrite sum_over_plus, IH.
Qed.

Lemma alt_parity (a b : nat) : Nat.even (a + b) = true -> alt a == alt b.
Proof.
  rewrite Nat.even_add. unfold alt.
  destruct (Nat.even a), (Nat.even b); simpl; intros H;
    try discriminate; reflexivity.
Qed.

Lemma sign_alt (j : nat) : Cofactor.sign j == alt j.
Proof.
  assert (E : Nat.even j = Nat.even (j mod 2)).
  { rewrite (Nat.div_mod_eq j 2) at 1.
    rewrite Nat.even_add, Nat.even_mul. change (Nat.even 2) with true.
    rewrite orb_true_l. now destruct (Nat.even (j mod 2)). }
  pose proof (Nat.mod_upper_bound j 2) as B.
  unfold Cofactor.sign, alt. rewrite E.
  destruct (j mod 2)%nat as [| [| k]]; [reflexivity | reflexivity | lia].
Qed.

(** *** Lists without one element *)

Lemma remove_row_nil {A : Type} (i : nat) : remove_row i (@nil A) = [].
Proof. unfold remove_row. now rewrite firstn_nil, skipn_nil. Qed.

Lemma remove_row_zero {A : Type} (l : list A) : remove_row 0 l = tl l.
Proof. destruct l; reflexivity. Qed.

Lemma remove_row_succ {A : Type} (i : nat) (a : A) (l : list A) :
  remove_row (S i) (a :: l) = a :: remove_row i l.
Proof. reflexivity. Qed.

Lemma nth_remove_row {A : Type} (d : A) (i : nat) :
  forall (l : list A) (c : nat),
    nth c (remove_row i l) d =
    if (c <? i)%nat then nth c l d else nth (S c) l d.
Proof.
  induction i as [| i IH]; intros l c.
  - rewrite remove_row_zero. destruct l; [now destruct c | reflexivity].
  - destruct l as [| a l].
    + rewrite remove_row_nil. destruct c; now destruct (_ <? _)%nat.
    + rewrite remove_row_succ. destruct c as [| c]; [reflexivity |].
      simpl nth. rewrite IH. reflexivity.
Qed.

Lemma length_remove_row {A : Type} (i : nat) (l : list A) :
  (i < length l)%nat -> length (remove_row i l) = (length l - 1)%nat.
Proof.
  intros H. unfold remove_row.
  rewrite length_app, length_firstn, length_skipn. lia.
Qed.

Lemma remove_row_incl {A : Type} (i : nat) :
  forall l : list A, incl (remove_row i l) l.
Proof.
  induction i as [| i IH]; intros l.
  - rewrite remove_row_zero. destruct l; [apply incl_refl |].
    apply incl_tl, incl_refl.
  - destruct l as [| a l]; [rewrite remove_row_nil; apply incl_refl |].
    rewrite remove_row_succ. intros b [<- | Hb]; [now left |].
    right. now apply IH.
Qed.

Lemma map_remove_row {A B : Type} (f : A -> B) (i : nat) (l : list A) :
  map f (remove_row i l) = remove_row i (map f l).
Proof. unfold remove_row. now rewrite map_app, firstn_map, skipn_map. Qed.

Lemma drop_col_remove (j : nat) (r : list Q) :
  Cofactor.drop_col j r = remove_row j r.
Proof. unfold Cofactor.drop_col, remove_row. now rewrite Nat.add_1_r. Qed.

Lemma length_removelast {A : Type} (l : list A) :
  length (removelast l) = (length l - 1)%nat.
Proof. rewrite removelast_firstn_len, length_firstn. lia. Qed.

Lemma nth_removelast {A : Type} (d : A) (l : list A) (c : nat) :
  (S c < length l)%nat -> nth c (removelast l) d = nth c l d.
Proof.
  intros H. rewrite removelast_firstn_len, nth_firstn.
  destruct (Nat.ltb_spec c (Nat.pred (length l))); [reflexivity | lia].
Qed.

Lemma remove_last_col (r : list Q) :
  r <> [] -> Cofactor.drop_col (length r - 1) r = removelast r.
Proof.
  intros H. rewrite drop_col_remove. unfold remove_row.
  rewrite removelast_firstn_len, skipn_all2, app_nil_r.
  - f_equal. lia.
  - destruct r; [congruence | simpl; lia].
Qed.

Lemma drop_col_removelast (j : nat) (r : list Q) :
  (S j < length r)%nat ->
  Cofactor.drop_col j (removelast r) = removelast (Cofactor.drop_col j r).
Proof.
  intros H. rewrite !drop_col_remove.
  apply (nth_ext _ _ 0 0).
  - rewrite length_removelast, !length_remove_row, length_removelast;
      [reflexivity | lia |].
    rewrite length_removelast. lia.
  - intros c Hc.
    rewrite length_remove_row, length_removelast in Hc
      by (rewrite length_removelast; lia).
    rewrite nth_removelast by (rewrite length_remove_row; lia).
    rewrite !nth_remove_row.
    destruct (c <? j)%nat; apply nth_removelast; lia.
Qed.

(** *** The sum over the permutations *)

Lemma fold_left_shift (f : Q -> nat -> Q) (n : nat) :
  forall s, fold_left f (seq 1 n) s = fold_left (fun x i => f x (S i)) (seq 0 n) s.
Proof.
  rewrite <- seq_shift. generalize (seq 0 n) as l.
  induction l as [| a l IH]; intros s; simpl; [reflexivity |]. apply IH.
Qed.

Lemma term_zip (M : Matrix) :
  forall (p : list nat) (s : Q),
    length p = length M ->
    fold_left (fun x i => x * entry M i (nth i p 0%nat - 1))
              (seq 0 (length M)) s == s * zipprod M p.
Proof.
  induction M as [| r M IH]; intros p s H.
  - simpl. ring.
  - destruct p as [| c p]; [discriminate |].
    injection H as H.
    change (seq 0 (length (r :: M))) with (0%nat :: seq 1 (length M)).
    cbn [fold_left]. rewrite fold_left_shift.
    etransitivity; [exact (IH p _ H) |].
    unfold entry. simpl. ring.
Qed.

Lemma det_sum (n : nat) (M : Matrix) :
  length M = S n ->
  det M == sum_over (fun ps => snd ps * zipprod M (fst ps)) (Permutations.S (S n)).
Proof.
  intros H. unfold det. cbv zeta. rewrite H.
  rewrite (fold_left_sum_over
             (fun ps : Permutations.Permutation * Q =>
                fold_left (fun x i => x * entry M i (nth i (fst ps) 0%nat - 1))
                          (seq 0 (S n)) (snd ps))).
  rewrite Qplus_0_l. apply sum_over_ext. intros ps Hps.
  rewrite <- H. apply term_zip. rewrite H. now apply S_entries.
Qed.

Lemma zipprod_insert (v : nat) :
  forall (i : nat) (M : Matrix) (p : list nat),
    (i <= length p)%nat -> length M = S (length p) ->
    zipprod M (Permutations.insert_at v i p) ==
    nth (v - 1) (nth i M []) 0 * zipprod (remove_row i M) p.
Proof.
  unfold Permutations.insert_at.
  induction i as [| i IH]; intros M p Hi HM.
  - destruct M as [| r M]; [discriminate |]. reflexivity.
  - destruct p as [| c p]; [simpl in Hi; lia |].
    destruct M as [| r M]; [discriminate |].
    rewrite remove_row_succ. simpl firstn. simpl skipn.
    cbn [zipprod app nth]. simpl in Hi, HM.
    rewrite IH by lia. ring.
Qed.

Lemma zipprod_truncate (k : nat) :
  forall (M : Matrix) (p : list nat),
    Forall (fun r => length r = S k) M ->
    (forall c, In c p -> (1 <= c <= k)%nat) ->
    zipprod (map (@removelast Q) M) p = zipprod M p.
Proof.
  induction M as [| r M IH]; intros p HM Hp; [reflexivity |].
  destruct p as [| c p]; [reflexivity |].
  inversion HM; subst. simpl. f_equal.
  - apply nth_removelast. specialize (Hp c (or_introl eq_refl)). lia.
  - apply IH; [assumption |]. intros d Hd. apply Hp. now right.
Qed.

Lemma square_minor_last (n i : nat) (M : Matrix) :
  square (S n) M -> (i < S n)%nat -> square n (minor_last i M).
Proof.
  intros [HL HR] Hi. unfold minor_last. split.
  - rewrite length_map, length_remove_row; lia.
  - apply Forall_forall. intros r Hr. apply in_map_iff in Hr.
    destruct Hr as (r' & <- & Hr'). apply remove_row_incl in Hr'.
    rewrite Forall_forall in HR. rewrite length_removelast, (HR r' Hr'). lia.
Qed.

Lemma leibniz_last_column (n : nat) (M : Matrix) :
  square (S (S n)) M ->
  det M ==
  sum_over (fun i => alt (i + n + 1) * entry M i (S n) * det (minor_last i M))
       (seq 0 (S (S n))).
Proof.
  intros HS. pose proof HS as [HL HR].
  rewrite (det_sum (S n) M HL), S_step. unfold Permutations.extend.
  rewrite sum_over_flat_map.
  transitivity
    (sum_over (fun ps : Permutations.Permutation * Q =>
             sum_over (fun i => alt (i + n + 1) * entry M i (S n) *
                            (snd ps * zipprod (minor_last i M) (fst ps)))
                  (seq 0 (S (S n))))
          (Permutations.S (S n))).
  { apply sum_over_ext. intros ps Hps. rewrite sum_over_map.
    apply sum_over_ext. intros i Hi. cbn [fst snd]. apply in_seq in Hi.
    destruct (S_entries n ps Hps) as [Lp Rp].
    rewrite zipprod_insert by lia.
    unfold minor_last. rewrite (zipprod_truncate (S n)).
    - unfold Permutations.sign_of. rewrite power_alt.
      rewrite (alt_parity (S (S n) - i + 1) (i + n + 1)).
      + unfold entry. simpl Nat.sub. ring.
      + replace (S (S n) - i + 1 + (i + n + 1))%nat with (2 * (n + 2))%nat
          by lia.
        now rewrite Nat.even_mul.
    - apply Forall_forall. intros r Hr. apply remove_row_incl in Hr.
      rewrite Forall_forall in HR. now apply HR.
    - intros c Hc. apply Rp in Hc. lia. }
  rewrite sum_over_swap. apply sum_over_ext. intros i Hi. apply in_seq in Hi.
  rewrite (det_sum n (minor_last i M)).
  - rewrite <- sum_over_scale. reflexivity.
  - apply (square_minor_last (S n) i M HS). lia.
Qed.

(** *** The expansion along the first row *)

Lemma cofactor_first_row (m : nat) (M : Matrix) :
  Cofactor.det_rows (S m) M ==
  sum_over (fun j => alt j * entry M 0 j *
                 Cofactor.det_rows m (map (Cofactor.drop_col j) (tl M)))
       (seq 0 (length M)).
Proof.
  cbn [Cofactor.det_rows].
  rewrite (fold_left_sum_over
             (fun j => Cofactor.sign j * entry M 0 j *
                       Cofactor.det_rows m (map (Cofactor.drop_col j) (tl M)))).
  rewrite Qplus_0_l. apply sum_over_ext. intros j _. now rewrite sign_alt.
Qed.

Lemma square_drop_col (n j : nat) (M : Matrix) :
  square (S n) M -> (j < S n)%nat ->
  square n (map (Cofactor.drop_col j) (tl M)).
Proof.
  intros [HL HR] Hj. destruct M as [| r M]; [discriminate |]. simpl tl.
  inversion HR; subst. split.
  - rewrite length_map. simpl in HL. lia.
  - apply Forall_forall. intros r' Hr'. apply in_map_iff in Hr'.
    destruct Hr' as (r0 & <- & Hr0). rewrite Forall_forall in H2.
    rewrite drop_col_remove, length_remove_row; rewrite (H2 r0 Hr0); lia.
Qed.

Lemma entry_drop_col (M : Matrix) (i j c : nat) :
  (j <= c)%nat ->
  entry (map (Cofactor.drop_col j) (tl M)) i c = entry M (S i) (S c).
Proof.
  intros H. unfold entry.
  replace (@nil Q) with (Cofactor.drop_col j []) at 1
    by (rewrite drop_col_remove; apply remove_row_nil).
  rewrite map_nth, drop_col_remove, nth_remove_row.
  destruct (Nat.ltb_spec c j); [lia |].
  destruct M as [| r M]; [now destruct i | reflexivity].
Qed.

Lemma entry_minor_first (M : Matrix) (i j n : nat) :
  square (S (S n)) M -> (j < S n)%nat ->
  entry (minor_last (S i) M) 0 j = entry M 0 j.
Proof.
  intros [HL HR] Hj. destruct M as [| r M]; [discriminate |].
  unfold minor_last. rewrite remove_row_succ. unfold entry. simpl.
  inversion HR; subst. apply nth_removelast. lia.
Qed.

Lemma minor_of_minor (M : Matrix) (i j n : nat) :
  square (S (S n)) M -> (j < S n)%nat ->
  map (Cofactor.drop_col j) (tl (minor_last (S i) M)) =
  minor_last i (map (Cofactor.drop_col j) (tl M)).
Proof.
  intros [HL HR] Hj. destruct M as [| r M]; [discriminate |].
  unfold minor_last. rewrite remove_row_succ. simpl tl.
  rewrite <- map_remove_row, !map_map. apply map_ext_in.
  intros r' Hr'. apply remove_row_incl in Hr'.
  inversion HR; subst. rewrite Forall_forall in H2.
  apply drop_col_removelast. rewrite (H2 r' Hr'). lia.
Qed.

Lemma minor_first_row (M : Matrix) (n : nat) :
  square (S n) M ->
  map (Cofactor.drop_col n) (tl M) = minor_last 0 M.
Proof.
  intros [HL HR]. unfold minor_last. rewrite remove_row_zero.
  apply map_ext_in. intros r Hr.
  assert (Hr' : In r M) by (destruct M; [destruct Hr | now right]).
  rewrite Forall_forall in HR. pose proof (HR r Hr') as Lr.
  replace n with (length r - 1)%nat by lia.
  apply remove_last_col. destruct r; [discriminate | congruence].
Qed.

Lemma cofactor_last_column (n : nat) :
  forall M : Matrix,
    square (S (S n)) M ->
    Cofactor.det_rows (S (S n)) M ==
    sum_over (fun i => alt (i + n + 1) * entry M i (S n) *
                   Cofactor.det_rows (S n) (minor_last i M))
         (seq 0 (S (S n))).
Proof.
  induction n as [| n IH]; intros M HS.
  - destruct HS as [HL HR].
    destruct M as [| r1 [| r2 [| r3 M]]]; try discriminate.
    inversion HR as [| ? ? L1 HR']; subst.
    inversion HR' as [| ? ? L2 _]; subst.
    destruct r1 as [| a [| b [| ? ?]]]; try discriminate.
    destruct r2 as [| c [| d [| ? ?]]]; try discriminate.
    rewrite !cofactor_first_row.
    unfold sum_over, minor_last, remove_row, entry, alt; simpl.
    unfold entry, Cofactor.sign, Cofactor.drop_col; simpl. ring.
  - set (m := S (S n)) in *.
    pose proof HS as [HL HR].
    change (seq 0 (S m)) with (0%nat :: seq 1 m).
    rewrite <- seq_shift, sum_over_cons, sum_over_map.
    rewrite cofactor_first_row, HL.
    rewrite (seq_S m 0), sum_over_app. change (0 + m)%nat with m.
    transitivity
      (sum_over (fun j =>
               sum_over (fun i =>
                       alt j * entry M 0 j *
                       (alt (i + n + 1) * entry M (S i) m *
                        Cofactor.det_rows (S n)
                          (minor_last i (map (Cofactor.drop_col j) (tl M)))))
                    (seq 0 m))
            (seq 0 m)
       + alt m * entry M 0 m * Cofactor.det_rows m (minor_last 0 M)).
    { apply Qplus_comp.
      - apply sum_over_ext. intros j Hj. apply in_seq in Hj.
        rewrite (IH (map (Cofactor.drop_col j) (tl M)))
          by (apply square_drop_col; [exact HS | lia]).
        rewrite <- sum_over_scale. apply sum_over_ext. intros i Hi.
        apply in_seq in Hi.
        rewrite (entry_drop_col M i j (S n)) by lia. reflexivity.
      - unfold sum_over. cbn [fold_right].
        rewrite (minor_first_row M m HS). ring. }
    rewrite sum_over_swap, Qplus_comm. apply Qplus_comp.
    + rewrite (alt_parity (0 + S n + 1) m); [reflexivity |].
      unfold m. replace (0 + S n + 1 + S (S n))%nat with (2 * (n + 2))%nat
        by lia.
      now rewrite Nat.even_mul.
    + apply sum_over_ext. intros i Hi. apply in_seq in Hi.
      unfold m in *.
      rewrite (cofactor_first_row (S n) (minor_last (S i) M)).
      replace (length (minor_last (S i) M)) with (S (S n))
        by (symmetry; apply (square_minor_last (S (S n)) (S i) M HS); lia).
      rewrite <- sum_over_scale. apply sum_over_ext. intros j Hj. apply in_seq in Hj.
      rewrite (entry_minor_first M i j (S n) HS) by lia.
      rewrite (minor_of_minor M i j (S n) HS) by lia.
      rewrite (alt_parity (S i + S n + 1) (i + n + 1)); [ring |].
      replace (S i + S n + 1 + (i + n + 1))%nat with (2 * (i + n + 2))%nat
        by lia.
      now rewrite Nat.even_mul.
Qed.

Lemma det_rows_agree (n : nat) :
  forall M : Matrix, square (S n) M -> det M == Cofactor.det_rows (S n) M.
Proof.
  induction n as [| n IH]; intros M HS.
  - destruct HS as [HL HR].
    destruct M as [| r [| r' M]]; try discriminate.
    inversion HR as [| ? ? L1 _]; subst.
    destruct r as [| a [| b r]]; try discriminate.
    unfold det, Cofactor.det_rows, Cofactor.sign, entry; simpl. ring.
  - rewrite (leibniz_last_column n M HS), (cofactor_last_column n M HS).
    apply sum_over_ext. intros i Hi. apply in_seq in Hi.
    rewrite (IH (minor_last i M)); [reflexivity |].
    apply (square_minor_last (S n) i M HS). lia.
Qed.

(** *** The formula of Leibniz *)

Lemma sum_over_perm {A : Type} (f : A -> Q) (l l' : list A) :
  Permutation l l' -> sum_over f l == sum_over f l'.
Proof.
  induction 1 as [| a l l' _ IH | a b l | l l' l'' _ IH1 _ IH2]; simpl.
  - reflexivity.
  - now rewrite IH.
  - ring.
  - now rewrite IH1.
Qed.

Lemma Qsum_map_over {A : Type} (f : A -> Q) (l : list A) :
  Qsum (map f l) = sum_over f l.
Proof.
  induction l as [| a l IH]; simpl; [reflexivity |]. now rewrite IH.
Qed.

Lemma insert_everywhere_perm (a : nat) (l : list nat) :
  forall s, In s (insert_everywhere a l) -> Permutation s (a :: l).
Proof.
  induction l as [| b r IH]; intros s H; simpl in H.
  - destruct H as [<- | []]. apply Permutation_refl.
  - destruct H as [<- | H]; [apply Permutation_refl |].
    apply in_map_iff in H. destruct H as (t & <- & Ht).
    rewrite (IH t Ht). apply perm_swap.
Qed.

Lemma insert_everywhere_length (a : nat) (l : list nat) :
  length (insert_everywhere a l) = S (length l).
Proof.
  induction l as [| b r IH]; simpl; [reflexivity |].
  now rewrite length_map, IH.
Qed.

Lemma insert_everywhere_in (a : nat) (l1 l2 : list nat) :
  In (l1 ++ a :: l2) (insert_everywhere a (l1 ++ l2)).
Proof.
  induction l1 as [| b l1 IH]; simpl.
  - destruct l2; simpl; now left.
  - right. apply in_map_iff. now exists (l1 ++ a :: l2).
Qed.

Lemma perms_perm (l : list nat) :
  forall s, In s (perms l) -> Permutation s l.
Proof.
  induction l as [| a r IH]; intros s H; simpl in H.
  - destruct H as [<- | []]. apply Permutation_refl.
  - apply in_flat_map in H. destruct H as (t & Ht & Hs).
    rewrite (insert_everywhere_perm a t s Hs). now rewrite (IH t Ht).
Qed.

Lemma perms_complete (l : list nat) :
  forall s, Permutation s l -> In s (perms l).
Proof.
  induction l as [| a r IH]; intros s H.
  - apply Permutation_sym, Permutation_nil in H. subst. now left.
  - assert (Ha : In a s)
      by (apply (Permutation_in _ (Permutation_sym H)); now left).
    apply in_split in Ha. destruct Ha as (l1 & l2 & ->).
    apply Permutation_sym, Permutation_cons_app_inv, Permutation_sym in H.
    simpl. apply in_flat_map. exists (l1 ++ l2).
    split; [now apply IH | apply insert_everywhere_in].
Qed.

Lemma length_flat_map_const {A B : Type} (f : A -> list B) (k : nat)
      (l : list A) :
  (forall a, In a l -> length (f a) = k) ->
  length (flat_map f l) = (length l * k)%nat.
Proof.
  induction l as [| a l IH]; intros H; simpl; [reflexivity |].
  rewrite length_app, (H a (or_introl eq_refl)), IH; [reflexivity |].
  intros b Hb. apply H. now right.
Qed.

Lemma perms_length (l : list nat) : length (perms l) = fact (length l).
Proof.
  induction l as [| a r IH]; [reflexivity |]. simpl perms.
  rewrite (length_flat_map_const _ (S (length r))).
  - rewrite IH. simpl. lia.
  - intros t Ht. rewrite insert_everywhere_length.
    now rewrite (Permutation_length (perms_perm r t Ht)).
Qed.

Lemma map_succ_pred (p : list nat) :
  (forall a, In a p -> (1 <= a)%nat) -> map S (map pred p) = p.
Proof.
  induction p as [| a p IH]; intros H; [reflexivity |]. simpl.
  rewrite IH by (intros b Hb; apply H; now right).
  specialize (H a (or_introl eq_refl)). f_equal. lia.
Qed.

Lemma filter_pred (a : nat) (p : list nat) :
  (1 <= a)%nat -> (forall b, In b p -> (1 <= b)%nat) ->
  length (filter (fun b => b <? pred a)%nat (map pred p)) =
  length (filter (fun b => b <? a)%nat p).
Proof.
  intros Ha. induction p as [| b p IH]; intros H; [reflexivity |]. simpl.
  pose proof (H b (or_introl eq_refl)) as Hb.
  assert (E : (pred b <? pred a)%nat = (b <? a)%nat).
  { destruct (Nat.ltb_spec b a); destruct (Nat.ltb_spec (pred b) (pred a));
      try reflexivity; lia. }
  rewrite E. destruct (b <? a)%nat; simpl; rewrite IH; auto;
    intros d Hd; apply H; now right.
Qed.

Lemma inversions_pred (p : list nat) :
  (forall a, In a p -> (1 <= a)%nat) ->
  inversions (map pred p) = inversions p.
Proof.
  induction p as [| a p IH]; intros H; [reflexivity |]. simpl.
  rewrite filter_pred, IH; try reflexivity.
  - intros b Hb. apply H. now right.
  - apply H. now left.
  - intros b Hb. apply H. now right.
Qed.

Lemma prod_zip (M : Matrix) :
  forall p : list nat,
    length p = length M ->
    Qprod (map (fun i => entry M i (nth i p 0%nat - 1)) (seq 0 (length M))) ==
    zipprod M p.
Proof.
  induction M as [| r M IH]; intros p H; [reflexivity |].
  destruct p as [| c p]; [discriminate |]. injection H as H.
  change (seq 0 (length (r :: M))) with (0%nat :: seq 1 (length M)).
  rewrite <- seq_shift. cbn [map Qprod fold_right]. rewrite map_map.
  fold (Qprod (map (fun i => entry (r :: M) (S i) (nth (S i) (c :: p) 0%nat - 1))
                   (seq 0 (length M)))).
  etransitivity; [apply Qmult_comp; [reflexivity | exact (IH p H)] |].
  unfold entry. simpl. ring.
Qed.

Lemma leibniz_term (n : nat) (M : Matrix) (ps : Permutations.Permutation * Q) :
  length M = S n -> In ps (Permutations.S (S n)) ->
  snd ps * zipprod M (fst ps) ==
  sgn (map pred (fst ps)) *
  Qprod (map (fun i => entry M i (nth i (map pred (fst ps)) 0%nat))
             (seq 0 (S n))).
Proof.
  intros HL Hps. destruct (S_entries n ps Hps) as [Lp Rp].
  assert (Pos : forall a, In a (fst ps) -> (1 <= a)%nat)
    by (intros a Ha; apply Rp in Ha; lia).
  unfold sgn. rewrite (inversions_pred _ Pos), (S_sign n ps Hps).
  fold (alt (inversions (fst ps))).
  rewrite <- HL, <- (prod_zip M (fst ps)) by congruence.
  rewrite (map_ext (fun i => entry M i (nth i (map pred (fst ps)) 0%nat))
                   (fun i => entry M i (nth i (fst ps) 0%nat - 1))).
  - reflexivity.
  - intros i. change 0%nat with (pred 0) at 1. rewrite map_nth.
    now rewrite Nat.sub_1_r.
Qed.

Lemma tables_agree (n : nat) :
  Permutation (map (fun ps => map pred (fst ps)) (Permutations.S (S n)))
              (perms (seq 0 (S n))).
Proof.
  apply NoDup_Permutation_bis.
  - rewrite <- (map_map fst (map pred)).
    apply NoDup_map_NoDup_ForallPairs; [| apply S_nodup].
    intros p q Hp Hq E.
    apply in_map_iff in Hp, Hq.
    destruct Hp as (ps & <- & Hps), Hq as (qs & <- & Hqs).
    rewrite <- (map_succ_pred (fst ps)), <- (map_succ_pred (fst qs)).
    + now rewrite E.
    + intros a Ha. apply (S_entries n qs Hqs) in Ha. lia.
    + intros a Ha. apply (S_entries n ps Hps) in Ha. lia.
  - rewrite perms_length, length_map, length_seq, S_length. lia.
  - intros s Hs. apply in_map_iff in Hs. destruct Hs as (ps & <- & Hps).
    apply perms_complete.
    rewrite (Permutation_map pred (S_perm n ps Hps)).
    rewrite <- seq_shift, map_map. simpl. now rewrite map_id.
Qed.

Lemma det_leibniz (n : nat) (M : Matrix) :
  length M = S n -> det M == determinant (S n) M.
Proof.
  intros HL. rewrite (det_sum n M HL). unfold determinant.
  rewrite Qsum_map_over, <- (sum_over_perm _ _ _ (tables_agree n)).
  rewrite sum_over_map. apply sum_over_ext. intros ps Hps.
  now apply leibniz_term.
Qed.

(** ** The vertices of the dual *)

Lemma mapR_in {A B : Type} (f : A -> Result B) (xs : list A) :
  forall ys, mapR f xs = Ok ys ->
             forall y, In y ys -> exists a, In a xs /\ f a = Ok y.
Proof.
  induction xs as [| a xs IH]; intros ys H y Hy; simpl in H.
  - injection H as <-. destruct Hy.
  - bind_inv H. bind_inv H. injection H as <-. destruct Hy as [<- | Hy].
    + exists a. split; [now left | exact Hv].
    + destruct (IH v0 Hv0 y Hy) as (a' & Ha' & E).
      exists a'. split; [now right | exact E].
Qed.

Lemma non_null_in {A : Type} (xs : list (option A)) (a : A) :
  In a (non_null xs) -> In (Some a) xs.
Proof.
  induction xs as [| [b |] xs IH]; simpl; [tauto | |].
  - intros [<- | H]; [now left | right; now apply IH].
  - intros H. right. now apply IH.
Qed.

Lemma randomTriangle_in (c : Connections) (T : Triangle) :
  randomTriangle c = Ok T -> triangle_in c T.
Proof.
  unfold randomTriangle. destruct c as [| [k ring] rest]; [discriminate |].
  destruct (links ring) as [| l ls]; [discriminate |].
  intros H. bind_inv H. destruct v as [t |].
  - injection H as <-. apply rightTriangle_third in Hv.
    now destruct Hv as (r & -> & Hr).
  - bind_inv H. destruct v as [t |]; [| discriminate].
    injection H as <-. apply rightTriangle_third in Hv0.
    now destruct Hv0 as (r & -> & Hr).
Qed.

Lemma dual_step (c : Connections) (fuel : nat) :
  forall T faces next st,
    triangle_in c T -> NoDup (keys faces) ->
    _dual fuel c T (faces, next) = Ok st ->
    NoDup (keys (fst st)) /\
    exists extra,
      frame (fst st) = frame faces ++ extra /\
      Forall (circumcenter_in c) extra /\
      (faces = [] ->
       let '(t0, t1, t2) := T in
       hd_error extra =
       Some (id (centerOf next t0 t1 t2), centerOf next t0 t1 t2)).
Proof.
  induction fuel as [| fuel IH]; intros T faces next st HT HN H;
    [discriminate |].
  destruct T as [[a b] c0]. cbn [_dual] in H.
  set (ctr := centerOf next a b c0) in *.
  destruct (has faces (id ctr)) eqn:Hh.
  - injection H as <-. split; [exact HN |].
    exists []. rewrite app_nil_r. split; [reflexivity |].
    split; [constructor |]. intros ->. discriminate.
  - bind_inv H.
    assert (Hg : get faces (id ctr) = None)
      by (unfold has in Hh; destruct (get faces (id ctr));
          [discriminate | reflexivity]).
    assert (Hn : forall T', In T' (non_null v) -> triangle_in c T').
    { intros T' HT'. apply non_null_in in HT'.
      destruct (mapR_in _ _ _ Hv _ HT') as (pair & _ & E).
      apply rightTriangle_third in E. now destruct E as (r & -> & Hr). }
    assert (G : forall ns acc st1,
               (forall T', In T' ns -> triangle_in c T') ->
               fold_left
                 (fun (acc : Result (Connections * nat)) (T' : Triangle) =>
                    st' <- acc ;;
                    let '(faces, next) := st' in
                    let '(t0, t1, t2) := T' in
                    let c1 := centerOf next t0 t1 t2 in
                    st'' <- _dual fuel c T' (faces, S next) ;;
                    faces' <- connect ctr c1 (fst st'') ;;
                    Ok (faces', snd st''))
                 ns acc = Ok st1 ->
               exists st0, acc = Ok st0 /\
                 (NoDup (keys (fst st0)) ->
                  NoDup (keys (fst st1)) /\
                  exists extra,
                    frame (fst st1) = frame (fst st0) ++ extra /\
                    Forall (circumcenter_in c) extra)).
    { induction ns as [| T' ns IHn]; intros acc st1 Hin E.
      - simpl in E. exists st1. split; [exact E |]. intros N.
        split; [exact N |].
        exists []. rewrite app_nil_r. split; [reflexivity | constructor].
      - simpl in E. apply IHn in E; [| intros T2 H2; apply Hin; now right].
        destruct E as (st2 & E & K2).
        bind_inv E. destruct v0 as [faces0 next0].
        assert (HT' : triangle_in c T') by (apply Hin; now left).
        destruct T' as [[t0 t1] t2]. bind_inv E. bind_inv E.
        injection E as <-. simpl fst in *.
        exists (faces0, next0). split; [exact Hv0 |]. intros N0.
        destruct (IH _ _ _ _ HT' N0 Hv1) as (N1 & extra1 & F1 & C1 & _).
        destruct K2 as (N2 & extra2 & F2 & C2);
          [now rewrite (connect_keys _ _ _ _ Hv2) |].
        split; [exact N2 |].
        exists (extra1 ++ extra2). split.
        + rewrite F2, (connect_frame _ _ _ _ Hv2), F1.
          now rewrite app_assoc.
        + apply Forall_app. now split. }
    destruct (G (non_null v) _ st Hn H) as (st0 & E0 & K).
    injection E0 as <-. simpl fst in K.
    destruct K as (N1 & extra & F & C);
      [unfold addPoint; now apply keys_set_nodup |].
    split; [exact N1 |].
    exists ((id ctr, ctr) :: extra). split; [| split].
    + rewrite F. unfold addPoint. rewrite (set_absent _ _ _ Hg), frame_app.
      simpl. now rewrite <- app_assoc.
    + constructor; [| exact C].
      split; [reflexivity |]. exists next, a, b, c0. now split.
    + intros _. reflexivity.
Qed.

(** X24.  The map that [dual] returns has one vertex for each key, each
    vertex stored under its own key, and every vertex is the center that
    [centerOf] computes for three points of which the third is a neighbour
    of the first and of the second in the triangulation.  The first vertex
    of the map is the center of the triangle that [randomTriangle] finds. *)
Theorem dual_vertices (fuel : nat) (c d : Connections) :
  dual fuel c = Ok d ->
  NoDup (keys d) /\
  (forall k r, In (k, r) d ->
     k = id (center r) /\
     exists o t0 t1 t2,
       triangle_in c (t0, t1, t2) /\ center r = centerOf o t0 t1 t2) /\
  exists t0 t1 t2,
    randomTriangle c = Ok (t0, t1, t2) /\
    hd_error (getPoints d) = Some (centerOf (fresh c) t0 t1 t2).
Proof.
  intros H. unfold dual in H. bind_inv H. bind_inv H. injection H as <-.
  pose proof (randomTriangle_in c v Hv) as HT.
  destruct (dual_step c fuel v [] (fresh c) v0 HT (NoDup_nil _) Hv0)
    as (N & extra & F & C & Hd).
  simpl in F. split; [exact N |]. split.
  - intros k r Hin.
    assert (Hf : In (k, center r) (frame (fst v0)))
      by (unfold frame; apply in_map_iff; now exists (k, r)).
    rewrite F in Hf. rewrite Forall_forall in C.
    exact (C _ Hf).
  - destruct v as [[t0 t1] t2]. exists t0, t1, t2. split; [exact Hv |].
    specialize (Hd eq_refl). rewrite frame_points, F.
    destruct extra as [| e extra]; [discriminate |].
    injection Hd as ->. reflexivity.
Qed.

Lemma dual_vertices_witness :
  exists d,
    dual 2 triangle_result = Ok d /\
    NoDup (keys d) /\
    (forall k r, In (k, r) d ->
       k = id (center r) /\
       exists o t0 t1 t2,
         triangle_in triangle_result (t0, t1, t2) /\
         center r = centerOf o t0 t1 t2) /\
    exists t0 t1 t2,
      randomTriangle triangle_result = Ok (t0, t1, t2) /\
      hd_error (getPoints d) = Some (centerOf (fresh triangle_result) t0 t1 t2).
Proof.
  eexists. split; [vm_compute; reflexivity |].
  apply (dual_vertices 2 triangle_result). vm_compute. reflexivity.
Defined.

(** ** What is drawn *)

Lemma paths_app (t t' : list Command) : paths (t ++ t') = paths t ++ paths t'.
Proof. apply filter_app. Qed.

Lemma paths_draw_links (W H : Q) (p : Point) (ls : list Link) :
  paths (draw_links W H p ls) =
  flat_map (fun e => drawEdge W H (fst e) (snd e))
           (map (fun l => (point l, p))
                (filter (fun l => lt (point l) p) ls)).
Proof.
  unfold draw_links. induction ls as [| l ls IH]; [reflexivity |].
  cbn [flat_map filter]. rewrite paths_app, IH.
  destruct (lt (point l) p); reflexivity.
Qed.

Lemma paths_fill (color : String.string) (colors : Colors) (p : Point) :
  paths (match colors (id p) with
         | Some String.EmptyString | None => []
         | Some s => [FillStyle s]
         end ++ [FillStyle color]) = [].
Proof. destruct (colors (id p)) as [[| ? ?] |]; reflexivity. Qed.

Lemma render_points_ok (W H : Q) (c : Connections) (color : String.string)
      (colors : Colors) (l : Connections) :
  Forall (fun kr => get c (id (center (snd kr))) = Some (snd kr)) l ->
  snd (render_points W H c color colors (getPoints l)) = None /\
  paths (fst (render_points W H c color colors (getPoints l))) =
  flat_map (fun e => drawEdge W H (fst e) (snd e)) (leftward l).
Proof.
  induction l as [| [k r] l IH]; intros HF; [now split |].
  inversion HF as [| ? ? G HF']; subst. simpl in G.
  destruct (IH HF') as [E1 E2].
  unfold getPoints in *. cbn [map render_points snd]. rewrite G.
  destruct (render_points W H c color colors
              (map (fun kr => center (snd kr)) l)) as [t e].
  simpl in E1, E2. subst e. split; [reflexivity |].
  cbn [fst]. rewrite paths_app, paths_fill, paths_app, paths_draw_links, E2.
  unfold leftward. cbn [flat_map snd]. now rewrite flat_map_app.
Qed.

(** X25.  On a map in which every ring is the one found under the key of its
    center, [render] ends without an error, and the paths it strokes are,
    ring by ring and link by link, one segment for each link that leads to
    a point strictly to the left of the center of its ring, drawn from that
    point to the center; no other path is made.  The argument [colors]
    changes none of this. *)
Theorem render_trace (WIDTH HEIGHT : Q) (c : Connections)
        (color : String.string) (colors : Colors) :
  stored c ->
  snd (render WIDTH HEIGHT c color colors) = None /\
  paths (fst (render WIDTH HEIGHT c color colors)) =
  flat_map (fun e => drawEdge WIDTH HEIGHT (fst e) (snd e)) (leftward c).
Proof.
  intros HS.
  destruct (render_points_ok WIDTH HEIGHT c color colors c HS) as [E1 E2].
  unfold render.
  destruct (render_points WIDTH HEIGHT c color colors (getPoints c)) as [t e].
  simpl in *. now split.
Qed.

Lemma render_trace_witness :
  snd (render 300 300 triangle_result Palette.red (fun _ => None)) = None /\
  paths (fst (render 300 300 triangle_result Palette.red (fun _ => None))) =
  flat_map (fun e => drawEdge 300 300 (fst e) (snd e))
           (leftward triangle_result).
Proof.
  apply (render_trace 300 300 triangle_result).
  repeat constructor.
Defined.

Lemma entry_get (c : Connections) (k : Key) (r : Ring) :
  NoDup (keys c) -> In (k, r) c -> get c k = Some r.
Proof.
  induction c as [| [k0 r0] c IH]; intros N H; [destruct H |].
  simpl in N. inversion N as [| ? ? Nin N']; subst. simpl.
  destruct H as [[= -> ->] | H].
  - now rewrite key_eqb_refl.
  - destruct (key_eqb k0 k) eqn:E; [| now apply IH].
    apply key_eqb_eq in E. subst k0. elim Nin.
    unfold keys. apply in_map_iff. now exists (k, r).
Qed.

Lemma Qltb_comp (a a' b b' : Q) :
  a == a' -> b == b' -> Qltb a b = Qltb a' b'.
Proof. intros Ha Hb. unfold Qltb. now rewrite Ha, Hb. Qed.

Lemma lt_by_key (p p' q q' : Point) :
  id p = id p' -> id q = id q' -> lt p q = lt p' q'.
Proof.
  intros Hp Hq. apply id_coincide in Hp, Hq.
  destruct Hp as [Hp _], Hq as [Hq _]. now apply Qltb_comp.
Qed.

Lemma ring_none (ctr a : Point) (ls : list Link) :
  (forall l, In l ls -> id (point l) <> id a) ->
  filter (fun l => lt (point l) ctr && key_eqb (id (point l)) (id a)) ls = [].
Proof.
  induction ls as [| l ls IH]; intros H; [reflexivity |]. simpl.
  rewrite (proj2 (key_eqb_neq _ _) (H l (or_introl eq_refl))), andb_false_r.
  apply IH. intros l' Hl'. apply H. now right.
Qed.

Lemma ring_once (ctr a : Point) (ls : list Link) :
  NoDup (map (fun l => id (point l)) ls) ->
  forall l0, In l0 ls -> id (point l0) = id a ->
    length (filter (fun l => lt (point l) ctr &&
                             key_eqb (id (point l)) (id a)) ls) =
    if lt (point l0) ctr then 1%nat else 0%nat.
Proof.
  induction ls as [| l ls IH]; intros N l0 H0 E; [destruct H0 |].
  simpl in N. inversion N as [| ? ? Nin N']; subst. simpl.
  destruct H0 as [-> | H0].
  - rewrite E, key_eqb_refl, andb_true_r, ring_none.
    + now destruct (lt (point l0) ctr).
    + intros l' Hl' F. apply Nin. rewrite E, <- F.
      apply in_map_iff. now exists l'.
  - assert (Nl : id (point l) <> id a).
    { intros F. apply Nin. rewrite F, <- E. apply in_map_iff. now exists l0. }
    rewrite (proj2 (key_eqb_neq _ _) Nl), andb_false_r.
    now apply IH.
Qed.

Lemma pairs_of_ring (r : Ring) (a b : Point) :
  length (filter (fun e => key_eqb (id (fst e)) (id a) &&
                           key_eqb (id (snd e)) (id b))
                 (map (fun l => (point l, center r))
                      (filter (fun l => lt (point l) (center r)) (links r)))) =
  if key_eqb (id (center r)) (id b)
  then length (filter (fun l => lt (point l) (center r) &&
                                key_eqb (id (point l)) (id a)) (links r))
  else 0%nat.
Proof.
  induction (links r) as [| l ls IH]; simpl.
  - now destruct (key_eqb (id (center r)) (id b)).
  - destruct (lt (point l) (center r)); simpl; [| exact IH].
    destruct (key_eqb (id (point l)) (id a)); simpl; [| exact IH].
    destruct (key_eqb (id (center r)) (id b)); simpl; [| exact IH].
    now rewrite IH.
Qed.

Lemma drawn_cons (k : Key) (r : Ring) (c : Connections) (a b : Point) :
  drawn ((k, r) :: c) a b =
  ((if key_eqb (id (center r)) (id b)
    then length (filter (fun l => lt (point l) (center r) &&
                                  key_eqb (id (point l)) (id a)) (links r))
    else 0) + drawn c a b)%nat.
Proof.
  unfold drawn, leftward. cbn [flat_map snd].
  now rewrite filter_app, length_app, pairs_of_ring.
Qed.

Lemma drawn_ring (c : Connections) (a b : Point) :
  NoDup (keys c) -> (forall k r, In (k, r) c -> id (center r) = k) ->
  drawn c a b =
  match get c (id b) with
  | Some r => length (filter (fun l => lt (point l) (center r) &&
                                       key_eqb (id (point l)) (id a))
                             (links r))
  | None => 0%nat
  end.
Proof.
  induction c as [| [k r] c IH]; intros N HC; [reflexivity |].
  simpl in N. inversion N as [| ? ? Nin N']; subst.
  rewrite drawn_cons, (HC k r (or_introl eq_refl)), IH;
    [| exact N' | intros k' r' H'; apply HC; now right].
  simpl. destruct (key_eqb k (id b)) eqn:E; [| reflexivity].
  apply key_eqb_eq in E. subst k.
  destruct (get c (id b)) as [r' |] eqn:G; [| lia].
  elim Nin. now apply (get_some_keys c (id b) r').
Qed.

Lemma drawn_linked (c : Connections) (a b : Point) :
  NoDup (keys c) -> centered c -> each_ring unique_targets c ->
  linked c b a ->
  drawn c a b = if Qltb (x a) (x b) then 1%nat else 0%nat.
Proof.
  intros N HC HU (r & l & G & Hl & E).
  rewrite drawn_ring; [| exact N |].
  - rewrite G, (ring_once (center r) a (links r) (HU _ _ G) l Hl E).
    change (Qltb (x a) (x b)) with (lt a b).
    now rewrite (lt_by_key (point l) a (center r) b E (HC _ _ G)).
  - intros k r' H'. apply HC. now apply entry_get.
Qed.

Lemma drawn_unlinked (c : Connections) (a b : Point) :
  NoDup (keys c) -> centered c -> ~ linked c b a -> drawn c a b = 0%nat.
Proof.
  intros N HC HL. rewrite drawn_ring; [| exact N |].
  - destruct (get c (id b)) as [r |] eqn:G; [| reflexivity].
    rewrite ring_none; [reflexivity |].
    intros l Hl E. apply HL. now exists r, l.
  - intros k r' H'. apply HC. now apply entry_get.
Qed.

Lemma centered_stored (c : Connections) :
  NoDup (keys c) -> centered c -> stored c.
Proof.
  intros N C. apply Forall_forall. intros [k r] H. simpl.
  pose proof (entry_get c k r N H) as G. now rewrite (C k r G).
Qed.

(** X26.  In a symmetric map with one ring for each key, stored under the
    key of its center, and one link for each neighbour, [render] ends
    without an error and strokes one segment for each link that leads to a
    point strictly to the left of the center of its ring.  Among these
    segments an edge between two points of different abscissas occurs
    exactly once - from its left end to its right end, when [render] comes
    to the ring of the right end - and an edge between two points of the
    same abscissa does not occur.  Nothing is drawn between two points that
    are not linked. *)
Theorem render_once (WIDTH HEIGHT : Q) (color : String.string)
        (colors : Colors) (c : Connections) (a b : Point) :
  NoDup (keys c) -> centered c -> each_ring unique_targets c -> symmetric c ->
  snd (render WIDTH HEIGHT c color colors) = None /\
  paths (fst (render WIDTH HEIGHT c color colors)) =
  flat_map (fun e => drawEdge WIDTH HEIGHT (fst e) (snd e)) (leftward c) /\
  (linked c a b ->
   (drawn c a b + drawn c b a)%nat =
   if Qeq_bool (x a) (x b) then 0%nat else 1%nat) /\
  (linked c a b ->
   drawn c a b = if Qltb (x a) (x b) then 1%nat else 0%nat) /\
  (~ linked c a b -> (drawn c a b + drawn c b a)%nat = 0%nat).
Proof.
  intros N HC HU HS.
  assert (R : snd (render WIDTH HEIGHT c color colors) = None /\
              paths (fst (render WIDTH HEIGHT c color colors)) =
              flat_map (fun e => drawEdge WIDTH HEIGHT (fst e) (snd e))
                       (leftward c)).
  { destruct (render_points_ok WIDTH HEIGHT c color colors c
                (centered_stored c N HC)) as [E1 E2].
    unfold render.
    destruct (render_points WIDTH HEIGHT c color colors (getPoints c)) as [t e].
    simpl in *. now split. }
  split; [exact (proj1 R) | split; [exact (proj2 R) |]].
  split; [| split].
  - intros L. rewrite (drawn_linked c a b N HC HU (HS _ _ L)),
      (drawn_linked c b a N HC HU L).
    destruct (Qeq_bool (x a) (x b)) eqn:E.
    + apply Qeq_bool_iff in E.
      rewrite (proj2 (Qltb_ge (x a) (x b))), (proj2 (Qltb_ge (x b) (x a)));
        [reflexivity | |]; rewrite E; apply Qle_refl.
    + apply Qeq_bool_neq in E.
      destruct (Qltb (x a) (x b)) eqn:E1.
      * apply Qltb_lt in E1.
        rewrite (proj2 (Qltb_ge (x b) (x a))); [reflexivity |].
        now apply Qlt_le_weak.
      * apply Qltb_ge in E1.
        rewrite (proj2 (Qltb_lt (x b) (x a))); [reflexivity |].
        apply Qle_lteq in E1. destruct E1 as [E1 | E1]; [exact E1 |].
        elim E. now symmetry.
  - intros L. apply (drawn_linked c a b N HC HU (HS _ _ L)).
  - intros L.
    rewrite (drawn_unlinked c a b N HC), (drawn_unlinked c b a N HC L);
      [reflexivity |].
    intros F. apply L. now apply HS.
Qed.

Lemma get_in_key (c : Connections) (k : Key) (r : Ring) :
  get c k = Some r -> In (k, r) c.
Proof.
  induction c as [| [k0 r0] c IH]; simpl; [discriminate |].
  destruct (key_eqb k0 k) eqn:E.
  - apply key_eqb_eq in E. intros [= <-]. subst. now left.
  - intros H. right. now apply IH.
Qed.

Lemma frame_centered (c : Connections) (l : list Point) :
  frame c = map (fun p => (id p, p)) l -> centered c.
Proof.
  intros F k r G. apply get_in_key in G.
  assert (Hf : In (k, center r) (frame c))
    by (unfold frame; apply in_map_iff; now exists (k, r)).
  rewrite F in Hf. apply in_map_iff in Hf.
  destruct Hf as (p & [= <- <-] & _). reflexivity.
Qed.

Lemma sample_result_fine :
  NoDup (keys sample_result) /\ centered sample_result /\
  each_ring unique_targets sample_result /\ symmetric sample_result.
Proof.
  assert (G : general_position sample = true) by (vm_compute; reflexivity).
  assert (D : distinct_objects sample = true) by (vm_compute; reflexivity).
  assert (E : snd (delaunay 5 sample) = Ok sample_result)
    by (vm_compute; reflexivity).
  destruct (delaunay_result 5 sample sample_result
              (general_position_coherent sample G D) sample_keys
              (general_position_x sample G) E)
    as ((N & _ & _ & S & _) & U).
  split; [exact N |]. split; [| split; [exact U | exact S]].
  apply (frame_centered _ _ (delaunay_frame 5 sample sample_result sample_keys E)).
Qed.

Lemma render_once_witness :
  linked sample_result (pt 1 3 1) (pt 0 0 0) /\
  snd (render 300 300 sample_result Palette.red (fun _ => None)) = None /\
  drawn sample_result (pt 1 3 1) (pt 0 0 0) = 0%nat /\
  drawn sample_result (pt 0 0 0) (pt 1 3 1) = 1%nat.
Proof.
  destruct sample_result_fine as (N & C & U & S).
  assert (L : linked sample_result (pt 1 3 1) (pt 0 0 0)).
  { eexists. eexists. split; [vm_compute; reflexivity |].
    split; [left; reflexivity | vm_compute; reflexivity]. }
  split; [exact L |].
  destruct (render_once 300 300 Palette.red (fun _ => None) sample_result
                        (pt 1 3 1) (pt 0 0 0) N C U S)
    as (R & _ & _ & A & _).
  destruct (render_once 300 300 Palette.red (fun _ => None) sample_result
                        (pt 0 0 0) (pt 1 3 1) N C U S)
    as (_ & _ & _ & B & _).
  split; [exact R | split; [exact (A L) | exact (B (S _ _ L))]].
Defined.

(** ** The dual as a graph *)

Section Faces.

Variable P : Connections -> Prop.
Hypothesis Pconnect :
  forall p q c c', P c -> connect p q c = Ok c' -> P c'.
Hypothesis Padd :
  forall p c, P c -> get c (id p) = None -> P (addPoint p c).

Lemma dual_keeps (c : Connections) (fuel : nat) :
  forall T faces next st,
    P faces -> _dual fuel c T (faces, next) = Ok st -> P (fst st).
Proof.
  induction fuel as [| fuel IH]; intros T faces next st HP H;
    [discriminate |].
  destruct T as [[a b] c0]. cbn [_dual] in H.
  set (ctr := centerOf next a b c0) in *.
  destruct (has faces (id ctr)) eqn:Hh.
  - now injection H as <-.
  - bind_inv H.
    assert (Hg : get faces (id ctr) = None)
      by (unfold has in Hh; destruct (get faces (id ctr));
          [discriminate | reflexivity]).
    assert (G : forall ns acc st1,
               fold_left
                 (fun (acc : Result (Connections * nat)) (T' : Triangle) =>
                    st' <- acc ;;
                    let '(faces, next) := st' in
                    let '(t0, t1, t2) := T' in
                    let c1 := centerOf next t0 t1 t2 in
                    st'' <- _dual fuel c T' (faces, S next) ;;
                    faces' <- connect ctr c1 (fst st'') ;;
                    Ok (faces', snd st''))
                 ns acc = Ok st1 ->
               exists st0, acc = Ok st0 /\ (P (fst st0) -> P (fst st1))).
    { induction ns as [| T' ns IHn]; intros acc st1 E.
      - simpl in E. exists st1. split; [exact E | tauto].
      - simpl in E. apply IHn in E. destruct E as (st2 & E & K2).
        bind_inv E. destruct v0 as [faces0 next0].
        destruct T' as [[t0 t1] t2]. bind_inv E. bind_inv E.
        injection E as <-. simpl fst in *.
        exists (faces0, next0). split; [exact Hv0 |]. intros P0.
        apply K2. apply (Pconnect _ _ _ _ (IH _ _ _ _ P0 Hv1) Hv2). }
    destruct (G (non_null v) _ st H) as (st0 & E0 & K).
    injection E0 as <-. apply K. simpl. now apply Padd.
Qed.

End Faces.

Lemma addPoint_linked (p : Point) (c : Connections) (a b : Point) :
  get c (id p) = None -> (linked (addPoint p c) a b <-> linked c a b).
Proof.
  intros G. unfold linked, addPoint. split; intros (r & l & Gr & Hl & E);
    exists r, l; (split; [| now split]).
  - rewrite get_set in Gr. destruct (key_eqb (id p) (id a)); [| exact Gr].
    injection Gr as <-. destruct Hl.
  - rewrite get_set. destruct (key_eqb (id p) (id a)) eqn:K; [| exact Gr].
    apply key_eqb_eq in K. congruence.
Qed.

Lemma connect_graph (p q : Point) (c c' : Connections) :
  graph c -> connect p q c = Ok c' -> graph c'.
Proof.
  intros (S & C & K) H. split; [| split].
  - apply (connect_symmetric p q c c' S H).
  - apply (connect_centered p q c c' C H).
  - intros k l Hl. rewrite (connect_keys _ _ _ _ H).
    destruct (connect_both p q c c' H) as ((rp & _ & Gp & _) & (rq & _ & Gq & _) & _).
    destruct (connect_has_link _ _ _ _ _ _ H Hl) as [Hl' | [-> | ->]].
    + now apply (K k).
    + rewrite <- (connect_keys _ _ _ _ H). now apply (get_some_keys c' _ rq).
    + rewrite <- (connect_keys _ _ _ _ H). now apply (get_some_keys c' _ rp).
Qed.

Lemma addPoint_graph (p : Point) (c : Connections) :
  graph c -> get c (id p) = None -> graph (addPoint p c).
Proof.
  intros (S & C & K) G. split; [| split].
  - intros a b. rewrite !(addPoint_linked p c _ _ G). apply S.
  - intros k r. unfold addPoint. rewrite get_set.
    destruct (key_eqb (id p) k) eqn:E; [| apply C].
    apply key_eqb_eq in E. now intros [= <-].
  - intros k l (r & Gr & Hl). unfold addPoint in *. rewrite get_set in Gr.
    apply keys_set_in. right.
    destruct (key_eqb (id p) k); [injection Gr as <-; destruct Hl |].
    apply (K k). now exists r.
Qed.

(** X27.  The map that [dual] returns is an adjacency map on its own
    vertices: it is symmetric, every ring is stored under the key of its
    center, and every link leads to the coordinates of a vertex of the
    map. *)
Theorem dual_graph (fuel : nat) (c d : Connections) :
  dual fuel c = Ok d ->
  symmetric d /\ centered d /\
  (forall k l, has_link d k l -> In (id (point l)) (keys d)).
Proof.
  intros H. unfold dual in H. bind_inv H. bind_inv H. injection H as <-.
  apply (dual_keeps graph connect_graph addPoint_graph c fuel v [] (fresh c) v0);
    [| exact Hv0].
  split; [| split].
  - intros a b (r & l & G & _). discriminate.
  - intros k r G. discriminate.
  - intros k l (r & G & _). discriminate.
Qed.

Lemma dual_graph_witness :
  exists d,
    dual 2 triangle_result = Ok d /\
    symmetric d /\ centered d /\
    (forall k l, has_link d k l -> In (id (point l)) (keys d)).
Proof.
  eexists. split; [vm_compute; reflexivity |].
  apply (dual_graph 2 triangle_result). vm_compute. reflexivity.
Defined.

(** ** Two edge cases and a composition *)

Lemma angle_at_center (c p : Point) :
  id p = id c -> angle_from c p = 0.
Proof.
  intros E. apply id_coincide in E. destruct E as [Ex Ey].
  unfold angle_from, minus, atan2. cbn [fst snd].
  assert (Hy : Qeq_bool (y p - y c) 0 = true)
    by (apply Qeq_bool_iff; rewrite Ey; ring).
  assert (Hx : Qltb (x p - x c) 0 = false)
    by (apply Qltb_ge; rewrite Ex; ring_simplify; apply Qle_refl).
  now rewrite Hy, Hx.
Qed.

(** X28.  [delaunay] does not reject two points with the same coordinates:
    given two such points it returns a map with a single ring, whose center
    is the second point and whose two links, both at angle 0, lead to the
    second point and to the first - the ring is linked to its own
    center. *)
Theorem delaunay_coincident_pair (fuel : nat) (p q : Point) :
  id p = id q ->
  snd (delaunay fuel [p; q]) =
  Ok [(id q, mkRing q [mkLink q 0; mkLink p 0])].
Proof.
  intros E.
  assert (Ex : Qltb (x q) (x p) = false).
  { apply Qltb_ge. apply id_coincide in E. destruct E as [E _].
    rewrite E. apply Qle_refl. }
  rewrite delaunay_long by (simpl; lia).
  assert (Es : sort x [p; q] = [p; q]).
  { unfold sort. simpl. now rewrite Ex. }
  rewrite Es. cbn [snd].
  unfold emptyConnections. simpl fold_left.
  rewrite E, key_eqb_refl.
  unfold connect, getRing. rewrite E. simpl get. rewrite key_eqb_refl.
  cbn [bind]. simpl set. rewrite key_eqb_refl. simpl get.
  rewrite key_eqb_refl. cbn [bind]. simpl set. rewrite key_eqb_refl.
  unfold addConnection. cbn [center links app].
  rewrite (angle_at_center q q eq_refl), (angle_at_center q p E).
  reflexivity.
Qed.

Lemma delaunay_coincident_pair_witness :
  snd (delaunay 0 [pt 0 1 2; pt 1 1 2]) =
  Ok [(id (pt 1 1 2),
       mkRing (pt 1 1 2) [mkLink (pt 1 1 2) 0; mkLink (pt 0 1 2) 0])].
Proof. apply (delaunay_coincident_pair 0 (pt 0 1 2) (pt 1 1 2)). reflexivity. Defined.

Lemma drawn_positive (c : Connections) (a b : Point) :
  NoDup (keys c) -> centered c ->
  ((0 < drawn c a b)%nat <-> linked c b a /\ x a < x b).
Proof.
  intros N HC. rewrite drawn_ring;
    [| exact N | intros k r' H'; apply HC; now apply entry_get].
  split.
  - destruct (get c (id b)) as [r |] eqn:G; [| simpl; lia].
    intros P.
    destruct (filter (fun l => lt (point l) (center r) &&
                               key_eqb (id (point l)) (id a)) (links r))
      as [| l rest] eqn:F; [simpl in P; lia |].
    assert (Hl : In l (l :: rest)) by now left.
    rewrite <- F in Hl. apply filter_In in Hl. destruct Hl as [Hl T].
    apply andb_true_iff in T. destruct T as [T1 T2].
    apply key_eqb_eq in T2. split.
    + now exists r, l.
    + rewrite (lt_by_key (point l) a (center r) b T2 (HC _ _ G)) in T1.
      now apply Qltb_lt.
  - intros [(r & l & G & Hl & E) L]. rewrite G.
    assert (T : In l (filter (fun l => lt (point l) (center r) &&
                                       key_eqb (id (point l)) (id a))
                             (links r))).
    { apply filter_In. split; [exact Hl |].
      rewrite (lt_by_key (point l) a (center r) b E (HC _ _ G)), E,
        key_eqb_refl, andb_true_r.
      now apply Qltb_lt. }
    destruct (filter _ (links r)); [destruct T | simpl; lia].
Qed.

(** X29.  [render] after [delaunay].  Whatever map [delaunay] returns for
    points that are distinct objects with distinct coordinates, [render]
    draws it without an error, and the segments it strokes are those of the
    links that lead to the left: there is a segment from one point to
    another exactly when the two are linked and the first is strictly to
    the left of the second. *)
Theorem render_delaunay (WIDTH HEIGHT : Q) (color : String.string)
        (colors : Colors) (fuel : nat) (pts : list Point) (c : Connections) :
  coherent pts -> NoDup (map id pts) ->
  snd (delaunay fuel pts) = Ok c ->
  snd (render WIDTH HEIGHT c color colors) = None /\
  paths (fst (render WIDTH HEIGHT c color colors)) =
  flat_map (fun e => drawEdge WIDTH HEIGHT (fst e) (snd e)) (leftward c) /\
  forall a b, (0 < drawn c a b)%nat <-> linked c a b /\ x a < x b.
Proof.
  intros Hc Hn E.
  pose proof (frame_centered _ _ (delaunay_frame fuel pts c Hn E)) as HC.
  destruct (delaunay fuel pts) as [s r] eqn:D. simpl in E. subst r.
  destruct (delaunay_inv fuel pts s c Hc Hn D) as (N & _ & _ & S & _).
  destruct (render_points_ok WIDTH HEIGHT c color colors c
              (centered_stored c N HC)) as [E1 E2].
  split; [| split].
  - unfold render.
    destruct (render_points WIDTH HEIGHT c color colors (getPoints c)).
    exact E1.
  - unfold render.
    destruct (render_points WIDTH HEIGHT c color colors (getPoints c)).
    exact E2.
  - intros a b. rewrite (drawn_positive c a b N HC). split.
    + intros [L X]. split; [now apply S | exact X].
    + intros [L X]. split; [now apply S | exact X].
Qed.

Lemma render_delaunay_witness :
  coherent sample /\ NoDup (map id sample) /\
  snd (delaunay 5 sample) = Ok sample_result /\
  snd (render 300 300 sample_result Palette.red (fun _ => None)) = None /\
  forall a b, (0 < drawn sample_result a b)%nat <->
              linked sample_result a b /\ x a < x b.
Proof.
  assert (G : general_position sample = true) by (vm_compute; reflexivity).
  assert (D : distinct_objects sample = true) by (vm_compute; reflexivity).
  assert (E : snd (delaunay 5 sample) = Ok sample_result)
    by (vm_compute; reflexivity).
  pose proof (general_position_coherent sample G D) as Hc.
  destruct (render_delaunay 300 300 Palette.red (fun _ => None) 5 sample
                            sample_result Hc sample_keys E) as (A & _ & B).
  split; [exact Hc | split; [exact sample_keys | split; [exact E |]]].
  split; [exact A | exact B].
Defined.

(** ** The errors of the dual *)

Lemma avoids_bind {A B : Type} (e : Error) (r : Result A) (k : A -> Result B) :
  avoids e r -> (forall a, avoids e (k a)) -> avoids e (bind r k).
Proof.
  intros Hr Hk. destruct r as [a | e']; simpl; [apply Hk |].
  intros [= ->]. now apply Hr.
Qed.

Lemma avoids_getRing (e : Error) (c : Connections) (k : Key) :
  e <> TypeError -> avoids e (getRing c k).
Proof.
  intros N. unfold getRing, avoids. destruct (get c k); congruence.
Qed.

Lemma avoids_next (e : Error) (ref : Reference) (ring : Ring) (d : Z) :
  e <> TypeError -> avoids e (nextConnection ref ring d).
Proof.
  intros N. destruct ref; unfold nextConnection, nextConnectionFromAngle, avoids;
    match goal with |- context [match ?o with _ => _ end] => destruct o end;
    congruence.
Qed.

Lemma avoids_connect (e : Error) (p q : Point) (c : Connections) :
  e <> TypeError -> avoids e (connect p q c).
Proof.
  intros N. unfold connect.
  apply avoids_bind; [now apply avoids_getRing | intros rp].
  apply avoids_bind; [now apply avoids_getRing | intros rq]. discriminate.
Qed.

Lemma avoids_rightTriangle (e : Error) (c : Connections) (p q : Point) :
  e <> TypeError -> avoids e (rightTriangle c p q).
Proof.
  intros N. unfold rightTriangle.
  apply avoids_bind; [now apply avoids_getRing | intros rq].
  apply avoids_bind; [now apply avoids_next | intros r].
  apply avoids_bind; [now apply avoids_getRing | intros rp].
  apply avoids_bind; [now apply avoids_next | intros r']. discriminate.
Qed.

Lemma avoids_mapR {A B : Type} (e : Error) (f : A -> Result B) (xs : list A) :
  (forall a, avoids e (f a)) -> avoids e (mapR f xs).
Proof.
  intros H. induction xs as [| a xs IH]; simpl; [discriminate |].
  apply avoids_bind; [apply H | intros b].
  apply avoids_bind; [exact IH | intros bs]. discriminate.
Qed.

Lemma avoids_dual (e : Error) (c : Connections) (fuel : nat) :
  e <> TypeError -> e <> OutOfFuel ->
  forall T st, avoids e (_dual fuel c T st).
Proof.
  intros N1 N2. induction fuel as [| fuel IH]; intros T st;
    [unfold avoids; simpl; congruence |].
  destruct T as [[a b] c0], st as [faces next]. cbn [_dual].
  set (ctr := centerOf next a b c0). clearbody ctr.
  destruct (has faces (id ctr)); [discriminate |].
  apply avoids_bind;
    [apply avoids_mapR; intros pair; now apply avoids_rightTriangle |].
  intros found. generalize (non_null found) as ns.
  assert (G : forall ns acc,
             avoids e acc ->
             avoids e
               (fold_left
                  (fun (acc : Result (Connections * nat)) (T' : Triangle) =>
                     st' <- acc ;;
                     let '(faces, next) := st' in
                     let '(t0, t1, t2) := T' in
                     let c1 := centerOf next t0 t1 t2 in
                     st'' <- _dual fuel c T' (faces, S next) ;;
                     faces' <- connect ctr c1 (fst st'') ;;
                     Ok (faces', snd st''))
                  ns acc)).
  { induction ns as [| T' ns IHn]; intros acc Ha; [exact Ha |].
    cbn [fold_left]. apply IHn. apply avoids_bind; [exact Ha |].
    intros [faces0 next0]. destruct T' as [[t0 t1] t2].
    apply avoids_bind; [apply IH | intros st''].
    apply avoids_bind; [now apply avoids_connect | intros f]. discriminate. }
  intros ns. apply G. discriminate.
Qed.

(** X30.  The errors of [dual].  MalformedTriangulation comes from the seed
    edge only: [dual] raises it exactly when [randomTriangle] does, which is
    exactly when the map has a first ring with a first link and
    [rightTriangle] finds no triangle on that edge in either orientation;
    the walk over the triangles never raises it.  [dual] never raises
    InsufficientPoints. *)
Theorem dual_errors (fuel : nat) (c : Connections) :
  (dual fuel c = Err MalformedTriangulation <->
   randomTriangle c = Err MalformedTriangulation) /\
  (randomTriangle c = Err MalformedTriangulation <->
   exists k ring l ls rest,
     c = (k, ring) :: rest /\ links ring = l :: ls /\
     rightTriangle c (center ring) (point l) = Ok None /\
     rightTriangle c (point l) (center ring) = Ok None) /\
  dual fuel c <> Err InsufficientPoints.
Proof.
  assert (M : MalformedTriangulation <> TypeError) by discriminate.
  assert (M' : MalformedTriangulation <> OutOfFuel) by discriminate.
  assert (I : InsufficientPoints <> TypeError) by discriminate.
  assert (I' : InsufficientPoints <> OutOfFuel) by discriminate.
  split; [| split].
  - unfold dual. split.
    + destruct (randomTriangle c) as [T | e]; simpl; [| intros [= ->]; reflexivity].
      intros H. exfalso.
      pose proof (avoids_dual MalformedTriangulation c fuel M M' T
                              ([], fresh c)) as A.
      destruct (_dual fuel c T ([], fresh c)); simpl in H;
        [discriminate H | unfold avoids in A; congruence].
    + intros ->. reflexivity.
  - unfold randomTriangle. split.
    + destruct c as [| [k ring] rest]; [discriminate |].
      destruct (links ring) as [| l ls] eqn:El; [discriminate |].
      pose proof (avoids_rightTriangle MalformedTriangulation
                    ((k, ring) :: rest) (center ring) (point l) M) as A1.
      pose proof (avoids_rightTriangle MalformedTriangulation
                    ((k, ring) :: rest) (point l) (center ring) M) as A2.
      destruct (rightTriangle ((k, ring) :: rest) (center ring) (point l))
        as [[t |] | e1] eqn:R1; simpl; try discriminate;
        [| intros [= ->]; now elim A1].
      destruct (rightTriangle ((k, ring) :: rest) (point l) (center ring))
        as [[t |] | e2] eqn:R2; simpl; try discriminate;
        [| intros [= ->]; now elim A2].
      intros _. exists k, ring, l, ls, rest. repeat split; assumption.
    + intros (k & ring & l & ls & rest & -> & El & R1 & R2).
      rewrite El, R1. simpl. now rewrite R2.
  - unfold dual. intros H.
    destruct (randomTriangle c) as [T | e] eqn:R; simpl in H.
    + pose proof (avoids_dual InsufficientPoints c fuel I I' T
                              ([], fresh c)) as A.
      destruct (_dual fuel c T ([], fresh c)); simpl in H;
        [discriminate H | unfold avoids in A; congruence].
    + injection H as ->. revert R. unfold randomTriangle.
      destruct c as [| [k ring] rest]; [discriminate |].
      destruct (links ring) as [| l ls]; [discriminate |].
      pose proof (avoids_rightTriangle InsufficientPoints
                    ((k, ring) :: rest) (center ring) (point l) I) as A1.
      pose proof (avoids_rightTriangle InsufficientPoints
                    ((k, ring) :: rest) (point l) (center ring) I) as A2.
      destruct (rightTriangle ((k, ring) :: rest) (center ring) (point l))
        as [[t |] | e1]; simpl; try discriminate;
        [| intros [= ->]; now elim A1].
      destruct (rightTriangle ((k, ring) :: rest) (point l) (center ring))
        as [[t |] | e2]; simpl; try discriminate.
      intros [= ->]; now elim A2.
Qed.

Lemma dual_errors_witness :
  dual 3 one_edge = Err MalformedTriangulation /\
  dual 3 one_edge <> Err InsufficientPoints.
Proof.
  destruct (dual_errors 3 one_edge) as (A & _ & B).
  split; [apply A; vm_compute; reflexivity | exact B].
Defined.

(** * The determinants on doubles *)

(** ** A run that does not round computes the exact value *)

Lemma exact_sound (opF : PrimFloat.float -> PrimFloat.float -> PrimFloat.float)
      (opQ : Q -> Q -> Q) (a b : PrimFloat.float) :
  Double.exact opF opQ a b = true ->
  PrimFloat.is_finite (opF a b) = true /\
  Double.value (opF a b) == opQ (Double.value a) (Double.value b).
Proof.
  unfold Double.exact. rewrite !andb_true_iff.
  intros [[[_ _] F] E]. split; [exact F | now apply Qeq_bool_iff].
Qed.

Lemma value_nan : Double.value PrimFloat.nan = 0.
Proof. reflexivity. Qed.

Lemma value_entry (M : Double.Matrix) (i j : nat) :
  Double.value (Double.entry M i j) = entry (exact_matrix M) i j.
Proof.
  unfold Double.entry, entry, exact_matrix.
  change (@nil Q) with (map Double.value []).
  rewrite (map_nth (map Double.value)), <- value_nan.
  symmetry. apply map_nth.
Qed.

Lemma exact_matrix_length (M : Double.Matrix) :
  length (exact_matrix M) = length M.
Proof. apply length_map. Qed.

Lemma exact_matrix_tl (M : Double.Matrix) :
  exact_matrix (tl M) = tl (exact_matrix M).
Proof. now destruct M. Qed.

Lemma exact_matrix_drop (i : nat) (M : Double.Matrix) :
  exact_matrix (map (Double.Cofactor.drop_col i) M) =
  map (Cofactor.drop_col i) (exact_matrix M).
Proof.
  unfold exact_matrix. rewrite !map_map. apply map_ext. intros row.
  unfold Double.Cofactor.drop_col, Cofactor.drop_col.
  now rewrite map_app, firstn_map, skipn_map.
Qed.

(** ** The sum over the permutations *)

Lemma fold_product_eq (M : Matrix) (p : list nat) (rows : list nat) :
  forall u v, u == v ->
    fold_left (fun x i => x * entry M i (nth i p 0%nat - 1)) rows u ==
    fold_left (fun x i => x * entry M i (nth i p 0%nat - 1)) rows v.
Proof.
  induction rows as [| i rows IH]; intros u v E; simpl; [exact E |].
  apply IH. now rewrite E.
Qed.

Lemma product_sound (M : Double.Matrix) (p : list nat) (rows : list nat) :
  forall u,
    PrimFloat.is_finite u = true ->
    Double.product_unrounded M p rows u = true ->
    PrimFloat.is_finite
      (fold_left (fun x i => PrimFloat.mul x (Double.entry M i (nth i p 0%nat - 1)))
                 rows u) = true /\
    Double.value
      (fold_left (fun x i => PrimFloat.mul x (Double.entry M i (nth i p 0%nat - 1)))
                 rows u)
    == fold_left (fun x i => x * entry (exact_matrix M) i (nth i p 0%nat - 1))
                 rows (Double.value u).
Proof.
  induction rows as [| i rows IH]; intros u Fu H; simpl in *.
  - split; [exact Fu | reflexivity].
  - apply andb_true_iff in H. destruct H as [E H].
    apply exact_sound in E. destruct E as [F E].
    destruct (IH _ F H) as [F' E']. split; [exact F' |].
    rewrite E'. apply fold_product_eq. now rewrite E, value_entry.
Qed.

Lemma power_parity (k : nat) :
  Qpower (- (1)) (Z.of_nat k) == if Nat.even k then 1 else - (1).
Proof.
  induction k as [| k IH]; [reflexivity |].
  rewrite Nat2Z.inj_succ, <- Z.add_1_r, Qpower_plus by discriminate.
  rewrite IH, Nat.even_succ, <- Nat.negb_even.
  destruct (Nat.even k); reflexivity.
Qed.

Lemma sign_of_same (n i : nat) (s : PrimFloat.float) (t : Q) :
  (s = Double.pow_minus_one 0 /\ t == 1) \/
  (s = Double.pow_minus_one 1 /\ t == - (1)) ->
  (Double.Permutations.sign_of n i s = Double.pow_minus_one 0 /\
   Permutations.sign_of n i t == 1) \/
  (Double.Permutations.sign_of n i s = Double.pow_minus_one 1 /\
   Permutations.sign_of n i t == - (1)).
Proof.
  unfold Double.Permutations.sign_of, Permutations.sign_of.
  intros H. rewrite (power_parity (n - i + 1)).
  unfold Double.pow_minus_one.
  destruct (Nat.even (n - i + 1)), H as [[-> E] | [-> E]]; rewrite E.
  - left. split; reflexivity.
  - right. split; reflexivity.
  - right. split; reflexivity.
  - left. split; reflexivity.
Qed.

Lemma extend_same (n : nat) (l : list (list nat * PrimFloat.float))
      (l' : list (Permutations.Permutation * Q)) :
  Forall2 same_entry l l' ->
  Forall2 same_entry (Double.Permutations.extend n l) (Permutations.extend n l').
Proof.
  induction 1 as [| ps qs l l' [Ep Es] _ IH]; [constructor |].
  unfold Double.Permutations.extend, Permutations.extend in *.
  cbn [flat_map]. apply Forall2_app; [clear IH | exact IH].
  induction (seq 0 n) as [| i r IHr]; cbn [map]; constructor; [| exact IHr].
  split; cbn [fst snd].
  - unfold Double.Permutations.insert_at, Permutations.insert_at. now rewrite Ep.
  - now apply sign_of_same.
Qed.

Lemma S_same (n : nat) :
  Forall2 same_entry (Double.Permutations.S n) (Permutations.S n).
Proof.
  induction n as [| n IH]; [constructor |].
  destruct n as [| n].
  - repeat constructor.
  - change (Double.Permutations.S (S (S n)))
      with (Double.Permutations.extend (S (S n)) (Double.Permutations.S (S n))).
    change (Permutations.S (S (S n)))
      with (Permutations.extend (S (S n)) (Permutations.S (S n))).
    now apply extend_same.
Qed.

Lemma same_entry_value (ps : list nat * PrimFloat.float)
      (qs : Permutations.Permutation * Q) :
  same_entry ps qs ->
  PrimFloat.is_finite (snd ps) = true /\ Double.value (snd ps) == snd qs.
Proof.
  intros [_ [[-> E] | [-> E]]]; rewrite E; split; reflexivity.
Qed.

Lemma fold_sum_eq (M : Matrix) (l : list (Permutations.Permutation * Q)) :
  forall u v, u == v ->
    fold_left
      (fun d (ps : Permutations.Permutation * Q) =>
         d + fold_left (fun x i => x * entry M i (nth i (fst ps) 0%nat - 1))
                       (seq 0 (length M)) (snd ps)) l u ==
    fold_left
      (fun d (ps : Permutations.Permutation * Q) =>
         d + fold_left (fun x i => x * entry M i (nth i (fst ps) 0%nat - 1))
                       (seq 0 (length M)) (snd ps)) l v.
Proof.
  induction l as [| ps l IH]; intros u v E; simpl; [exact E |].
  apply IH. now rewrite E.
Qed.

Lemma sum_sound (M : Double.Matrix) (l : list (list nat * PrimFloat.float))
      (l' : list (Permutations.Permutation * Q)) :
  Forall2 same_entry l l' ->
  forall d,
    PrimFloat.is_finite d = true ->
    Double.sum_unrounded M l d = true ->
    PrimFloat.is_finite
      (fold_left (fun d ps => PrimFloat.add d (Double.term M ps)) l d) = true /\
    Double.value (fold_left (fun d ps => PrimFloat.add d (Double.term M ps)) l d)
    == fold_left
         (fun d (ps : Permutations.Permutation * Q) =>
            d + fold_left
                  (fun x i => x * entry (exact_matrix M) i (nth i (fst ps) 0%nat - 1))
                  (seq 0 (length (exact_matrix M))) (snd ps))
         l' (Double.value d).
Proof.
  induction 1 as [| ps qs l l' Hs _ IH]; intros d Fd H; simpl in *.
  - split; [exact Fd | reflexivity].
  - rewrite !andb_true_iff in H. destruct H as [[P A] H].
    destruct (same_entry_value ps qs Hs) as [Fs Es].
    destruct (product_sound M (fst ps) _ _ Fs P) as [_ Ep].
    apply exact_sound in A. destruct A as [Fa Ea].
    destruct (IH _ Fa H) as [F' E']. split; [exact F' |].
    rewrite E'. apply fold_sum_eq. rewrite Ea. apply Qplus_comp; [reflexivity |].
    unfold Double.term. rewrite Ep, exact_matrix_length.
    destruct Hs as [-> _]. now apply fold_product_eq.
Qed.

(** [det] of [main.ts], when none of its operations rounds. *)
Lemma det_sound (M : Double.Matrix) :
  Double.det_unrounded M = true ->
  PrimFloat.is_finite (Double.det M) = true /\
  Double.value (Double.det M) == det (exact_matrix M).
Proof.
  intros H.
  destruct (sum_sound M _ _ (S_same (length M)) PrimFloat.zero eq_refl H)
    as [F E].
  split; [exact F |].
  unfold det. rewrite exact_matrix_length in *. exact E.
Qed.

(** ** The expansion along the first row *)

Lemma cofactor_sign_value (i : nat) :
  PrimFloat.is_finite (Double.Cofactor.sign i) = true /\
  Double.value (Double.Cofactor.sign i) == Cofactor.sign i.
Proof.
  unfold Double.Cofactor.sign, Cofactor.sign.
  rewrite <- Nat.bit0_mod, Nat.bit0_odd, <- Nat.negb_even.
  destruct (Nat.even i); split; reflexivity.
Qed.

Lemma fold_row_eq (m : nat) (M : Matrix) (rows : list nat) :
  forall u v, u == v ->
    fold_left
      (fun d i =>
         d + Cofactor.sign i * entry M 0 i *
             Cofactor.det_rows m (map (Cofactor.drop_col i) (tl M))) rows u ==
    fold_left
      (fun d i =>
         d + Cofactor.sign i * entry M 0 i *
             Cofactor.det_rows m (map (Cofactor.drop_col i) (tl M))) rows v.
Proof.
  induction rows as [| i rows IH]; intros u v E; simpl; [exact E |].
  apply IH. now rewrite E.
Qed.

Lemma row_sound (m : nat) (M : Double.Matrix)
      (IHm : forall N : Double.Matrix,
          Double.rows_unrounded m N = true ->
          Double.value (Double.Cofactor.det_rows m N) ==
          Cofactor.det_rows m (exact_matrix N))
      (rows : list nat) :
  forall d,
    PrimFloat.is_finite d = true ->
    Double.row_unrounded (Double.rows_unrounded m) m M rows d = true ->
    PrimFloat.is_finite
      (fold_left (fun d i => PrimFloat.add d (Double.cofactor_term m M i)) rows d)
    = true /\
    Double.value
      (fold_left (fun d i => PrimFloat.add d (Double.cofactor_term m M i)) rows d)
    == fold_left
         (fun d i =>
            d + Cofactor.sign i * entry (exact_matrix M) 0 i *
                Cofactor.det_rows m
                  (map (Cofactor.drop_col i) (tl (exact_matrix M))))
         rows (Double.value d).
Proof.
  induction rows as [| i rows IH]; intros d Fd H; simpl in *.
  - split; [exact Fd | reflexivity].
  - rewrite !andb_true_iff in H. destruct H as [[[[R A] B] C] H].
    apply exact_sound in A, B, C.
    destruct A as [_ Ea], B as [_ Eb], C as [Fc Ec].
    destruct (IH _ Fc H) as [F' E']. split; [exact F' |].
    rewrite E'. apply fold_row_eq. rewrite Ec.
    apply Qplus_comp; [reflexivity |].
    unfold Double.cofactor_term. rewrite Eb, Ea, (IHm _ R).
    rewrite (proj2 (cofactor_sign_value i)), value_entry.
    now rewrite exact_matrix_drop, exact_matrix_tl.
Qed.

Lemma rows_sound (n : nat) :
  forall M : Double.Matrix,
    Double.rows_unrounded n M = true ->
    PrimFloat.is_finite (Double.Cofactor.det_rows n M) = true /\
    Double.value (Double.Cofactor.det_rows n M) ==
    Cofactor.det_rows n (exact_matrix M).
Proof.
  induction n as [| n IH]; intros M H.
  - split; reflexivity.
  - cbn [Double.rows_unrounded] in H.
    destruct (row_sound n M (fun N HN => proj2 (IH N HN)) _ PrimFloat.zero
                       eq_refl H) as [F E].
    split; [exact F |].
    cbn [Cofactor.det_rows]. rewrite exact_matrix_length. exact E.
Qed.

(** [det] of the older source file, when none of its operations rounds. *)
Lemma cofactor_sound (M : Double.Matrix) :
  Double.cofactor_unrounded M = true ->
  PrimFloat.is_finite (Double.Cofactor.det M) = true /\
  Double.value (Double.Cofactor.det M) == Cofactor.det (exact_matrix M).
Proof.
  intros H. unfold Cofactor.det. rewrite exact_matrix_length.
  now apply rows_sound.
Qed.

(** C8, as the code has it.  Both determinants are computed in double
    arithmetic, each with its own order of operations.  For a square matrix
    of size 3 or 4: when no multiplication and no addition of the
    permutation expansion of main.ts rounds, its result is finite and
    stands for the determinant of the Leibniz formula; the same holds of
    the expansion along the first row of the older source file; and when
    neither run rounds, the two results stand for the same number. *)
Theorem determinants_when_exact (n : nat) (M : Double.Matrix) :
  n = 3%nat \/ n = 4%nat -> square n (exact_matrix M) ->
  (Double.det_unrounded M = true ->
   PrimFloat.is_finite (Double.det M) = true /\
   Double.value (Double.det M) == determinant n (exact_matrix M)) /\
  (Double.cofactor_unrounded M = true ->
   PrimFloat.is_finite (Double.Cofactor.det M) = true /\
   Double.value (Double.Cofactor.det M) == determinant n (exact_matrix M)) /\
  (Double.det_unrounded M = true -> Double.cofactor_unrounded M = true ->
   Double.value (Double.det M) == Double.value (Double.Cofactor.det M)).
Proof.
  intros Hn HS.
  assert (A : det (exact_matrix M) == determinant n (exact_matrix M))
    by (destruct Hn as [-> | ->];
        [now apply det_3_leibniz | now apply det_4_leibniz]).
  assert (B : Cofactor.det (exact_matrix M) == determinant n (exact_matrix M))
    by (destruct Hn as [-> | ->];
        [now apply cofactor_3_leibniz | now apply cofactor_4_leibniz]).
  split; [| split].
  - intros H. destruct (det_sound M H) as [F E]. split; [exact F |].
    now rewrite E.
  - intros H. destruct (cofactor_sound M H) as [F E]. split; [exact F |].
    now rewrite E.
  - intros H H'. rewrite (proj2 (det_sound M H)), (proj2 (cofactor_sound M H')).
    now rewrite A, B.
Qed.

Lemma determinants_when_exact_witness :
  square 3 (exact_matrix Double.small) /\
  Double.det_unrounded Double.small = true /\
  Double.cofactor_unrounded Double.small = true /\
  Double.value (Double.det Double.small) ==
  determinant 3 (exact_matrix Double.small) /\
  Double.value (Double.det Double.small) ==
  Double.value (Double.Cofactor.det Double.small).
Proof.
  assert (S : square 3 (exact_matrix Double.small))
    by (split; [reflexivity | repeat constructor]).
  assert (U : Double.det_unrounded Double.small = true)
    by (vm_compute; reflexivity).
  assert (V : Double.cofactor_unrounded Double.small = true)
    by (vm_compute; reflexivity).
  destruct (determinants_when_exact 3 Double.small (or_introl eq_refl) S)
    as (A & _ & B).
  split; [exact S | split; [exact U | split; [exact V |]]].
  split; [exact (proj2 (A U)) | exact (B U V)].
Defined.

(** C8, as stated, fails.  On the matrix of the doubles nearest to 0.1,
    0.2, ..., 0.9 the permutation expansion returns a negative number and
    the expansion along the first row a positive one, and neither stands
    for the determinant of the matrix. *)
Lemma determinants_differ :
  square 3 (exact_matrix Double.tenths) /\
  PrimFloat.ltb (Double.det Double.tenths) PrimFloat.zero = true /\
  PrimFloat.ltb PrimFloat.zero (Double.Cofactor.det Double.tenths) = true /\
  Double.det Double.tenths <> Double.Cofactor.det Double.tenths /\
  ~ Double.value (Double.det Double.tenths) ==
    determinant 3 (exact_matrix Double.tenths) /\
  ~ Double.value (Double.Cofactor.det Double.tenths) ==
    determinant 3 (exact_matrix Double.tenths).
Proof.
  split; [split; [reflexivity | repeat constructor] |].
  split; [vm_compute; reflexivity |].
  split; [vm_compute; reflexivity |].
  split; [| split].
  - intros E.
    assert (H : PrimFloat.ltb (Double.det Double.tenths) PrimFloat.zero = true)
      by (vm_compute; reflexivity).
    rewrite E in H. vm_compute in H. discriminate H.
  - intros E. apply Qeq_bool_iff in E. vm_compute in E. discriminate E.
  - intros E. apply Qeq_bool_iff in E. vm_compute in E. discriminate E.
Qed.

(** X23.  The two determinants on doubles, for every size.  For a square
    matrix of any size from 1 on: when neither the sum over the table of
    permutations of [main.ts] nor the expansion along the first row of the
    older source file rounds in any of its multiplications and additions,
    both results are finite and stand for the determinant of the Leibniz
    formula. *)
Theorem determinants_every_size (n : nat) (M : Double.Matrix) :
  (1 <= n)%nat -> square n (exact_matrix M) ->
  Double.det_unrounded M = true -> Double.cofactor_unrounded M = true ->
  (PrimFloat.is_finite (Double.det M) = true /\
   Double.value (Double.det M) == determinant n (exact_matrix M)) /\
  (PrimFloat.is_finite (Double.Cofactor.det M) = true /\
   Double.value (Double.Cofactor.det M) == determinant n (exact_matrix M)).
Proof.
  intros Hn HS U V. destruct n as [| n]; [lia |].
  pose proof (det_leibniz n (exact_matrix M) (proj1 HS)) as A.
  assert (B : det (exact_matrix M) == Cofactor.det (exact_matrix M)).
  { unfold Cofactor.det. rewrite (proj1 HS). now apply det_rows_agree. }
  destruct (det_sound M U) as [F E], (cofactor_sound M V) as [F' E'].
  split; (split; [assumption |]).
  - now rewrite E.
  - now rewrite E', <- B.
Qed.

Lemma determinants_every_size_witness :
  (PrimFloat.is_finite (Double.det Double.wide) = true /\
   Double.value (Double.det Double.wide) ==
   determinant 5 (exact_matrix Double.wide)) /\
  (PrimFloat.is_finite (Double.Cofactor.det Double.wide) = true /\
   Double.value (Double.Cofactor.det Double.wide) ==
   determinant 5 (exact_matrix Double.wide)).
Proof.
  apply (determinants_every_size 5);
    [lia | split; [reflexivity | repeat constructor]
     | vm_compute; reflexivity | vm_compute; reflexivity].
Defined.

(** * The predicates on doubles *)

Lemma double_includes_object (arr : list Double.Point) (p : Double.Point) :
  Double.includes arr p = true <->
  exists a, In a arr /\ Double.oid a = Double.oid p.
Proof.
  unfold Double.includes, Double.same. rewrite existsb_exists.
  split; intros (a & Ha & E); exists a; (split; [exact Ha |]);
    cbv beta in *; now apply Nat.eqb_eq.
Qed.

Lemma sorted_ends (a b : Double.Point) :
  Double.sort Double.by_x [a; b] =
  [fst (Double.canonical a b); snd (Double.canonical a b)].
Proof.
  unfold Double.sort, Double.canonical, Double.by_x. simpl.
  now destruct (PrimFloat.ltb _ _).
Qed.

(** C5, as the code has it.  The guards of the predicates compare objects:
    [belowLine] and [aboveLine] return false when [p] is the object [a] or
    the object [b], and [inCircle] returns false when [p] is the object
    [a], [b] or [c].  For every other [p], a second object with the
    coordinates of [a] included, each predicate is the sign test of its
    determinant as [det] computes it in doubles: [belowLine] that the
    orientation of (lo, hi, p) is negative and [aboveLine] that it is
    positive, where (lo, hi) are the two ends in the order of the sort -
    exchanged when the difference [b.x - a.x] is negative - and [inCircle]
    that the lifted determinant of (a, b, c, p) is positive. *)
Theorem coincidence_guards (p a b c : Double.Point) :
  (Double.oid p = Double.oid a \/ Double.oid p = Double.oid b ->
   Double.belowLine p (a, b) = false /\ Double.aboveLine p (a, b) = false) /\
  (Double.oid p = Double.oid a \/ Double.oid p = Double.oid b \/
   Double.oid p = Double.oid c ->
   Double.inCircle p (a, b, c) = false) /\
  (Double.oid p <> Double.oid a -> Double.oid p <> Double.oid b ->
   let lo := fst (Double.canonical a b) in
   let hi := snd (Double.canonical a b) in
   Double.belowLine p (a, b) =
   PrimFloat.ltb (Double.orientation lo hi p) PrimFloat.zero /\
   Double.aboveLine p (a, b) =
   PrimFloat.ltb PrimFloat.zero (Double.orientation lo hi p)) /\
  (Double.oid p <> Double.oid a -> Double.oid p <> Double.oid b ->
   Double.oid p <> Double.oid c ->
   Double.inCircle p (a, b, c) =
   PrimFloat.ltb PrimFloat.zero (Double.lifted a b c p)).
Proof.
  split; [| split; [| split]].
  - intros H.
    assert (I : Double.includes [a; b] p = true).
    { apply double_includes_object. destruct H as [H | H];
        [exists a | exists b]; (split; [simpl; tauto | now symmetry]). }
    unfold Double.belowLine, Double.aboveLine. now rewrite I.
  - intros H.
    assert (I : Double.includes [a; b; c] p = true).
    { apply double_includes_object. destruct H as [H | [H | H]];
        [exists a | exists b | exists c];
        (split; [simpl; tauto | now symmetry]). }
    unfold Double.inCircle. now rewrite I.
  - intros Na Nb lo hi.
    assert (I : Double.includes [a; b] p = false).
    { destruct (Double.includes [a; b] p) eqn:I; [| reflexivity].
      apply double_includes_object in I. destruct I as (t & [<- | [<- | []]] & E);
        [elim Na | elim Nb]; now symmetry. }
    unfold Double.belowLine, Double.aboveLine.
    rewrite I, sorted_ends. split; reflexivity.
  - intros Na Nb Nc.
    assert (I : Double.includes [a; b; c] p = false).
    { destruct (Double.includes [a; b; c] p) eqn:I; [| reflexivity].
      apply double_includes_object in I.
      destruct I as (t & [<- | [<- | [<- | []]]] & E);
        [elim Na | elim Nb | elim Nc]; now symmetry. }
    unfold Double.inCircle. now rewrite I.
Qed.

Lemma coincidence_guards_witness :
  Double.belowLine Double.line_b (Double.line_a, Double.line_b) = false /\
  Double.aboveLine Double.line_b (Double.line_a, Double.line_b) = false /\
  Double.belowLine Double.line_b_copy (Double.line_b, Double.line_a) =
  PrimFloat.ltb
    (Double.orientation Double.line_a Double.line_b Double.line_b_copy)
    PrimFloat.zero.
Proof.
  destruct (coincidence_guards Double.line_b Double.line_a Double.line_b
                               Double.line_a) as (G1 & _).
  destruct (coincidence_guards Double.line_b_copy Double.line_b Double.line_a
                               Double.line_a) as (_ & _ & G3 & _).
  split; [exact (proj1 (G1 (or_intror eq_refl))) |].
  split; [exact (proj2 (G1 (or_intror eq_refl))) |].
  assert (N1 : Double.oid Double.line_b_copy <> Double.oid Double.line_b)
    by discriminate.
  assert (N2 : Double.oid Double.line_b_copy <> Double.oid Double.line_a)
    by discriminate.
  exact (proj1 (G3 N1 N2)).
Defined.

(** C5, as stated, fails.  A point that is a second object with the
    coordinates of the right end of the line from (0, 0.1) to (0.1, 0.9) is
    below that line for [belowLine]: the guard does not see it, and the
    determinant, which is zero on the reals, is computed as a negative
    number. *)
Lemma coincident_point_below :
  Double.x Double.line_b_copy = Double.x Double.line_b /\
  Double.y Double.line_b_copy = Double.y Double.line_b /\
  Double.belowLine Double.line_b_copy (Double.line_a, Double.line_b) = true.
Proof.
  split; [reflexivity | split; [reflexivity |]].
  vm_compute. reflexivity.
Qed.

(** * The builder on doubles *)

(** ** The sort *)

Section DoubleSort.

Variable A : Type.
Variable cmp : A -> A -> PrimFloat.float.

Lemma double_insert_perm (a : A) (l : list A) :
  Permutation (Double.insert cmp a l) (a :: l).
Proof.
  induction l as [| b l IH]; simpl; [apply Permutation_refl |].
  destruct (PrimFloat.ltb (cmp a b) _); [apply Permutation_refl |].
  rewrite IH. apply perm_swap.
Qed.

Lemma double_sort_perm (l : list A) : Permutation (Double.sort cmp l) l.
Proof.
  unfold Double.sort.
  assert (G : forall acc,
             Permutation (fold_left (fun acc a => Double.insert cmp a acc) l acc)
                         (acc ++ l)).
  { induction l as [| a l IH]; intros acc; simpl.
    - now rewrite app_nil_r.
    - rewrite IH, double_insert_perm. apply Permutation_middle. }
  apply (G []).
Qed.

Lemma double_sort_length (l : list A) : length (Double.sort cmp l) = length l.
Proof. apply Permutation_length, double_sort_perm. Qed.

End DoubleSort.

(** ** Where InsufficientPoints comes from *)

Section DoubleErrors.

Variable atan2 : PrimFloat.float -> PrimFloat.float -> PrimFloat.float.

Lemma getRing_enough (c : Double.Connections) (k : Double.Key) :
  enough (Double.getRing c k).
Proof. unfold Double.getRing. repeat enough_step. Qed.

Lemma fromAngle_enough (a : PrimFloat.float) (ring : Double.Ring) (d : Z) :
  enough (Double.nextConnectionFromAngle a ring d).
Proof. unfold Double.nextConnectionFromAngle. repeat enough_step. Qed.

Lemma next_enough (ref : Double.Reference) (ring : Double.Ring) (d : Z) :
  enough (Double.nextConnection atan2 ref ring d).
Proof. destruct ref; apply fromAngle_enough. Qed.

Lemma above_enough (p : Double.Point) (ring : Double.Ring) (d : Z)
      (line : Double.Point * Double.Point) :
  enough (Double.nextConnectionAbove atan2 p ring d line).
Proof. unfold Double.nextConnectionAbove. repeat enough_step. apply next_enough. Qed.

Lemma connect_enough (p q : Double.Point) (c : Double.Connections) :
  enough (Double.connect atan2 p q c).
Proof. unfold Double.connect. repeat enough_step; apply getRing_enough. Qed.

Lemma disconnect_enough (p q : Double.Point) (c : Double.Connections) :
  enough (Double.disconnect p q c).
Proof. unfold Double.disconnect. repeat enough_step; apply getRing_enough. Qed.

Lemma lowerTangent_enough (fuel : nat) (c : Double.Connections) :
  forall left right nextLeft nextRight,
    enough (Double.lowerTangent atan2 fuel c left right nextLeft nextRight).
Proof.
  induction fuel as [| fuel IH]; intros left right nextLeft nextRight; simpl;
    repeat enough_step;
    try apply getRing_enough; try apply next_enough;
    try apply fromAngle_enough; apply IH.
Qed.

Lemma refine_enough (fuel : nat) :
  forall c pivot d left right cand nc,
    enough (Double.refine atan2 fuel c pivot d left right cand nc).
Proof.
  induction fuel as [| fuel IH]; intros c pivot d left right cand nc; simpl;
    repeat enough_step;
    try apply getRing_enough; try apply above_enough;
    try apply disconnect_enough; apply IH.
Qed.

Lemma findCandidate_enough (fuel : nat) (c : Double.Connections)
      (pivot other : Double.Point) (d : Z) (left right : Double.Point) :
  enough (Double.findCandidate atan2 fuel c pivot other d left right).
Proof.
  unfold Double.findCandidate. repeat enough_step;
    try apply getRing_enough; try apply above_enough; apply refine_enough.
Qed.

Lemma mergeLoop_enough (fuel : nat) :
  forall c left right, enough (Double.mergeLoop atan2 fuel c left right).
Proof.
  induction fuel as [| fuel IH]; intros c left right; simpl;
    [discriminate |].
  apply enough_bind; [apply findCandidate_enough | intros [c1 lc]].
  apply enough_bind; [apply findCandidate_enough | intros [c2 rc]].
  destruct lc as [lc |], rc as [rc |]; try discriminate;
    repeat enough_step; try apply connect_enough; apply IH.
Qed.

Lemma mergeHalves_enough (fuel : nat) (L R : list Double.Point)
      (cl cr : Double.Connections) :
  enough (Double.mergeHalves atan2 fuel L R cl cr).
Proof.
  unfold Double.mergeHalves. repeat enough_step;
    try apply enough_elem; try apply getRing_enough; try apply next_enough;
    try apply fromAngle_enough; try apply lowerTangent_enough; try apply connect_enough;
    apply mergeLoop_enough.
Qed.

(** The shapes of a call. *)
Lemma double_delaunay_short (fuel : nat) (pts : list Double.Point) :
  (length pts < 2)%nat ->
  Double.delaunay atan2 fuel pts = (pts, Err InsufficientPoints).
Proof.
  intros H. apply Nat.ltb_lt in H. destruct fuel; simpl; now rewrite H.
Qed.

Lemma double_delaunay_long (fuel : nat) (pts : list Double.Point) :
  (2 <= length pts)%nat ->
  Double.delaunay atan2 fuel pts =
  (Double.sort Double.by_x pts,
   match Double.sort Double.by_x pts with
   | [p; q] =>
       Double.connect atan2 p q
                      (Double.emptyConnections (Double.sort Double.by_x pts))
   | [p; q; r] =>
       connections <-
         Double.connect atan2 p q
                        (Double.emptyConnections (Double.sort Double.by_x pts)) ;;
       connections <- Double.connect atan2 q r connections ;;
       Double.connect atan2 r p connections
   | _ =>
       match fuel with
       | O => Err OutOfFuel
       | S fuel' =>
           let mid := (length (Double.sort Double.by_x pts) / 2)%nat in
           leftConnections <-
             snd (Double.delaunay atan2 fuel'
                    (firstn mid (Double.sort Double.by_x pts))) ;;
           rightConnections <-
             snd (Double.delaunay atan2 fuel'
                    (skipn mid (Double.sort Double.by_x pts))) ;;
           Double.mergeHalves atan2 fuel'
             (firstn mid (Double.sort Double.by_x pts))
             (skipn mid (Double.sort Double.by_x pts))
             leftConnections rightConnections
       end
   end).
Proof.
  intros H. apply Nat.ltb_ge in H. destruct fuel; simpl; rewrite H; reflexivity.
Qed.

Lemma double_delaunay_enough (fuel : nat) :
  forall pts, (2 <= length pts)%nat ->
              enough (snd (Double.delaunay atan2 fuel pts)).
Proof.
  induction fuel as [| fuel IH]; intros pts Hs;
    rewrite double_delaunay_long by exact Hs; cbv zeta; cbn [snd];
    pose proof (double_sort_length Double.Point Double.by_x pts) as Hlen;
    set (mid := (length (Double.sort Double.by_x pts) / 2)%nat);
    assert (Hmid : mid = (length (Double.sort Double.by_x pts) / 2)%nat)
      by reflexivity;
    clearbody mid;
    destruct (Double.sort Double.by_x pts) as [| p [| q [| r [| t rest]]]] eqn:E;
    try (simpl in Hlen; lia); try discriminate;
    repeat enough_step; try apply connect_enough.
  - destruct (halves_long (length (p :: q :: r :: t :: rest))) as [A B];
      [simpl; lia |].
    apply IH. rewrite length_firstn. lia.
  - destruct (halves_long (length (p :: q :: r :: t :: rest))) as [A B];
      [simpl; lia |].
    apply IH. rewrite length_skipn. lia.
  - apply mergeHalves_enough.
Qed.

Lemma double_delaunay_insufficient (fuel : nat) (pts : list Double.Point) :
  snd (Double.delaunay atan2 fuel pts) = Err InsufficientPoints <->
  (length pts < 2)%nat.
Proof.
  split.
  - intros H. destruct (Nat.lt_ge_cases (length pts) 2) as [Hs | Hs];
      [exact Hs |].
    now elim (double_delaunay_enough fuel pts Hs).
  - intros H. now rewrite double_delaunay_short.
Qed.

(** ** A search for the lower tangent that does not end *)

(** A ring with one link gives the point of that link to every lookup. *)
Lemma single_link (ref : Double.Reference) (ctr : Double.Point)
      (l : Double.Link) (d : Z) :
  Double.nextConnection atan2 ref (Double.mkRing ctr [l]) d =
  Ok (Double.point l).
Proof.
  assert (G : forall a,
             Double.nextConnectionFromAngle a (Double.mkRing ctr [l]) d =
             Ok (Double.point l)).
  { intros a. unfold Double.nextConnectionFromAngle. cbn [Double.links Double.scan].
    destruct (PrimFloat.eqb (Double.angle l) a && (d <=? 0)%Z);
      [| destruct (PrimFloat.ltb a (Double.angle l))];
      destruct (0 <? d)%Z; reflexivity. }
  destruct ref; apply G.
Qed.

Lemma tangent_step (fuel : nat) (c : Double.Connections)
      (left right nextLeft nextRight : Double.Point) :
  Double.lowerTangent atan2 fuel c left right nextLeft nextRight =
  if Double.belowLine nextLeft (left, right) ||
     Double.belowLine nextRight (left, right)
  then
    match fuel with
    | O => Err OutOfFuel
    | S fuel' =>
        if Double.belowLine nextLeft (left, right) then
          ring <- Double.getRing c (Double.id nextLeft) ;;
          n <- Double.nextConnection atan2 (Double.FromPoint left) ring (-1) ;;
          Double.lowerTangent atan2 fuel' c nextLeft right n nextRight
        else
          ring <- Double.getRing c (Double.id nextRight) ;;
          n <- Double.nextConnection atan2 (Double.FromPoint right) ring 1 ;;
          Double.lowerTangent atan2 fuel' c left nextRight nextLeft n
    end
  else Ok (left, right).
Proof. destruct fuel; reflexivity. Qed.

Lemma near_cycle (fuel : nat) :
  Double.lowerTangent atan2 fuel (Double.near_map atan2) Double.near0 Double.near3
                      Double.near1 Double.near2 = Err OutOfFuel /\
  Double.lowerTangent atan2 fuel (Double.near_map atan2) Double.near0 Double.near2
                      Double.near1 Double.near3 = Err OutOfFuel.
Proof.
  assert (B1 : Double.belowLine Double.near1 (Double.near0, Double.near3) = false)
    by (vm_compute; reflexivity).
  assert (B2 : Double.belowLine Double.near2 (Double.near0, Double.near3) = true)
    by (vm_compute; reflexivity).
  assert (B3 : Double.belowLine Double.near1 (Double.near0, Double.near2) = false)
    by (vm_compute; reflexivity).
  assert (B4 : Double.belowLine Double.near3 (Double.near0, Double.near2) = true)
    by (vm_compute; reflexivity).
  induction fuel as [| fuel [IH1 IH2]]; rewrite !tangent_step, B1, B2, B3, B4;
    cbn [orb]; [now split |].
  change (Double.getRing (Double.near_map atan2) (Double.id Double.near2))
    with (Ok (Double.mkRing Double.near2
                [Double.mkLink Double.near3
                   (Double.angle_from atan2 Double.near2 Double.near3)])).
  change (Double.getRing (Double.near_map atan2) (Double.id Double.near3))
    with (Ok (Double.mkRing Double.near3
                [Double.mkLink Double.near2
                   (Double.angle_from atan2 Double.near3 Double.near2)])).
  cbn [bind]. rewrite !single_link. cbn [bind Double.point]. now split.
Qed.

Lemma near_start (fuel : nat) :
  Double.lowerTangent atan2 fuel (Double.near_map atan2) Double.near1 Double.near3
                      Double.near0 Double.near2 = Err OutOfFuel.
Proof.
  assert (B1 : Double.belowLine Double.near0 (Double.near1, Double.near3) = true)
    by (vm_compute; reflexivity).
  rewrite tangent_step, B1. cbn [orb]. destruct fuel as [| fuel]; [reflexivity |].
  change (Double.getRing (Double.near_map atan2) (Double.id Double.near0))
    with (Ok (Double.mkRing Double.near0
                [Double.mkLink Double.near1
                   (Double.angle_from atan2 Double.near0 Double.near1)])).
  cbn [bind]. rewrite single_link. cbn [bind Double.point].
  apply near_cycle.
Qed.

Lemma near_line_loops (fuel : nat) :
  snd (Double.delaunay atan2 fuel Double.near_line) = Err OutOfFuel.
Proof.
  rewrite double_delaunay_long by (simpl; lia).
  change (Double.sort Double.by_x Double.near_line)
    with [Double.near0; Double.near1; Double.near3; Double.near2].
  cbn [snd]. destruct fuel as [| fuel]; [reflexivity |].
  cbv zeta.
  change (length [Double.near0; Double.near1; Double.near3; Double.near2] / 2)%nat
    with 2%nat.
  cbn [firstn skipn].
  rewrite !double_delaunay_long by (simpl; lia).
  change (Double.sort Double.by_x [Double.near0; Double.near1])
    with [Double.near0; Double.near1].
  change (Double.sort Double.by_x [Double.near3; Double.near2])
    with [Double.near3; Double.near2].
  cbn [snd].
  unfold Double.mergeHalves.
  match goal with
  | |- bind ?l _ = _ =>
      change l with
        (Ok [(Double.id Double.near0,
              Double.mkRing Double.near0
                [Double.mkLink Double.near1
                   (Double.angle_from atan2 Double.near0 Double.near1)]);
             (Double.id Double.near1,
              Double.mkRing Double.near1
                [Double.mkLink Double.near0
                   (Double.angle_from atan2 Double.near1 Double.near0)])])
  end.
  cbn [bind].
  match goal with
  | |- bind ?l _ = _ =>
      change l with
        (Ok [(Double.id Double.near3,
              Double.mkRing Double.near3
                [Double.mkLink Double.near2
                   (Double.angle_from atan2 Double.near3 Double.near2)]);
             (Double.id Double.near2,
              Double.mkRing Double.near2
                [Double.mkLink Double.near3
                   (Double.angle_from atan2 Double.near2 Double.near3)])])
  end.
  cbn [bind].
  match goal with
  | |- context [Double.mergeConnections ?a ?b] =>
      change (Double.mergeConnections a b) with (Double.near_map atan2)
  end.
  cbv zeta.
  change (elem (at_index [Double.near0; Double.near1]
                         (Z.of_nat (length [Double.near0; Double.near1]) - 1)))
    with (Ok Double.near1).
  change (elem (at_index [Double.near3; Double.near2] 0)) with (Ok Double.near3).
  cbn [bind].
  change (Double.getRing (Double.near_map atan2) (Double.id Double.near1))
    with (Ok (Double.mkRing Double.near1
                [Double.mkLink Double.near0
                   (Double.angle_from atan2 Double.near1 Double.near0)])).
  change (Double.getRing (Double.near_map atan2) (Double.id Double.near3))
    with (Ok (Double.mkRing Double.near3
                [Double.mkLink Double.near2
                   (Double.angle_from atan2 Double.near3 Double.near2)])).
  cbn [bind]. rewrite !single_link. cbn [bind Double.point].
  now rewrite near_start.
Qed.

End DoubleErrors.


(** * The run on doubles and the run on rationals *)

Lemma at_index_map {A B : Type} (f : A -> B) (l : list A) (i : Z) :
  at_index (map f l) i = option_map f (at_index l i).
Proof.
  unfold at_index. destruct (i <? 0)%Z; [reflexivity |].
  apply nth_error_map.
Qed.

Lemma at_index_member {A : Type} (l : list A) (i : Z) (a : A) :
  at_index l i = Some a -> In a l.
Proof.
  unfold at_index. destruct (i <? 0)%Z; [discriminate |].
  apply nth_error_In.
Qed.

Lemma map_result_bind {A B A' B' : Type} (f : A -> A') (g : B -> B')
      (r : Result A) (r' : Result A') (k : A -> Result B)
      (k' : A' -> Result B') :
  r' = map_result f r ->
  (forall a, r = Ok a -> k' (f a) = map_result g (k a)) ->
  bind r' k' = map_result g (bind r k).
Proof.
  intros -> H. destruct r as [a | err]; simpl; [now apply H | reflexivity].
Qed.

Lemma angles_agree_spec (a : PrimFloat.float) (a' : Q)
      (b : PrimFloat.float) (b' : Q) :
  angles_agree a a' b b' = true ->
  PrimFloat.eqb b a = Qeq_bool b' a' /\
  PrimFloat.ltb a b = Qltb a' b' /\
  PrimFloat.ltb (PrimFloat.sub a b) PrimFloat.zero = Qltb a' b'.
Proof.
  unfold angles_agree. rewrite !andb_true_iff.
  intros [[A B] C]. repeat split; now apply Bool.eqb_prop.
Qed.

(** Two insertion sorts whose comparisons agree on the elements of a list
    sort it in the same way. *)
Section SortAgrees.

Variables (A B : Type) (f : A -> B).
Variable cmp : A -> A -> PrimFloat.float.
Variable key : B -> Q.
Variable ok : A -> Prop.
Hypothesis agree :
  forall a b, ok a -> ok b ->
              PrimFloat.ltb (cmp a b) PrimFloat.zero = Qltb (key (f a)) (key (f b)).

Lemma insert_agrees (a : A) (l : list A) :
  ok a -> Forall ok l ->
  map f (Double.insert cmp a l) = insert key (f a) (map f l).
Proof.
  intros Ha. induction 1 as [| b l Hb _ IH]; simpl; [reflexivity |].
  pose proof (agree a b Ha Hb) as E. unfold PrimFloat.zero in E. rewrite E.
  destruct (Qltb (key (f a)) (key (f b))); simpl; [reflexivity |].
  now rewrite IH.
Qed.

Lemma insert_ok (a : A) (l : list A) :
  ok a -> Forall ok l -> Forall ok (Double.insert cmp a l).
Proof.
  intros Ha Hl. apply Forall_forall. intros x Hx.
  apply (Permutation_in _ (double_insert_perm A cmp a l)) in Hx.
  destruct Hx as [<- | Hx]; [exact Ha |].
  rewrite Forall_forall in Hl. now apply Hl.
Qed.

Lemma sort_agrees (l : list A) :
  Forall ok l -> map f (Double.sort cmp l) = sort key (map f l).
Proof.
  unfold Double.sort, sort.
  assert (G : forall acc,
             Forall ok acc -> Forall ok l ->
             map f (fold_left (fun acc a => Double.insert cmp a acc) l acc) =
             fold_left (fun acc a => insert key a acc) (map f l) (map f acc)).
  { induction l as [| a l IH]; intros acc Hacc Hl; simpl; [reflexivity |].
    inversion Hl as [| ? ? Ha Hl']; subst.
    rewrite IH; [| now apply insert_ok | exact Hl'].
    now rewrite insert_agrees. }
  intros H. now apply (G []).
Qed.

End SortAgrees.

Section Simulation.

Variable atan2 : PrimFloat.float -> PrimFloat.float -> PrimFloat.float.
Variable U : list Double.Point.
Hypothesis HF : faithful atan2 U = true.

(** ** What the check gives *)

Lemma faithful_pairs (p q : Double.Point) :
  In p U -> In q U -> faithful_pair atan2 p q = true.
Proof.
  intros Hp Hq. unfold faithful in HF. rewrite forallb_forall in HF.
  pose proof (HF p Hp) as H. rewrite forallb_forall in H.
  pose proof (H q Hq) as H'. apply andb_true_iff in H'. tauto.
Qed.

Lemma faithful_triples (p q r : Double.Point) :
  In p U -> In q U -> In r U -> faithful_triple atan2 p q r = true.
Proof.
  intros Hp Hq Hr. unfold faithful in HF. rewrite forallb_forall in HF.
  pose proof (HF p Hp) as H. rewrite forallb_forall in H.
  pose proof (H q Hq) as H'. apply andb_true_iff in H'. destruct H' as [_ H'].
  rewrite forallb_forall in H'. pose proof (H' r Hr) as H2.
  apply andb_true_iff in H2. tauto.
Qed.

Lemma faithful_quads (p q r s : Double.Point) :
  In p U -> In q U -> In r U -> In s U -> faithful_quad p q r s = true.
Proof.
  intros Hp Hq Hr Hs. unfold faithful in HF. rewrite forallb_forall in HF.
  pose proof (HF p Hp) as H. rewrite forallb_forall in H.
  pose proof (H q Hq) as H'. apply andb_true_iff in H'. destruct H' as [_ H'].
  rewrite forallb_forall in H'. pose proof (H' r Hr) as H2.
  apply andb_true_iff in H2. destruct H2 as [_ H2].
  rewrite forallb_forall in H2. now apply H2.
Qed.

Lemma keys_agree (p q : Double.Point) :
  In p U -> In q U ->
  Double.key_eqb (Double.id p) (Double.id q) =
  key_eqb (id (exact_point p)) (id (exact_point q)).
Proof.
  intros Hp Hq. pose proof (faithful_pairs p q Hp Hq) as H.
  unfold faithful_pair in H. rewrite !andb_true_iff in H.
  destruct H as [[[H _] _] _]. now apply Bool.eqb_prop.
Qed.

Lemma abscissas_agree (p q : Double.Point) :
  In p U -> In q U ->
  PrimFloat.ltb (Double.by_x p q) PrimFloat.zero =
  Qltb (x (exact_point p)) (x (exact_point q)).
Proof.
  intros Hp Hq. pose proof (faithful_pairs p q Hp Hq) as H.
  unfold faithful_pair in H. rewrite !andb_true_iff in H.
  destruct H as [[[_ H] _] _]. now apply Bool.eqb_prop.
Qed.

Lemma zero_agrees (p q : Double.Point) :
  In p U -> In q U ->
  angles_agree PrimFloat.zero 0 (Double.angle_from atan2 p q)
               (angle_from (exact_point p) (exact_point q)) = true.
Proof.
  intros Hp Hq. pose proof (faithful_pairs p q Hp Hq) as H.
  unfold faithful_pair in H. rewrite !andb_true_iff in H. tauto.
Qed.

Lemma pi_agrees (p q : Double.Point) :
  In p U -> In q U ->
  angles_agree (PrimFloat.opp Double.PI) (- PI) (Double.angle_from atan2 p q)
               (angle_from (exact_point p) (exact_point q)) = true.
Proof.
  intros Hp Hq. pose proof (faithful_pairs p q Hp Hq) as H.
  unfold faithful_pair in H. rewrite !andb_true_iff in H. tauto.
Qed.

Lemma directions_agree (p q r : Double.Point) :
  In p U -> In q U -> In r U ->
  angles_agree (Double.angle_from atan2 p q)
               (angle_from (exact_point p) (exact_point q))
               (Double.angle_from atan2 p r)
               (angle_from (exact_point p) (exact_point r)) = true.
Proof.
  intros Hp Hq Hr. pose proof (faithful_triples p q r Hp Hq Hr) as H.
  unfold faithful_triple in H. rewrite !andb_true_iff in H. tauto.
Qed.

Lemma below_agrees (p a b : Double.Point) :
  In p U -> In a U -> In b U ->
  belowLine (exact_point p) (exact_point a, exact_point b) =
  Double.belowLine p (a, b).
Proof.
  intros Hp Ha Hb. pose proof (faithful_triples p a b Hp Ha Hb) as H.
  unfold faithful_triple in H. rewrite !andb_true_iff in H.
  destruct H as [[H _] _]. symmetry. now apply Bool.eqb_prop.
Qed.

Lemma above_agrees (p a b : Double.Point) :
  In p U -> In a U -> In b U ->
  aboveLine (exact_point p) (exact_point a, exact_point b) =
  Double.aboveLine p (a, b).
Proof.
  intros Hp Ha Hb. pose proof (faithful_triples p a b Hp Ha Hb) as H.
  unfold faithful_triple in H. rewrite !andb_true_iff in H.
  destruct H as [[_ H] _]. symmetry. now apply Bool.eqb_prop.
Qed.

Lemma circle_agrees (p a b c : Double.Point) :
  In p U -> In a U -> In b U -> In c U ->
  inCircle (exact_point p) (exact_point a, exact_point b, exact_point c) =
  Double.inCircle p (a, b, c).
Proof.
  intros Hp Ha Hb Hc. pose proof (faithful_quads p a b c Hp Ha Hb Hc) as H.
  unfold faithful_quad in H. symmetry. now apply Bool.eqb_prop.
Qed.

(** ** Maps *)

Lemma sound_get (c : Double.Connections) (k : Double.Key) (r : Double.Ring) :
  sound atan2 U c -> Double.get c k = Some r -> sound_ring atan2 U r.
Proof.
  induction 1 as [| [k0 r0] c [_ Hr] _ IH]; simpl; [discriminate |].
  destruct (Double.key_eqb k0 k); [| exact IH].
  now intros [= <-].
Qed.

Lemma get_agrees (c : Double.Connections) (p : Double.Point) :
  sound atan2 U c -> In p U ->
  get (exact_map c) (id (exact_point p)) =
  option_map exact_ring (Double.get c (Double.id p)).
Proof.
  intros Hc Hp. induction Hc as [| [k0 r0] c [(p0 & Hp0 & E) _] _ IH];
    simpl; [reflexivity |].
  simpl in E. subst k0.
  change (exact_key (Double.id p0)) with (id (exact_point p0)).
  rewrite <- (keys_agree p0 p Hp0 Hp).
  destruct (Double.key_eqb (Double.id p0) (Double.id p)); [reflexivity | exact IH].
Qed.

Lemma getRing_agrees (c : Double.Connections) (p : Double.Point) :
  sound atan2 U c -> In p U ->
  getRing (exact_map c) (id (exact_point p)) =
  map_result exact_ring (Double.getRing c (Double.id p)).
Proof.
  intros Hc Hp. unfold getRing, Double.getRing.
  rewrite (get_agrees c p Hc Hp).
  now destruct (Double.get c (Double.id p)).
Qed.

Lemma getRing_sound (c : Double.Connections) (k : Double.Key)
      (r : Double.Ring) :
  sound atan2 U c -> Double.getRing c k = Ok r -> sound_ring atan2 U r.
Proof.
  intros Hc. unfold Double.getRing.
  destruct (Double.get c k) as [r0 |] eqn:G; [| discriminate].
  intros [= <-]. now apply (sound_get c k).
Qed.

Lemma set_agrees (c : Double.Connections) (p : Double.Point)
      (r : Double.Ring) :
  sound atan2 U c -> In p U ->
  exact_map (Double.set (Double.id p) r c) =
  set (id (exact_point p)) (exact_ring r) (exact_map c).
Proof.
  intros Hc Hp. induction Hc as [| [k0 r0] c [(p0 & Hp0 & E) _] _ IH];
    simpl; [reflexivity |].
  simpl in E. subst k0.
  change (exact_key (Double.id p0)) with (id (exact_point p0)).
  rewrite <- (keys_agree p0 p Hp0 Hp).
  destruct (Double.key_eqb (Double.id p0) (Double.id p)); simpl;
    [reflexivity | now rewrite IH].
Qed.

Lemma set_sound (c : Double.Connections) (p : Double.Point)
      (r : Double.Ring) :
  sound atan2 U c -> In p U -> sound_ring atan2 U r ->
  sound atan2 U (Double.set (Double.id p) r c).
Proof.
  intros Hc Hp Hr. induction Hc as [| [k0 r0] c H0 Hc' IH]; simpl.
  - constructor; [| constructor]. split; [now exists p | exact Hr].
  - destruct (Double.key_eqb k0 (Double.id p)).
    + constructor; [| exact Hc']. split; [now exists p | exact Hr].
    + constructor; [exact H0 | exact IH].
Qed.

(** ** Rings *)

Lemma add_agrees (p : Double.Point) (r : Double.Ring) :
  sound_ring atan2 U r -> In p U ->
  exact_ring (Double.addConnection atan2 p r) =
  addConnection (exact_point p) (exact_ring r).
Proof.
  intros [Hc Hl] Hp. unfold exact_ring, Double.addConnection, addConnection.
  cbn [Double.center Double.links center links]. f_equal.
  rewrite (sort_agrees Double.Link Link
             (exact_link (exact_point (Double.center r)))
             (Double.by_angle) angle
             (fun l => In (Double.point l) U /\
                       Double.angle l =
                       Double.angle_from atan2 (Double.center r) (Double.point l))).
  - now rewrite map_app.
  - intros a b [Ha Ea] [Hb Eb]. unfold Double.by_angle. rewrite Ea, Eb.
    cbn [exact_link angle].
    now destruct (angles_agree_spec _ _ _ _
                    (directions_agree (Double.center r) (Double.point a)
                                      (Double.point b) Hc Ha Hb))
      as (_ & _ & H).
  - apply Forall_app. split; [exact Hl |].
    constructor; [| constructor]. now split.
Qed.

Lemma add_sound (p : Double.Point) (r : Double.Ring) :
  sound_ring atan2 U r -> In p U ->
  sound_ring atan2 U (Double.addConnection atan2 p r).
Proof.
  intros [Hc Hl] Hp. split; [exact Hc |].
  unfold Double.addConnection. cbn [Double.center Double.links].
  apply Forall_forall. intros l Hin.
  apply (Permutation_in _ (double_sort_perm _ _ _)) in Hin.
  apply in_app_or in Hin. destruct Hin as [Hin | [<- | []]].
  - rewrite Forall_forall in Hl. now apply Hl.
  - now split.
Qed.

Lemma remove_agrees (p : Double.Point) (r : Double.Ring) :
  exact_ring (Double.removeConnection p r) =
  removeConnection (exact_point p) (exact_ring r).
Proof.
  unfold exact_ring, Double.removeConnection, removeConnection.
  cbn [Double.center Double.links center links]. f_equal.
  induction (Double.links r) as [| l ls IH]; simpl; [reflexivity |].
  change (same (exact_point (Double.point l)) (exact_point p))
    with (Double.same (Double.point l) p).
  destruct (Double.same (Double.point l) p); simpl; [exact IH |].
  now rewrite IH.
Qed.

Lemma remove_sound (p : Double.Point) (r : Double.Ring) :
  sound_ring atan2 U r -> sound_ring atan2 U (Double.removeConnection p r).
Proof.
  intros [Hc Hl]. split; [exact Hc |].
  unfold Double.removeConnection. cbn [Double.center Double.links].
  rewrite Forall_forall in *. intros l Hin. apply filter_In in Hin.
  now apply Hl.
Qed.

(** ** Lookups *)

Lemma scan_agrees (ctr : Double.Point) (a : PrimFloat.float) (a' : Q) (d : Z)
      (ls : list Double.Link) :
  (forall q, In q U ->
             angles_agree a a' (Double.angle_from atan2 ctr q)
                          (angle_from (exact_point ctr) (exact_point q)) = true) ->
  Forall (fun l => In (Double.point l) U /\
                   Double.angle l =
                   Double.angle_from atan2 ctr (Double.point l)) ls ->
  Double.scan a d ls = scan a' d (map (exact_link (exact_point ctr)) ls).
Proof.
  intros Ha. induction 1 as [| l ls [Hl El] _ IH]; simpl; [reflexivity |].
  destruct (angles_agree_spec _ _ _ _ (Ha _ Hl)) as (E1 & E2 & _).
  rewrite El, E1, E2, IH. reflexivity.
Qed.

Lemma fromAngle_agrees (a : PrimFloat.float) (a' : Q) (d : Z)
      (r : Double.Ring) :
  sound_ring atan2 U r ->
  (forall q, In q U ->
             angles_agree a a' (Double.angle_from atan2 (Double.center r) q)
                          (angle_from (exact_point (Double.center r))
                                      (exact_point q)) = true) ->
  nextConnectionFromAngle a' (exact_ring r) d =
  map_result exact_point (Double.nextConnectionFromAngle a r d).
Proof.
  intros [Hc Hl] Ha.
  unfold nextConnectionFromAngle, Double.nextConnectionFromAngle, exact_ring.
  cbn [links]. rewrite <- (scan_agrees (Double.center r) a a' d _ Ha Hl).
  rewrite !at_index_map, length_map.
  destruct (0 <? d)%Z.
  - destruct (at_index (Double.links r) _) as [l |]; simpl; [reflexivity |].
    now destruct (at_index (Double.links r) 0).
  - destruct (at_index (Double.links r) _) as [l |]; simpl; [reflexivity |].
    now destruct (at_index (Double.links r) _).
Qed.

Lemma fromAngle_sound (a : PrimFloat.float) (d : Z) (r : Double.Ring)
      (t : Double.Point) :
  sound_ring atan2 U r -> Double.nextConnectionFromAngle a r d = Ok t ->
  In t U.
Proof.
  intros [_ Hl]. unfold Double.nextConnectionFromAngle.
  rewrite Forall_forall in Hl.
  assert (G : forall o : option Double.Link,
             (forall l, o = Some l -> In l (Double.links r)) ->
             match o with Some l => Ok (Double.point l) | None => Err TypeError end
             = Ok t -> In t U).
  { intros [l |] Ho; [| discriminate]. intros [= <-].
    now apply (Hl l (Ho l eq_refl)). }
  apply G. intros l.
  destruct (0 <? d)%Z;
    destruct (at_index (Double.links r) _) as [l0 |] eqn:E1; simpl;
    try (intros [= <-]; now apply (at_index_member _ _ _ E1));
    now apply at_index_member.
Qed.

Lemma next_agrees (p : Double.Point) (r : Double.Ring) (d : Z) :
  sound_ring atan2 U r -> In p U ->
  nextConnection (FromPoint (exact_point p)) (exact_ring r) d =
  map_result exact_point
             (Double.nextConnection atan2 (Double.FromPoint p) r d).
Proof.
  intros Hr Hp. unfold nextConnection, Double.nextConnection.
  apply (fromAngle_agrees _ _ d r Hr). intros q Hq.
  apply (directions_agree (Double.center r) p q (proj1 Hr) Hp Hq).
Qed.

Lemma next_zero_agrees (r : Double.Ring) (d : Z) :
  sound_ring atan2 U r ->
  nextConnection (FromAngle 0) (exact_ring r) d =
  map_result exact_point
             (Double.nextConnection atan2 (Double.FromAngle PrimFloat.zero) r d).
Proof.
  intros Hr. unfold nextConnection, Double.nextConnection.
  apply (fromAngle_agrees _ _ d r Hr). intros q Hq.
  apply (zero_agrees (Double.center r) q (proj1 Hr) Hq).
Qed.

Lemma next_pi_agrees (r : Double.Ring) (d : Z) :
  sound_ring atan2 U r ->
  nextConnection (FromAngle (- PI)) (exact_ring r) d =
  map_result exact_point
             (Double.nextConnection atan2
                (Double.FromAngle (PrimFloat.opp Double.PI)) r d).
Proof.
  intros Hr. unfold nextConnection, Double.nextConnection.
  apply (fromAngle_agrees _ _ d r Hr). intros q Hq.
  apply (pi_agrees (Double.center r) q (proj1 Hr) Hq).
Qed.

Lemma next_sound (ref : Double.Reference) (r : Double.Ring) (d : Z)
      (t : Double.Point) :
  sound_ring atan2 U r -> Double.nextConnection atan2 ref r d = Ok t ->
  In t U.
Proof.
  intros Hr. destruct ref; apply (fromAngle_sound _ d r t Hr).
Qed.

Lemma above_lookup_agrees (p : Double.Point) (r : Double.Ring) (d : Z)
      (a b : Double.Point) :
  sound_ring atan2 U r -> In p U -> In a U -> In b U ->
  nextConnectionAbove (exact_point p) (exact_ring r) d
                      (exact_point a, exact_point b) =
  map_result (option_map exact_point)
             (Double.nextConnectionAbove atan2 p r d (a, b)).
Proof.
  intros Hr Hp Ha Hb. unfold nextConnectionAbove, Double.nextConnectionAbove.
  apply (map_result_bind exact_point (option_map exact_point) _ _ _ _
           (next_agrees p r d Hr Hp)).
  intros q Hq. pose proof (next_sound _ r d q Hr Hq) as Hin.
  rewrite (above_agrees q a b Hin Ha Hb).
  now destruct (Double.aboveLine q (a, b)).
Qed.

Lemma above_lookup_sound (p : Double.Point) (r : Double.Ring) (d : Z)
      (line : Double.Point * Double.Point) (t : Double.Point) :
  sound_ring atan2 U r ->
  Double.nextConnectionAbove atan2 p r d line = Ok (Some t) -> In t U.
Proof.
  intros Hr. unfold Double.nextConnectionAbove.
  destruct (Double.nextConnection atan2 (Double.FromPoint p) r d) as [q |] eqn:E;
    simpl; [| discriminate].
  destruct (Double.aboveLine q line); [| discriminate].
  intros [= <-]. apply (next_sound _ r d q Hr E).
Qed.

(** ** Steps *)

Lemma follows_bind {A B A' B' : Type} (f : A -> A') (good : A -> Prop)
      (g : B -> B') (good' : B -> Prop)
      (rd : Result A) (rq : Result A') (kd : A -> Result B)
      (kq : A' -> Result B') :
  follows f good rd rq ->
  (forall a, good a -> follows g good' (kd a) (kq (f a))) ->
  follows g good' (bind rd kd) (bind rq kq).
Proof.
  intros [-> G] H. destruct rd as [a | err]; simpl.
  - apply H. now apply G.
  - split; [reflexivity | discriminate].
Qed.

Lemma follows_ok {A B : Type} (f : A -> B) (good : A -> Prop) (a : A) :
  good a -> follows f good (Ok a) (Ok (f a)).
Proof. intros H. split; [reflexivity |]. now intros ? [= <-]. Qed.

Lemma follows_err {A B : Type} (f : A -> B) (good : A -> Prop) (err : Error) :
  follows f good (Err err) (Err err).
Proof. split; [reflexivity | discriminate]. Qed.

Lemma getRing_follows (c : Double.Connections) (p : Double.Point) :
  sound atan2 U c -> In p U ->
  follows exact_ring (sound_ring atan2 U)
          (Double.getRing c (Double.id p))
          (getRing (exact_map c) (id (exact_point p))).
Proof.
  intros Hc Hp. split; [now apply getRing_agrees |].
  intros r. now apply getRing_sound.
Qed.

Lemma next_follows (p : Double.Point) (r : Double.Ring) (d : Z) :
  sound_ring atan2 U r -> In p U ->
  follows exact_point (fun t => In t U)
          (Double.nextConnection atan2 (Double.FromPoint p) r d)
          (nextConnection (FromPoint (exact_point p)) (exact_ring r) d).
Proof.
  intros Hr Hp. split; [now apply next_agrees |].
  intros t. now apply next_sound.
Qed.

Lemma above_follows (p : Double.Point) (r : Double.Ring) (d : Z)
      (a b : Double.Point) :
  sound_ring atan2 U r -> In p U -> In a U -> In b U ->
  follows (option_map exact_point)
          (fun o => forall t, o = Some t -> In t U)
          (Double.nextConnectionAbove atan2 p r d (a, b))
          (nextConnectionAbove (exact_point p) (exact_ring r) d
                               (exact_point a, exact_point b)).
Proof.
  intros Hr Hp Ha Hb. split; [now apply above_lookup_agrees |].
  intros o E t ->. now apply (above_lookup_sound p r d (a, b)).
Qed.

Lemma connect_follows (p q : Double.Point) (c : Double.Connections) :
  sound atan2 U c -> In p U -> In q U ->
  follows exact_map (sound atan2 U)
          (Double.connect atan2 p q c)
          (connect (exact_point p) (exact_point q) (exact_map c)).
Proof.
  intros Hc Hp Hq. unfold connect, Double.connect.
  apply (follows_bind _ _ _ _ _ _ _ _ (getRing_follows c p Hc Hp)).
  intros rp Hrp. cbv zeta.
  assert (H1 : sound atan2 U
                 (Double.set (Double.id p) (Double.addConnection atan2 q rp) c))
    by (apply set_sound; [exact Hc | exact Hp | now apply add_sound]).
  rewrite <- (add_agrees q rp Hrp Hq), <- (set_agrees c p _ Hc Hp).
  apply (follows_bind _ _ _ _ _ _ _ _ (getRing_follows _ q H1 Hq)).
  intros rq Hrq.
  rewrite <- (add_agrees p rq Hrq Hp), <- (set_agrees _ q _ H1 Hq).
  apply follows_ok. apply set_sound; [exact H1 | exact Hq | now apply add_sound].
Qed.

Lemma disconnect_follows (p q : Double.Point) (c : Double.Connections) :
  sound atan2 U c -> In p U -> In q U ->
  follows exact_map (sound atan2 U)
          (Double.disconnect p q c)
          (disconnect (exact_point p) (exact_point q) (exact_map c)).
Proof.
  intros Hc Hp Hq. unfold disconnect, Double.disconnect.
  apply (follows_bind _ _ _ _ _ _ _ _ (getRing_follows c p Hc Hp)).
  intros rp Hrp. cbv zeta.
  assert (H1 : sound atan2 U
                 (Double.set (Double.id p) (Double.removeConnection q rp) c))
    by (apply set_sound; [exact Hc | exact Hp | now apply remove_sound]).
  rewrite <- (remove_agrees q rp), <- (set_agrees c p _ Hc Hp).
  apply (follows_bind _ _ _ _ _ _ _ _ (getRing_follows _ q H1 Hq)).
  intros rq Hrq.
  rewrite <- (remove_agrees p rq), <- (set_agrees _ q _ H1 Hq).
  apply follows_ok.
  apply set_sound; [exact H1 | exact Hq | now apply remove_sound].
Qed.

(** ** The maps that the builder starts from *)

Lemma empty_agrees (l : list Double.Point) :
  incl l U ->
  exact_map (Double.emptyConnections l) = emptyConnections (map exact_point l) /\
  sound atan2 U (Double.emptyConnections l).
Proof.
  unfold Double.emptyConnections, emptyConnections.
  assert (G : forall acc,
             sound atan2 U acc -> incl l U ->
             exact_map
               (fold_left (fun c pt => Double.set (Double.id pt)
                                                  (Double.mkRing pt []) c) l acc) =
             fold_left (fun c pt => set (id pt) (mkRing pt []) c)
                       (map exact_point l) (exact_map acc) /\
             sound atan2 U
               (fold_left (fun c pt => Double.set (Double.id pt)
                                                  (Double.mkRing pt []) c) l acc)).
  { induction l as [| p l IH]; intros acc Ha Hl; simpl; [now split |].
    assert (Hp : In p U) by (apply Hl; now left).
    assert (Hr : sound_ring atan2 U (Double.mkRing p []))
      by (split; [exact Hp | constructor]).
    destruct (IH (Double.set (Double.id p) (Double.mkRing p []) acc)
                 (set_sound acc p _ Ha Hp Hr)
                 (fun q Hq => Hl q (or_intror Hq))) as [E S].
    split; [| exact S]. rewrite E. now rewrite (set_agrees acc p _ Ha Hp). }
  intros Hl. apply (G [] (Forall_nil _) Hl).
Qed.

Lemma assign_agrees (s : Double.Connections) :
  forall t,
    sound atan2 U t -> sound atan2 U s ->
    exact_map (Double.assign t s) = assign (exact_map t) (exact_map s) /\
    sound atan2 U (Double.assign t s).
Proof.
  unfold Double.assign, assign.
  induction s as [| [k r] s IH]; intros t Ht Hs; simpl; [now split |].
  inversion Hs as [| ? ? [(p & Hp & E) Hr] Hs']; subst. simpl in E. subst k.
  destruct (IH (Double.set (Double.id p) r t) (set_sound t p r Ht Hp Hr) Hs')
    as [E S].
  split; [| exact S]. rewrite E. now rewrite (set_agrees t p r Ht Hp).
Qed.

Lemma merge_agrees (c d : Double.Connections) :
  sound atan2 U c -> sound atan2 U d ->
  exact_map (Double.mergeConnections c d) =
  mergeConnections (exact_map c) (exact_map d) /\
  sound atan2 U (Double.mergeConnections c d).
Proof.
  intros Hc Hd. unfold Double.mergeConnections, mergeConnections.
  destruct (assign_agrees c [] (Forall_nil _) Hc) as [E1 S1].
  destruct (assign_agrees d _ S1 Hd) as [E2 S2].
  split; [| exact S2]. now rewrite E2, E1.
Qed.

(** ** The loops *)

Lemma tangent_step_exact (fuel : nat) (c : Connections)
      (left right nextLeft nextRight : Point) :
  lowerTangent fuel c left right nextLeft nextRight =
  if belowLine nextLeft (left, right) || belowLine nextRight (left, right)
  then
    match fuel with
    | O => Err OutOfFuel
    | S fuel' =>
        if belowLine nextLeft (left, right) then
          ring <- getRing c (id nextLeft) ;;
          n <- nextConnection (FromPoint left) ring (-1) ;;
          lowerTangent fuel' c nextLeft right n nextRight
        else
          ring <- getRing c (id nextRight) ;;
          n <- nextConnection (FromPoint right) ring 1 ;;
          lowerTangent fuel' c left nextRight nextLeft n
    end
  else Ok (left, right).
Proof. destruct fuel; reflexivity. Qed.

Lemma lowerTangent_follows (fuel : nat) :
  forall c l r nl nr,
    sound atan2 U c -> In l U -> In r U -> In nl U -> In nr U ->
    follows (fun lr => (exact_point (fst lr), exact_point (snd lr)))
            (fun lr => In (fst lr) U /\ In (snd lr) U)
            (Double.lowerTangent atan2 fuel c l r nl nr)
            (lowerTangent fuel (exact_map c) (exact_point l) (exact_point r)
                          (exact_point nl) (exact_point nr)).
Proof.
  induction fuel as [| fuel IH]; intros c l r nl nr Hc Hl Hr Hnl Hnr;
    rewrite tangent_step, tangent_step_exact,
      (below_agrees nl l r Hnl Hl Hr), (below_agrees nr l r Hnr Hl Hr);
    destruct (Double.belowLine nl (l, r)), (Double.belowLine nr (l, r));
    cbn [orb];
    try apply follows_err;
    try (apply (follows_ok (fun lr => (exact_point (fst lr), exact_point (snd lr)))
                           (fun lr => In (fst lr) U /\ In (snd lr) U) (l, r));
         now split).
  - apply (follows_bind _ _ _ _ _ _ _ _ (getRing_follows c nl Hc Hnl)).
    intros ring Hring.
    apply (follows_bind _ _ _ _ _ _ _ _ (next_follows l ring (-1) Hring Hl)).
    intros n Hn. now apply IH.
  - apply (follows_bind _ _ _ _ _ _ _ _ (getRing_follows c nl Hc Hnl)).
    intros ring Hring.
    apply (follows_bind _ _ _ _ _ _ _ _ (next_follows l ring (-1) Hring Hl)).
    intros n Hn. now apply IH.
  - apply (follows_bind _ _ _ _ _ _ _ _ (getRing_follows c nr Hc Hnr)).
    intros ring Hring.
    apply (follows_bind _ _ _ _ _ _ _ _ (next_follows r ring 1 Hring Hr)).
    intros n Hn. now apply IH.
Qed.

Lemma refine_step (fuel : nat) (c : Double.Connections) (pivot : Double.Point)
      (d : Z) (left right cand : Double.Point) (nc : option Double.Point) :
  Double.refine atan2 fuel c pivot d left right cand nc =
  match nc with
  | None => Ok (c, cand)
  | Some next =>
      if Double.inCircle next (left, right, cand) then
        match fuel with
        | O => Err OutOfFuel
        | S fuel' =>
            c' <- Double.disconnect pivot cand c ;;
            ring <- Double.getRing c' (Double.id pivot) ;;
            nc' <- Double.nextConnectionAbove atan2 next ring d (left, right) ;;
            Double.refine atan2 fuel' c' pivot d left right next nc'
        end
      else Ok (c, cand)
  end.
Proof. destruct fuel; reflexivity. Qed.

Lemma refine_step_exact (fuel : nat) (c : Connections) (pivot : Point)
      (d : Z) (left right cand : Point) (nc : option Point) :
  refine fuel c pivot d left right cand nc =
  match nc with
  | None => Ok (c, cand)
  | Some next =>
      if inCircle next (left, right, cand) then
        match fuel with
        | O => Err OutOfFuel
        | S fuel' =>
            c' <- disconnect pivot cand c ;;
            ring <- getRing c' (id pivot) ;;
            nc' <- nextConnectionAbove next ring d (left, right) ;;
            refine fuel' c' pivot d left right next nc'
        end
      else Ok (c, cand)
  end.
Proof. destruct fuel; reflexivity. Qed.

Lemma refine_follows (fuel : nat) :
  forall c pivot d left right cand nc,
    sound atan2 U c -> In pivot U -> In left U -> In right U -> In cand U ->
    (forall t, nc = Some t -> In t U) ->
    follows (fun cr => (exact_map (fst cr), exact_point (snd cr)))
            (fun cr => sound atan2 U (fst cr) /\ In (snd cr) U)
            (Double.refine atan2 fuel c pivot d left right cand nc)
            (refine fuel (exact_map c) (exact_point pivot) d
                    (exact_point left) (exact_point right) (exact_point cand)
                    (option_map exact_point nc)).
Proof.
  induction fuel as [| fuel IH];
    intros c pivot d left right cand nc Hc Hp Hl Hr Hcd Hn;
    rewrite refine_step, refine_step_exact;
    (destruct nc as [next |]; cbn [option_map];
     [pose proof (Hn next eq_refl) as Hnext;
      rewrite (circle_agrees next left right cand Hnext Hl Hr Hcd);
      destruct (Double.inCircle next (left, right, cand)) |]);
    try apply follows_err;
    try (apply (follows_ok
                  (fun cr => (exact_map (fst cr), exact_point (snd cr)))
                  (fun cr => sound atan2 U (fst cr) /\ In (snd cr) U) (c, cand));
         now split).
  apply (follows_bind _ _ _ _ _ _ _ _ (disconnect_follows pivot cand c Hc Hp Hcd)).
  intros c' Hc'.
  apply (follows_bind _ _ _ _ _ _ _ _ (getRing_follows c' pivot Hc' Hp)).
  intros ring Hring.
  apply (follows_bind _ _ _ _ _ _ _ _
           (above_follows next ring d left right Hring Hnext Hl Hr)).
  intros nc' Hnc'. now apply IH.
Qed.

Lemma findCandidate_follows (fuel : nat) (c : Double.Connections)
      (pivot other : Double.Point) (d : Z) (left right : Double.Point) :
  sound atan2 U c -> In pivot U -> In other U -> In left U -> In right U ->
  follows (fun r => (exact_map (fst r), option_map exact_point (snd r)))
          (fun r => sound atan2 U (fst r) /\
                    forall t, snd r = Some t -> In t U)
          (Double.findCandidate atan2 fuel c pivot other d left right)
          (findCandidate fuel (exact_map c) (exact_point pivot)
                         (exact_point other) d
                         (exact_point left) (exact_point right)).
Proof.
  intros Hc Hp Ho Hl Hr. unfold findCandidate, Double.findCandidate.
  apply (follows_bind _ _ _ _ _ _ _ _ (getRing_follows c pivot Hc Hp)).
  intros ring Hring.
  apply (follows_bind _ _ _ _ _ _ _ _
           (above_follows other ring d left right Hring Ho Hl Hr)).
  intros [cand |] Hcand; cbn [option_map].
  - pose proof (Hcand cand eq_refl) as Hcd.
    apply (follows_bind _ _ _ _ _ _ _ _
             (above_follows cand ring d left right Hring Hcd Hl Hr)).
    intros nc Hnc.
    apply (follows_bind _ _ _ _ _ _ _ _
             (refine_follows fuel c pivot d left right cand nc
                             Hc Hp Hl Hr Hcd Hnc)).
    intros [c' cand'] [Hc' Hcd']. cbn [fst snd].
    apply (follows_ok
             (fun r => (exact_map (fst r), option_map exact_point (snd r)))
             (fun r => sound atan2 U (fst r) /\
                       forall t, snd r = Some t -> In t U) (c', Some cand')).
    split; [exact Hc' |]. now intros t [= <-].
  - apply (follows_ok
             (fun r => (exact_map (fst r), option_map exact_point (snd r)))
             (fun r => sound atan2 U (fst r) /\
                       forall t, snd r = Some t -> In t U) (c, None)).
    split; [exact Hc | discriminate].
Qed.

Lemma mergeLoop_follows (fuel : nat) :
  forall c left right,
    sound atan2 U c -> In left U -> In right U ->
    follows exact_map (sound atan2 U)
            (Double.mergeLoop atan2 fuel c left right)
            (mergeLoop fuel (exact_map c) (exact_point left)
                       (exact_point right)).
Proof.
  induction fuel as [| fuel IH]; intros c left right Hc Hl Hr;
    [apply follows_err |].
  cbn [mergeLoop Double.mergeLoop].
  apply (follows_bind _ _ _ _ _ _ _ _
           (findCandidate_follows fuel c left right 1 left right
                                  Hc Hl Hr Hl Hr)).
  intros [c1 lc] [Hc1 Hlc]. cbn [fst snd] in *.
  apply (follows_bind _ _ _ _ _ _ _ _
           (findCandidate_follows fuel c1 right left (-1) left right
                                  Hc1 Hr Hl Hl Hr)).
  intros [c2 rc] [Hc2 Hrc]. cbn [fst snd] in *.
  destruct lc as [lc |], rc as [rc |]; cbn [option_map].
  - pose proof (Hlc lc eq_refl) as Hlc'. pose proof (Hrc rc eq_refl) as Hrc'.
    rewrite (circle_agrees rc lc left right Hrc' Hlc' Hl Hr).
    destruct (Double.inCircle rc (lc, left, right)).
    + apply (follows_bind _ _ _ _ _ _ _ _
               (connect_follows left rc c2 Hc2 Hl Hrc')).
      intros c3 Hc3. now apply IH.
    + apply (follows_bind _ _ _ _ _ _ _ _
               (connect_follows lc right c2 Hc2 Hlc' Hr)).
      intros c3 Hc3. now apply IH.
  - pose proof (Hlc lc eq_refl) as Hlc'.
    apply (follows_bind _ _ _ _ _ _ _ _
             (connect_follows lc right c2 Hc2 Hlc' Hr)).
    intros c3 Hc3. now apply IH.
  - pose proof (Hrc rc eq_refl) as Hrc'.
    apply (follows_bind _ _ _ _ _ _ _ _
             (connect_follows left rc c2 Hc2 Hl Hrc')).
    intros c3 Hc3. now apply IH.
  - now apply follows_ok.
Qed.

Lemma elem_follows (l : list Double.Point) (i : Z) :
  incl l U ->
  follows exact_point (fun t => In t U)
          (elem (at_index l i)) (elem (at_index (map exact_point l) i)).
Proof.
  intros Hl. rewrite at_index_map.
  destruct (at_index l i) as [t |] eqn:E; cbn [option_map elem].
  - apply follows_ok. apply Hl. now apply (at_index_member l i).
  - apply follows_err.
Qed.

Lemma mergeHalves_follows (fuel : nat) (L R : list Double.Point)
      (cl cr : Double.Connections) :
  incl L U -> incl R U -> sound atan2 U cl -> sound atan2 U cr ->
  follows exact_map (sound atan2 U)
          (Double.mergeHalves atan2 fuel L R cl cr)
          (mergeHalves fuel (map exact_point L) (map exact_point R)
                       (exact_map cl) (exact_map cr)).
Proof.
  intros HL HR Hcl Hcr. unfold mergeHalves, Double.mergeHalves. cbv zeta.
  destruct (merge_agrees cl cr Hcl Hcr) as [<- Hc].
  rewrite length_map.
  apply (follows_bind _ _ _ _ _ _ _ _ (elem_follows L _ HL)).
  intros left Hl.
  apply (follows_bind _ _ _ _ _ _ _ _ (elem_follows R _ HR)).
  intros right Hr.
  apply (follows_bind _ _ _ _ _ _ _ _ (getRing_follows _ left Hc Hl)).
  intros ringL HringL.
  apply (follows_bind exact_point (fun t => In t U) _ _
           (Double.nextConnection atan2 (Double.FromAngle PrimFloat.zero)
                                  ringL (-1))).
  { split; [now apply next_zero_agrees |].
    intros t. now apply next_sound. }
  intros nextLeft Hnl.
  apply (follows_bind _ _ _ _ _ _ _ _ (getRing_follows _ right Hc Hr)).
  intros ringR HringR.
  apply (follows_bind exact_point (fun t => In t U) _ _
           (Double.nextConnection atan2
              (Double.FromAngle (PrimFloat.opp Double.PI)) ringR 1)).
  { split; [now apply next_pi_agrees |].
    intros t. now apply next_sound. }
  intros nextRight Hnr.
  apply (follows_bind _ _ _ _ _ _ _ _
           (lowerTangent_follows fuel _ left right nextLeft nextRight
                                 Hc Hl Hr Hnl Hnr)).
  intros [l' r'] [Hl' Hr']. cbn [fst snd] in *.
  apply (follows_bind _ _ _ _ _ _ _ _ (connect_follows l' r' _ Hc Hl' Hr')).
  intros c1 Hc1. now apply mergeLoop_follows.
Qed.

(** ** The builder *)

Lemma sorted_agrees (pts : list Double.Point) :
  incl pts U ->
  map exact_point (Double.sort Double.by_x pts) = sort x (map exact_point pts).
Proof.
  intros H.
  apply (sort_agrees Double.Point Point exact_point Double.by_x x
                     (fun p => In p U)).
  - intros a b. apply abscissas_agree.
  - now apply Forall_forall.
Qed.

Lemma delaunay_follows (fuel : nat) :
  forall pts,
    incl pts U ->
    follows exact_map (sound atan2 U)
            (snd (Double.delaunay atan2 fuel pts))
            (snd (delaunay fuel (map exact_point pts))).
Proof.
  induction fuel as [| fuel IH]; intros pts Hp;
    (destruct (Nat.lt_ge_cases (length pts) 2) as [Hs | Hs];
     [rewrite double_delaunay_short, delaunay_short
        by (rewrite ?length_map; exact Hs);
      apply follows_err |]);
    rewrite double_delaunay_long, delaunay_long
      by (rewrite ?length_map; exact Hs);
    rewrite <- (sorted_agrees pts Hp); cbv zeta; cbn [snd];
    pose proof (double_sort_length Double.Point Double.by_x pts) as Hlen;
    (assert (Hin : incl (Double.sort Double.by_x pts) U)
      by (intros q Hq; apply Hp;
          apply (Permutation_in _ (double_sort_perm _ _ _) Hq)));
    destruct (empty_agrees _ Hin) as [E0 S0];
    rewrite <- E0; rewrite ?length_map, ?firstn_map, ?skipn_map;
    set (mid := (length (Double.sort Double.by_x pts) / 2)%nat);
    clearbody mid;
    (assert (HL : incl (firstn mid (Double.sort Double.by_x pts)) U)
      by (intros q Hq; apply Hin;
          rewrite <- (firstn_skipn mid (Double.sort Double.by_x pts));
          apply in_or_app; now left));
    (assert (HR : incl (skipn mid (Double.sort Double.by_x pts)) U)
      by (intros q Hq; apply Hin;
          rewrite <- (firstn_skipn mid (Double.sort Double.by_x pts));
          apply in_or_app; now right));
    destruct (Double.sort Double.by_x pts) as [| p [| q [| r [| t rest]]]];
    try (simpl in Hlen; lia); cbn [map];
    try apply follows_err.
  - apply connect_follows; [exact S0 | apply Hin; simpl; tauto ..].
  - apply (follows_bind _ _ _ _ _ _ _ _
             (connect_follows p q _ S0 (Hin p (or_introl eq_refl))
                              (Hin q (or_intror (or_introl eq_refl))))).
    intros c1 Hc1.
    apply (follows_bind _ _ _ _ _ _ _ _
             (connect_follows q r _ Hc1
                (Hin q (or_intror (or_introl eq_refl)))
                (Hin r (or_intror (or_intror (or_introl eq_refl)))))).
    intros c2 Hc2.
    apply connect_follows; [exact Hc2 | apply Hin; simpl; tauto ..].
  - apply connect_follows; [exact S0 | apply Hin; simpl; tauto ..].
  - apply (follows_bind _ _ _ _ _ _ _ _
             (connect_follows p q _ S0 (Hin p (or_introl eq_refl))
                              (Hin q (or_intror (or_introl eq_refl))))).
    intros c1 Hc1.
    apply (follows_bind _ _ _ _ _ _ _ _
             (connect_follows q r _ Hc1
                (Hin q (or_intror (or_introl eq_refl)))
                (Hin r (or_intror (or_intror (or_introl eq_refl)))))).
    intros c2 Hc2.
    apply connect_follows; [exact Hc2 | apply Hin; simpl; tauto ..].
  - apply (follows_bind _ _ _ _ _ _ _ _ (IH _ HL)). intros cl Hcl.
    apply (follows_bind _ _ _ _ _ _ _ _ (IH _ HR)). intros cr Hcr.
    now apply mergeHalves_follows.
Qed.

End Simulation.



(** ** What the rings of the builder keep *)

Section Rings.

Variable P : Ring -> Prop.
Hypothesis Padd : forall t r, P r -> P (addConnection t r).
Hypothesis Premove : forall t r, P r -> P (removeConnection t r).
Hypothesis Pempty : forall p, P (mkRing p []).

Lemma empty_each (pts : list Point) : each_ring P (emptyConnections pts).
Proof.
  intros k r G. apply get_empty in G. destruct G as (p & _ & -> & _).
  apply Pempty.
Qed.

Lemma merge_each (cl cr : Connections) :
  NoDup (keys cl) -> NoDup (keys cr) ->
  each_ring P cl -> each_ring P cr ->
  each_ring P (mergeConnections cl cr).
Proof.
  intros Nc Nd Uc Ud k r. rewrite get_merge by assumption.
  destruct (get cr k) as [r' |] eqn:G.
  - intros [= <-]. now apply (Ud k).
  - apply Uc.
Qed.

Lemma delaunay_each (fuel : nat) :
  forall pts c,
    snd (delaunay fuel pts) = Ok c -> NoDup (keys c) /\ each_ring P c.
Proof.
  assert (K : forall p q c c',
             NoDup (keys c) /\ each_ring P c -> connect p q c = Ok c' ->
             NoDup (keys c') /\ each_ring P c').
  { intros p q c c' [N E] H. split.
    - now rewrite (connect_keys _ _ _ _ H).
    - apply (connect_each P p q c c' Padd E H). }
  assert (D : forall p q c c',
             NoDup (keys c) /\ each_ring P c -> disconnect p q c = Ok c' ->
             NoDup (keys c') /\ each_ring P c').
  { intros p q c c' [N E] H. split.
    - now rewrite (disconnect_keys _ _ _ _ H).
    - apply (disconnect_each P p q c c' Premove E H). }
  induction fuel as [| fuel IH]; intros pts c H;
    (destruct (Nat.lt_ge_cases (length pts) 2) as [Hs | Hs];
     [rewrite delaunay_short in H by exact Hs; discriminate |]);
    rewrite delaunay_long in H by exact Hs;
    cbv zeta in H;
    set (mid := (length (sort x pts) / 2)%nat) in *;
    clearbody mid;
    pose proof (sort_length Point x pts) as Hlen;
    (assert (E0 : NoDup (keys (emptyConnections (sort x pts))) /\
                  each_ring P (emptyConnections (sort x pts)))
      by (split; [apply keys_empty_nodup | apply empty_each]));
    simpl snd in H;
    destruct (sort x pts) as [| p [| q [| r [| t rest]]]];
    try (simpl in Hlen; lia); try discriminate.
  - apply (K _ _ _ _ E0 H).
  - bind_inv H. bind_inv H.
    apply (K _ _ _ _ (K _ _ _ _ (K _ _ _ _ E0 Hv) Hv0) H).
  - apply (K _ _ _ _ E0 H).
  - bind_inv H. bind_inv H.
    apply (K _ _ _ _ (K _ _ _ _ (K _ _ _ _ E0 Hv) Hv0) H).
  - bind_inv H. bind_inv H.
    destruct (IH _ _ Hv) as [N1 R1], (IH _ _ Hv0) as [N2 R2].
    refine (mergeHalves_keeps
              (fun c => NoDup (keys c) /\ each_ring P c) K D fuel _ _ v v0 c _ H).
    split; [apply keys_merge_nodup | now apply merge_each].
Qed.

End Rings.

Lemma shape_ok (r : Ring) : ring_shape r <-> ring_ok r.
Proof.
  split.
  - intros (S & A & _). split; [exact S | split; [exact A |]].
    unfold in_range, angles_ok in *. rewrite Forall_forall in *.
    intros l Hl. rewrite (A l Hl). unfold angle_from. apply atan2_range.
  - intros (S & A & R). split; [exact S | split; [exact A |]].
    unfold in_range, within_range in *. rewrite Forall_forall in *.
    intros l Hl. destruct (R l Hl) as [R1 R2].
    split; [now apply Qlt_le_weak | exact R2].
Qed.

Lemma ring_shape_add (t : Point) (r : Ring) :
  ring_shape r -> ring_shape (addConnection t r).
Proof. rewrite !shape_ok. apply ring_ok_add. Qed.

Lemma ring_shape_remove (t : Point) (r : Ring) :
  ring_shape r -> ring_shape (removeConnection t r).
Proof. rewrite !shape_ok. apply ring_ok_remove. Qed.

Lemma ring_shape_empty (p : Point) : ring_shape (mkRing p []).
Proof. apply shape_ok, ring_ok_empty. Qed.




